(** * MPipe: a multiprocessing pipeline framework (mpipe.py)

    A shallow embedding of [src/mpipe.py] and the properties of its
    tubes, workers, stages and pipelines.

    Python values are modelled as follows.
    - A task or a result is a value of an arbitrary type [V]; Python's
      [None] is the [None] of [option V], so that a payload is an
      [option V] and the test [task is None] is a match on it.
    - The integers [size], [count] and [_num_workers] are Python integers:
      [Z].
    - Objects that are shared by reference (tubes, stages) live in a heap
      and are named by their index in it. *)

From stdpp Require Import base list relations.
From Stdlib Require Import ZArith Lia.

Open Scope Z_scope.

(** ** Results of a call *)

(** Exceptions that the modelled code can meet. *)
Inductive exn :=
| Empty            (* the queue module's Empty, raised by a timed Queue.get *)
| AttributeError   (* attribute lookup that fails *)
| ValueError       (* release of a lock that is not held *)
| EOFError.        (* recv on a connection whose other end is closed *)

Definition exn_eqb (a b : exn) : bool :=
  match a, b with
  | Empty, Empty | AttributeError, AttributeError
  | ValueError, ValueError | EOFError, EOFError => true
  | _, _ => false
  end.

(** A call returns a value, raises, or blocks (waits for another process). *)
Inductive outcome (A : Type) :=
| Returns (a : A)
| Raises (e : exn)
| Blocks.
Arguments Returns {A} a.
Arguments Raises {A} e.
Arguments Blocks {A}.

#[global] Instance outcome_bind : MBind outcome := fun A B k c =>
  match c with
  | Returns a => k a
  | Raises e => Raises e
  | Blocks => Blocks
  end.
#[global] Instance outcome_ret : MRet outcome := fun A a => Returns a.

(** [try: body  except cls: handler].  Python evaluates the expression [cls]
    of the except clause only when [body] has raised, and an exception raised
    by that evaluation replaces the one being handled. *)
Definition try_except {A} (body : outcome A) (cls : outcome exn)
    (handler : outcome A) : outcome A :=
  match body with
  | Raises e =>
      match cls with
      | Returns c => if exn_eqb c e then handler else Raises e
      | Raises e' => Raises e'
      | Blocks => Blocks
      end
  | r => r
  end.

(** ** Tubes (classes TubeP and TubeQ) *)

Inductive tube_class := TubeP | TubeQ.

(** The optional argument [timeout] of [get]: [None] when absent, else a
    duration.  [if timeout:] is Python's truth test: [None] and [0] are
    false, every other number is true. *)
Definition timeout := option Z.

Definition truthy (t : timeout) : bool :=
  match t with
  | None => false
  | Some z => negb (z =? 0)
  end.

(** What [get] returns: the item itself, or the pair [(valid, item)]. *)
Inductive got (A : Type) :=
| Direct (a : A)
| Timed (valid : bool) (a : option A).
Arguments Direct {A} a.
Arguments Timed {A} valid a.

Section Tube.
Context {A : Type}.

(** The content of a tube, oldest item first.  For a timed [get] the
    content is the one at the end of the wait: at the arrival of the first
    item, or else at the expiry of the timeout. *)
Definition items := list A.

(** [Connection.send] / [Queue.put]: lines 13-15 and 37-39. *)
Definition put (q : items) (data : A) : items := q ++ [data].

(** [Connection.poll(timeout)]. *)
Definition poll (q : items) : bool :=
  match q with [] => false | _ :: _ => true end.

(** [Connection.recv()] and [Queue.get()]: block on an empty tube. *)
Definition recv (q : items) : outcome (A * items) :=
  match q with
  | [] => Blocks
  | x :: q' => Returns (x, q')
  end.

(** [Queue.get(True, timeout)]: raises [Empty] at expiry. *)
Definition queue_get_timed (q : items) : outcome (A * items) :=
  match q with
  | [] => Raises Empty
  | x :: q' => Returns (x, q')
  end.

(** [TubeP.get], lines 17-28. *)
Definition TubeP_get (t : timeout) (q : items) : outcome (got A * items) :=
  if truthy t then
    if poll q then
      '(x, q') ← recv q; Returns (Timed true (Some x), q')
    else Returns (Timed false None, q)
  else
    '(x, q') ← recv q; Returns (Direct x, q').

(** The expression [multiprocessing.Queue.Empty] of line 48.
    [multiprocessing.Queue] is a factory function of the multiprocessing
    package (the class is [multiprocessing.queues.Queue], the exception is
    [Empty] of the queue module); a function has no attribute [Empty], so
    the lookup raises [AttributeError]. *)
Definition multiprocessing_Queue_Empty : outcome exn := Raises AttributeError.

(** [TubeQ.get], lines 41-51. *)
Definition TubeQ_get (t : timeout) (q : items) : outcome (got A * items) :=
  if truthy t then
    try_except
      ('(x, q') ← queue_get_timed q; Returns (Timed true (Some x), q'))
      multiprocessing_Queue_Empty
      (Returns (Timed false None, q))
  else
    '(x, q') ← recv q; Returns (Direct x, q').

Definition tube_get (c : tube_class) : timeout -> items -> outcome (got A * items) :=
  match c with
  | TubeP => TubeP_get
  | TubeQ => TubeQ_get
  end.
End Tube.
Arguments items : clear implicits.

(** *** Properties of [get] *)

Section TubeFacts.
Context {A : Type}.
Implicit Types (q : items A) (t : timeout) (c : tube_class).

Lemma truthy_positive z : 0 < z -> truthy (Some z) = true.
Proof. intros Hz. simpl. destruct (Z.eqb_spec z 0); [lia | done]. Qed.

(** An item is available: a timed get returns it, marked valid. *)
Lemma tube_get_timed_available c z x q :
  0 < z -> tube_get c (Some z) (x :: q) = Returns (Timed true (Some x), q).
Proof.
  intros Hz. destruct c; simpl; unfold TubeP_get, TubeQ_get;
    rewrite (truthy_positive z Hz); done.
Qed.

(** A zero or absent timeout: the item is returned as it is. *)
Lemma tube_get_untimed_available c t x q :
  truthy t = false -> tube_get c t (x :: q) = Returns (Direct x, q).
Proof.
  intros Ht. destruct c; simpl; unfold TubeP_get, TubeQ_get; rewrite Ht; done.
Qed.

(** A zero or absent timeout on an empty tube: the call waits. *)
Lemma tube_get_untimed_blocks c t :
  truthy t = false -> tube_get (A:=A) c t [] = Blocks.
Proof.
  intros Ht. destruct c; simpl; unfold TubeP_get, TubeQ_get; rewrite Ht; done.
Qed.

(** Expiry on a P-tube: [(False, None)], the tube unchanged. *)
Lemma TubeP_get_expiry z :
  0 < z -> TubeP_get (A:=A) (Some z) [] = Returns (Timed false None, []).
Proof. intros Hz. unfold TubeP_get. rewrite (truthy_positive z Hz). done. Qed.

(** No call to [get] drops an item: it returns with the tube unchanged or
    with exactly the first item taken and handed to the caller. *)
Lemma tube_get_keeps_items c t q r q' :
  tube_get c t q = Returns (r, q') ->
  (q' = q /\ r = Timed false None) \/
  (exists x, q = x :: q' /\ (r = Direct x \/ r = Timed true (Some x))).
Proof.
  destruct c; simpl; unfold TubeP_get, TubeQ_get;
    destruct (truthy t), q as [|x q0]; simpl; intros H; simplify_eq; eauto.
Qed.

(** C4 (the defect).  On a Q-tube a timed get that expires does not return
    [(False, None)]: the handler of line 48 names an attribute that does
    not exist, and the call raises [AttributeError]. *)
Theorem TubeQ_get_expiry_raises z :
  0 < z -> TubeQ_get (A:=A) (Some z) [] = Raises AttributeError.
Proof. intros Hz. unfold TubeQ_get. rewrite (truthy_positive z Hz). done. Qed.
End TubeFacts.

Lemma TubeQ_get_expiry_raises_witness :
  0 < 50 /\ TubeQ_get (A:=Z) (Some 50) [] = Raises AttributeError.
Proof. split; [lia | apply (TubeQ_get_expiry_raises 50); lia]. Defined.

(** ** Data model *)

Section Model.
Context {V : Type}.

(** A payload is a task, a result, or [None]: the stop request. *)
Definition payload := option V.

(** What travels on a tube: the pair [(task, count)]. *)
Definition envelope := (payload * Z)%type.

(** The two worker base classes. *)
Inductive worker_base := OrderedWorker | UnorderedWorker.

(** A worker class as [OrderedStage] and [UnorderedStage] create it (lines
    375-377 and 387-389): a subclass of one of the base classes whose
    [doTask] calls the function [target]. *)
Record worker_class := {
  base : worker_base;
  doTask : V -> payload;
}.

(** [getTubeClass], lines 88-91 and 229-232. *)
Definition getTubeClass (cls : worker_class) : tube_class :=
  match base cls with
  | OrderedWorker => TubeP
  | UnorderedWorker => TubeQ
  end.

(** What a worker does after the loop of [putResult] over the output
    tubes. *)
Inductive after_put :=
| ThenReleaseOutput   (* OrderedWorker.putResult, line 145 *)
| ThenLoop            (* UnorderedWorker.putResult called at line 291 *)
| ThenBreak.          (* the stop request was forwarded: lines 187 and 281 *)

(** The places of [run] where a worker process can be.  A step of a worker
    is one operation on a lock or on a tube, together with the local
    computation that follows it up to the next such operation. *)
Inductive pc :=
| AtAcquireInput                  (* line 152 *)
| AtGet                           (* lines 155 and 261 *)
| AtReleaseInput (e : envelope)   (* line 159 *)
| AtDoTask (task : V)             (* lines 191 and 285 *)
| AtAcquireOutput (result : V)    (* line 142 *)
| AtPut (e : envelope) (i : nat) (k : after_put)
                                  (* lines 144, 181 and 256, tube number i *)
| AtReleaseOutput                 (* line 145 *)
| AtRequeue (count : Z)           (* lines 184 and 278 *)
| Exited                          (* after break, lines 187 and 281 *)
| Crashed (e : exn).              (* an exception left run *)

(** A worker process: the attributes set by [init2] and [_link], and the
    place where it is.  Tubes are named by their index in the world's
    tubes, locks by their index in the locks of the worker's stage. *)
Record Worker := {
  w_class : worker_class;
  _tube_task_input : nat;
  _tubes_result_output : list nat;
  _num_workers : Z;
  _lock_prev_input : option nat;
  _lock_next_input : option nat;
  _lock_prev_output : option nat;
  _lock_next_output : option nat;
  at_pc : pc;
}.

(** A stage: the attributes set by [Stage.__init__], and with them the
    worker processes that [build] has started for it and the locks that
    [_link] has created for them ([true]: the lock is held). *)
Record Stage := {
  _worker_class : worker_class;
  _size : Z;
  _input_tube : nat;
  _output_tubes : list nat;
  _next_stages : list nat;
  workers : list Worker;
  locks : list bool;
}.

Record Tube := {
  tube_cls : tube_class;
  content : items envelope;
}.

(** The heap: every tube and every stage created so far. *)
Record World := {
  tubes : list Tube;
  stages : list Stage;
}.

Definition set_content (t : Tube) (q : items envelope) : Tube :=
  {| tube_cls := tube_cls t; content := q |}.

Definition set_at (w : Worker) (p : pc) : Worker :=
  {| w_class := w_class w;
     _tube_task_input := _tube_task_input w;
     _tubes_result_output := _tubes_result_output w;
     _num_workers := _num_workers w;
     _lock_prev_input := _lock_prev_input w;
     _lock_next_input := _lock_next_input w;
     _lock_prev_output := _lock_prev_output w;
     _lock_next_output := _lock_next_output w;
     at_pc := p |}.

(** [tube.put(e)] on the tube named [t]. *)
Definition tube_put (ts : list Tube) (t : nat) (e : envelope) : list Tube :=
  alter (fun tb => set_content tb (put (content tb) e)) t ts.

End Model.
Arguments payload : clear implicits.
Arguments envelope : clear implicits.
Arguments worker_class : clear implicits.
Arguments pc : clear implicits.
Arguments Worker : clear implicits.
Arguments Stage : clear implicits.
Arguments Tube : clear implicits.
Arguments World : clear implicits.

(** ** Stages and pipelines: construction *)

Section Build.
Context {V : Type}.
Abbreviation payload := (payload V).
Abbreviation envelope := (envelope V).
Abbreviation worker_class := (worker_class V).
Abbreviation Worker := (Worker V).
Abbreviation Stage := (Stage V).
Abbreviation World := (World V).

(** Where [run] starts: the head of the loop, lines 148 and 259. *)
Definition loop_head (cls : worker_class) : pc V :=
  match base cls with
  | OrderedWorker => AtAcquireInput
  | UnorderedWorker => AtGet
  end.

(** [cls()] followed by [init2], lines 67-86 and 216-227.  In the model the
    process is created at the place where [start] lets it run. *)
Definition init2 (cls : worker_class) (input_tube : nat) (output_tubes : list nat)
    (num_workers : Z) : Worker :=
  {| w_class := cls;
     _tube_task_input := input_tube;
     _tubes_result_output := output_tubes;
     _num_workers := num_workers;
     _lock_prev_input := None;
     _lock_next_input := None;
     _lock_prev_output := None;
     _lock_next_output := None;
     at_pc := loop_head cls |}.

Definition set_lock_prev_input (l : nat) (w : Worker) : Worker :=
  {| w_class := w_class w; _tube_task_input := _tube_task_input w;
     _tubes_result_output := _tubes_result_output w; _num_workers := _num_workers w;
     _lock_prev_input := Some l; _lock_next_input := _lock_next_input w;
     _lock_prev_output := _lock_prev_output w; _lock_next_output := _lock_next_output w;
     at_pc := at_pc w |}.

Definition set_lock_next_input (l : nat) (w : Worker) : Worker :=
  {| w_class := w_class w; _tube_task_input := _tube_task_input w;
     _tubes_result_output := _tubes_result_output w; _num_workers := _num_workers w;
     _lock_prev_input := _lock_prev_input w; _lock_next_input := Some l;
     _lock_prev_output := _lock_prev_output w; _lock_next_output := _lock_next_output w;
     at_pc := at_pc w |}.

Definition set_lock_prev_output (l : nat) (w : Worker) : Worker :=
  {| w_class := w_class w; _tube_task_input := _tube_task_input w;
     _tubes_result_output := _tubes_result_output w; _num_workers := _num_workers w;
     _lock_prev_input := _lock_prev_input w; _lock_next_input := _lock_next_input w;
     _lock_prev_output := Some l; _lock_next_output := _lock_next_output w;
     at_pc := at_pc w |}.

Definition set_lock_next_output (l : nat) (w : Worker) : Worker :=
  {| w_class := w_class w; _tube_task_input := _tube_task_input w;
     _tubes_result_output := _tubes_result_output w; _num_workers := _num_workers w;
     _lock_prev_input := _lock_prev_input w; _lock_next_input := _lock_next_input w;
     _lock_prev_output := _lock_prev_output w; _lock_next_output := Some l;
     at_pc := at_pc w |}.

(** [OrderedWorker._link], lines 121-138, called on the worker number [self]
    of [ws] with the worker number [next_worker].  [multiprocessing.Lock()]
    creates a free lock, named by the next index of [ls]. *)
Definition _link (self next_worker : nat) (next_is_first : bool)
    (st : list Worker * list bool) : list Worker * list bool :=
  let '(ws, ls) := st in
  let lock := length ls in
  let ls := ls ++ [false] in
  let ws := alter (set_lock_prev_input lock) next_worker ws in
  let ws := alter (set_lock_next_input lock) self ws in
  let ls := <[lock := true]> ls in
  let lock' := length ls in
  let ls := ls ++ [false] in
  let ws := alter (set_lock_prev_output lock') next_worker ws in
  let ws := alter (set_lock_next_output lock') self ws in
  let ls := <[lock' := true]> ls in
  if next_is_first
  then (ws, <[lock' := false]> (<[lock := false]> ls))
  else (ws, ls).

(** [workers[ii-1]]: Python counts a negative index from the end. *)
Definition index_before (n ii : nat) : nat :=
  match ii with
  | O => (n - 1)%nat
  | S j => j
  end.

(** [assemble], lines 93-119 and 234-251: the new workers of a stage and its
    locks, given the locks [ls] that the stage already has.  [range(size)] is
    empty for a size below one. *)
Definition assemble (cls : worker_class) (input_tube : nat) (output_tubes : list nat)
    (size : Z) (ls : list bool) : list Worker * list bool :=
  let n := Z.to_nat size in
  let ws := replicate n (init2 cls input_tube output_tubes size) in
  match base cls with
  | OrderedWorker =>
      foldl (fun st ii => _link (index_before n ii) ii (bool_decide (ii = 0%nat)) st)
            (ws, ls) (seq 0 n)
  | UnorderedWorker => (ws, ls)
  end.

Definition set_stage (w : World) (s : nat) (st : Stage) : World :=
  {| tubes := tubes w; stages := <[s := st]> (stages w) |}.

Definition new_tube (c : tube_class) : Tube V := {| tube_cls := c; content := [] |}.

(** [Stage.__init__], lines 304-311: the new stage's name and the heap with
    the stage and its input tube in it. *)
Definition Stage_init (cls : worker_class) (size : Z) (w : World)
    : outcome (nat * World) :=
  let st := {| _worker_class := cls;
               _size := size;
               _input_tube := length (tubes w);
               _output_tubes := [];
               _next_stages := [];
               workers := [];
               locks := [] |} in
  Returns (length (stages w),
           {| tubes := tubes w ++ [new_tube (getTubeClass cls)];
              stages := stages w ++ [st] |}).

(** [OrderedStage.__init__], lines 372-378. *)
Definition OrderedStage_init (target : V -> payload) (size : Z) (w : World) :=
  Stage_init {| base := OrderedWorker; doTask := target |} size w.

(** [UnorderedStage.__init__], lines 384-390. *)
Definition UnorderedStage_init (target : V -> payload) (size : Z) (w : World) :=
  Stage_init {| base := UnorderedWorker; doTask := target |} size w.

(** [Stage.link], lines 332-336.  (A name that is not in the heap does not
    occur: stages are named by what [Stage_init] returned.) *)
Definition link (s next_stage : nat) (w : World) : outcome World :=
  match stages w !! s, stages w !! next_stage with
  | Some st, Some nx =>
      Returns (set_stage w s
        {| _worker_class := _worker_class st;
           _size := _size st;
           _input_tube := _input_tube st;
           _output_tubes := _output_tubes st ++ [_input_tube nx];
           _next_stages := _next_stages st ++ [next_stage];
           workers := workers st;
           locks := locks st |})
  | _, _ => Raises AttributeError
  end.

(** The loop [for stage in ...: result += f(stage)] of lines 344-346. *)
Definition extend_each (f : nat -> option (list nat)) (l : list nat) : option (list nat) :=
  foldl (fun acc stage => result ← acc; leaves ← f stage; Some (result ++ leaves))
        (Some []) l.

(** [Stage.getLeaves], lines 338-347.  The recursion of the source is
    bounded by [fuel]; [None] means that the bound was reached. *)
Fixpoint getLeaves (fuel : nat) (w : World) (s : nat) : option (list nat) :=
  match fuel with
  | O => None
  | S fuel =>
      st ← stages w !! s;
      match _next_stages st with
      | [] => Some [s]
      | next => extend_each (getLeaves fuel w) next
      end
  end.

(** [Stage.build], lines 349-366, with the recursion bounded like that of
    [getLeaves]. *)
Fixpoint build (fuel : nat) (w : World) (s : nat) : option World :=
  match fuel with
  | O => None
  | S fuel =>
      st ← stages w !! s;
      (* lines 355-356 *)
      let '(ts, outs) :=
        match _output_tubes st with
        | [] => (tubes w ++ [new_tube (getTubeClass (_worker_class st))],
                 [length (tubes w)])
        | outs => (tubes w, outs)
        end in
      (* lines 358-362 *)
      let '(ws, ls) := assemble (_worker_class st) (_input_tube st) outs (_size st)
                                (locks st) in
      let st' := {| _worker_class := _worker_class st;
                    _size := _size st;
                    _input_tube := _input_tube st;
                    _output_tubes := outs;
                    _next_stages := _next_stages st;
                    workers := workers st ++ ws;
                    locks := ls |} in
      let w' := {| tubes := ts; stages := <[s := st']> (stages w) |} in
      (* lines 365-366 *)
      foldl (fun acc stage => w ← acc; build fuel w stage) (Some w') (_next_stages st)
  end.

(** [Stage.put], lines 313-315. *)
Definition Stage_put (s : nat) (task : payload) (w : World) : option World :=
  st ← stages w !! s;
  Some {| tubes := tube_put (tubes w) (_input_tube st) (task, 0); stages := stages w |}.

(** What [Stage.get] and [Pipeline.get] return: the payload, or with a
    timeout the pair [(valid, payload)]. *)
Inductive pyresult :=
| Plain (p : payload)
| Pair (valid : bool) (p : payload).

(** [tube.get(timeout)] on the tube named [t]. *)
Definition get_at (ts : list (Tube V)) (t : nat) (tm : timeout)
    : outcome (got envelope * list (Tube V)) :=
  match ts !! t with
  | Some tb =>
      '(r, q) ← tube_get (tube_cls tb) tm (content tb);
      Returns (r, <[t := set_content tb q]> ts)
  | None => Raises AttributeError
  end.

(** The loop of [Stage.get], lines 321-327, from the values [valid] and
    [result] that it has reached. *)
Fixpoint Stage_get_loop (tm : timeout) (outs : list nat) (valid : bool)
    (result : payload) (ts : list (Tube V)) : outcome (bool * payload * list (Tube V)) :=
  match outs with
  | [] => Returns (valid, result, ts)
  | tube :: outs =>
      '(r, ts) ← get_at ts tube tm;
      match r with
      | Timed true (Some e) => Stage_get_loop tm outs true (fst e) ts
      | Timed _ _ => Stage_get_loop tm outs false None ts
      | Direct e => Stage_get_loop tm outs valid (fst e) ts
      end
  end.

(** [Stage.get], lines 317-330. *)
Definition Stage_get (s : nat) (tm : timeout) (w : World) : outcome (pyresult * World) :=
  match stages w !! s with
  | Some st =>
      '(valid, result, ts) ← Stage_get_loop tm (_output_tubes st) false None (tubes w);
      let w' := {| tubes := ts; stages := stages w |} in
      if truthy tm then Returns (Pair valid result, w') else Returns (Plain result, w')
  | None => Raises AttributeError
  end.

Record Pipeline := {
  _input_stage : nat;
  _output_stages : list nat;
}.

(** [Pipeline.__init__], lines 395-399. *)
Definition Pipeline_init (fuel : nat) (input_stage : nat) (w : World)
    : option (Pipeline * World) :=
  leaves ← getLeaves fuel w input_stage;
  w' ← build fuel w input_stage;
  Some ({| _input_stage := input_stage; _output_stages := leaves |}, w').

(** [Pipeline.put], lines 401-403. *)
Definition Pipeline_put (p : Pipeline) (task : payload) (w : World) : option World :=
  Stage_put (_input_stage p) task w.

(** The loop of [Pipeline.get], lines 408-409. *)
Fixpoint Pipeline_get_loop (tm : timeout) (leaves : list nat) (result : pyresult)
    (w : World) : outcome (pyresult * World) :=
  match leaves with
  | [] => Returns (result, w)
  | stage :: leaves =>
      '(result, w) ← Stage_get stage tm w;
      Pipeline_get_loop tm leaves result w
  end.

(** [Pipeline.get], lines 405-410. *)
Definition Pipeline_get (p : Pipeline) (tm : timeout) (w : World)
    : outcome (pyresult * World) :=
  Pipeline_get_loop tm (_output_stages p) (Plain None) w.

(** [Pipeline.results], lines 412-417: the results that the generator
    yields until [get] returns [None].  The loop is bounded by [fuel];
    [None] means that the bound was reached. *)
Fixpoint Pipeline_results (fuel : nat) (p : Pipeline) (w : World)
    : option (outcome (list V * World)) :=
  match fuel with
  | O => None
  | S fuel =>
      match Pipeline_get p None w with
      | Returns (Plain None, w') => Some (Returns ([], w'))
      | Returns (Plain (Some result), w') =>
          match Pipeline_results fuel p w' with
          | Some (Returns (rs, w'')) => Some (Returns (result :: rs, w''))
          | other => other
          end
      | Returns (Pair _ _, _) => None   (* get() without timeout returns no pair *)
      | Raises e => Some (Raises e)
      | Blocks => Some Blocks
      end
  end.

End Build.

(** ** Worker processes: [run] *)

Section Run.
Context {V : Type}.
Abbreviation payload := (payload V).
Abbreviation envelope := (envelope V).
Abbreviation worker_class := (worker_class V).
Abbreviation Worker := (Worker V).
Abbreviation Stage := (Stage V).
Abbreviation Tube := (Tube V).
Abbreviation World := (World V).
Abbreviation pc := (pc V).

(** [lock.acquire()]: waits while the lock is held. *)
Definition lock_acquire (ls : list bool) (lock : option nat) : outcome (list bool) :=
  match lock with
  | Some l =>
      match ls !! l with
      | Some false => Returns (<[l := true]> ls)
      | Some true => Blocks
      | None => Raises AttributeError
      end
  | None => Raises AttributeError   (* the attribute is still None *)
  end.

(** [lock.release()]: releasing a [multiprocessing.Lock] that is not held
    raises [ValueError]. *)
Definition lock_release (ls : list bool) (lock : option nat) : outcome (list bool) :=
  match lock with
  | Some l =>
      match ls !! l with
      | Some true => Returns (<[l := false]> ls)
      | Some false => Raises ValueError
      | None => Raises AttributeError
      end
  | None => Raises AttributeError
  end.

(** The loop [for tube in self._tubes_result_output: tube.put(e)] when it
    has reached the tube number [i]: the next put, or what follows the loop. *)
Definition put_from (wk : Worker) (e : envelope) (i : nat) (k : after_put) : pc :=
  if decide (i < length (_tubes_result_output wk))%nat then AtPut e i k
  else match k with
       | ThenReleaseOutput => AtReleaseOutput
       | ThenLoop => loop_head (w_class wk)
       | ThenBreak => Exited
       end.

(** [putResult(result)], lines 140-145 and 253-256, called from the loop of
    [run]; the parameter [count] has its default value 0. *)
Definition putResult (wk : Worker) (result : V) : pc :=
  match base (w_class wk) with
  | OrderedWorker => AtAcquireOutput result
  | UnorderedWorker => put_from wk (Some result, 0) 0 ThenLoop
  end.

(** The code after the try block, lines 167-191 and 268-285, for the
    envelope [(task, count)] that the block has left. *)
Definition dispatch (wk : Worker) (e : envelope) : pc :=
  match fst e with
  | None =>
      let count := snd e + 1 in
      if count =? _num_workers wk
      then (* lines 180-181, and line 276: putResult(None) *)
           put_from wk (None, 0) 0 ThenBreak
      else AtRequeue count
  | Some task => AtDoTask task
  end.

(** One step of the worker [wk], with the tubes [ts] and the locks [ls] of
    its stage; [None] when the worker waits or has left [run].  [read] is the
    outcome of [self._tube_task_input.get()] at lines 155 and 261.  The bare
    [except:] of lines 161 and 262 turns an exception of the try block into
    the envelope [(None, 0)]. *)
Definition worker_step_with (read : outcome (got envelope * list Tube))
    (ts : list Tube) (ls : list bool) (wk : Worker) : option (list Tube * list bool * pc) :=
  match at_pc wk with
  | AtAcquireInput =>
      match lock_acquire ls (_lock_prev_input wk) with
      | Returns ls' => Some (ts, ls', AtGet)
      | Raises _ => Some (ts, ls, dispatch wk (None, 0))
      | Blocks => None
      end
  | AtGet =>
      match read with
      | Returns (Direct e, ts') =>
          match base (w_class wk) with
          | OrderedWorker => Some (ts', ls, AtReleaseInput e)
          | UnorderedWorker => Some (ts', ls, dispatch wk e)
          end
      | Returns (Timed _ _, _) => None   (* get() without timeout returns the item *)
      | Raises _ => Some (ts, ls, dispatch wk (None, 0))
      | Blocks => None
      end
  | AtReleaseInput e =>
      match lock_release ls (_lock_next_input wk) with
      | Returns ls' => Some (ts, ls', dispatch wk e)
      | Raises _ => Some (ts, ls, dispatch wk (None, 0))
      | Blocks => None
      end
  | AtDoTask task =>
      match doTask (w_class wk) task with
      | Some result => Some (ts, ls, putResult wk result)
      | None => Some (ts, ls, loop_head (w_class wk))
      end
  | AtAcquireOutput result =>
      match lock_acquire ls (_lock_prev_output wk) with
      | Returns ls' => Some (ts, ls', put_from wk (Some result, 0) 0 ThenReleaseOutput)
      | Raises e => Some (ts, ls, Crashed e)
      | Blocks => None
      end
  | AtPut e i k =>
      t ← _tubes_result_output wk !! i;
      Some (tube_put ts t e, ls, put_from wk e (S i) k)
  | AtReleaseOutput =>
      match lock_release ls (_lock_next_output wk) with
      | Returns ls' => Some (ts, ls', loop_head (w_class wk))
      | Raises e => Some (ts, ls, Crashed e)
      | Blocks => None
      end
  | AtRequeue count =>
      Some (tube_put ts (_tube_task_input wk) (None, count), ls, Exited)
  | Exited | Crashed _ => None
  end.

(** A step with a healthy input tube. *)
Definition worker_step (ts : list Tube) (ls : list bool) (wk : Worker) :=
  worker_step_with (get_at ts (_tube_task_input wk) None) ts ls wk.

(** A step in which the read of the input tube raises. *)
Definition worker_step_read_fails (ts : list Tube) (ls : list bool) (wk : Worker) :=
  worker_step_with (Raises EOFError) ts ls wk.

(** The worker runs alone for at most [fuel] steps. *)
Fixpoint run_alone (fuel : nat) (ts : list Tube) (ls : list bool) (wk : Worker)
    : list Tube * list bool * Worker :=
  match fuel with
  | O => (ts, ls, wk)
  | S fuel =>
      match worker_step ts ls wk with
      | Some (ts', ls', p) => run_alone fuel ts' ls' (set_at wk p)
      | None => (ts, ls, wk)
      end
  end.

Definition set_run (st : Stage) (ws : list Worker) (ls : list bool) : Stage :=
  {| _worker_class := _worker_class st;
     _size := _size st;
     _input_tube := _input_tube st;
     _output_tubes := _output_tubes st;
     _next_stages := _next_stages st;
     workers := ws;
     locks := ls |}.

(** The worker number [i] of the stage [s] takes a step. *)
Definition process_step (s i : nat) (w : World) : option World :=
  st ← stages w !! s;
  wk ← workers st !! i;
  '(ts, ls, p) ← worker_step (tubes w) (locks st) wk;
  Some {| tubes := ts;
          stages := <[s := set_run st (<[i := set_at wk p]> (workers st)) ls]> (stages w) |}.

(** The same when the read of the input tube raises. *)
Definition process_step_read_fails (s i : nat) (w : World) : option World :=
  st ← stages w !! s;
  wk ← workers st !! i;
  '(ts, ls, p) ← worker_step_read_fails (tubes w) (locks st) wk;
  Some {| tubes := ts;
          stages := <[s := set_run st (<[i := set_at wk p]> (workers st)) ls]> (stages w) |}.

(** What can happen to a world: the main process calls the interface, or a
    worker process takes a step. *)
Inductive world_step : World -> World -> Prop :=
| step_Stage_init cls size w s w' :
    Stage_init cls size w = Returns (s, w') -> world_step w w'
| step_link s next_stage w w' :
    link s next_stage w = Returns w' -> world_step w w'
| step_build fuel s w w' :
    build fuel w s = Some w' -> world_step w w'
| step_put s task w w' :
    Stage_put s task w = Some w' -> world_step w w'
| step_get s tm r w w' :
    Stage_get s tm w = Returns (r, w') -> world_step w w'
| step_process s i w w' :
    process_step s i w = Some w' -> world_step w w'
| step_process_read_fails s i w w' :
    process_step_read_fails s i w = Some w' -> world_step w w'.

Definition empty_world : World := {| tubes := []; stages := [] |}.

(** The worlds that a program can reach. *)
Inductive reachable : World -> Prop :=
| reachable_empty : reachable empty_world
| reachable_step w w' : reachable w -> world_step w w' -> reachable w'.

End Run.

(** ** The stage graph *)

Section Graph.
Context {V : Type}.
Abbreviation World := (World V).
Abbreviation Stage := (Stage V).

(** [c] is a downstream stage of [s]. *)
Definition downstream (w : World) (s c : nat) : Prop :=
  exists st, stages w !! s = Some st /\ c ∈ _next_stages st.

(** [x] can be reached from [s] along downstream links. *)
Definition reaches (w : World) : nat -> nat -> Prop := rtc (downstream w).

(** [x] is a stage without downstream stage. *)
Definition is_leaf (w : World) (x : nat) : Prop :=
  exists st, stages w !! x = Some st /\ _next_stages st = [].

(** The graph is acyclic, by a rank that decreases along every link, and
    every link leads to a stage of the heap. *)
Definition ranked_by (rank : nat -> nat) (w : World) : bool :=
  forallb (fun '(s, st) =>
             forallb (fun c => bool_decide (c < length (stages w))%nat
                               && bool_decide (rank c < rank s)%nat)
                     (_next_stages st))
          (imap pair (stages w)).

Lemma ranked_by_spec rank w s st c :
  ranked_by rank w = true -> stages w !! s = Some st -> c ∈ _next_stages st ->
  (c < length (stages w))%nat /\ (rank c < rank s)%nat.
Proof.
  unfold ranked_by. rewrite forallb_forall. intros H Hs Hc.
  specialize (H (s, st)). simpl in H. rewrite forallb_forall in H.
  assert (Hin : In (s, st) (imap pair (stages w))).
  { apply list_elem_of_In, elem_of_lookup_imap. eauto. }
  specialize (H Hin c (proj1 (list_elem_of_In _ _) Hc)).
  apply andb_true_iff in H as [H1 H2].
  apply bool_decide_eq_true in H1, H2. done.
Qed.

Lemma extend_each_acc (f : nat -> option (list nat)) l acc :
  foldl (fun acc stage => result ← acc; leaves ← f stage; Some (result ++ leaves)) acc l
  = result ← acc; rest ← extend_each f l; Some (result ++ rest).
Proof.
  unfold extend_each. revert acc. induction l as [|x l IH] using rev_ind; intros acc.
  - simpl. destruct acc; simpl; [by rewrite app_nil_r | done].
  - rewrite !foldl_app. simpl. rewrite IH.
    destruct acc as [a|]; simpl; [|done].
    rewrite (IH (Some [])). simpl.
    destruct (foldl _ (Some []) l) as [r|] eqn:E; simpl; [|done].
    destruct (f x); simpl; [|done]. by rewrite app_assoc.
Qed.

Lemma extend_each_cons f x l :
  extend_each f (x :: l) = leaves ← f x; rest ← extend_each f l; Some (leaves ++ rest).
Proof.
  unfold extend_each at 1. simpl. rewrite extend_each_acc.
  destruct (f x); simpl; done.
Qed.

(** More fuel does not change a result. *)
Lemma getLeaves_fuel_mono fuel : forall fuel' (w : World) s l,
  (fuel <= fuel')%nat -> getLeaves fuel w s = Some l -> getLeaves fuel' w s = Some l.
Proof.
  induction fuel as [|fuel IH]; intros fuel' w s l Hle H; [done|].
  destruct fuel' as [|fuel']; [lia|]. simpl in *.
  destruct (stages w !! s) as [st|]; simpl in *; [|done].
  destruct (_next_stages st) as [|c cs]; [done|].
  revert l H. generalize (c :: cs). intros next. induction next as [|x next IHn]; intros l H.
  - done.
  - rewrite extend_each_cons in *.
    destruct (getLeaves fuel w x) as [lx|] eqn:Ex; simpl in *; [|done].
    rewrite (IH fuel' w x lx); [|lia|done]. simpl.
    destruct (extend_each (getLeaves fuel w) next) as [r|] eqn:Er; simpl in *; [|done].
    rewrite (IHn r eq_refl). done.
Qed.

Lemma reaches_step w s c x : downstream w s c -> reaches w c x -> reaches w s x.
Proof. intros. by eapply rtc_l. Qed.

Lemma getLeaves_exact rank (w : World) :
  ranked_by rank w = true ->
  forall fuel s, (rank s < fuel)%nat -> (s < length (stages w))%nat ->
  exists l, getLeaves fuel w s = Some l /\
            forall x, x ∈ l <-> reaches w s x /\ is_leaf w x.
Proof.
  intros Hr. induction fuel as [|fuel IH]; intros s Hf Hs; [lia|].
  simpl. destruct (lookup_lt_is_Some_2 _ _ Hs) as [st Hst]. rewrite Hst. simpl.
  destruct (_next_stages st) as [|c cs] eqn:Hn.
  - exists [s]. split; [done|]. intros x. rewrite list_elem_of_singleton. split.
    + intros ->. split; [apply rtc_refl | by exists st].
    + intros [Hreach _]. destruct Hreach as [|s c' x [st' [Hst' Hc']] _]; [done|].
      rewrite Hst in Hst'. simplify_eq. rewrite Hn in Hc'. by apply elem_of_nil in Hc'.
  - assert (Hall : forall c', c' ∈ c :: cs ->
              (c' < length (stages w))%nat /\ (rank c' < rank s)%nat).
    { intros c' Hc'. eapply ranked_by_spec; eauto. by rewrite Hn. }
    assert (Hsub : forall c', c' ∈ c :: cs -> downstream w s c').
    { intros c' Hc'. exists st. by rewrite Hn. }
    assert (Hnl : forall x, reaches w s x /\ is_leaf w x <->
              exists c', c' ∈ c :: cs /\ reaches w c' x /\ is_leaf w x).
    { intros x. split.
      - intros [Hreach Hleaf]. destruct Hreach as [|s c' x [st' [Hst' Hc']] Hrest].
        + destruct Hleaf as [st' [Hst' Hl]]. rewrite Hst in Hst'. simplify_eq.
          by rewrite Hn in Hl.
        + rewrite Hst in Hst'. simplify_eq. rewrite Hn in Hc'. eauto.
      - intros [c' [Hc' [Hreach Hleaf]]]. split; [|done].
        eapply reaches_step; eauto. }
    setoid_rewrite Hnl. clear Hnl Hn.
    revert Hall Hsub. generalize (c :: cs). intros next.
    induction next as [|y next IHn]; intros Hall Hsub.
    + exists []. split; [done|]. intros x. split; [by intros ?%elem_of_nil|].
      intros [c' [Hc' _]]. by apply elem_of_nil in Hc'.
    + destruct (Hall y) as [Hy1 Hy2]; [by left|].
      destruct (IH y) as [ly [Ely Hly]]; [lia|done|].
      destruct IHn as [lr [Elr Hlr]].
      { intros c' Hc'. apply Hall. by right. }
      { intros c' Hc'. apply Hsub. by right. }
      exists (ly ++ lr). rewrite extend_each_cons, Ely. simpl. rewrite Elr. simpl.
      split; [done|]. intros x. rewrite elem_of_app, Hly, Hlr. split.
      * intros [[? ?]|[c' [? ?]]]; [exists y; split; [by left|done]|].
        exists c'. split; [by right|done].
      * intros [c' [Hc' Hx]]. apply elem_of_cons in Hc' as [->|Hc']; [by left|].
        right. eauto.
Qed.

(** C9.  In an acyclic stage graph [getLeaves] returns, and what it returns
    holds exactly the stages reachable from the receiver that have no
    downstream stage; a call does not change the heap, and every call
    returns the same list, whatever the depth left to the recursion. *)
Theorem getLeaves_reachable_leaves rank (w : World) s :
  ranked_by rank w = true -> (s < length (stages w))%nat ->
  exists l,
    (forall fuel, (rank s < fuel)%nat -> getLeaves fuel w s = Some l) /\
    (forall fuel l', getLeaves fuel w s = Some l' -> l' = l) /\
    (forall x, x ∈ l <-> reaches w s x /\ is_leaf w x).
Proof.
  intros Hr Hs.
  destruct (getLeaves_exact rank w Hr (S (rank s)) s) as [l [El Hl]]; [lia|done|].
  exists l. split; [|split; [|done]].
  - intros fuel Hf. eapply getLeaves_fuel_mono; [|done]. lia.
  - intros fuel l' El'.
    pose proof (getLeaves_fuel_mono fuel (max fuel (S (rank s))) w s l' ltac:(lia) El') as H1.
    pose proof (getLeaves_fuel_mono (S (rank s)) (max fuel (S (rank s))) w s l ltac:(lia) El) as H2.
    congruence.
Qed.

End Graph.

(** ** Construction and linking *)

Section Construct.
Context {V : Type}.
Abbreviation World := (World V).
Abbreviation Stage := (Stage V).
Abbreviation worker_class := (worker_class V).

(** C8 (amended).  [Stage.__init__] checks nothing: for every size, zero and
    the negative ones too, it returns a stage of that size with a new empty
    input tube of its class, and with no output tube, no downstream stage
    and no worker. *)
Theorem Stage_init_any_size (cls : worker_class) (size : Z) (w : World) :
  exists s w',
    Stage_init cls size w = Returns (s, w') /\
    stages w' !! s = Some {| _worker_class := cls;
                             _size := size;
                             _input_tube := length (tubes w);
                             _output_tubes := [];
                             _next_stages := [];
                             workers := [];
                             locks := [] |} /\
    tubes w' !! length (tubes w) = Some (new_tube (getTubeClass cls)).
Proof.
  eexists _, _. split; [reflexivity|]. simpl. split.
  - by rewrite lookup_app_r, Nat.sub_diag.
  - by rewrite lookup_app_r, Nat.sub_diag.
Qed.

(** The stage [s], linked to [next_stage]. *)
Definition linked (st nx : Stage) (next_stage : nat) : Stage :=
  {| _worker_class := _worker_class st;
     _size := _size st;
     _input_tube := _input_tube st;
     _output_tubes := _output_tubes st ++ [_input_tube nx];
     _next_stages := _next_stages st ++ [next_stage];
     workers := workers st;
     locks := locks st |}.

(** C7 (amended).  [link] has no error case: whether or not [build] has run
    on the stage (whether or not it has workers), it appends the input tube
    of the downstream stage to the output tubes and the downstream stage to
    the downstream list, and changes nothing else. *)
Theorem link_appends (w : World) s next_stage st nx :
  stages w !! s = Some st -> stages w !! next_stage = Some nx ->
  exists w',
    link s next_stage w = Returns w' /\
    tubes w' = tubes w /\
    stages w' !! s = Some (linked st nx next_stage) /\
    (forall s', s' ≠ s -> stages w' !! s' = stages w !! s').
Proof.
  intros Hs Hn. unfold link. rewrite Hs, Hn. eexists. split; [reflexivity|].
  simpl. split; [done|]. split.
  - rewrite list_lookup_insert_eq; [done|]. by eapply lookup_lt_Some.
  - intros s' Hne. by rewrite list_lookup_insert_ne.
Qed.

End Construct.

(** ** Reading results: [Stage.get] and [Pipeline.get] *)

Section Get.
Context {V : Type}.
Abbreviation World := (World V).
Abbreviation Tube := (Tube V).
Abbreviation payload := (payload V).
Abbreviation envelope := (envelope V).

(** The tube [t] holds an envelope. *)
Definition available (ts : list Tube) (t : nat) : Prop :=
  exists tb e q, ts !! t = Some tb /\ content tb = e :: q.

(** The payload of the first envelope of the tube [t]. *)
Definition first_payload (ts : list Tube) (t : nat) : payload :=
  tb ← ts !! t; e ← head (content tb); fst e.

(** The tube [t] after one envelope was read from each tube of [read]. *)
Definition after_take (ts : list Tube) (read : list nat) (t : nat) : option Tube :=
  if decide (t ∈ read)
  then (fun tb => set_content tb (tail (content tb))) <$> ts !! t
  else ts !! t.

(** The value returned for the payload [p]. *)
Definition answer (tm : timeout) (valid : bool) (p : payload) : pyresult :=
  if truthy tm then Pair valid p else Plain p.

(** The output tubes of the stage [s]. *)
Definition outputs_of (w : World) (s : nat) : list nat :=
  default [] (_output_tubes <$> stages w !! s).

(** What [Stage.get] returns when every output tube of [outs] holds an
    envelope: the payload met in the last tube. *)
Definition last_answer (tm : timeout) (ts : list Tube) (outs : list nat) : pyresult :=
  match last outs with
  | Some t => answer tm true (first_payload ts t)
  | None => answer tm false None
  end.

Lemma get_at_available (ts : list Tube) t tb e q tm :
  ts !! t = Some tb -> content tb = e :: q ->
  get_at ts t tm
  = Returns (if truthy tm then Timed true (Some e) else Direct e,
             <[t := set_content tb q]> ts).
Proof.
  intros Ht Hc. unfold get_at. rewrite Ht, Hc.
  destruct (tube_cls tb); simpl; unfold TubeP_get, TubeQ_get;
    destruct (truthy tm); done.
Qed.

Lemma after_take_nil (ts : list Tube) t : after_take ts [] t = ts !! t.
Proof. unfold after_take. rewrite decide_False; [done|]. apply not_elem_of_nil. Qed.

Lemma after_take_cons (ts : list Tube) t0 tb q outs t :
  ts !! t0 = Some tb -> tail (content tb) = q -> t0 ∉ outs ->
  after_take (<[t0 := set_content tb q]> ts) outs t = after_take ts (t0 :: outs) t.
Proof.
  intros Ht0 Hq Hnotin. unfold after_take.
  destruct (decide (t = t0)) as [->|Hne].
  - rewrite (decide_False (P := t0 ∈ outs)); [|done].
    rewrite (decide_True (P := t0 ∈ t0 :: outs)); [|by left].
    rewrite list_lookup_insert_eq; [|by eapply lookup_lt_Some].
    rewrite Ht0. simpl. by rewrite Hq.
  - rewrite list_lookup_insert_ne; [|done].
    destruct (decide (t ∈ outs)) as [Hin|Hout].
    + rewrite decide_True; [done|by right].
    + rewrite decide_False; [done|]. intros [?|?]%elem_of_cons; done.
Qed.

Lemma available_insert_ne (ts : list Tube) t0 tb' t :
  t ≠ t0 -> available ts t -> available (<[t0 := tb']> ts) t.
Proof.
  intros Hne (tb & e & q & Ht & Hc). exists tb, e, q.
  by rewrite list_lookup_insert_ne.
Qed.

Lemma first_payload_insert_ne (ts : list Tube) t0 tb' t :
  t ≠ t0 -> first_payload (<[t0 := tb']> ts) t = first_payload ts t.
Proof. intros Hne. unfold first_payload. by rewrite list_lookup_insert_ne. Qed.

Lemma Stage_get_loop_available tm outs : forall (ts : list Tube) valid result,
  NoDup outs -> (forall t, t ∈ outs -> available ts t) ->
  exists ts',
    Stage_get_loop tm outs valid result ts
    = Returns (match last outs with
               | Some t => (if truthy tm then true else valid, first_payload ts t)
               | None => (valid, result)
               end, ts') /\
    forall t, ts' !! t = after_take ts outs t.
Proof.
  induction outs as [|t0 outs IH]; intros ts valid result Hnd Hav.
  - exists ts. split; [done|]. intros t. by rewrite after_take_nil.
  - apply NoDup_cons in Hnd as [Hnotin Hnd].
    destruct (Hav t0) as (tb & e & q & Ht0 & Hc); [by left|].
    simpl. rewrite (get_at_available ts t0 tb e q tm Ht0 Hc). simpl.
    set (ts1 := <[t0 := set_content tb q]> ts).
    assert (Hav1 : forall t, t ∈ outs -> available ts1 t).
    { intros t Ht. apply available_insert_ne; [intros ->; done|]. apply Hav. by right. }
    assert (Hfp : first_payload ts t0 = fst e).
    { unfold first_payload. rewrite Ht0. simpl. by rewrite Hc. }
    assert (Hlast : forall t, last outs = Some t -> first_payload ts1 t = first_payload ts t).
    { intros t Hl. apply first_payload_insert_ne. intros ->.
      apply Hnotin. rewrite last_Some in Hl. destruct Hl as [l' ->].
      apply elem_of_app. right. by left. }
    destruct (truthy tm) eqn:Htm.
    + destruct (IH ts1 true (fst e) Hnd Hav1) as (ts' & Hrun & Hts').
      exists ts'. rewrite Hrun. split.
      * rewrite last_cons. destruct (last outs) as [t|] eqn:Hl.
        -- by rewrite (Hlast t).
        -- by rewrite Hfp.
      * intros t. rewrite Hts'. apply after_take_cons; [done|by rewrite Hc|done].
    + destruct (IH ts1 valid (fst e) Hnd Hav1) as (ts' & Hrun & Hts').
      exists ts'. rewrite Hrun. split.
      * rewrite last_cons. destruct (last outs) as [t|] eqn:Hl.
        -- by rewrite (Hlast t).
        -- by rewrite Hfp.
      * intros t. rewrite Hts'. apply after_take_cons; [done|by rewrite Hc|done].
Qed.

(** [Stage.get] on a stage whose output tubes all hold an envelope. *)
Lemma Stage_get_available (w : World) s st tm :
  stages w !! s = Some st ->
  NoDup (_output_tubes st) ->
  (forall t, t ∈ _output_tubes st -> available (tubes w) t) ->
  exists w',
    Stage_get s tm w = Returns (last_answer tm (tubes w) (_output_tubes st), w') /\
    stages w' = stages w /\
    forall t, tubes w' !! t = after_take (tubes w) (_output_tubes st) t.
Proof.
  intros Hs Hnd Hav. unfold Stage_get. rewrite Hs.
  destruct (Stage_get_loop_available tm (_output_tubes st) (tubes w) false None Hnd Hav)
    as (ts' & Hrun & Hts').
  rewrite Hrun. simpl. unfold last_answer, answer.
  exists {| tubes := ts'; stages := stages w |}.
  destruct (last (_output_tubes st)), (truthy tm); simpl; done.
Qed.

End Get.

Section PipelineGet.
Context {V : Type}.
Abbreviation World := (World V).
Abbreviation Tube := (Tube V).

Lemma available_ext (ts ts1 : list Tube) t :
  ts1 !! t = ts !! t -> available ts t -> available ts1 t.
Proof. intros E (tb & e & q & Ht & Hc). exists tb, e, q. by rewrite E. Qed.

Lemma last_answer_ext tm (ts ts1 : list Tube) outs :
  (forall t, t ∈ outs -> ts1 !! t = ts !! t) ->
  last_answer tm ts1 outs = last_answer tm ts outs.
Proof.
  intros E. unfold last_answer. destruct (last outs) as [t|] eqn:Hl; [|done].
  unfold first_payload. rewrite E; [done|].
  apply last_Some in Hl as [l' ->]. apply elem_of_app. right. by left.
Qed.

Lemma after_take_app (ts ts1 : list Tube) a b t :
  (forall t, ts1 !! t = after_take ts a t) ->
  (forall t, t ∈ a -> t ∉ b) ->
  after_take ts1 b t = after_take ts (a ++ b) t.
Proof.
  intros E Hdisj. unfold after_take at 1. rewrite E. unfold after_take.
  destruct (decide (t ∈ b)) as [Hb|Hb].
  - rewrite (decide_False (P := t ∈ a)); [|intros Ha; by apply (Hdisj t)].
    rewrite decide_True; [done|]. apply elem_of_app. by right.
  - destruct (decide (t ∈ a)) as [Ha|Ha].
    + rewrite decide_True; [done|]. apply elem_of_app. by left.
    + rewrite decide_False; [done|]. rewrite elem_of_app. tauto.
Qed.

Lemma after_take_notin (ts : list Tube) a t : t ∉ a -> after_take ts a t = ts !! t.
Proof. intros H. unfold after_take. by rewrite decide_False. Qed.

Lemma outputs_of_ext (w w1 : World) s :
  stages w1 = stages w -> outputs_of w1 s = outputs_of w s.
Proof. intros E. unfold outputs_of. by rewrite E. Qed.

Lemma Pipeline_get_loop_cons tm leaf leaves result r (w w1 : World) :
  Stage_get leaf tm w = Returns (r, w1) ->
  Pipeline_get_loop tm (leaf :: leaves) result w = Pipeline_get_loop tm leaves r w1.
Proof. intros H. simpl. by rewrite H. Qed.

Lemma Pipeline_get_loop_available tm leaves : forall (w : World) result,
  Forall (fun s => is_Some (stages w !! s)) leaves ->
  NoDup (leaves ≫= outputs_of w) ->
  (forall t, t ∈ leaves ≫= outputs_of w -> available (tubes w) t) ->
  exists w',
    Pipeline_get_loop tm leaves result w
    = Returns (match last leaves with
               | Some leaf => last_answer tm (tubes w) (outputs_of w leaf)
               | None => result
               end, w') /\
    stages w' = stages w /\
    forall t, tubes w' !! t = after_take (tubes w) (leaves ≫= outputs_of w) t.
Proof.
  induction leaves as [|leaf leaves IH]; intros w result Hval Hnd Hav.
  - exists w. split; [done|]. split; [done|]. intros t. by rewrite after_take_nil.
  - apply Forall_cons in Hval as [[st Hst] Hval].
    rewrite bind_cons in Hnd, Hav. apply NoDup_app in Hnd as (Hnd0 & Hdisj & Hnd).
    assert (Hout : outputs_of w leaf = _output_tubes st).
    { unfold outputs_of. by rewrite Hst. }
    rewrite Hout in *.
    destruct (Stage_get_available w leaf st tm Hst Hnd0) as (w1 & Hget & Hst1 & Hts1).
    { intros t Ht. apply Hav, elem_of_app. by left. }
    assert (Hbind : leaves ≫= outputs_of w1 = leaves ≫= outputs_of w).
    { apply list_bind_ext; [|done]. intros s. by apply outputs_of_ext. }
    destruct (IH w1 (last_answer tm (tubes w) (_output_tubes st))) as (w' & Hrun & Hst' & Hts').
    { by rewrite Hst1. }
    { by rewrite Hbind. }
    { rewrite Hbind. intros t Ht. eapply available_ext.
      - rewrite Hts1. apply after_take_notin. intros Hin. by apply (Hdisj t).
      - apply Hav, elem_of_app. by right. }
    exists w'. rewrite (Pipeline_get_loop_cons _ _ _ _ _ _ _ Hget), Hrun. split; [|split].
    + rewrite last_cons. destruct (last leaves) as [lf|] eqn:Hl.
      * rewrite (outputs_of_ext w w1 lf Hst1).
        rewrite (last_answer_ext tm (tubes w) (tubes w1)); [done|].
        intros t Ht. rewrite Hts1. apply after_take_notin. intros Hin.
        apply (Hdisj t Hin). apply list_elem_of_bind. exists lf. split; [done|].
        apply last_Some in Hl as [l' ->]. apply elem_of_app. right. by left.
      * by rewrite Hout.
    + by rewrite Hst', Hst1.
    + intros t. rewrite Hts', Hbind, bind_cons, Hout.
      apply after_take_app; [done|]. intros t' Ht'. by apply Hdisj.
Qed.

(** C6.  When every output tube of the stage holds an envelope, [Stage.get]
    takes one envelope from each of them and returns the payload of the one
    taken from the last tube (in the pair [(True, payload)] when a timeout is
    given).  When every output tube of every leaf holds an envelope,
    [Pipeline.get] takes one envelope from each of these tubes and returns
    what [Stage.get] returns for the last leaf. *)
Theorem get_reads_each_returns_last (w : World) tm :
  (forall s st,
     stages w !! s = Some st ->
     NoDup (_output_tubes st) ->
     (forall t, t ∈ _output_tubes st -> available (tubes w) t) ->
     exists w',
       Stage_get s tm w = Returns (last_answer tm (tubes w) (_output_tubes st), w') /\
       stages w' = stages w /\
       forall t, tubes w' !! t = after_take (tubes w) (_output_tubes st) t) /\
  (forall p leaf,
     Forall (fun s => is_Some (stages w !! s)) (_output_stages p) ->
     NoDup (_output_stages p ≫= outputs_of w) ->
     (forall t, t ∈ _output_stages p ≫= outputs_of w -> available (tubes w) t) ->
     last (_output_stages p) = Some leaf ->
     exists w',
       Pipeline_get p tm w
       = Returns (last_answer tm (tubes w) (outputs_of w leaf), w') /\
       stages w' = stages w /\
       forall t, tubes w' !! t
                 = after_take (tubes w) (_output_stages p ≫= outputs_of w) t).
Proof.
  split.
  - intros s st. apply Stage_get_available.
  - intros p leaf Hval Hnd Hav Hlast. unfold Pipeline_get.
    destruct (Pipeline_get_loop_available tm (_output_stages p) w (Plain None) Hval Hnd Hav)
      as (w' & Hrun & Hrest).
    exists w'. rewrite Hrun, Hlast. done.
Qed.

End PipelineGet.

(** ** The stop request inside a stage *)

Section Stop.
Context {V : Type}.
Abbreviation Worker := (Worker V).
Abbreviation Tube := (Tube V).
Abbreviation envelope := (envelope V).
Abbreviation pc := (pc V).

(** One envelope [e] put on each tube of [outs], in the order of the list. *)
Definition put_on_each (ts : list Tube) (outs : list nat) (e : envelope) : list Tube :=
  foldl (fun ts t => tube_put ts t e) ts outs.

(** The locks after the worker has released its next-input lock (an
    unordered worker has none). *)
Definition input_released (ls : list bool) (wk : Worker) : list bool :=
  match base (w_class wk), _lock_next_input wk with
  | OrderedWorker, Some l => <[l := false]> ls
  | _, _ => ls
  end.

Lemma set_at_set_at (wk : Worker) p p' : set_at (set_at wk p) p' = set_at wk p'.
Proof. done. Qed.

Lemma get_at_untimed (ts : list Tube) t tb e q :
  ts !! t = Some tb -> content tb = e :: q ->
  get_at ts t None = Returns (Direct e, <[t := set_content tb q]> ts).
Proof. intros Ht Hc. by rewrite (get_at_available ts t tb e q None Ht Hc). Qed.

(** The loop over the output tubes, run to its end, when [break] follows. *)
Lemma run_alone_put_break (wk : Worker) e ls : forall n i ts fuel,
  (i + n = length (_tubes_result_output wk))%nat -> (n < fuel)%nat ->
  run_alone fuel ts ls (set_at wk (put_from wk e i ThenBreak))
  = (put_on_each ts (drop i (_tubes_result_output wk)) e, ls, set_at wk Exited).
Proof.
  induction n as [|n IH]; intros i ts fuel Hi Hf.
  - unfold put_from. rewrite decide_False; [|lia].
    rewrite drop_ge; [|lia]. destruct fuel; [lia|]. done.
  - destruct fuel as [|fuel]; [lia|].
    unfold put_from at 1. rewrite decide_True; [|lia].
    destruct (lookup_lt_is_Some_2 (_tubes_result_output wk) i) as [t Ht]; [lia|].
    simpl. unfold worker_step, worker_step_with. simpl. rewrite Ht. simpl.
    rewrite set_at_set_at. rewrite (IH (S i)); [|lia|lia].
    rewrite (drop_S _ t i Ht). done.
Qed.

(** C2.  A worker of a pool of size N that takes the envelope (None, c)
    from its input tube and then runs: it counts c+1; when c+1 equals N it
    puts one envelope (None, 0) on every output tube and exits; otherwise it
    puts (None, c+1) back on its own input tube and exits.  (An ordered
    worker first releases the input lock of its neighbour, which it holds
    at that place.) *)
Theorem stop_request_counted (wk : Worker) (ts : list Tube) (ls : list bool) tb c q fuel :
  at_pc wk = AtGet ->
  ts !! _tube_task_input wk = Some tb ->
  content tb = (None, c) :: q ->
  (base (w_class wk) = OrderedWorker ->
   exists l, _lock_next_input wk = Some l /\ ls !! l = Some true) ->
  (length (_tubes_result_output wk) + 3 <= fuel)%nat ->
  run_alone fuel ts ls wk
  = (let ts0 := <[_tube_task_input wk := set_content tb q]> ts in
     if c + 1 =? _num_workers wk
     then put_on_each ts0 (_tubes_result_output wk) (None, 0)
     else tube_put ts0 (_tube_task_input wk) (None, c + 1),
     input_released ls wk,
     set_at wk Exited).
Proof.
  intros Hpc Ht Hc Hlock Hfuel.
  destruct fuel as [|fuel]; [lia|]. simpl.
  unfold worker_step, worker_step_with. rewrite Hpc.
  rewrite (get_at_untimed ts _ tb (None, c) q Ht Hc).
  set (ts0 := <[_tube_task_input wk := set_content tb q]> ts).
  unfold input_released.
  assert (Hstop : forall ls' fuel', (length (_tubes_result_output wk) + 1 <= fuel')%nat ->
    run_alone fuel' ts0 ls' (set_at wk (dispatch wk (None, c)))
    = (if c + 1 =? _num_workers wk
       then put_on_each ts0 (_tubes_result_output wk) (None, 0)
       else tube_put ts0 (_tube_task_input wk) (None, c + 1), ls', set_at wk Exited)).
  { intros ls' fuel' Hf. unfold dispatch. simpl.
    destruct (c + 1 =? _num_workers wk).
    - rewrite (run_alone_put_break wk (None, 0) ls' (length (_tubes_result_output wk)) 0);
        [done|lia|lia].
    - destruct fuel' as [|fuel']; [lia|]. simpl.
      unfold worker_step, worker_step_with. simpl. by destruct fuel'. }
  destruct (base (w_class wk)) eqn:Hb.
  - destruct (Hlock eq_refl) as (l & Hl & Hheld). rewrite Hl.
    destruct fuel as [|fuel]; [lia|]. simpl.
    unfold worker_step, worker_step_with. simpl. unfold lock_release. rewrite Hl, Hheld.
    rewrite set_at_set_at. apply Hstop. lia.
  - apply Hstop. lia.
Qed.

End Stop.

(** ** Counts on the output tubes *)

Section Counts.
Context {V : Type}.
Abbreviation Worker := (Worker V).
Abbreviation Stage := (Stage V).
Abbreviation Tube := (Tube V).
Abbreviation World := (World V).
Abbreviation envelope := (envelope V).
Abbreviation pc := (pc V).

Ltac break_step H :=
  try (progress simplify_eq/=);
  repeat (match type of H with
          | context [match ?x with _ => _ end] => destruct x eqn:?
          | context [?x ≫= _] => destruct x eqn:?
          end; simplify_eq/=).

(** A worker that is about to put an envelope on an output tube holds an
    envelope of count 0. *)
Definition pc_count_zero (p : pc) : Prop :=
  match p with
  | AtPut e _ _ => snd e = 0
  | _ => True
  end.

Definition stage_count_zero (st : Stage) : Prop :=
  Forall (fun wk => pc_count_zero (at_pc wk)) (workers st).

Definition world_count_zero (w : World) : Prop :=
  Forall stage_count_zero (stages w).

(** The step from [w] to [w'] has put the envelope [e] on the tube [t]. *)
Definition has_put (w w' : World) (t : nat) (e : envelope) : Prop :=
  exists tb, tubes w !! t = Some tb /\
             tubes w' !! t = Some (set_content tb (content tb ++ [e])).

Lemma put_from_count_zero (wk : Worker) e i k :
  snd e = 0 -> pc_count_zero (put_from wk e i k).
Proof.
  intros He. unfold put_from. case_decide; [done|].
  destruct k; simpl; [done| |done]. unfold loop_head. by destruct (base _).
Qed.

Lemma loop_head_count_zero (cls : worker_class V) : pc_count_zero (loop_head cls).
Proof. unfold loop_head. by destruct (base cls). Qed.

Lemma dispatch_count_zero (wk : Worker) e : pc_count_zero (dispatch wk e).
Proof.
  unfold dispatch. destruct (fst e); [done|].
  destruct (_ =? _); [|done]. by apply put_from_count_zero.
Qed.

Lemma putResult_count_zero (wk : Worker) r : pc_count_zero (putResult wk r).
Proof.
  unfold putResult. destruct (base _); [done|]. by apply put_from_count_zero.
Qed.

Lemma worker_step_with_count_zero read (ts ts' : list Tube) ls ls' (wk : Worker) p :
  pc_count_zero (at_pc wk) ->
  worker_step_with read ts ls wk = Some (ts', ls', p) ->
  pc_count_zero p.
Proof.
  intros Hz. unfold worker_step_with.
  destruct (at_pc wk) eqn:Hpc; intros H; simpl in Hz;
    break_step H;
    eauto using dispatch_count_zero, putResult_count_zero, loop_head_count_zero,
                put_from_count_zero.
Qed.

(** What a step of a worker does to a tube other than its input tube. *)
Lemma worker_step_with_puts read (ts ts' : list Tube) ls ls' (wk : Worker) p t :
  pc_count_zero (at_pc wk) ->
  (forall r ts1, read = Returns (r, ts1) -> ts1 !! t = ts !! t) ->
  worker_step_with read ts ls wk = Some (ts', ls', p) ->
  t ≠ _tube_task_input wk ->
  ts' !! t = ts !! t \/
  exists tb e, snd e = 0 /\ ts !! t = Some tb /\
               ts' !! t = Some (set_content tb (content tb ++ [e])).
Proof.
  intros Hz Hread. unfold worker_step_with.
  destruct (at_pc wk) eqn:Hpc; intros H Hne;
    break_step H;
    eauto.
  - (* AtPut *)
    rename n into t0.
    unfold tube_put. destruct (decide (t0 = t)) as [->|Hne'].
    + rewrite list_lookup_alter_eq. destruct (ts !! t) as [tb|] eqn:Ht; [|by left].
      right. exists tb, e. done.
    + left. by rewrite list_lookup_alter_ne.
  - (* AtRequeue *)
    left. unfold tube_put. by rewrite list_lookup_alter_ne.
Qed.

Lemma get_at_other (ts ts1 : list Tube) t0 tm r t :
  get_at ts t0 tm = Returns (r, ts1) -> t ≠ t0 -> ts1 !! t = ts !! t.
Proof.
  unfold get_at. destruct (ts !! t0) as [tb|]; [|done].
  destruct (tube_get _ _ _) as [[r' q]| |]; simpl; intros H Hne; simplify_eq.
  by rewrite list_lookup_insert_ne.
Qed.

Lemma alter_lock_count_zero (f : Worker -> Worker) i (ws : list Worker) :
  (forall wk, at_pc (f wk) = at_pc wk) ->
  Forall (fun wk => pc_count_zero (at_pc wk)) ws ->
  Forall (fun wk => pc_count_zero (at_pc wk)) (alter f i ws).
Proof. intros Hf H. apply Forall_alter; [done|]. intros wk _ ?. by rewrite Hf. Qed.

Lemma _link_count_zero a b f (ws : list Worker) ls :
  Forall (fun wk => pc_count_zero (at_pc wk)) ws ->
  Forall (fun wk => pc_count_zero (at_pc wk)) (fst (_link a b f (ws, ls))).
Proof.
  intros H. unfold _link.
  assert (Forall (fun wk => pc_count_zero (at_pc wk))
    (alter (set_lock_next_output (length (<[length ls:=true]> (ls ++ [false])))) a
       (alter (set_lock_prev_output (length (<[length ls:=true]> (ls ++ [false])))) b
          (alter (set_lock_next_input (length ls)) a
             (alter (set_lock_prev_input (length ls)) b ws))))).
  { repeat (apply alter_lock_count_zero; [done|]). done. }
  by destruct f.
Qed.

Lemma assemble_count_zero cls tin outs size ls :
  Forall (fun wk : Worker => pc_count_zero (at_pc wk)) (fst (assemble cls tin outs size ls)).
Proof.
  unfold assemble.
  assert (H0 : Forall (fun wk : Worker => pc_count_zero (at_pc wk))
                 (replicate (Z.to_nat size) (init2 cls tin outs size))).
  { apply Forall_replicate. apply loop_head_count_zero. }
  destruct (base cls); [|done].
  revert H0. generalize (replicate (Z.to_nat size) (init2 cls tin outs size)) ls.
  generalize (Z.to_nat size) at 1. intros n.
  induction (seq 0 (Z.to_nat size)) as [|ii l IH]; intros ws ls0 H0; [done|].
  cbn [foldl]. destruct (_link (index_before n ii) ii (bool_decide (ii = 0%nat)) (ws, ls0))
    as [ws1 ls1] eqn:E.
  apply IH. change ws1 with (fst (ws1, ls1)). rewrite <- E. by apply _link_count_zero.
Qed.

Lemma build_count_zero fuel : forall (w w' : World) s,
  world_count_zero w -> build fuel w s = Some w' -> world_count_zero w'.
Proof.
  induction fuel as [|fuel IH]; intros w w' s Hz H; [done|].
  simpl in H. destruct (stages w !! s) as [st|] eqn:Hst; simpl in H; [|done].
  set (outs := match _output_tubes st with
               | [] => _ | _ => _ end) in H.
  destruct outs as [ts outs].
  pose proof (assemble_count_zero (_worker_class st) (_input_tube st) outs (_size st) (locks st)) as Ha.
  destruct (assemble _ _ _ _ _) as [ws ls]. simpl in Ha.
  match type of H with foldl _ (Some ?x) _ = _ => set (w1 := x) in H end.
  assert (Hz1 : world_count_zero w1).
  { unfold world_count_zero, w1. simpl. apply Forall_insert; [done|].
    unfold stage_count_zero. simpl. apply Forall_app. split; [|done].
    unfold world_count_zero in Hz. rewrite Forall_lookup in Hz. by apply (Hz s st). }
  clearbody w1. revert w1 Hz1 H.
  induction (_next_stages st) as [|c cs IHc]; intros w1 Hz1 H.
  - simpl in H. by simplify_eq.
  - simpl in H. destruct (build fuel w1 c) as [w2|] eqn:E.
    + apply (IHc w2); [|done]. by apply (IH w1 w2 c).
    + exfalso. clear -H. induction cs as [|c' cs IHcs]; simpl in H; [done|]. auto.
Qed.

Lemma process_step_count_zero_gen read (w w' : World) s i st wk ts ls p :
  world_count_zero w ->
  stages w !! s = Some st -> workers st !! i = Some wk ->
  worker_step_with read (tubes w) (locks st) wk = Some (ts, ls, p) ->
  world_count_zero
    {| tubes := ts;
       stages := <[s := set_run st (<[i := set_at wk p]> (workers st)) ls]> (stages w) |}.
Proof.
  intros Hz Hst Hwk Hstep. unfold world_count_zero in *. simpl.
  pose proof Hz as Hz'. rewrite Forall_lookup in Hz'. specialize (Hz' s st Hst).
  apply Forall_insert; [done|]. unfold stage_count_zero in *. simpl.
  apply Forall_insert; [done|]. simpl.
  eapply worker_step_with_count_zero; [|done].
  rewrite Forall_lookup in Hz'. by apply (Hz' i wk).
Qed.

(** Every reachable world keeps count 0 in the envelopes about to be put. *)
Lemma reachable_count_zero (w : World) : reachable w -> world_count_zero w.
Proof.
  induction 1 as [|w w' Hreach IH Hstep]; [by apply Forall_nil|].
  destruct Hstep as [cls size w s w' H|s n w w' H|fuel s w w' H|s task w w' H
                    |s tm r w w' H|s i w w' H|s i w w' H].
  - unfold Stage_init in H. simplify_eq. unfold world_count_zero. simpl.
    apply Forall_app. split; [done|]. apply Forall_singleton. by apply Forall_nil.
  - unfold link in H. destruct (stages w !! s) as [st|] eqn:Hs; [|done].
    destruct (stages w !! n) as [nx|]; [|done]. simplify_eq.
    unfold world_count_zero in *. simpl. apply Forall_insert; [done|].
    rewrite Forall_lookup in IH. by apply (IH s st).
  - by eapply build_count_zero.
  - unfold Stage_put in H. destruct (stages w !! s); simplify_eq/=. done.
  - unfold Stage_get in H. destruct (stages w !! s); [|done].
    destruct (Stage_get_loop _ _ _ _ _) as [[[v r'] ts]| |]; simpl in H; [|done..].
    destruct (truthy tm); by simplify_eq.
  - unfold process_step in H.
    destruct (stages w !! s) as [st|] eqn:Hs; simpl in H; [|done].
    destruct (workers st !! i) as [wk|] eqn:Hwk; simpl in H; [|done].
    destruct (worker_step _ _ _) as [[[ts ls] p]|] eqn:E; simpl in H; [|done].
    simplify_eq. by eapply process_step_count_zero_gen.
  - unfold process_step_read_fails in H.
    destruct (stages w !! s) as [st|] eqn:Hs; simpl in H; [|done].
    destruct (workers st !! i) as [wk|] eqn:Hwk; simpl in H; [|done].
    destruct (worker_step_read_fails _ _ _) as [[[ts ls] p]|] eqn:E; simpl in H; [|done].
    simplify_eq. by eapply process_step_count_zero_gen.
Qed.

(** C10.  In every world that a program can reach, an envelope that a
    step of a worker puts on a tube other than the worker's own input tube
    carries the count 0: the stop request leaves a stage as (None, 0),
    whatever count it had reached inside the stage. *)
Theorem output_count_zero (w w' : World) s i st wk t e :
  reachable w ->
  stages w !! s = Some st -> workers st !! i = Some wk ->
  process_step s i w = Some w' \/ process_step_read_fails s i w = Some w' ->
  t ≠ _tube_task_input wk ->
  has_put w w' t e ->
  snd e = 0.
Proof.
  intros Hreach Hst Hwk Hstep Hne (tb & Ht & Ht').
  pose proof (reachable_count_zero w Hreach) as Hz.
  unfold world_count_zero in Hz. rewrite Forall_lookup in Hz.
  specialize (Hz s st Hst). unfold stage_count_zero in Hz. rewrite Forall_lookup in Hz.
  specialize (Hz i wk Hwk). simpl in Hz.
  assert (Hgen : forall read ts ls p,
    (forall r ts1, read = Returns (r, ts1) -> ts1 !! t = tubes w !! t) ->
    worker_step_with read (tubes w) (locks st) wk = Some (ts, ls, p) ->
    ts !! t = Some (set_content tb (content tb ++ [e])) -> snd e = 0).
  { intros read ts ls p Hread Hws Hts.
    destruct (worker_step_with_puts read (tubes w) ts (locks st) ls wk p t Hz Hread Hws Hne)
      as [Hsame|(tb' & e' & He' & Htb' & Hts')].
    - rewrite Hsame, Ht in Hts. simplify_eq. unfold set_content in Hts.
      destruct tb as [c q]. simpl in *. simplify_eq.
      assert (Hlen : length q = length (q ++ [e])) by congruence.
      rewrite length_app in Hlen. simpl in Hlen. lia.
    - rewrite Hts' in Hts. rewrite Ht in Htb'. injection Htb' as <-.
      injection Hts as Hq. apply app_inj_tail in Hq as [_ ->]. done. }
  destruct Hstep as [H|H].
  - unfold process_step in H. rewrite Hst in H. simpl in H. rewrite Hwk in H. simpl in H.
    destruct (worker_step _ _ _) as [[[ts ls] p]|] eqn:E; simpl in H; [|done].
    simplify_eq. simpl in Ht'. eapply (Hgen _ ts ls p); [|exact E|done].
    intros r ts1 Hr. by eapply get_at_other.
  - unfold process_step_read_fails in H. rewrite Hst in H. simpl in H.
    rewrite Hwk in H. simpl in H.
    destruct (worker_step_read_fails _ _ _) as [[[ts ls] p]|] eqn:E; simpl in H; [|done].
    simplify_eq. simpl in Ht'. eapply (Hgen _ ts ls p); [|exact E|done].
    intros r ts1 Hr. done.
Qed.

End Counts.

(** ** Observations and concrete pipelines *)

Section Observe.
Context {V : Type}.

(** The places of the workers of the stage [s]. *)
Definition places (w : World V) (s : nat) : list (pc V) :=
  default [] ((fun st => at_pc <$> workers st) <$> stages w !! s).

(** The locks of the stage [s]. *)
Definition locks_of (w : World V) (s : nat) : list bool :=
  default [] (locks <$> stages w !! s).

(** The content of the tube [t]. *)
Definition content_of (w : World V) (t : nat) : items (envelope V) :=
  default [] (content <$> tubes w !! t).

(** The workers of the stage [s] take steps in the order [sched]. *)
Fixpoint run_schedule (s : nat) (sched : list nat) (w : World V) : option (World V) :=
  match sched with
  | [] => Some w
  | i :: sched => w' ← process_step s i w; run_schedule s sched w'
  end.

(** [Pipeline(OrderedStage(target, size))] with nothing else in the heap. *)
Definition single_ordered (target : V -> payload V) (size : Z) : World V :=
  match OrderedStage_init target size empty_world with
  | Returns (s, w) => default w (snd <$> Pipeline_init 1 s w)
  | _ => empty_world
  end.

End Observe.

(** ** An ordered stage *)

Section Ring.
Context {V : Type}.
Abbreviation Worker := (Worker V).
Abbreviation pc := (pc V).
Variables (cls : worker_class V) (tin : nat) (outs : list nat) (N : Z).

(** The worker number [i] of a ring of [n] workers at the place [p], as
    [assemble] leaves it: the locks created by the call number [ii] of
    [_link] are named [2 * ii] and [2 * ii + 1]. *)
Definition ring_worker (n i : nat) (p : pc) : Worker :=
  {| w_class := cls;
     _tube_task_input := tin;
     _tubes_result_output := outs;
     _num_workers := N;
     _lock_prev_input := Some (2 * i)%nat;
     _lock_next_input := Some (2 * ((i + 1) mod n))%nat;
     _lock_prev_output := Some (2 * i + 1)%nat;
     _lock_next_output := Some (2 * ((i + 1) mod n) + 1)%nat;
     at_pc := p |}.

(** The worker number [i] after the calls of [_link] number 0 to [j - 1]. *)
Definition partly_linked (n j i : nat) : Worker :=
  {| w_class := cls;
     _tube_task_input := tin;
     _tubes_result_output := outs;
     _num_workers := N;
     _lock_prev_input := if decide (i < j)%nat then Some (2 * i)%nat else None;
     _lock_next_input :=
       if decide (i + 1 < j)%nat then Some (2 * (i + 1))%nat
       else if decide (i + 1 = n /\ 0 < j)%nat then Some 0%nat else None;
     _lock_prev_output := if decide (i < j)%nat then Some (2 * i + 1)%nat else None;
     _lock_next_output :=
       if decide (i + 1 < j)%nat then Some (2 * (i + 1) + 1)%nat
       else if decide (i + 1 = n /\ 0 < j)%nat then Some 1%nat else None;
     at_pc := loop_head cls |}.

(** The locks after these calls: the first two are free. *)
Definition partly_locked (j : nat) : list bool :=
  match j with
  | O => []
  | S j => [false; false] ++ replicate (2 * j) true
  end.

Lemma alter_fmap_seq {A} (g : A -> A) (h : nat -> A) a n :
  alter g a (h <$> seq 0 n) = (fun i => if decide (i = a) then g (h i) else h i) <$> seq 0 n.
Proof.
  apply list_eq. intros i. rewrite list_lookup_fmap.
  destruct (decide (a = i)) as [->|Hne].
  - rewrite list_lookup_alter_eq, list_lookup_fmap.
    destruct (seq 0 n !! i) as [x|] eqn:E; [|done]. simpl.
    apply lookup_seq in E as [-> _]. simpl. by rewrite decide_True.
  - rewrite list_lookup_alter_ne, list_lookup_fmap; [|done].
    destruct (seq 0 n !! i) as [x|] eqn:E; [|done]. simpl.
    apply lookup_seq in E as [-> _]. simpl. by rewrite decide_False.
Qed.

Lemma insert_at_length {A} (l : list A) (x y : A) :
  <[length l := x]> (l ++ [y]) = l ++ [x].
Proof. induction l as [|z l IH]; simpl; [done|]. by rewrite IH. Qed.

Lemma partly_locked_length j : length (partly_locked j) = (2 * j)%nat.
Proof. destruct j; simpl; [done|]. rewrite length_replicate. lia. Qed.

Lemma _link_partly n j :
  (j < n)%nat ->
  _link (index_before n j) j (bool_decide (j = 0%nat))
        (partly_linked n j <$> seq 0 n, partly_locked j)
  = (partly_linked n (S j) <$> seq 0 n, partly_locked (S j)).
Proof.
  intros Hj. unfold _link.
  set (a := index_before n j).
  assert (Hl1 : length (partly_locked j) = (2 * j)%nat) by apply partly_locked_length.
  assert (Hl2 : length (<[length (partly_locked j) := true]> (partly_locked j ++ [false]))
                = (2 * j + 1)%nat).
  { rewrite length_insert, length_app. simpl. lia. }
  rewrite Hl2, Hl1.
  assert (Hws : alter (set_lock_next_output (2 * j + 1)) a
      (alter (set_lock_prev_output (2 * j + 1)) j
         (alter (set_lock_next_input (2 * j)) a
            (alter (set_lock_prev_input (2 * j)) j (partly_linked n j <$> seq 0 n))))
     = partly_linked n (S j) <$> seq 0 n).
  { assert (Ha : forall i, (i < n)%nat -> a = i <-> (i + 1 = j \/ (j = 0 /\ i + 1 = n))%nat).
    { intros i Hi. unfold a, index_before. destruct j; lia. }
    assert (Han : (a < n)%nat) by (unfold a, index_before; destruct j; lia).
    clearbody a.
    apply list_eq. intros i. rewrite !list_lookup_alter, !list_lookup_fmap.
    destruct (decide (i < n)%nat) as [Hi|Hi].
    - specialize (Ha i Hi).
      repeat case_decide; simplify_eq; rewrite !lookup_seq_lt by lia;
        csimpl; unfold partly_linked, set_lock_next_output,
        set_lock_prev_output, set_lock_next_input, set_lock_prev_input; simpl;
        f_equal; f_equal; repeat case_decide; try lia; try (f_equal; lia).
    - repeat case_decide; try lia;
        rewrite !lookup_ge_None_2 by (rewrite length_seq; lia); done. }
  rewrite Hws.
  assert (E1 : <[(2 * j)%nat := true]> (partly_locked j ++ [false]) = partly_locked j ++ [true]).
  { rewrite <- Hl1. apply insert_at_length. }
  rewrite E1.
  assert (E2 : <[(2 * j + 1)%nat := true]> ((partly_locked j ++ [true]) ++ [false])
               = (partly_locked j ++ [true]) ++ [true]).
  { replace (2 * j + 1)%nat with (length (partly_locked j ++ [true])).
    - apply insert_at_length.
    - rewrite length_app, Hl1. simpl. lia. }
  rewrite E2.
  destruct j as [|j]; [done|]. rewrite bool_decide_eq_false_2; [|done].
  f_equal. unfold partly_locked. rewrite <- !app_assoc. f_equal.
  replace (2 * S j)%nat with (2 * j + 2)%nat by lia.
  by rewrite replicate_add.
Qed.

(** [assemble] makes the ring. *)
Lemma assemble_ring n :
  base cls = OrderedWorker -> n = Z.to_nat N -> (0 < n)%nat ->
  assemble cls tin outs N []
  = ((fun i => ring_worker n i AtAcquireInput) <$> seq 0 n,
     [false; false] ++ replicate (2 * (n - 1)) true).
Proof.
  intros Hb Hn Hpos. unfold assemble. rewrite Hb, <- Hn.
  assert (Hpart : forall j, (j <= n)%nat ->
    foldl (fun st ii => _link (index_before n ii) ii (bool_decide (ii = 0%nat)) st)
          (replicate n (init2 cls tin outs N), []) (seq 0 j)
    = (partly_linked n j <$> seq 0 n, partly_locked j)).
  { induction j as [|j IH]; intros Hj.
    - simpl. f_equal. apply list_eq. intros i.
      rewrite list_lookup_fmap. destruct (decide (i < n)%nat) as [Hi|Hi].
      + rewrite lookup_replicate_2, lookup_seq_lt by done. simpl. f_equal.
        unfold partly_linked, init2. f_equal; repeat case_decide; try lia; done.
      + rewrite (lookup_ge_None_2 (seq 0 n)) by (rewrite length_seq; lia).
        apply lookup_ge_None_2. rewrite length_replicate. lia.
    - rewrite seq_S, foldl_app. simpl. rewrite IH by lia. apply _link_partly. lia. }
  rewrite (Hpart n) by lia. f_equal.
  - apply list_eq. intros i. rewrite !list_lookup_fmap.
    destruct (decide (i < n)%nat) as [Hi|Hi].
    + rewrite lookup_seq_lt by done. simpl. f_equal.
      unfold partly_linked, ring_worker, loop_head. rewrite Hb.
      destruct (decide (i + 1 < n)%nat) as [Hlt|Hge].
      * rewrite (Nat.mod_small (i + 1) n) by done.
        f_equal; repeat case_decide; try lia; done.
      * assert (i + 1 = n)%nat as Heq by lia. rewrite Heq, Nat.Div0.mod_same.
        f_equal; repeat case_decide; try lia; done.
    + by rewrite (lookup_ge_None_2 (seq 0 n)) by (rewrite length_seq; lia).
  - unfold partly_locked. destruct n as [|n']; [lia|].
    by replace (S n' - 1)%nat with n' by lia.
Qed.

End Ring.

(** *** The tubes of a heap *)

Section TubeContent.
Context {V : Type}.
Abbreviation Tube := (Tube V).
Abbreviation envelope := (envelope V).

(** The content of the tube named [t]. *)
Definition tube_content (ts : list Tube) (t : nat) : items envelope :=
  default [] (content <$> ts !! t).

Lemma tube_put_length (ts : list Tube) t e : length (tube_put ts t e) = length ts.
Proof. unfold tube_put. apply length_alter. Qed.

Lemma tube_content_put_eq (ts : list Tube) t e :
  (t < length ts)%nat -> tube_content (tube_put ts t e) t = tube_content ts t ++ [e].
Proof.
  intros Ht. unfold tube_content, tube_put. rewrite list_lookup_alter_eq.
  destruct (lookup_lt_is_Some_2 ts t Ht) as [tb ->]. done.
Qed.

Lemma tube_content_put_ne (ts : list Tube) t t' e :
  t ≠ t' -> tube_content (tube_put ts t e) t' = tube_content ts t'.
Proof. intros Hne. unfold tube_content, tube_put. by rewrite list_lookup_alter_ne. Qed.

Lemma get_at_cons (ts : list Tube) t e q :
  tube_content ts t = e :: q ->
  exists ts', get_at ts t None = Returns (Direct e, ts') /\
              length ts' = length ts /\
              tube_content ts' t = q /\
              forall t', t' ≠ t -> tube_content ts' t' = tube_content ts t'.
Proof.
  unfold tube_content. intros Hc.
  destruct (ts !! t) as [tb|] eqn:Ht; [|done]. simpl in Hc.
  exists (<[t := set_content tb q]> ts).
  split; [by apply get_at_untimed|]. split; [by rewrite length_insert|]. split.
  - rewrite list_lookup_insert_eq; [done|]. by eapply lookup_lt_Some.
  - intros t' Hne. by rewrite list_lookup_insert_ne.
Qed.

Lemma get_at_nil (ts : list Tube) t :
  (t < length ts)%nat -> tube_content ts t = [] -> get_at ts t None = Blocks.
Proof.
  intros Hlt. unfold tube_content, get_at.
  destruct (lookup_lt_is_Some_2 ts t Hlt) as [tb ->]. simpl. intros ->.
  by destruct (tube_cls tb).
Qed.

End TubeContent.

(** *** Counting around the ring *)

Lemma mod_window (n a b : nat) : (a mod n = b mod n -> a <= b < a + n -> a = b)%nat.
Proof.
  intros Hmod Hwin. destruct (decide (n = 0%nat)) as [->|Hn]; [lia|].
  pose proof (Nat.div_mod_eq a n) as Ha. pose proof (Nat.div_mod_eq b n) as Hb.
  pose proof (Nat.mod_upper_bound a n Hn) as Hlt.
  rewrite <- Hmod in Hb.
  assert (b / n = a / n)%nat as E by nia.
  rewrite E in Hb. lia.
Qed.

Lemma mod_succ (n r i : nat) : (r mod n = i -> (r + 1) mod n = (i + 1) mod n)%nat.
Proof. intros <-. by rewrite Nat.Div0.add_mod_idemp_l. Qed.

Lemma mod_plus_n (n r : nat) : ((r + n) mod n = r mod n)%nat.
Proof.
  destruct (decide (n = 0%nat)) as [->|Hn]; [by rewrite Nat.add_0_r|].
  rewrite <- (Nat.Div0.add_mod_idemp_r r n n), Nat.Div0.mod_same, Nat.add_0_r. done.
Qed.

(** Two workers never have read numbers that agree around the ring. *)
Lemma mod_apart (n a b : nat) :
  (a mod n ≠ b mod n -> a ≠ b /\ a ≠ b + n /\ a + n ≠ b)%nat.
Proof.
  intros Hne. split; [congruence|]. split.
  - intros ->. apply Hne. by rewrite mod_plus_n.
  - intros <-. apply Hne. by rewrite mod_plus_n.
Qed.

(** *** The system: a producer and the workers of one ordered stage *)

Section OrderedRun.
Context {V : Type}.
Abbreviation Tube := (Tube V).
Abbreviation envelope := (envelope V).
Abbreviation payload := (payload V).
Abbreviation pc := (pc V).
Variables (f : V -> payload) (N : Z) (tin : nat) (outs : list nat) (xs : list V).
Abbreviation n := (Z.to_nat N).
Abbreviation m := (length outs).
Abbreviation k := (length xs).
Local Open Scope nat_scope.

(** The class that [OrderedStage(f, N)] creates. *)
Definition ordered_class : worker_class V := {| base := OrderedWorker; doTask := f |}.

Definition ring (i : nat) (p : pc) : Worker V := ring_worker ordered_class tin outs N n i p.

(** What the producer puts: the tasks, then the stop request. *)
Definition script : list payload := (Some <$> xs) ++ [None].

(** What the workers read from the input tube, in this order: the tasks,
    then the stop request with the counts 0 to N - 1. *)
Definition stream : list envelope :=
  ((fun x => (Some x, 0%Z)) <$> xs) ++ ((fun c => (None, Z.of_nat c)) <$> seq 0 n).

(** What every output tube must receive. *)
Definition expected : list envelope :=
  ((fun x => (f x, 0%Z)) <$> xs) ++ [(None, 0%Z)].

(** The state: what the producer has still to put, the tubes, the locks of
    the stage and the places of its workers. *)
Record sys := Sys {
  pending : list payload;
  sys_tubes : list Tube;
  sys_locks : list bool;
  sys_places : list pc;
}.

(** A step: the producer puts its next payload ([Stage.put]), or a worker
    takes a step. *)
Inductive sys_step : sys -> sys -> Prop :=
| sys_put task pend ts ls ps :
    sys_step (Sys (task :: pend) ts ls ps)
             (Sys pend (tube_put ts tin (task, 0%Z)) ls ps)
| sys_work i p ts ls ps pend ts' ls' p' :
    ps !! i = Some p ->
    worker_step ts ls (ring i p) = Some (ts', ls', p') ->
    sys_step (Sys pend ts ls ps) (Sys pend ts' ls' (<[i := p']> ps)).

(** **** The invariant *)

(** Where the turn to read is: the input lock of the next reader is free,
    or the reader holds the turn before or after its read. *)
Inductive in_phase := InFree | InReading | InPassing.

(** Where the turn to publish is: the output lock of the next publisher is
    free, or the publisher has put its result on the first [t] output
    tubes, or the last worker has put the stop request on the first [t]
    output tubes. *)
Inductive out_phase := OutIdle | OutPublishing (t : nat) | OutStopping (t : nat).

(** The history of a state: [gL] envelopes of the stream were put on the
    input tube, [gR] reads were made and passed on, [gP] results were
    published, and the worker [i] is at, or is going to make, the read
    number [grd i]. *)
Record history := History {
  gL : nat;
  gR : nat;
  gin : in_phase;
  gP : nat;
  gout : out_phase;
  grd : nat -> nat;
}.

Definition reads_done (g : history) : nat :=
  match gin g with InPassing => S (gR g) | _ => gR g end.

Definition advanced (g : history) : nat :=
  match gout g with OutIdle => 0 | OutPublishing t | OutStopping t => t end.

Definition in_held (g : history) (u : nat) : bool :=
  match gin g with
  | InFree => negb (bool_decide (u = gR g mod n))
  | _ => true
  end.

Definition out_held (g : history) (u : nat) : bool :=
  match gout g with
  | OutPublishing _ => true
  | _ => negb (bool_decide (u = gP g mod n))
  end.

(** What the place [p] of a worker says of its read number [r]. *)
Definition wok (g : history) (r : nat) (p : pc) : Prop :=
  match p with
  | AtAcquireInput =>
      (gR g < r \/ (r = gR g /\ gin g = InFree)) /\ r < gR g + n /\ r < gP g + n /\ r < k + n
  | AtGet =>
      r = gR g /\ gin g = InReading /\ r < gP g + n /\ r < k + n
  | AtReleaseInput e =>
      r = gR g /\ gin g = InPassing /\ stream !! r = Some e /\ r < gP g + n /\
      (k <= r -> gL g = S r)
  | AtDoTask x =>
      r < gR g <= r + n /\ gP g <= r /\ xs !! r = Some x
  | AtAcquireOutput y =>
      r < gR g <= r + n /\ gP g <= r /\ exists x, xs !! r = Some x /\ f x = Some y
  | AtPut e t ThenReleaseOutput =>
      r < gR g <= r + n /\ r = gP g /\ gout g = OutPublishing t /\ t < m /\
      r < k /\ expected !! r = Some e
  | AtReleaseOutput =>
      r < gR g <= r + n /\ r = gP g /\ gout g = OutPublishing m /\ r < k
  | AtPut e t ThenBreak =>
      e = (None, 0%Z) /\ S r = k + n /\ gout g = OutStopping t /\ t < m
  | AtRequeue c =>
      k <= r < gR g /\ c = Z.of_nat (r - k + 1) /\ r - k + 1 < n /\ gL g = S r
  | Exited =>
      k <= r < gR g /\ S r <= k + n /\ (S r < k + n -> r + 2 <= gL g) /\
      (S r = k + n -> gout g = OutStopping m)
  | AtPut _ _ ThenLoop | Crashed _ => False
  end.

(** The worker that holds the turn to read. *)
Definition reader_ok (g : history) (ps : list pc) : Prop :=
  match gin g with
  | InFree => True
  | InReading => ps !! (gR g mod n) = Some AtGet
  | InPassing => exists e, ps !! (gR g mod n) = Some (AtReleaseInput e)
  end.

(** The worker that holds the turn to publish, or that forwards the stop
    request. *)
Definition publisher_ok (g : history) (ps : list pc) : Prop :=
  match gout g with
  | OutIdle => True
  | OutPublishing t =>
      t <= m /\ gP g < k /\
      exists p, ps !! (gP g mod n) = Some p /\
        ((t < m /\ exists e, p = AtPut e t ThenReleaseOutput) \/ (t = m /\ p = AtReleaseOutput))
  | OutStopping t =>
      t <= m /\ gP g = k /\ gR g = k + n /\ gL g = k + n /\
      exists p, ps !! ((k + n - 1) mod n) = Some p /\
        ((t < m /\ p = AtPut (None, 0%Z) t ThenBreak) \/ (t = m /\ p = Exited))
  end.

Record Inv (g : history) (σ : sys) : Prop := {
  inv_places : length (sys_places σ) = n;
  inv_locks : length (sys_locks σ) = 2 * n;
  inv_tubes : forall t, t ∈ tin :: outs -> t < length (sys_tubes σ);
  inv_pending : pending σ = drop (gL g) script;
  inv_input : tube_content (sys_tubes σ) tin = drop (reads_done g) (take (gL g) stream);
  inv_output : forall u t, outs !! u = Some t ->
    tube_content (sys_tubes σ) t
    = take (gP g + (if decide (u < advanced g) then 1 else 0)) expected;
  inv_lock_in : forall u, u < n -> sys_locks σ !! (2 * u) = Some (in_held g u);
  inv_lock_out : forall u, u < n -> sys_locks σ !! (2 * u + 1) = Some (out_held g u);
  inv_fed : reads_done g <= gL g <= k + n;
  inv_one_stop : k + 1 < gL g -> gL g <= reads_done g + 1;
  inv_published : gP g <= k /\ gP g <= gR g <= gP g + n;
  inv_rd : forall i, i < n -> grd g i mod n = i;
  inv_wok : forall i p, sys_places σ !! i = Some p -> wok g (grd g i) p;
  inv_reader : reader_ok g (sys_places σ);
  inv_publisher : publisher_ok g (sys_places σ);
}.


Local Arguments Nat.mul : simpl never.
Local Arguments Nat.modulo : simpl never.
Local Arguments Nat.div : simpl never.
Local Arguments Nat.sub : simpl never.

Hypothesis HN : (1 <= N)%Z.
Hypothesis Hnodup : NoDup (tin :: outs).
Hypothesis Hf : forall x, x ∈ xs -> is_Some (f x).

Lemma n_pos : 0 < n.
Proof. lia. Qed.

Lemma stream_length : length stream = k + n.
Proof. unfold stream. by rewrite length_app, !length_fmap, length_seq. Qed.

Lemma expected_length : length expected = k + 1.
Proof. unfold expected. by rewrite length_app, length_fmap. Qed.

Lemma script_length : length script = k + 1.
Proof. unfold script. by rewrite length_app, length_fmap. Qed.

Lemma stream_task r x : xs !! r = Some x -> stream !! r = Some (Some x, 0%Z).
Proof.
  intros Hx. unfold stream. rewrite lookup_app_l.
  - by rewrite list_lookup_fmap, Hx.
  - rewrite length_fmap. by eapply lookup_lt_Some.
Qed.

Lemma stream_stop r : k <= r < k + n -> stream !! r = Some (None, Z.of_nat (r - k)).
Proof.
  intros Hr. unfold stream. rewrite lookup_app_r; rewrite length_fmap; [|lia].
  rewrite list_lookup_fmap, lookup_seq_lt; [done|lia].
Qed.

Lemma stream_lookup r e :
  stream !! r = Some e ->
  (exists x, xs !! r = Some x /\ e = (Some x, 0%Z)) \/
  (k <= r < k + n /\ e = (None, Z.of_nat (r - k))).
Proof.
  intros He. destruct (decide (r < k)) as [Hr|Hr].
  - destruct (lookup_lt_is_Some_2 xs r Hr) as [x Hx]. left. exists x. split; [done|].
    rewrite (stream_task r x Hx) in He. congruence.
  - right. assert (r < k + n).
    { rewrite <- stream_length. by eapply lookup_lt_Some. }
    split; [lia|]. rewrite stream_stop in He by lia. congruence.
Qed.

Lemma expected_task r x : xs !! r = Some x -> expected !! r = Some (f x, 0%Z).
Proof.
  intros Hx. unfold expected. rewrite lookup_app_l.
  - by rewrite list_lookup_fmap, Hx.
  - rewrite length_fmap. by eapply lookup_lt_Some.
Qed.

Lemma expected_stop : expected !! k = Some (None, 0%Z).
Proof.
  unfold expected. rewrite lookup_app_r; rewrite length_fmap; [|lia].
  by rewrite Nat.sub_diag.
Qed.

Lemma script_stream r task : script !! r = Some task -> stream !! r = Some (task, 0%Z).
Proof.
  intros Ht. destruct (decide (r < k)) as [Hr|Hr].
  - destruct (lookup_lt_is_Some_2 xs r Hr) as [x Hx].
    unfold script in Ht. rewrite lookup_app_l in Ht; [|rewrite length_fmap; lia].
    rewrite list_lookup_fmap, Hx in Ht. simplify_eq/=. by apply stream_task.
  - assert (r < k + 1).
    { rewrite <- script_length. by eapply lookup_lt_Some. }
    assert (r = k) as -> by lia.
    unfold script in Ht. rewrite lookup_app_r in Ht; rewrite length_fmap in *; [|lia].
    rewrite Nat.sub_diag in Ht. simplify_eq/=.
    pose proof n_pos. rewrite stream_stop by lia. by rewrite Nat.sub_diag.
Qed.

(** One more envelope of the stream on a tube that holds a part of it. *)
Lemma stream_extend d l e :
  d <= l -> stream !! l = Some e ->
  drop d (take l stream) ++ [e] = drop d (take (S l) stream).
Proof.
  intros Hd He. rewrite (take_S_r _ _ _ He). rewrite drop_app_le; [done|].
  rewrite length_take. apply lookup_lt_Some in He. lia.
Qed.

Lemma expected_extend l e :
  expected !! l = Some e -> take l expected ++ [e] = take (l + 1) expected.
Proof. intros He. rewrite Nat.add_1_r. by rewrite (take_S_r _ _ _ He). Qed.

(** **** The invariant holds at the start *)

Definition history0 : history :=
  {| gL := 0; gR := 0; gin := InFree; gP := 0; gout := OutIdle; grd := fun i => i |}.

Lemma Inv_start ts :
  (forall t, t ∈ tin :: outs -> t < length ts /\ tube_content ts t = []) ->
  Inv history0
      (Sys script ts ([false; false] ++ replicate (2 * (n - 1)) true)
           (replicate n AtAcquireInput)).
Proof.
  intros Hts. pose proof n_pos as Hpos. constructor; simpl.
  - by rewrite length_replicate.
  - rewrite length_replicate. lia.
  - intros t Ht. by apply Hts.
  - done.
  - unfold reads_done. simpl. apply Hts. by left.
  - intros u t Hu. unfold advanced. simpl. apply Hts. right.
    by eapply list_elem_of_lookup_2.
  - intros u Hu. unfold in_held. simpl. rewrite Nat.Div0.mod_0_l.
    destruct u as [|u]; [done|].
    replace (2 * S u) with (S (S (2 * u))) by lia. simpl.
    rewrite lookup_replicate_2 by lia. done.
  - intros u Hu. unfold out_held. simpl. rewrite Nat.Div0.mod_0_l.
    destruct u as [|u]; [done|].
    replace (2 * S u + 1) with (S (S (2 * u + 1))) by lia. simpl.
    rewrite lookup_replicate_2 by lia. done.
  - unfold reads_done. simpl. lia.
  - lia.
  - lia.
  - intros i Hi. by apply Nat.mod_small.
  - intros i p Hp. apply lookup_replicate in Hp as [-> Hi]. simpl.
    split; [|lia]. destruct i; [by right|left; lia].
  - done.
  - done.
Qed.

(** **** The invariant is kept by every step *)

Lemma drop_cons_lookup {A} (l : list A) d x rest :
  drop d l = x :: rest -> l !! d = Some x /\ rest = drop (S d) l.
Proof.
  intros H. split.
  - rewrite <- (Nat.add_0_r d), <- lookup_drop, H. done.
  - replace (S d) with (d + 1) by lia. rewrite <- drop_drop, H. done.
Qed.

Lemma tin_not_out u t : outs !! u = Some t -> t ≠ tin.
Proof.
  intros Hu ->. apply NoDup_cons in Hnodup as [Hnotin _]. apply Hnotin.
  by eapply list_elem_of_lookup_2.
Qed.

Lemma outs_apart u u' t : outs !! u = Some t -> outs !! u' = Some t -> u = u'.
Proof.
  intros Hu Hu'. apply NoDup_cons in Hnodup as [_ Hnd].
  by eapply NoDup_lookup.
Qed.

Lemma reads_done_bounds g : gR g <= reads_done g <= S (gR g).
Proof. unfold reads_done. destruct (gin g); lia. Qed.

Lemma Inv_put g task pend ts ls ps :
  Inv g (Sys (task :: pend) ts ls ps) ->
  Inv (History (S (gL g)) (gR g) (gin g) (gP g) (gout g) (grd g))
      (Sys pend (tube_put ts tin (task, 0%Z)) ls ps).
Proof.
  intros [Hplaces Hlocks Htubes Hpend Hinput Houtput Hlin Hlout Hfed Hone Hpub Hrd Hwok
          Hreader Hpublisher].
  simpl in *. pose proof n_pos as Hpos. pose proof (reads_done_bounds g) as Hrb.
  symmetry in Hpend. apply drop_cons_lookup in Hpend as [Htask Hpend].
  assert (HL : gL g < k + 1).
  { rewrite <- script_length. by eapply lookup_lt_Some. }
  constructor; simpl; try done.
  - intros t Ht. rewrite tube_put_length. by apply Htubes.
  - rewrite tube_content_put_eq by (apply Htubes; by left).
    change (reads_done _) with (reads_done g).
    rewrite Hinput. apply stream_extend; [lia|by apply script_stream].
  - intros u t Hu. rewrite tube_content_put_ne by (symmetry; by eapply tin_not_out).
    by apply Houtput.
  - change (reads_done _) with (reads_done g). lia.
  - lia.
  - intros i p Hp. specialize (Hwok i p Hp).
    destruct p as [| |e|x|y|e t [| |]| |c| |]; simpl in *; try done.
    + destruct Hwok as (? & Hin & ? & ? & ?). unfold reads_done in *. rewrite Hin in *.
      repeat split; try done. lia.
    + lia.
    + lia.
  - unfold publisher_ok in *. simpl. destruct (gout g); try done. lia.
Qed.

Lemma reader_ok_other g g' ps i p p' :
  reader_ok g ps -> gin g' = gin g -> gR g' = gR g -> ps !! i = Some p ->
  match p with AtGet | AtReleaseInput _ => False | _ => True end ->
  reader_ok g' (<[i := p']> ps).
Proof.
  unfold reader_ok. intros H -> -> Hp Hnot.
  destruct (gin g); [done| |].
  - destruct (decide (gR g mod n = i)) as [E|E].
    + rewrite E, Hp in H. by simplify_eq.
    + by rewrite list_lookup_insert_ne.
  - destruct H as [e H]. exists e. destruct (decide (gR g mod n = i)) as [E|E].
    + rewrite E, Hp in H. by simplify_eq.
    + by rewrite list_lookup_insert_ne.
Qed.

Lemma publisher_ok_other g g' ps i p p' :
  publisher_ok g ps -> gout g' = gout g -> gP g' = gP g ->
  (forall t, gout g = OutStopping t -> gR g' = gR g /\ gL g' = gL g) ->
  ps !! i = Some p ->
  match p with AtPut _ _ _ | AtReleaseOutput | Exited => False | _ => True end ->
  publisher_ok g' (<[i := p']> ps).
Proof.
  unfold publisher_ok. intros H -> -> Hstop Hp Hnot.
  destruct (gout g) as [|t|t]; [done| |].
  - destruct H as (? & ? & p0 & Hp0 & Hcase). split; [done|]. split; [done|].
    exists p0. split; [|done].
    destruct (decide (gP g mod n = i)) as [E|E].
    + rewrite E, Hp in Hp0. simplify_eq.
      destruct Hcase as [[_ [e ->]]|[_ ->]]; done.
    + by rewrite list_lookup_insert_ne.
  - destruct H as (? & ? & ? & ? & p0 & Hp0 & Hcase).
    destruct (Hstop t eq_refl) as [-> ->].
    repeat (split; [done|]). exists p0. split; [|done].
    destruct (decide ((k + n - 1) mod n = i)) as [E|E].
    + rewrite E, Hp in Hp0. simplify_eq.
      destruct Hcase as [[_ ->]|[_ ->]]; done.
    + by rewrite list_lookup_insert_ne.
Qed.

Ltac inv_open H :=
  destruct H as [Hplaces Hlocks Htubes Hpend Hinput Houtput Hlin Hlout Hfed Hone Hpub Hrd Hwok
                 Hreader Hpublisher];
  simpl in Hplaces, Hlocks, Htubes, Hpend, Hinput, Houtput, Hlin, Hlout, Hwok, Hreader,
           Hpublisher.

(** The read numbers of two workers. *)
Lemma rd_apart g i j :
  (forall i, i < n -> grd g i mod n = i) -> i < n -> j < n -> j ≠ i ->
  grd g j ≠ grd g i /\ grd g j ≠ grd g i + n /\ grd g j + n ≠ grd g i.
Proof.
  intros Hrd Hi Hj Hne. apply mod_apart. rewrite (Hrd i Hi), (Hrd j Hj). done.
Qed.

Lemma Inv_acquire_input g i pend ts ls ps ts' ls' p' :
  Inv g (Sys pend ts ls ps) ->
  ps !! i = Some AtAcquireInput ->
  worker_step ts ls (ring i AtAcquireInput) = Some (ts', ls', p') ->
  exists g', Inv g' (Sys pend ts' ls' (<[i := p']> ps)).
Proof.
  intros HI Hi Hstep. inv_open HI. pose proof n_pos as Hpos.
  assert (Hin : i < n). { rewrite <- Hplaces. by eapply lookup_lt_Some. }
  pose proof (Hwok i _ Hi) as Hw. simpl in Hw. destruct Hw as (Hw1 & Hw2 & Hw3 & Hw4).
  unfold worker_step, worker_step_with in Hstep. simpl in Hstep.
  unfold lock_acquire in Hstep.
  rewrite (Hlin i Hin) in Hstep.
  destruct (in_held g i) eqn:Hheld; [done|]. simplify_eq.
  unfold in_held in Hheld. destruct (gin g) eqn:Hphase; [|done..].
  apply negb_false_iff, bool_decide_eq_true in Hheld.
  assert (Hr : grd g i = gR g).
  { symmetry. apply (mod_window n); [|lia]. rewrite (Hrd i Hin). done. }
  exists (History (gL g) (gR g) InReading (gP g) (gout g) (grd g)).
  constructor; simpl; try done.
  - by rewrite length_insert.
  - by rewrite length_insert.
  - unfold reads_done in *. simpl. by rewrite Hphase in Hinput.
  - intros u Hu. unfold in_held. simpl.
    destruct (decide (u = i)) as [->|Hne].
    + rewrite list_lookup_insert_eq; [done|lia].
    + rewrite list_lookup_insert_ne by lia. rewrite (Hlin u Hu).
      unfold in_held. rewrite Hphase. rewrite bool_decide_eq_false_2; [done|]. congruence.
  - intros u Hu. rewrite list_lookup_insert_ne by lia. by apply Hlout.
  - unfold reads_done in *. simpl. by rewrite Hphase in Hfed.
  - unfold reads_done in *. simpl. by rewrite Hphase in Hone.
  - intros j q Hq. destruct (decide (j = i)) as [->|Hne].
    + rewrite list_lookup_insert_eq in Hq by lia. simplify_eq. simpl. done.
    + rewrite list_lookup_insert_ne in Hq by done.
      assert (Hjn : j < n). { rewrite <- Hplaces. by eapply lookup_lt_Some. }
      destruct (rd_apart g i j Hrd Hin Hjn Hne) as (Ha1 & Ha2 & Ha3).
      pose proof (Hwok j q Hq) as Hj.
      destruct q as [| |e|x|y|e t [| |]| |c| |]; simpl in Hj |- *; try done.
      * destruct Hj as ([?|[? ?]] & ? & ? & ?); [|congruence].
        split; [by left|done].
      * destruct Hj as (? & ? & ?). congruence.
      * destruct Hj as (? & ? & ?). congruence.
  - unfold reader_ok. simpl. rewrite <- Hheld.
    rewrite list_lookup_insert_eq; [done|lia].
  - eapply publisher_ok_other; [exact Hpublisher|done..].
Qed.

Ltac other_workers i Hplaces Hrd Hin Hwok :=
  let j := fresh "j" in let q := fresh "q" in let Hq := fresh "Hq" in
  let Hne := fresh "Hne" in let Hjn := fresh "Hjn" in
  let Ha1 := fresh "Ha1" in let Ha2 := fresh "Ha2" in let Ha3 := fresh "Ha3" in
  let Hj := fresh "Hj" in
  intros j q Hq; destruct (decide (j = i)) as [->|Hne];
  [ rewrite list_lookup_insert_eq in Hq by lia; injection Hq as <-; simpl
  | rewrite list_lookup_insert_ne in Hq by done;
    assert (Hjn : j < n) by (rewrite <- Hplaces; by eapply lookup_lt_Some);
    destruct (rd_apart _ i j Hrd Hin Hjn Hne) as (Ha1 & Ha2 & Ha3);
    pose proof (Hwok j q Hq) as Hj;
    destruct q as [| |?|?|?|? ? [| |]| |?| |]; simpl in Hj |- *; try done ].

Ltac break_hyps :=
  repeat match goal with
         | H : _ /\ _ |- _ => destruct H
         | H : exists _, _ |- _ => destruct H
         end.

Ltac solve_waiting :=
  match goal with H : (_ \/ _) /\ _ |- _ => destruct H as ([?|[? ?]] & ? & ? & ?) end;
  [|try congruence];
  match goal with
  | |- (?a < ?b \/ (?b = ?a /\ _)) /\ _ =>
      split; [destruct (decide (b = a)); [right; by split|left; lia]|lia]
  end.

Ltac solve_other :=
  break_hyps;
  try congruence; try lia;
  repeat split; try done; try congruence; try lia; eauto.

Lemma Inv_get g i pend ts ls ps ts' ls' p' :
  Inv g (Sys pend ts ls ps) ->
  ps !! i = Some AtGet ->
  worker_step ts ls (ring i AtGet) = Some (ts', ls', p') ->
  exists g', Inv g' (Sys pend ts' ls' (<[i := p']> ps)).
Proof.
  intros HI Hi Hstep. inv_open HI. pose proof n_pos as Hpos.
  assert (Hin : i < n). { rewrite <- Hplaces. by eapply lookup_lt_Some. }
  pose proof (Hwok i _ Hi) as Hw. simpl in Hw. destruct Hw as (Hw1 & Hw2 & Hw3 & Hw4).
  unfold worker_step, worker_step_with in Hstep. simpl in Hstep.
  unfold reads_done in Hinput, Hfed, Hone. rewrite Hw2 in Hinput, Hfed, Hone.
  destruct (tube_content ts tin) as [|e q] eqn:Hc.
  { rewrite get_at_nil in Hstep; [done| |done]. apply Htubes. by left. }
  destruct (get_at_cons ts tin e q Hc) as (ts1 & Hget & Hlen & Hc1 & Hother).
  rewrite Hget in Hstep. simplify_eq.
  symmetry in Hinput. apply drop_cons_lookup in Hinput as [He Hq].
  apply lookup_take_Some in He as [He HRL].
  assert (HiR : gR g mod n = i). { rewrite <- Hw1. by apply Hrd. }
  exists (History (gL g) (gR g) InPassing (gP g) (gout g) (grd g)).
  constructor; simpl; try done.
  - by rewrite length_insert.
  - intros t Ht. rewrite Hlen. by apply Htubes.
  - intros u t Hu. rewrite Hother by (by eapply tin_not_out). by apply Houtput.
  - intros u Hu. rewrite (Hlin u Hu). unfold in_held. simpl. by rewrite Hw2.
  - unfold reads_done. simpl. lia.
  - unfold reads_done. simpl. lia.
  - other_workers i Hplaces Hrd Hin Hwok.
    + repeat split; try done; try lia. by rewrite Hw1.
    + match goal with H : (_ \/ _) /\ _ |- _ => destruct H as ([?|[? ?]] & ? & ? & ?) end;
        [|congruence]. split; [by left|done].
    + solve_other.
    + solve_other.
  - unfold reader_ok. simpl. exists e. rewrite HiR.
    rewrite list_lookup_insert_eq; [done|lia].
  - eapply publisher_ok_other; [exact Hpublisher|done..].
Qed.

Lemma Inv_release_input g i e pend ts ls ps ts' ls' p' :
  Inv g (Sys pend ts ls ps) ->
  ps !! i = Some (AtReleaseInput e) ->
  worker_step ts ls (ring i (AtReleaseInput e)) = Some (ts', ls', p') ->
  exists g', Inv g' (Sys pend ts' ls' (<[i := p']> ps)).
Proof.
  intros HI Hi Hstep. inv_open HI. pose proof n_pos as Hpos.
  assert (Hin : i < n). { rewrite <- Hplaces. by eapply lookup_lt_Some. }
  pose proof (Hwok i _ Hi) as Hw. simpl in Hw.
  destruct Hw as (Hw1 & Hw2 & Hw3 & Hw4 & Hw5).
  unfold worker_step, worker_step_with in Hstep. simpl in Hstep.
  unfold lock_release in Hstep.
  assert (Hu : (i + 1) mod n < n) by (apply Nat.mod_upper_bound; lia).
  rewrite (Hlin _ Hu) in Hstep. unfold in_held in Hstep. rewrite Hw2 in Hstep.
  simplify_eq.
  unfold reads_done in Hinput, Hfed, Hone. rewrite Hw2 in Hinput, Hfed, Hone.
  assert (HiR : gR g mod n = i). { rewrite <- Hw1. by apply Hrd. }
  assert (HuR : S (gR g) mod n = (i + 1) mod n).
  { replace (S (gR g)) with (gR g + 1) by lia. by apply mod_succ. }
  assert (HRlt : gR g < k + n).
  { rewrite <- stream_length, <- Hw1. by eapply lookup_lt_Some. }
  assert (Hnostop : forall t, gout g = OutStopping t -> False).
  { intros t Ht. unfold publisher_ok in Hpublisher. rewrite Ht in Hpublisher. lia. }
  assert (Hlin' : forall g', gin g' = InFree -> gR g' = S (gR g) ->
            forall v, v < n ->
            <[2 * ((i + 1) mod n) := false]> ls !! (2 * v) = Some (in_held g' v)).
  { intros g' Hg1 Hg2 v Hv. unfold in_held. rewrite Hg1, Hg2, HuR.
    destruct (decide (v = (i + 1) mod n)) as [->|Hne].
    - rewrite list_lookup_insert_eq by lia. by rewrite bool_decide_eq_true_2.
    - rewrite list_lookup_insert_ne by lia. rewrite (Hlin v Hv).
      unfold in_held. rewrite Hw2. by rewrite bool_decide_eq_false_2. }
  assert (Hlout' : forall v, v < n ->
            <[2 * ((i + 1) mod n) := false]> ls !! (2 * v + 1) = Some (out_held g v)).
  { intros v Hv. rewrite list_lookup_insert_ne by lia. by apply Hlout. }
  unfold dispatch. 
  destruct (stream_lookup _ _ Hw3) as [(x & Hx & ->)|(Hr & ->)]; simpl.
  - (* a task *)
    exists (History (gL g) (S (gR g)) InFree (gP g) (gout g) (grd g)).
    constructor; simpl; try done.
    + by rewrite length_insert.
    + by rewrite length_insert.
    + by apply Hlin'.
    + lia.
    + other_workers i Hplaces Hrd Hin Hwok; [|first [solve_waiting|solve_other]..].
      repeat split; try done; lia.
    + eapply publisher_ok_other; [exact Hpublisher|try done..].
      intros t Ht. by destruct (Hnostop t).
  - (* the stop request *)
    specialize (Hw5 ltac:(lia)).
    destruct (Z.eqb_spec (Z.of_nat (grd g i - k) + 1) N) as [Hlast|Hnotlast].
    + (* the last worker *)
      assert (HSr : S (grd g i) = k + n) by lia.
      assert (HP : gP g = k) by lia.
      assert (Hidle : gout g = OutIdle).
      { destruct (gout g) as [|t|t] eqn:Hout; [done| |].
        - unfold publisher_ok in Hpublisher. rewrite Hout in Hpublisher. lia.
        - by destruct (Hnostop t). }
      exists (History (gL g) (S (gR g)) InFree (gP g) (OutStopping 0) (grd g)).
      constructor; simpl; try done.
      * by rewrite length_insert.
      * by rewrite length_insert.
      * intros u t Hut. rewrite (Houtput u t Hut). unfold advanced. simpl.
        by rewrite Hidle.
      * by apply Hlin'.
      * intros v Hv. rewrite (Hlout' v Hv). unfold out_held. simpl. by rewrite Hidle.
      * lia.
      * other_workers i Hplaces Hrd Hin Hwok; [|first [solve_waiting|solve_other]..].
        unfold put_from. simpl. case_decide; simpl.
        -- repeat split; try done; lia.
        -- repeat split; try lia. intros _. f_equal. lia.
      * unfold publisher_ok. simpl. split; [lia|]. split; [done|]. split; [lia|].
        split; [lia|].
        assert (Hidx : (k + n - 1) mod n = i).
        { replace (k + n - 1) with (grd g i) by lia. by apply Hrd. }
        rewrite Hidx. rewrite list_lookup_insert_eq by lia.
        eexists. split; [done|]. unfold put_from. simpl. case_decide.
        -- left. done.
        -- right. split; [lia|done].
    + (* another worker will meet the stop request *)
      exists (History (gL g) (S (gR g)) InFree (gP g) (gout g) (grd g)).
      constructor; simpl; try done.
      * by rewrite length_insert.
      * by rewrite length_insert.
      * by apply Hlin'.
      * lia.
      * other_workers i Hplaces Hrd Hin Hwok; [|first [solve_waiting|solve_other]..].
        repeat split; try lia.
      * eapply publisher_ok_other; [exact Hpublisher|try done..].
        intros t Ht. by destruct (Hnostop t).
Qed.

Lemma Inv_do_task g i x pend ts ls ps ts' ls' p' :
  Inv g (Sys pend ts ls ps) ->
  ps !! i = Some (AtDoTask x) ->
  worker_step ts ls (ring i (AtDoTask x)) = Some (ts', ls', p') ->
  exists g', Inv g' (Sys pend ts' ls' (<[i := p']> ps)).
Proof.
  intros HI Hi Hstep. inv_open HI. pose proof n_pos as Hpos.
  assert (Hin : i < n). { rewrite <- Hplaces. by eapply lookup_lt_Some. }
  pose proof (Hwok i _ Hi) as Hw. simpl in Hw. destruct Hw as (Hw1 & Hw2 & Hw3).
  unfold worker_step, worker_step_with in Hstep. simpl in Hstep.
  destruct (Hf x) as [y Hy]; [by eapply list_elem_of_lookup_2|].
  rewrite Hy in Hstep. unfold putResult in Hstep. simpl in Hstep. simplify_eq.
  exists g. constructor; simpl; try done.
  - by rewrite length_insert.
  - other_workers i Hplaces Hrd Hin Hwok; [|done..].
    repeat split; try lia. eauto.
  - eapply reader_ok_other; [exact Hreader|done..].
  - eapply publisher_ok_other; [exact Hpublisher|done..].
Qed.

Lemma Inv_acquire_output g i y pend ts ls ps ts' ls' p' :
  Inv g (Sys pend ts ls ps) ->
  ps !! i = Some (AtAcquireOutput y) ->
  worker_step ts ls (ring i (AtAcquireOutput y)) = Some (ts', ls', p') ->
  exists g', Inv g' (Sys pend ts' ls' (<[i := p']> ps)).
Proof.
  intros HI Hi Hstep. inv_open HI. pose proof n_pos as Hpos.
  assert (Hin : i < n). { rewrite <- Hplaces. by eapply lookup_lt_Some. }
  pose proof (Hwok i _ Hi) as Hw. simpl in Hw.
  destruct Hw as (Hw1 & Hw2 & x & Hx & Hy).
  unfold worker_step, worker_step_with in Hstep. simpl in Hstep.
  unfold lock_acquire in Hstep. rewrite (Hlout i Hin) in Hstep.
  destruct (out_held g i) eqn:Hheld; [done|]. simplify_eq.
  assert (Hrk : grd g i < k) by (by eapply lookup_lt_Some).
  unfold out_held in Hheld.
  assert (Hidle : gout g = OutIdle).
  { destruct (gout g) as [|t|t] eqn:Hout; [done|done|].
    unfold publisher_ok in Hpublisher. rewrite Hout in Hpublisher. lia. }
  rewrite Hidle in Hheld. apply negb_false_iff, bool_decide_eq_true in Hheld.
  assert (Hr : grd g i = gP g).
  { symmetry. apply (mod_window n); [|lia]. rewrite (Hrd i Hin). done. }
  exists (History (gL g) (gR g) (gin g) (gP g) (OutPublishing 0) (grd g)).
  constructor; simpl; try done.
  - by rewrite length_insert.
  - by rewrite length_insert.
  - intros u t Hut. rewrite (Houtput u t Hut). unfold advanced. simpl. by rewrite Hidle.
  - intros v Hv. rewrite list_lookup_insert_ne by lia. by apply Hlin.
  - intros v Hv. unfold out_held. simpl.
    destruct (decide (v = i)) as [->|Hne].
    + rewrite list_lookup_insert_eq; [done|lia].
    + rewrite list_lookup_insert_ne by lia. rewrite (Hlout v Hv).
      unfold out_held. rewrite Hidle. rewrite bool_decide_eq_false_2; [done|]. congruence.
  - other_workers i Hplaces Hrd Hin Hwok; [|first [solve_waiting|solve_other]..].
    unfold put_from. simpl. case_decide; simpl.
    + repeat split; try done; try lia. rewrite <- Hy. by apply expected_task.
    + repeat split; try done; try lia. f_equal. lia.
  - eapply reader_ok_other; [exact Hreader|done..].
  - unfold publisher_ok. simpl. split; [lia|]. split; [lia|].
    rewrite <- Hheld. rewrite list_lookup_insert_eq by lia.
    eexists. split; [done|]. unfold put_from. simpl. case_decide.
    + left. split; [done|]. by eexists.
    + right. split; [lia|done].
Qed.

Lemma Inv_publish g i e t pend ts ls ps ts' ls' p' :
  Inv g (Sys pend ts ls ps) ->
  ps !! i = Some (AtPut e t ThenReleaseOutput) ->
  worker_step ts ls (ring i (AtPut e t ThenReleaseOutput)) = Some (ts', ls', p') ->
  exists g', Inv g' (Sys pend ts' ls' (<[i := p']> ps)).
Proof.
  intros HI Hi Hstep. inv_open HI. pose proof n_pos as Hpos.
  assert (Hin : i < n). { rewrite <- Hplaces. by eapply lookup_lt_Some. }
  pose proof (Hwok i _ Hi) as Hw. simpl in Hw.
  destruct Hw as (Hw1 & Hw2 & Hw3 & Hw4 & Hw5 & Hw6).
  unfold worker_step, worker_step_with in Hstep. simpl in Hstep.
  destruct (outs !! t) as [t0|] eqn:Ht0; simpl in Hstep; [|done]. simplify_eq.
  assert (HiP : gP g mod n = i). { rewrite <- Hw2. by apply Hrd. }
  exists (History (gL g) (gR g) (gin g) (gP g) (OutPublishing (S t)) (grd g)).
  constructor; simpl; try done.
  - by rewrite length_insert.
  - intros t1 Ht1. rewrite tube_put_length. by apply Htubes.
  - rewrite tube_content_put_ne by (by eapply tin_not_out). done.
  - intros u t1 Hut. unfold advanced. simpl.
    pose proof (Houtput u t1 Hut) as Ho. unfold advanced in Ho. rewrite Hw3 in Ho.
    destruct (decide (u = t)) as [->|Hne].
    + assert (t1 = t0) as -> by congruence.
      rewrite tube_content_put_eq by (apply Htubes; right; by eapply list_elem_of_lookup_2).
      rewrite Ho. rewrite decide_False by lia. rewrite decide_True by lia.
      rewrite Nat.add_0_r. apply expected_extend. by rewrite <- Hw2.
    + rewrite tube_content_put_ne.
      * rewrite Ho. repeat case_decide; try lia; done.
      * intros ->. apply Hne. symmetry. by eapply outs_apart.
  - intros v Hv. rewrite (Hlout v Hv). unfold out_held. simpl. by rewrite Hw3.
  - other_workers i Hplaces Hrd Hin Hwok; [|first [solve_waiting|solve_other]..].
    unfold put_from. simpl. case_decide; simpl.
    + repeat split; try done; lia.
    + repeat split; try done; try lia. f_equal. lia.
  - eapply reader_ok_other; [exact Hreader|done..].
  - unfold publisher_ok. simpl. split; [lia|]. split; [lia|].
    rewrite HiP. rewrite list_lookup_insert_eq by lia.
    eexists. split; [done|]. unfold put_from. simpl. case_decide.
    + left. split; [done|]. by eexists.
    + right. split; [lia|done].
Qed.

Lemma Inv_forward_stop g i e t pend ts ls ps ts' ls' p' :
  Inv g (Sys pend ts ls ps) ->
  ps !! i = Some (AtPut e t ThenBreak) ->
  worker_step ts ls (ring i (AtPut e t ThenBreak)) = Some (ts', ls', p') ->
  exists g', Inv g' (Sys pend ts' ls' (<[i := p']> ps)).
Proof.
  intros HI Hi Hstep. inv_open HI. pose proof n_pos as Hpos.
  assert (Hin : i < n). { rewrite <- Hplaces. by eapply lookup_lt_Some. }
  pose proof (Hwok i _ Hi) as Hw. simpl in Hw.
  destruct Hw as (-> & Hw2 & Hw3 & Hw4).
  unfold worker_step, worker_step_with in Hstep. simpl in Hstep.
  destruct (outs !! t) as [t0|] eqn:Ht0; simpl in Hstep; [|done]. simplify_eq.
  pose proof Hpublisher as Hpb. unfold publisher_ok in Hpb. rewrite Hw3 in Hpb.
  destruct Hpb as (_ & HP & HR & HL & _).
  assert (Hidx : (k + n - 1) mod n = i).
  { replace (k + n - 1) with (grd g i) by lia. by apply Hrd. }
  exists (History (gL g) (gR g) (gin g) (gP g) (OutStopping (S t)) (grd g)).
  constructor; simpl; try done.
  - by rewrite length_insert.
  - intros t1 Ht1. rewrite tube_put_length. by apply Htubes.
  - rewrite tube_content_put_ne by (by eapply tin_not_out). done.
  - intros u t1 Hut. unfold advanced. simpl.
    pose proof (Houtput u t1 Hut) as Ho. unfold advanced in Ho. rewrite Hw3 in Ho.
    destruct (decide (u = t)) as [->|Hne].
    + assert (t1 = t0) as -> by congruence.
      rewrite tube_content_put_eq by (apply Htubes; right; by eapply list_elem_of_lookup_2).
      rewrite Ho. rewrite decide_False by lia. rewrite decide_True by lia.
      rewrite Nat.add_0_r. apply expected_extend. rewrite HP. apply expected_stop.
    + rewrite tube_content_put_ne.
      * rewrite Ho. repeat case_decide; try lia; done.
      * intros ->. apply Hne. symmetry. by eapply outs_apart.
  - intros v Hv. rewrite (Hlout v Hv). unfold out_held. simpl. by rewrite Hw3.
  - other_workers i Hplaces Hrd Hin Hwok; [|first [solve_waiting|solve_other]..].
    unfold put_from. simpl. case_decide; simpl.
    + repeat split; try done; lia.
    + repeat split; try done; try lia. intros _. f_equal. lia.
  - eapply reader_ok_other; [exact Hreader|done..].
  - unfold publisher_ok. simpl. repeat (split; [lia|]).
    rewrite Hidx. rewrite list_lookup_insert_eq by lia.
    eexists. split; [done|]. unfold put_from. simpl. case_decide.
    + left. done.
    + right. split; [lia|done].
Qed.

Lemma Inv_release_output g i pend ts ls ps ts' ls' p' :
  Inv g (Sys pend ts ls ps) ->
  ps !! i = Some AtReleaseOutput ->
  worker_step ts ls (ring i AtReleaseOutput) = Some (ts', ls', p') ->
  exists g', Inv g' (Sys pend ts' ls' (<[i := p']> ps)).
Proof.
  intros HI Hi Hstep. inv_open HI. pose proof n_pos as Hpos.
  assert (Hin : i < n). { rewrite <- Hplaces. by eapply lookup_lt_Some. }
  pose proof (Hwok i _ Hi) as Hw. simpl in Hw.
  destruct Hw as (Hw1 & Hw2 & Hw3 & Hw4).
  unfold worker_step, worker_step_with in Hstep. simpl in Hstep.
  unfold lock_release in Hstep.
  assert (Hu : (i + 1) mod n < n) by (apply Nat.mod_upper_bound; lia).
  rewrite (Hlout _ Hu) in Hstep. unfold out_held in Hstep. rewrite Hw3 in Hstep.
  unfold loop_head in Hstep. simpl in Hstep. simplify_eq.
  assert (HiP : gP g mod n = i). { rewrite <- Hw2. by apply Hrd. }
  assert (HuP : S (gP g) mod n = (i + 1) mod n).
  { replace (S (gP g)) with (gP g + 1) by lia. by apply mod_succ. }
  assert (Hfree : gR g = grd g i + n -> gin g = InFree).
  { intros HR. assert (HRi : gR g mod n = i).
    { rewrite HR, mod_plus_n. by apply Hrd. }
    unfold reader_ok in Hreader. destruct (gin g); [done| |].
    - rewrite HRi, Hi in Hreader. done.
    - destruct Hreader as [e He]. rewrite HRi, Hi in He. done. }
  exists (History (gL g) (gR g) (gin g) (S (gP g)) OutIdle
            (fun j => if decide (j = i) then grd g i + n else grd g j)).
  constructor; simpl; try done.
  - by rewrite length_insert.
  - by rewrite length_insert.
  - intros u t Hut. rewrite (Houtput u t Hut). unfold advanced. simpl. rewrite Hw3.
    apply lookup_lt_Some in Hut. repeat case_decide; try lia. f_equal. lia.
  - intros v Hv. rewrite list_lookup_insert_ne by lia. by apply Hlin.
  - intros v Hv. unfold out_held. simpl. rewrite HuP.
    destruct (decide (v = (i + 1) mod n)) as [->|Hne].
    + rewrite list_lookup_insert_eq by lia. by rewrite bool_decide_eq_true_2.
    + rewrite list_lookup_insert_ne by lia. rewrite (Hlout v Hv).
      unfold out_held. rewrite Hw3. by rewrite bool_decide_eq_false_2.
  - lia.
  - intros j Hj. case_decide as Hji.
    + subst j. rewrite mod_plus_n. by apply Hrd.
    + by apply Hrd.
  - intros j q Hq. destruct (decide (j = i)) as [->|Hne].
    + rewrite list_lookup_insert_eq in Hq by lia. injection Hq as <-. simpl.
      split; [|lia].
      destruct (decide (gR g = grd g i + n)) as [HR|HR].
      * right. split; [done|]. by apply Hfree.
      * left. lia.
    + rewrite list_lookup_insert_ne in Hq by done. simpl.
      assert (Hjn : j < n) by (rewrite <- Hplaces; by eapply lookup_lt_Some).
      destruct (rd_apart _ i j Hrd Hin Hjn Hne) as (Ha1 & Ha2 & Ha3).
      pose proof (Hwok j q Hq) as Hj.
      destruct q as [| |?|?|?|? ? [| |]| |?| |]; simpl in Hj |- *; try done;
        first [solve_waiting|solve_other].
  - eapply reader_ok_other; [exact Hreader|done..].
Qed.

Lemma Inv_requeue g i c pend ts ls ps ts' ls' p' :
  Inv g (Sys pend ts ls ps) ->
  ps !! i = Some (AtRequeue c) ->
  worker_step ts ls (ring i (AtRequeue c)) = Some (ts', ls', p') ->
  exists g', Inv g' (Sys pend ts' ls' (<[i := p']> ps)).
Proof.
  intros HI Hi Hstep. inv_open HI. pose proof n_pos as Hpos.
  pose proof (reads_done_bounds g) as Hrb.
  assert (Hin : i < n). { rewrite <- Hplaces. by eapply lookup_lt_Some. }
  pose proof (Hwok i _ Hi) as Hw. simpl in Hw.
  destruct Hw as (Hw1 & -> & Hw3 & Hw4).
  unfold worker_step, worker_step_with in Hstep. simpl in Hstep. simplify_eq.
  assert (Hnostop : forall t, gout g = OutStopping t -> False).
  { intros t Ht. unfold publisher_ok in Hpublisher. rewrite Ht in Hpublisher. lia. }
  exists (History (S (gL g)) (gR g) (gin g) (gP g) (gout g) (grd g)).
  constructor; simpl; try done.
  - by rewrite length_insert.
  - intros t1 Ht1. rewrite tube_put_length. by apply Htubes.
  - rewrite (drop_ge script (gL g)), (drop_ge script (S (gL g)));
      [done| |]; rewrite script_length; lia.
  - rewrite tube_content_put_eq by (apply Htubes; by left).
    change (reads_done _) with (reads_done g).
    rewrite Hinput. apply stream_extend; [lia|].
    rewrite stream_stop by lia. do 2 f_equal. lia.
  - intros u t Hu. rewrite tube_content_put_ne by (symmetry; by eapply tin_not_out).
    by apply Houtput.
  - change (reads_done _) with (reads_done g). lia.
  - change (reads_done _) with (reads_done g). lia.
  - other_workers i Hplaces Hrd Hin Hwok; [|first [solve_waiting|solve_other]..].
    repeat split; try lia.
  - eapply reader_ok_other; [exact Hreader|done..].
  - eapply publisher_ok_other; [exact Hpublisher|try done..].
    intros t Ht. by destruct (Hnostop t).
Qed.

(** Every step of a worker keeps the invariant. *)
Lemma Inv_work g i p pend ts ls ps ts' ls' p' :
  Inv g (Sys pend ts ls ps) ->
  ps !! i = Some p ->
  worker_step ts ls (ring i p) = Some (ts', ls', p') ->
  exists g', Inv g' (Sys pend ts' ls' (<[i := p']> ps)).
Proof.
  intros HI Hi Hstep.
  destruct p as [| |e|x|y|e t [| |]| |c| |].
  - by eapply Inv_acquire_input.
  - by eapply Inv_get.
  - by eapply Inv_release_input.
  - by eapply Inv_do_task.
  - by eapply Inv_acquire_output.
  - by eapply Inv_publish.
  - by destruct (inv_wok _ _ HI i _ Hi).
  - by eapply Inv_forward_stop.
  - by eapply Inv_release_output.
  - by eapply Inv_requeue.
  - done.
  - by destruct (inv_wok _ _ HI i _ Hi).
Qed.

Lemma Inv_step g σ σ' : Inv g σ -> sys_step σ σ' -> exists g', Inv g' σ'.
Proof.
  intros HI Hstep. destruct Hstep as [task pend ts ls ps|i p ts ls ps pend ts' ls' p' Hp Hs].
  - eexists. by apply Inv_put.
  - by eapply Inv_work.
Qed.

(** **** A state that cannot move is a final state *)

(** Why a worker cannot take a step: it waits for a lock or for the tube,
    or it has left [run]. *)
Lemma blocked_worker g i p pend ts ls ps :
  Inv g (Sys pend ts ls ps) ->
  ps !! i = Some p ->
  worker_step ts ls (ring i p) = None ->
  (p = AtAcquireInput /\ in_held g i = true) \/
  (p = AtGet /\ tube_content ts tin = []) \/
  ((exists y, p = AtAcquireOutput y) /\ out_held g i = true) \/
  p = Exited.
Proof.
  intros HI Hi Hstep. inv_open HI. pose proof n_pos as Hpos.
  assert (Hin : i < n). { rewrite <- Hplaces. by eapply lookup_lt_Some. }
  assert (Hu : (i + 1) mod n < n) by (apply Nat.mod_upper_bound; lia).
  pose proof (Hwok i _ Hi) as Hw.
  unfold worker_step, worker_step_with in Hstep.
  destruct p as [| |e|x|y|e t [| |]| |c| |]; simpl in Hstep, Hw; try done.
  - left. split; [done|]. unfold lock_acquire in Hstep. rewrite (Hlin i Hin) in Hstep.
    by destruct (in_held g i).
  - right. left. split; [done|].
    destruct (tube_content ts tin) as [|e q] eqn:Hc; [done|].
    destruct (get_at_cons ts tin e q Hc) as (ts1 & Hget & _). by rewrite Hget in Hstep.
  - exfalso. destruct Hw as (_ & Hw2 & _).
    unfold lock_release in Hstep. rewrite (Hlin _ Hu) in Hstep.
    unfold in_held in Hstep. by rewrite Hw2 in Hstep.
  - exfalso. by destruct (f x).
  - right. right. left. split; [by eexists|].
    unfold lock_acquire in Hstep. rewrite (Hlout i Hin) in Hstep.
    by destruct (out_held g i).
  - exfalso. destruct Hw as (_ & _ & _ & Ht & _).
    destruct (lookup_lt_is_Some_2 outs t Ht) as [t0 Ht0]. by rewrite Ht0 in Hstep.
  - exfalso. destruct Hw as (_ & _ & _ & Ht).
    destruct (lookup_lt_is_Some_2 outs t Ht) as [t0 Ht0]. by rewrite Ht0 in Hstep.
  - exfalso. destruct Hw as (_ & _ & Hw3 & _).
    unfold lock_release in Hstep. rewrite (Hlout _ Hu) in Hstep.
    unfold out_held in Hstep. by rewrite Hw3 in Hstep.
  - by right; right; right.
Qed.

(** A state in which neither the producer nor a worker can take a step. *)
Definition stuck (σ : sys) : Prop := forall σ', ~ sys_step σ σ'.

(** Every worker has left [run], the producer has put everything, the input
    tube is empty and every output tube holds the expected sequence. *)
Definition finished (σ : sys) : Prop :=
  pending σ = [] /\
  sys_places σ = replicate n Exited /\
  forall t, t ∈ outs -> tube_content (sys_tubes σ) t = expected.

Lemma stuck_finished g σ : Inv g σ -> stuck σ -> finished σ.
Proof.
  destruct σ as [pend ts ls ps]. intros HI Hstuck.
  assert (Hblocked : forall i p, ps !! i = Some p ->
    (p = AtAcquireInput /\ in_held g i = true) \/
    (p = AtGet /\ tube_content ts tin = []) \/
    ((exists y, p = AtAcquireOutput y) /\ out_held g i = true) \/
    p = Exited).
  { intros i p Hp. eapply blocked_worker; [done..|].
    destruct (worker_step ts ls (ring i p)) as [[[ts' ls'] p']|] eqn:E; [|done].
    exfalso. eapply Hstuck. by eapply sys_work. }
  assert (Hpend : pend = []).
  { destruct pend as [|task pend]; [done|]. exfalso. eapply Hstuck. apply sys_put. }
  subst pend. inv_open HI. pose proof n_pos as Hpos.
  pose proof (reads_done_bounds g) as Hrb.
  assert (HL : k + 1 <= gL g).
  { symmetry in Hpend. apply drop_nil_inv in Hpend. by rewrite script_length in Hpend. }
  assert (Hworker : forall v, v < n -> exists q, ps !! v = Some q /\ wok g (grd g v) q /\
                                               grd g v mod n = v).
  { intros v Hv. destruct (lookup_lt_is_Some_2 ps v) as [q Hq]; [lia|].
    exists q. split; [done|]. split; [by apply Hwok|by apply Hrd]. }
  (* the turn to read is not being passed on *)
  assert (Hnotpassing : gin g ≠ InPassing).
  { intros Hph. unfold reader_ok in Hreader. rewrite Hph in Hreader.
    destruct Hreader as [e He]. destruct (Hblocked _ _ He) as [[? _]|[[? _]|[[[? ?] _]|?]]]; done. }
  destruct (gout g) as [|t|t] eqn:Hout.
  - (* no publication is going on: some worker can move *)
    exfalso.
    assert (HRn : gR g <= k + n) by lia.
    destruct (gin g) eqn:Hph; [| |done].
    + (* the input lock of the next reader is free *)
      destruct (Hworker (gR g mod n)) as (q & Hq & Hw & Hmod);
        [apply Nat.mod_upper_bound; lia|].
      destruct (Hblocked _ _ Hq) as [[-> Hheld]|[[-> _]|[[[y ->] Hheld]| ->]]]; simpl in Hw.
      * unfold in_held in Hheld. rewrite Hph in Hheld.
        by rewrite bool_decide_eq_true_2 in Hheld.
      * destruct Hw as (_ & ? & _). congruence.
      * destruct Hw as (Hw1 & Hw2 & x & Hx & _).
        assert (gR g = grd g (gR g mod n) + n).
        { apply (mod_window n); [|lia]. by rewrite mod_plus_n. }
        unfold out_held in Hheld. rewrite Hout in Hheld.
        rewrite bool_decide_eq_true_2 in Hheld; [done|].
        rewrite <- Hmod at 1. f_equal. lia.
      * destruct Hw as (Hw1 & Hw2 & Hw3 & Hw4).
        assert (gR g = grd g (gR g mod n) + n).
        { apply (mod_window n); [|lia]. by rewrite mod_plus_n. }
        assert (HR : gR g = k + n) by lia.
        destruct (Hworker ((k + n - 1) mod n)) as (q' & Hq' & Hw' & Hmod');
          [apply Nat.mod_upper_bound; lia|].
        destruct (Hblocked _ _ Hq') as [[-> _]|[[-> _]|[[[y ->] _]| ->]]]; simpl in Hw'.
        -- destruct Hw' as ([?|[? ?]] & ? & ? & ?); lia.
        -- destruct Hw' as (_ & ? & _). congruence.
        -- destruct Hw' as (? & ? & x & Hx & _). apply lookup_lt_Some in Hx. lia.
        -- destruct Hw' as (Hv1 & Hv2 & Hv3 & Hv4).
           assert (grd g ((k + n - 1) mod n) = k + n - 1).
           { apply (mod_window n); [done|lia]. }
           specialize (Hv4 ltac:(lia)). congruence.
    + (* a worker holds the turn to read and waits for the tube *)
      unfold reader_ok in Hreader. rewrite Hph in Hreader.
      pose proof (Hwok _ _ Hreader) as Hwr. simpl in Hwr.
      destruct Hwr as (Hr1 & _ & Hr3 & Hr4).
      destruct (Hblocked _ _ Hreader) as [[? _]|[[_ Hempty]|[[[? ?] _]|?]]]; try done.
      rewrite Hinput in Hempty. unfold reads_done in Hempty, Hfed. rewrite Hph in Hempty, Hfed.
      apply drop_nil_inv in Hempty. rewrite length_take, stream_length in Hempty.
      assert (HRL : gR g = gL g) by lia.
      destruct (Hworker ((gR g - 1) mod n)) as (q' & Hq' & Hw' & Hmod');
        [apply Nat.mod_upper_bound; lia|].
      assert (Hsucc : (grd g ((gR g - 1) mod n) + 1) mod n = gR g mod n).
      { rewrite (mod_succ n _ _ Hmod'). rewrite Nat.Div0.add_mod_idemp_l.
        f_equal. lia. }
      destruct (Hblocked _ _ Hq') as [[-> _]|[[-> _]|[[[y ->] _]| ->]]]; simpl in Hw'.
      * destruct Hw' as ([?|[? ?]] & ? & ? & ?); [|congruence].
        assert (grd g ((gR g - 1) mod n) + 1 = gR g + n).
        { apply (mod_window n); [|lia]. by rewrite mod_plus_n. }
        lia.
      * destruct Hw' as (Hv1 & _).
        destruct (decide (n = 1)) as [Hn1|Hn1]; [lia|].
        assert (gR g - 1 = gR g); [|lia].
        apply (mod_window n); [|lia].
        transitivity (grd g ((gR g - 1) mod n) mod n); [by rewrite Hmod'|by rewrite Hv1].
      * destruct Hw' as (? & ? & x & Hx & _). apply lookup_lt_Some in Hx.
        assert (grd g ((gR g - 1) mod n) = gR g - 1); [|lia].
        apply (mod_window n); [exact Hmod'|lia].
      * destruct Hw' as (Hv1 & Hv2 & Hv3 & Hv4).
        assert (grd g ((gR g - 1) mod n) = gR g - 1).
        { apply (mod_window n); [exact Hmod'|lia]. }
        lia.
  - (* a publisher can go on *)
    exfalso. unfold publisher_ok in Hpublisher. rewrite Hout in Hpublisher.
    destruct Hpublisher as (_ & _ & p & Hp & Hcase).
    destruct (Hblocked _ _ Hp) as [[-> _]|[[-> _]|[[[y ->] _]| ->]]];
      destruct Hcase as [[_ [e ?]]|[_ ?]]; done.
  - (* the stop request is forwarded, or was *)
    pose proof Hpublisher as Hpb. unfold publisher_ok in Hpb. rewrite Hout in Hpb.
    destruct Hpb as (Htm & HP & HR & HLk & p & Hp & Hcase).
    destruct Hcase as [[Hlt ->]|[-> ->]].
    { exfalso. destruct (Hblocked _ _ Hp) as [[? _]|[[? _]|[[[? ?] _]|?]]]; done. }
    unfold finished. simpl. split; [done|]. split.
    + apply list_eq. intros i. destruct (decide (i < n)) as [Hi|Hi].
      * rewrite lookup_replicate_2 by done.
        destruct (Hworker i Hi) as (q & Hq & Hw & _). rewrite Hq. f_equal.
        destruct (Hblocked _ _ Hq) as [[-> _]|[[-> _]|[[[y ->] _]| ->]]]; simpl in Hw; [| | |done].
        -- destruct Hw as ([?|[? ?]] & ? & ? & ?); lia.
        -- lia.
        -- destruct Hw as (? & ? & x & Hx & _). apply lookup_lt_Some in Hx. lia.
      * rewrite !lookup_ge_None_2; [done| |]; [rewrite length_replicate|]; lia.
    + intros t Ht. apply list_elem_of_lookup in Ht as [u Hu].
      rewrite (Houtput u t Hu). unfold advanced. rewrite Hout.
      rewrite decide_True by (by eapply lookup_lt_Some).
      apply take_ge. rewrite expected_length. lia.
Qed.

(** **** Every run ends *)

(** What is left to do: for a payload that the producer has still to put,
    for an envelope in the input tube, and for a worker at a place. *)
Definition pending_weight (p : payload) : nat :=
  match p with Some _ => m + 7 | None => 1 end.

Definition envelope_weight (e : envelope) : nat :=
  match fst e with Some _ => m + 6 | None => 0 end.

Definition after_weight (a : after_put) : nat :=
  match a with ThenReleaseOutput => m + 5 | ThenLoop => m + 4 | ThenBreak => 0 end.

Definition place_weight (p : pc) : nat :=
  match p with
  | AtAcquireInput => m + 4
  | AtGet => m + 3
  | AtReleaseInput e => match fst e with Some _ => 2 * m + 8 | None => m + 2 end
  | AtDoTask _ => 2 * m + 7
  | AtAcquireOutput _ => 2 * m + 6
  | AtPut _ i a => (m - i) + after_weight a
  | AtReleaseOutput => m + 5
  | AtRequeue _ => 1
  | Exited | Crashed _ => 0
  end.

Definition measure (σ : sys) : nat :=
  sum_list_with pending_weight (pending σ)
  + sum_list_with envelope_weight (tube_content (sys_tubes σ) tin)
  + sum_list_with place_weight (sys_places σ).

Lemma place_weight_insert (ps : list pc) i p p' :
  ps !! i = Some p ->
  sum_list_with place_weight (<[i := p']> ps) + place_weight p
  = sum_list_with place_weight ps + place_weight p'.
Proof.
  revert i. induction ps as [|z l IH]; intros i Hi; [done|].
  destruct i as [|i]; simpl in *.
  - simplify_eq. lia.
  - specialize (IH i Hi). lia.
Qed.

Lemma put_weight (ts : list Tube) t e :
  sum_list_with envelope_weight (tube_content (tube_put ts t e) t)
  <= sum_list_with envelope_weight (tube_content ts t) + envelope_weight e.
Proof.
  destruct (decide (t < length ts)) as [Ht|Ht].
  - rewrite tube_content_put_eq by done. rewrite sum_list_with_app. simpl. lia.
  - unfold tube_content, tube_put. rewrite list_lookup_alter_eq.
    rewrite lookup_ge_None_2 by lia. simpl. lia.
Qed.

Lemma get_weight (ts ts' : list Tube) t e :
  get_at ts t None = Returns (Direct e, ts') ->
  sum_list_with envelope_weight (tube_content ts t)
  = envelope_weight e + sum_list_with envelope_weight (tube_content ts' t).
Proof.
  intros Hget. destruct (tube_content ts t) as [|e0 q] eqn:Hc.
  - unfold get_at, tube_content in *. destruct (ts !! t) as [tb|]; [|done].
    simpl in Hc. rewrite Hc in Hget. by destruct (tube_cls tb).
  - destruct (get_at_cons ts t e0 q Hc) as (ts1 & Hget1 & _ & Hq & _).
    rewrite Hget1 in Hget. simplify_eq. done.
Qed.

Lemma put_from_weight i e j a :
  place_weight (put_from (ring i (AtPut e j a)) e j a) <= (m - j) + after_weight a.
Proof.
  unfold put_from. simpl. case_decide; simpl; [lia|].
  destruct a; simpl; unfold loop_head; simpl; lia.
Qed.

Lemma put_from_weight_any i p e j a :
  place_weight (put_from (ring i p) e j a) <= (m - j) + after_weight a.
Proof. apply (put_from_weight i e j a). Qed.

Lemma dispatch_stop_weight i p c : place_weight (dispatch (ring i p) (None, c)) <= m + 1.
Proof.
  unfold dispatch. simpl. destruct (_ =? _)%Z; simpl; [|lia].
  pose proof (put_from_weight_any i p (None, 0%Z) 0 ThenBreak). simpl in *. lia.
Qed.

Lemma dispatch_weight i p e :
  place_weight (dispatch (ring i p) e) + 1 <= place_weight (AtReleaseInput e).
Proof.
  destruct e as [[x|] c].
  - simpl. lia.
  - pose proof (dispatch_stop_weight i p c). simpl. 
    unfold dispatch in *. simpl in *. destruct (_ =? _)%Z; simpl in *; [|lia].
    pose proof (put_from_weight_any i p (None, 0%Z) 0 ThenBreak). simpl in *. 
    destruct m; simpl in *; lia.
Qed.

Ltac crack H :=
  repeat (match type of H with
          | context [match ?x with _ => _ end] => destruct x eqn:?
          end);
  simplify_eq.

Lemma sys_step_measure σ σ' : sys_step σ σ' -> measure σ' < measure σ.
Proof.
  intros [task pend ts ls ps|i p ts ls ps pend ts' ls' p' Hp Hs]; unfold measure; simpl.
  - pose proof (put_weight ts tin (task, 0%Z)).
    destruct task; unfold envelope_weight in *; simpl in *; lia.
  - pose proof (place_weight_insert ps i p p' Hp) as Hins.
    assert (Hgoal : sum_list_with envelope_weight (tube_content ts' tin) + place_weight p'
                    < sum_list_with envelope_weight (tube_content ts tin) + place_weight p);
      [|lia].
    clear Hins. unfold worker_step, worker_step_with in Hs.
    destruct p as [| |e|x|y|e t a| |c| |]; simpl in Hs.
    + pose proof (dispatch_stop_weight i AtAcquireInput 0%Z).
      crack Hs; simpl; lia.
    + pose proof (dispatch_stop_weight i AtGet 0%Z).
      destruct (get_at ts tin None) as [[[e|] ts1]| |] eqn:Hget; simplify_eq.
      * rewrite (get_weight _ _ _ _ Hget).
        destruct e as [[x|] c]; unfold envelope_weight; simpl; lia.
      * simpl. lia.
    + pose proof (dispatch_weight i (AtReleaseInput e) e).
      pose proof (dispatch_stop_weight i (AtReleaseInput e) 0%Z).
      crack Hs; [lia|destruct e as [[x|] c]; simpl in *; lia..].
    + crack Hs; simpl; lia.
    + pose proof (put_from_weight_any i (AtAcquireOutput y) (Some y, 0%Z) 0 ThenReleaseOutput).
      crack Hs; simpl in *; lia.
    + destruct (outs !! t) as [t0|] eqn:Ht0; simplify_eq/=.
      pose proof (put_from_weight_any i (AtPut e t a) e (S t) a).
      apply lookup_lt_Some in Ht0 as Hlt.
      rewrite tube_content_put_ne by (by eapply tin_not_out). lia.
    + crack Hs; simpl; unfold loop_head; simpl; lia.
    + simplify_eq. pose proof (put_weight ts tin (None, c)).
      unfold envelope_weight in *. simpl in *. lia.
    + done.
    + done.
Qed.

Lemma sn_measure {A} (R : relation A) (mu : A -> nat) :
  (forall x y, R x y -> mu y < mu x) -> forall x, sn R x.
Proof.
  intros Hdec x. remember (mu x) as c eqn:Hc. revert x Hc.
  induction c as [c IH] using lt_wf_ind. intros x ->.
  constructor. intros y Hy. eapply IH; [|done]. by apply Hdec.
Qed.

Lemma sys_step_sn σ : sn sys_step σ.
Proof. apply (sn_measure _ measure). apply sys_step_measure. Qed.

End OrderedRun.

(** *** The ordered stage in a world *)

Section OrderedStage.
Context {V : Type}.
Abbreviation World := (World V).
Abbreviation payload := (payload V).
Variable s : nat.

(** The producer puts its payloads on the stage [s] and the workers of the
    stage take steps; nothing else runs, so that the output tubes keep what
    the stage has put on them. *)
Inductive stage_run : list payload * World -> list payload * World -> Prop :=
| run_put task pend w w' :
    Stage_put s task w = Some w' -> stage_run (task :: pend, w) (pend, w')
| run_work i pend w w' :
    process_step s i w = Some w' -> stage_run (pend, w) (pend, w').

Variables (f : V -> payload) (N : Z) (tin : nat) (outs : list nat).

(** The world [w] is in the state [σ] of the system. *)
Definition represents (w : World) (σ : sys) : Prop :=
  tubes w = sys_tubes σ /\
  exists st, stages w !! s = Some st /\ _input_tube st = tin /\
             locks st = sys_locks σ /\
             length (workers st) = length (sys_places σ) /\
             forall i p, sys_places σ !! i = Some p ->
                         workers st !! i = Some (ring f N tin outs i p).

Lemma represents_forth w σ pend' w' :
  represents w σ -> stage_run (pending σ, w) (pend', w') ->
  exists σ', sys_step f N tin outs σ σ' /\ represents w' σ' /\ pending σ' = pend'.
Proof.
  intros (Hts & st & Hst & Htin & Hls & Hlen & Hws) Hrun.
  destruct σ as [pend ts ls ps]. simpl in *. subst ts ls.
  inversion Hrun as [task pend0 w1 w1' Hput|i pend0 w1 w1' Hwork]; subst.
  - unfold Stage_put in Hput. rewrite Hst in Hput. simpl in Hput.
    injection Hput as <-. rewrite Htin.
    eexists. split; [apply sys_put|]. split; [|done].
    split; [done|]. exists st. done.
  - unfold process_step in Hwork. rewrite Hst in Hwork. simpl in Hwork.
    destruct (workers st !! i) as [wk|] eqn:Hwk; simpl in Hwork; [|done].
    destruct (worker_step (tubes w) (locks st) wk) as [[[ts' ls'] p']|] eqn:Hstep;
      simpl in Hwork; [|done]. simplify_eq.
    destruct (lookup_lt_is_Some_2 ps i) as [p Hp].
    { rewrite <- Hlen. by eapply lookup_lt_Some. }
    rewrite (Hws i p Hp) in Hwk. simplify_eq.
    exists (Sys pend' ts' ls' (<[i := p']> ps)). split; [by eapply sys_work|].
    split; [|done]. split; [done|]. simpl.
    eexists. split; [apply list_lookup_insert_eq; by eapply lookup_lt_Some|].
    simpl. split; [done|]. split; [done|]. split; [by rewrite !length_insert|].
    intros j q Hq. destruct (decide (j = i)) as [->|Hne].
    + rewrite list_lookup_insert_eq in Hq by (by eapply lookup_lt_Some). simplify_eq.
      rewrite list_lookup_insert_eq; [done|]. rewrite Hlen. by eapply lookup_lt_Some.
    + rewrite list_lookup_insert_ne in Hq by done.
      rewrite list_lookup_insert_ne by done. by apply Hws.
Qed.

Lemma represents_back w σ σ' :
  represents w σ -> sys_step f N tin outs σ σ' ->
  exists w', stage_run (pending σ, w) (pending σ', w').
Proof.
  intros (Hts & st & Hst & Htin & Hls & Hlen & Hws) Hstep.
  destruct Hstep as [task pend ts ls ps|i p ts ls ps pend ts' ls' p' Hp Hs]; simpl in *.
  - eexists. apply run_put. unfold Stage_put. rewrite Hst. done.
  - subst ts ls. eexists. eapply (run_work i). unfold process_step.
    rewrite Hst. simpl. rewrite (Hws i p Hp). simpl. rewrite Hs. done.
Qed.

End OrderedStage.

Section OrderedStageTheorem.
Context {V : Type}.
Abbreviation World := (World V).
Abbreviation payload := (payload V).

Lemma sn_simulation {A B} (R : relation A) (S : relation B) (rel : A -> B -> Prop) :
  (forall x y a, R x y -> rel x a -> exists b, S a b /\ rel y b) ->
  forall a, sn S a -> forall x, rel x a -> sn R x.
Proof.
  intros Hsim a Ha. induction Ha as [a _ IH]. intros x Hx.
  constructor. intros y Hy. simpl in Hy.
  destruct (Hsim x y a Hy Hx) as (b & Hab & Hyb). by eapply IH.
Qed.

(** C1 (as amended).  An ordered stage of any pool size N >= 1 whose transform
    [f] returns a result for every task.  The producer puts the tasks [xs] and
    then the stop request on the input tube while the workers run, in any
    interleaving.  Every run ends; at every moment every output tube holds a
    prefix of f(x1), ..., f(xk), None; and when nothing can move any more
    the producer has put everything, every worker has exited and every
    output tube holds exactly f(x1), ..., f(xk), None. *)
Theorem ordered_stage_preserves_order (f : V -> payload) (xs : list V) (w0 : World) s st :
  stages w0 !! s = Some st ->
  _worker_class st = ordered_class f ->
  (1 <= _size st)%Z ->
  (workers st, locks st)
  = assemble (_worker_class st) (_input_tube st) (_output_tubes st) (_size st) [] ->
  NoDup (_input_tube st :: _output_tubes st) ->
  (forall t, t ∈ _input_tube st :: _output_tubes st ->
             (t < length (tubes w0))%nat /\ content_of w0 t = []) ->
  (forall x, x ∈ xs -> is_Some (f x)) ->
  sn (stage_run s) (script xs, w0) /\
  forall pend w, rtc (stage_run s) (script xs, w0) (pend, w) ->
    (forall t, t ∈ _output_tubes st -> content_of w t `prefix_of` expected f xs) /\
    (nf (stage_run s) (pend, w) ->
       pend = [] /\
       places w s = replicate (Z.to_nat (_size st)) Exited /\
       forall t, t ∈ _output_tubes st -> content_of w t = expected f xs).
Proof.
  intros Hst Hcls HN Hasm Hnd Hts Hf.
  set (N := _size st) in *. set (tin := _input_tube st) in *.
  set (outs := _output_tubes st) in *.
  set (n := Z.to_nat N).
  assert (Hpos : (0 < n)%nat) by lia.
  rewrite Hcls in Hasm.
  rewrite (assemble_ring (ordered_class f) tin outs N n eq_refl eq_refl Hpos) in Hasm.
  injection Hasm as Hws Hls.
  set (σ0 := Sys (script xs) (tubes w0) ([false; false] ++ replicate (2 * (n - 1)) true)
                 (replicate n AtAcquireInput)).
  assert (Hrep0 : represents s f N tin outs w0 σ0).
  { split; [done|]. exists st. split; [done|]. split; [done|]. split; [done|].
    simpl. split.
    - by rewrite Hws, length_fmap, length_seq, length_replicate.
    - intros i p Hp. apply lookup_replicate in Hp as [-> Hi].
      rewrite Hws, list_lookup_fmap, lookup_seq_lt by done. done. }
  assert (Hinv0 : Inv f N tin outs xs history0 σ0).
  { apply Inv_start; [done|]. intros t Ht. by apply Hts. }
  assert (Hreach : forall y, rtc (stage_run s) (script xs, w0) y ->
            exists σ g, represents s f N tin outs (snd y) σ /\
                        Inv f N tin outs xs g σ /\ pending σ = fst y).
  { apply (rtc_ind_r (fun y => exists σ g, represents s f N tin outs (snd y) σ /\
                        Inv f N tin outs xs g σ /\ pending σ = fst y)).
    - by exists σ0, history0.
    - intros y z Hy Hyz IH. destruct IH as (σ & g & Hrep & Hinv & Hpend).
      destruct y as [pend w], z as [pend' w']. simpl in *. subst pend.
      destruct (represents_forth s f N tin outs w σ pend' w' Hrep Hyz)
        as (σ' & Hstep & Hrep' & Hpend').
      destruct (Inv_step f N tin outs xs HN Hnd Hf g σ σ' Hinv Hstep) as [g' Hinv'].
      by exists σ', g'. }
  split.
  - apply (sn_simulation (stage_run s) (sys_step f N tin outs)
             (fun y σ => represents s f N tin outs (snd y) σ /\ pending σ = fst y)) with σ0.
    + intros [pend w] [pend' w'] σ Hrun [Hrep Hpend]. simpl in *. subst pend.
      destruct (represents_forth s f N tin outs w σ pend' w' Hrep Hrun)
        as (σ' & Hstep & Hrep' & Hpend').
      by exists σ'.
    + apply sys_step_sn. done.
    + done.
  - intros pend w Hrun.
    destruct (Hreach _ Hrun) as (σ & g & Hrep & Hinv & Hpend). simpl in *.
    pose proof Hrep as (Htsw & st' & Hst' & Htin' & Hls' & Hlen' & Hws').
    assert (Hcontent : forall t, content_of w t = tube_content (sys_tubes σ) t).
    { intros t. unfold content_of, tube_content. by rewrite Htsw. }
    split.
    + intros t Ht. apply list_elem_of_lookup in Ht as [u Hu].
      rewrite Hcontent, (inv_output f N tin outs xs g σ Hinv u t Hu). apply prefix_take.
    + intros Hnf.
      assert (Hstuck : stuck f N tin outs σ).
      { intros σ' Hstep. apply Hnf.
        destruct (represents_back s f N tin outs w σ σ' Hrep Hstep) as [w' Hw'].
        exists (pending σ', w'). by rewrite <- Hpend. }
      destruct (stuck_finished f N tin outs xs HN g σ Hinv Hstuck)
        as (Hfin1 & Hfin2 & Hfin3).
      split; [congruence|]. split.
      * unfold places. rewrite Hst'. simpl. apply list_eq. intros i.
        rewrite list_lookup_fmap.
        destruct (decide (i < n)%nat) as [Hi|Hi].
        -- rewrite (Hws' i Exited).
           ++ by rewrite lookup_replicate_2.
           ++ rewrite Hfin2. by apply lookup_replicate_2.
        -- rewrite lookup_ge_None_2.
           ++ by rewrite lookup_ge_None_2 by (rewrite length_replicate; lia).
           ++ rewrite Hlen', Hfin2, length_replicate. lia.
      * intros t Ht. rewrite Hcontent. by apply Hfin3.
Qed.

End OrderedStageTheorem.

(** ** An unordered stage *)

(** *** Counting the workers at a place *)

Lemma sum_list_with_insert {A} (g : A -> nat) (l : list A) i x x' :
  l !! i = Some x ->
  (sum_list_with g (<[i := x']> l) + g x = sum_list_with g l + g x')%nat.
Proof.
  revert i. induction l as [|z l IH]; intros i Hi; [done|].
  destruct i as [|i]; simpl in *.
  - simplify_eq. lia.
  - specialize (IH i Hi). lia.
Qed.

Lemma sum_list_with_bound {A} (g : A -> nat) (l : list A) :
  (forall x, g x <= 1)%nat -> (sum_list_with g l <= length l)%nat.
Proof.
  intros Hg. induction l as [|z l IH]; simpl; [lia|]. specialize (Hg z). lia.
Qed.

Lemma sum_list_with_zero {A} (g : A -> nat) (l : list A) :
  Forall (fun x => g x = 0%nat) l -> sum_list_with g l = 0%nat.
Proof. induction 1 as [|z l Hz _ IH]; simpl; lia. Qed.

Lemma sum_list_with_miss {A} (g : A -> nat) (l : list A) i x :
  (forall x, g x <= 1)%nat -> l !! i = Some x -> g x = 0%nat ->
  (sum_list_with g l + 1 <= length l)%nat.
Proof.
  intros Hg. revert i. induction l as [|z l IH]; intros i Hi Hx; [done|].
  pose proof (sum_list_with_bound g l Hg) as Hb.
  destruct i as [|i]; simpl in *; simplify_eq.
  - lia.
  - pose proof (Hg z). specialize (IH i Hi Hx). lia.
Qed.

Lemma sum_list_with_full {A} (g : A -> nat) (l : list A) j y :
  (forall x, g x <= 1)%nat -> sum_list_with g l = length l -> l !! j = Some y ->
  g y = 1%nat.
Proof.
  intros Hg Hall Hj. destruct (g y) as [|c] eqn:Hy.
  - pose proof (sum_list_with_miss g l j y Hg Hj Hy). lia.
  - pose proof (Hg y). lia.
Qed.

(** All but one have it. *)
Lemma sum_list_with_others {A} (g : A -> nat) (l : list A) i x :
  (forall x, g x <= 1)%nat ->
  l !! i = Some x -> g x = 0%nat -> (sum_list_with g l + 1 = length l)%nat ->
  forall j y, j ≠ i -> l !! j = Some y -> g y = 1%nat.
Proof.
  intros Hg. revert i. induction l as [|z l IH]; intros i Hi Hx Hsum j y Hne Hj; [done|].
  pose proof (sum_list_with_bound g l Hg) as Hb. simpl in Hsum.
  destruct i as [|i], j as [|j]; simpl in *; simplify_eq.
  - apply (sum_list_with_full g l j y Hg); [lia|done].
  - pose proof (sum_list_with_miss g l i x Hg Hi Hx). pose proof (Hg y). lia.
  - pose proof (Hg z). pose proof (sum_list_with_miss g l i x Hg Hi Hx).
    apply (IH i Hi Hx ltac:(lia) j y); [congruence|done].
Qed.

(** One at least has it not. *)
Lemma sum_list_with_short {A} (g : A -> nat) (l : list A) :
  (forall x, g x <= 1)%nat -> (sum_list_with g l < length l)%nat ->
  exists i x, l !! i = Some x /\ g x = 0%nat.
Proof.
  intros Hg. induction l as [|z l IH]; simpl; intros Hlt; [lia|].
  destruct (g z) as [|c] eqn:Hz.
  - by exists 0%nat, z.
  - pose proof (Hg z). destruct IH as (i & x & Hi & Hx); [lia|]. by exists (S i), x.
Qed.

Section Feed.
Context {V : Type}.

(** What a stage has put on an output tube: results, and then the stop
    request when it has been forwarded. *)
Definition feed (ys : list V) (stopped : bool) : list (envelope V) :=
  ((fun y => (Some y, 0)) <$> ys) ++ (if stopped then [(None, 0)] else []).

Lemma feed_result ys y : feed ys false ++ [(Some y, 0)] = feed (ys ++ [y]) false.
Proof. unfold feed. by rewrite !app_nil_r, fmap_app. Qed.

Lemma feed_stop ys : feed ys false ++ [(None, 0)] = feed ys true.
Proof. unfold feed. by rewrite app_nil_r. Qed.

Lemma feed_length ys b : length (feed ys b) = (length ys + if b then 1 else 0)%nat.
Proof. unfold feed. rewrite length_app, length_fmap. by destruct b. Qed.

(** The two descriptions of one content agree. *)
Lemma feed_inj ys b ys' b' : feed ys b = feed ys' b' -> ys = ys' /\ b = b'.
Proof.
  unfold feed. revert ys'. induction ys as [|y ys IH]; intros [|y' ys']; simpl.
  - destruct b, b'; done.
  - destruct b; done.
  - destruct b'; done.
  - intros H. injection H as -> H. destruct (IH _ H) as [-> ->]. done.
Qed.

(** One more envelope on a tube that a stage feeds. *)
Lemma feed_snoc ys b e ys' b' :
  feed ys b ++ [e] = feed ys' b' ->
  b = false /\
  ((exists y, e = (Some y, 0) /\ ys' = ys ++ [y] /\ b' = false) \/
   (e = (None, 0) /\ ys' = ys /\ b' = true)).
Proof.
  unfold feed. revert ys'. induction ys as [|y ys IH]; intros ys' H; simpl in *.
  - destruct b; simpl in H.
    + destruct ys' as [|? [|? ?]]; destruct b'; simplify_eq/=.
    + split; [done|]. destruct ys' as [|y' [|? ?]]; destruct b'; simplify_eq/=.
      * by right.
      * left. by exists y'.
  - destruct ys' as [|y' ys']; simpl in H.
    + destruct b'; simplify_eq/=.
    + injection H as -> H. destruct (IH _ H) as [-> [(y0 & -> & -> & ->)|(-> & -> & ->)]].
      * split; [done|]. left. by exists y0.
      * split; [done|]. by right.
Qed.

End Feed.

Section UnorderedRun.
Context {V : Type}.
Abbreviation Tube := (Tube V).
Abbreviation envelope := (envelope V).
Abbreviation payload := (payload V).
Abbreviation pc := (pc V).
Variables (f : V -> payload) (N : Z) (tin : nat) (outs : list nat).
Abbreviation n := (Z.to_nat N).
Abbreviation m := (length outs).

Local Open Scope nat_scope.

Definition unordered_class : worker_class V := {| base := UnorderedWorker; doTask := f |}.

(** A worker of the stage at the place [p], as [assemble] leaves it: the
    workers of an unordered stage differ by their places only. *)
Definition lone (p : pc) : Worker V := set_at (init2 unordered_class tin outs N) p.

(** **** The invariant *)

(** Where the stop request is: not yet put on the input tube, in the input
    tube with the count [c], in the hands of the worker [i] that puts it
    back, forwarded by the worker [i] to the first [t] output tubes, or
    forwarded to all of them. *)
Inductive stop_phase :=
| StopNotPut
| StopInTube (c : nat)
| StopInHand (i : nat)
| StopForwarding (i t : nat)
| StopForwarded.

(** The history of a state: the place of the stop request and the tasks
    that are in the input tube. *)
Record progress := Progress {
  stop_at : stop_phase;
  queued : list V;
}.

(** A worker that goes on reading tasks. *)
Definition alive (p : pc) : Prop :=
  match p with
  | AtGet | AtDoTask _ => True
  | AtPut e t ThenLoop => t < m /\ exists y, e = (Some y, 0%Z)
  | _ => False
  end.

Definition exits (p : pc) : nat :=
  match p with Exited => 1 | _ => 0 end.

(** The worker holds a task whose result is not yet on the tube number [u]. *)
Definition in_hand (u : nat) (p : pc) : nat :=
  match p with
  | AtDoTask _ => 1
  | AtPut _ t ThenLoop => if decide (t <= u) then 1 else 0
  | _ => 0
  end.

Definition stopped (φ : stop_phase) (u : nat) : bool :=
  match φ with
  | StopForwarding _ t => bool_decide (u < t)
  | StopForwarded => true
  | _ => false
  end.

Definition tokens (φ : stop_phase) : list envelope :=
  match φ with
  | StopInTube c => [(None, Z.of_nat c)]
  | _ => []
  end.

Definition phase_ok (φ : stop_phase) (closed : bool) (q : list V) (ps : list pc) : Prop :=
  match φ with
  | StopNotPut => closed = false /\ Forall alive ps
  | StopInTube c =>
      closed = true /\ sum_list_with exits ps = c /\ c < n /\
      Forall (fun p => alive p \/ p = Exited) ps
  | StopInHand i =>
      closed = true /\ q = [] /\ S (sum_list_with exits ps) < n /\
      ps !! i = Some (AtRequeue (Z.of_nat (S (sum_list_with exits ps)))) /\
      forall j p, j ≠ i -> ps !! j = Some p -> alive p \/ p = Exited
  | StopForwarding i t =>
      closed = true /\ q = [] /\ t < m /\
      ps !! i = Some (AtPut (None, 0%Z) t ThenBreak) /\
      forall j p, j ≠ i -> ps !! j = Some p -> p = Exited
  | StopForwarded =>
      closed = true /\ q = [] /\ Forall (fun p => p = Exited) ps
  end.

(** [k] tasks were put on the input tube, and the stop request too when
    [closed]. *)
Record UInv (k : nat) (closed : bool) (γ : progress) (ts : list Tube) (ps : list pc)
    : Prop := {
  uinv_places : length ps = n;
  uinv_tubes : forall t, t ∈ tin :: outs -> t < length ts;
  uinv_phase : phase_ok (stop_at γ) closed (queued γ) ps;
  uinv_input :
    tube_content ts tin = ((fun x => (Some x, 0%Z)) <$> queued γ) ++ tokens (stop_at γ);
  uinv_output : forall u t, outs !! u = Some t ->
    exists ys, tube_content ts t = feed ys (stopped (stop_at γ) u) /\
               length ys + sum_list_with (in_hand u) ps + length (queued γ) = k;
}.

Hypothesis HN : (1 <= N)%Z.
Hypothesis Hnodup : NoDup (tin :: outs).
Hypothesis Hf : forall x, is_Some (f x).

Lemma exits_le p : exits p <= 1.
Proof. destruct p; simpl; lia. Qed.

Lemma alive_exits p : alive p -> exits p = 0.
Proof. by destruct p. Qed.

Lemma alive_not_exited p : alive p -> p ≠ Exited.
Proof. by destruct p. Qed.

Lemma exits_one p : exits p = 1 -> p = Exited.
Proof. by destruct p. Qed.

Lemma lone_tin_not_out u t : outs !! u = Some t -> t ≠ tin.
Proof.
  intros Hu ->. apply NoDup_cons in Hnodup as [Hnotin _]. apply Hnotin.
  by eapply list_elem_of_lookup_2.
Qed.

Lemma lone_outs_apart u u' t : outs !! u = Some t -> outs !! u' = Some t -> u = u'.
Proof.
  intros Hu Hu'. apply NoDup_cons in Hnodup as [_ Hnd].
  by eapply NoDup_lookup.
Qed.

(** **** The invariant holds at the start *)

Lemma UInv_start ts :
  (forall t, t ∈ tin :: outs -> t < length ts /\ tube_content ts t = []) ->
  UInv 0 false (Progress StopNotPut []) ts (replicate n AtGet).
Proof.
  intros Hts. constructor; simpl.
  - by rewrite length_replicate.
  - intros t Ht. by apply Hts.
  - split; [done|]. by apply Forall_replicate.
  - apply Hts. by left.
  - intros u t Hu. exists []. split.
    + apply Hts. right. by eapply list_elem_of_lookup_2.
    + simpl. rewrite sum_list_with_zero; [done|]. by apply Forall_replicate.
Qed.

(** **** The invariant is kept when the stage is fed *)

Lemma phase_open φ q ps : phase_ok φ false q ps -> φ = StopNotPut /\ Forall alive ps.
Proof. destruct φ; simpl; intros H; destruct H as [? ?]; done. Qed.

Lemma UInv_feed k γ ts ps x :
  UInv k false γ ts ps ->
  UInv (S k) false (Progress StopNotPut (queued γ ++ [x]))
       (tube_put ts tin (Some x, 0%Z)) ps.
Proof.
  intros [Hplaces Htubes Hphase Hinput Houtput].
  destruct (phase_open _ _ _ Hphase) as [Hφ Halive]. rewrite Hφ in *.
  constructor; simpl.
  - done.
  - intros t Ht. rewrite tube_put_length. by apply Htubes.
  - done.
  - rewrite tube_content_put_eq by (apply Htubes; by left).
    rewrite Hinput. simpl. by rewrite !app_nil_r, fmap_app.
  - intros u t Hu. destruct (Houtput u t Hu) as (ys & Hys & Hk). exists ys.
    rewrite tube_content_put_ne by (symmetry; by eapply lone_tin_not_out).
    split; [done|]. rewrite length_app. simpl. lia.
Qed.

Lemma UInv_close k γ ts ps :
  UInv k false γ ts ps ->
  UInv k true (Progress (StopInTube 0) (queued γ)) (tube_put ts tin (None, 0%Z)) ps.
Proof.
  intros [Hplaces Htubes Hphase Hinput Houtput].
  destruct (phase_open _ _ _ Hphase) as [Hφ Halive]. rewrite Hφ in *.
  constructor; simpl.
  - done.
  - intros t Ht. rewrite tube_put_length. by apply Htubes.
  - split; [done|]. split.
    + apply sum_list_with_zero. eapply Forall_impl; [done|]. apply alive_exits.
    + split; [lia|]. eapply Forall_impl; [done|]. by left.
  - rewrite tube_content_put_eq by (apply Htubes; by left).
    rewrite Hinput. simpl. by rewrite app_nil_r.
  - intros u t Hu. destruct (Houtput u t Hu) as (ys & Hys & Hk). exists ys.
    rewrite tube_content_put_ne by (symmetry; by eapply lone_tin_not_out). done.
Qed.

(** **** The invariant is kept by every step of a worker *)

(** The place of a worker. *)
Lemma phase_place φ closed q ps i p :
  phase_ok φ closed q ps -> ps !! i = Some p ->
  alive p \/ p = Exited \/ φ = StopInHand i \/ exists t, φ = StopForwarding i t.
Proof.
  intros Hphase Hp. destruct φ as [|c|i0|i0 t|]; simpl in Hphase.
  - destruct Hphase as [_ Hall]. left. by eapply (Forall_lookup_1 _ _ _ _ Hall).
  - destruct Hphase as (_ & _ & _ & Hall).
    destruct (Forall_lookup_1 _ _ _ _ Hall Hp) as [?|?]; auto.
  - destruct Hphase as (_ & _ & _ & _ & Hall). destruct (decide (i = i0)) as [->|Hne]; [auto|].
    destruct (Hall i p Hne Hp) as [?|?]; auto.
  - destruct Hphase as (_ & _ & _ & _ & Hall). destruct (decide (i = i0)) as [->|Hne].
    + right. right. right. by exists t.
    + right. left. by apply (Hall i p Hne Hp).
  - destruct Hphase as (_ & _ & Hall). right. left.
    by eapply (Forall_lookup_1 _ _ _ _ Hall).
Qed.

(** A worker that reads tasks goes on. *)
Lemma phase_ok_alive φ closed q q' ps i p p' :
  phase_ok φ closed q ps -> ps !! i = Some p -> alive p -> alive p' ->
  (q = [] -> q' = []) ->
  phase_ok φ closed q' (<[i := p']> ps).
Proof.
  intros Hphase Hp Ha Ha' Hq.
  pose proof (sum_list_with_insert exits ps i p p' Hp) as Hsum.
  rewrite (alive_exits p Ha), (alive_exits p' Ha') in Hsum.
  assert (Hsame : sum_list_with exits (<[i := p']> ps) = sum_list_with exits ps) by lia.
  destruct φ as [|c|i0|i0 t|]; simpl in *.
  - destruct Hphase as [? Hall]. split; [done|]. by apply Forall_insert.
  - destruct Hphase as (? & ? & ? & Hall). rewrite Hsame. repeat (split; [done|]).
    apply Forall_insert; [done|by left].
  - destruct Hphase as (? & ? & ? & Hi0 & Hall). rewrite Hsame.
    assert (i ≠ i0) by (intros ->; rewrite Hp in Hi0; by simplify_eq).
    split; [done|]. split; [auto|]. split; [done|]. split.
    + by rewrite list_lookup_insert_ne.
    + intros j r Hj Hr. destruct (decide (j = i)) as [->|Hne].
      * rewrite list_lookup_insert_eq in Hr by (by eapply lookup_lt_Some). simplify_eq. by left.
      * rewrite list_lookup_insert_ne in Hr by done. by eapply Hall.
  - destruct Hphase as (? & ? & ? & Hi0 & Hall).
    assert (i ≠ i0) by (intros ->; rewrite Hp in Hi0; by simplify_eq).
    rewrite (Hall i p) in Ha; done.
  - destruct Hphase as (? & ? & Hall).
    rewrite (Forall_lookup_1 _ _ _ _ Hall Hp) in Ha. done.
Qed.

Lemma UInv_get k closed γ ts ls ps i ts' ls' p' :
  UInv k closed γ ts ps ->
  ps !! i = Some AtGet ->
  worker_step ts ls (lone AtGet) = Some (ts', ls', p') ->
  ls' = ls /\ exists γ', UInv k closed γ' ts' (<[i := p']> ps).
Proof.
  intros [Hplaces Htubes Hphase Hinput Houtput] Hi Hstep.
  destruct γ as [φ q]. simpl in *.
  assert (Htin : tin < length ts) by (apply Htubes; by left).
  unfold worker_step, worker_step_with in Hstep. simpl in Hstep.
  destruct q as [|x q]; simpl in Hinput.
  - (* no task in the tube *)
    destruct φ as [|c|i0|i0 t|]; simpl in Hinput;
      try (rewrite (get_at_nil ts tin Htin Hinput) in Hstep; done).
    destruct (get_at_cons ts tin _ _ Hinput) as (ts1 & Hget & Hlen & Hc1 & Hother).
    rewrite Hget in Hstep. simpl in Hstep. injection Hstep as <- <- <-.
    split; [done|]. simpl in Hphase. destruct Hphase as (Hcl & Hsum & Hc & Hall).
    pose proof (sum_list_with_insert exits ps i AtGet) as Hins.
    assert (Hout : forall φ', (forall u, u < m -> stopped φ' u = false) ->
              forall p1, (forall u, in_hand u p1 = 0) ->
              forall u t, outs !! u = Some t -> exists ys,
                tube_content ts1 t = feed ys (stopped φ' u) /\
                length ys + sum_list_with (in_hand u) (<[i := p1]> ps) + 0 = k).
    { intros φ' Hφ' p1 Hp1 u t Hu. destruct (Houtput u t Hu) as (ys & Hys & Hk).
      exists ys. rewrite Hother by (by eapply lone_tin_not_out).
      rewrite Hφ' by (by eapply lookup_lt_Some). split; [done|].
      pose proof (sum_list_with_insert (in_hand u) ps i AtGet p1 Hi) as Hh.
      rewrite Hp1 in Hh. simpl in *. lia. }
    unfold dispatch. simpl.
    destruct (Z.eqb_spec (Z.of_nat c + 1) N) as [Hlast|Hmore].
    + (* the last worker: the stop request is forwarded *)
      assert (Hothers : forall j p, j ≠ i -> ps !! j = Some p -> p = Exited).
      { intros j p Hne Hj. apply exits_one.
        assert (Hfull : sum_list_with exits ps + 1 = length ps) by lia.
        apply (sum_list_with_others exits ps i AtGet exits_le Hi eq_refl Hfull j p Hne Hj). }
      unfold put_from. simpl. case_decide as Hm.
      * exists (Progress (StopForwarding i 0) []). constructor; simpl.
        -- by rewrite length_insert.
        -- intros t Ht. rewrite Hlen. by apply Htubes.
        -- split; [done|]. split; [done|]. split; [done|]. split.
           ++ apply list_lookup_insert_eq. by eapply lookup_lt_Some.
           ++ intros j p Hne Hj. rewrite list_lookup_insert_ne in Hj by done.
              by eapply Hothers.
        -- done.
        -- apply (Hout (StopForwarding i 0)); [|done]. intros u _. done.
      * exists (Progress StopForwarded []). constructor; simpl.
        -- by rewrite length_insert.
        -- intros t Ht. rewrite Hlen. by apply Htubes.
        -- split; [done|]. split; [done|]. apply Forall_lookup. intros j p Hj.
           destruct (decide (j = i)) as [->|Hne].
           ++ rewrite list_lookup_insert_eq in Hj by (by eapply lookup_lt_Some). by simplify_eq.
           ++ rewrite list_lookup_insert_ne in Hj by done. by eapply Hothers.
        -- done.
        -- intros u t Hu. apply lookup_lt_Some in Hu. lia.
    + (* the stop request goes back to the tube *)
      exists (Progress (StopInHand i) []).
      specialize (Hins (AtRequeue (Z.of_nat c + 1)) Hi). simpl in Hins.
      assert (Hsame : sum_list_with exits (<[i := AtRequeue (Z.of_nat c + 1)]> ps) = c) by lia.
      constructor; simpl.
      * by rewrite length_insert.
      * intros t Ht. rewrite Hlen. by apply Htubes.
      * rewrite Hsame. split; [done|]. split; [done|]. split; [lia|]. split.
        -- rewrite list_lookup_insert_eq by (by eapply lookup_lt_Some).
           do 2 f_equal. lia.
        -- intros j p Hne Hj. rewrite list_lookup_insert_ne in Hj by done.
           by eapply (Forall_lookup_1 _ _ _ _ Hall).
      * done.
      * by apply (Hout (StopInHand i)).
  - (* a task *)
    destruct (get_at_cons ts tin _ _ Hinput) as (ts1 & Hget & Hlen & Hc1 & Hother).
    rewrite Hget in Hstep. simpl in Hstep. injection Hstep as <- <- <-.
    split; [done|]. exists (Progress φ q). unfold dispatch. simpl.
    constructor; simpl.
    + by rewrite length_insert.
    + intros t Ht. rewrite Hlen. by apply Htubes.
    + eapply phase_ok_alive; [done..|]. done.
    + done.
    + intros u t Hu. destruct (Houtput u t Hu) as (ys & Hys & Hk).
      exists ys. rewrite Hother by (by eapply lone_tin_not_out). split; [done|].
      pose proof (sum_list_with_insert (in_hand u) ps i AtGet (AtDoTask x) Hi) as Hh.
      simpl in *. lia.
Qed.

Lemma UInv_do_task k closed γ ts ls ps i x ts' ls' p' :
  UInv k closed γ ts ps ->
  ps !! i = Some (AtDoTask x) ->
  worker_step ts ls (lone (AtDoTask x)) = Some (ts', ls', p') ->
  ls' = ls /\ exists γ', UInv k closed γ' ts' (<[i := p']> ps).
Proof.
  intros [Hplaces Htubes Hphase Hinput Houtput] Hi Hstep.
  unfold worker_step, worker_step_with in Hstep. simpl in Hstep.
  destruct (Hf x) as [y Hy]. rewrite Hy in Hstep. injection Hstep as <- <- <-.
  split; [done|]. exists γ. unfold putResult, put_from. simpl.
  assert (Halive : alive (if decide (0 < m) then AtPut (Some y, 0%Z) 0 ThenLoop
                          else loop_head unordered_class)).
  { case_decide; simpl; [|done]. split; [done|]. by exists y. }
  constructor.
  - by rewrite length_insert.
  - done.
  - by eapply phase_ok_alive.
  - done.
  - intros u t Hu. destruct (Houtput u t Hu) as (ys & Hys & Hk).
    exists ys. split; [done|].
    pose proof (sum_list_with_insert (in_hand u) ps i (AtDoTask x)
      (if decide (0 < m) then AtPut (Some y, 0%Z) 0 ThenLoop
       else loop_head unordered_class) Hi) as Hh.
    apply lookup_lt_Some in Hu. rewrite decide_True in Hh |- * by lia.
    simpl in Hh. rewrite ?decide_True in Hh by lia. lia.
Qed.

(** A result goes on the tube number [t]. *)
Lemma UInv_publish k closed γ ts ls ps i e t ts' ls' p' :
  UInv k closed γ ts ps ->
  ps !! i = Some (AtPut e t ThenLoop) ->
  worker_step ts ls (lone (AtPut e t ThenLoop)) = Some (ts', ls', p') ->
  ls' = ls /\ exists γ', UInv k closed γ' ts' (<[i := p']> ps).
Proof.
  intros [Hplaces Htubes Hphase Hinput Houtput] Hi Hstep.
  unfold worker_step, worker_step_with in Hstep. simpl in Hstep.
  destruct (outs !! t) as [t0|] eqn:Ht0; simpl in Hstep; [|done].
  injection Hstep as <- <- <-. split; [done|]. exists γ.
  assert (Ha : alive (AtPut e t ThenLoop)).
  { destruct (phase_place _ _ _ _ _ _ Hphase Hi) as [?|[?|[Hφ|[t' Hφ]]]]; [done|done| |].
    - rewrite Hφ in Hphase. simpl in Hphase. destruct Hphase as (_ & _ & _ & Hi0 & _).
      rewrite Hi in Hi0. done.
    - rewrite Hφ in Hphase. simpl in Hphase. destruct Hphase as (_ & _ & _ & Hi0 & _).
      rewrite Hi in Hi0. done. }
  pose proof Ha as [Htm [y ->]].
  assert (Hφ : forall u, stopped (stop_at γ) u = false).
  { intros u. destruct (stop_at γ) as [|c|i0|i0 t1|]; simpl in *; try done.
    - destruct Hphase as (_ & _ & _ & Hi0 & Hall).
      assert (i ≠ i0) by (intros ->; rewrite Hi in Hi0; by simplify_eq).
      by specialize (Hall i _ ltac:(done) Hi).
    - destruct Hphase as (_ & _ & Hall).
      by pose proof (Forall_lookup_1 _ _ _ _ Hall Hi). }
  assert (Ht0' : t0 < length ts).
  { apply Htubes. right. by eapply list_elem_of_lookup_2. }
  assert (Halive : alive (put_from (lone (AtPut (Some y, 0%Z) t ThenLoop))
                            (Some y, 0%Z) (S t) ThenLoop)).
  { unfold put_from. simpl. case_decide; simpl; [|done]. split; [done|]. by exists y. }
  constructor.
  - by rewrite length_insert.
  - intros t1 Ht1. rewrite tube_put_length. by apply Htubes.
  - by eapply phase_ok_alive.
  - rewrite tube_content_put_ne by (by eapply lone_tin_not_out). done.
  - intros u t1 Hu. destruct (Houtput u t1 Hu) as (ys & Hys & Hk).
    pose proof (sum_list_with_insert (in_hand u) ps i (AtPut (Some y, 0%Z) t ThenLoop)
      (put_from (lone (AtPut (Some y, 0%Z) t ThenLoop)) (Some y, 0%Z) (S t) ThenLoop) Hi) as Hh.
    rewrite (Hφ u) in Hys. apply lookup_lt_Some in Hu as Hum.
    unfold put_from in *. simpl in Hh |- *.
    destruct (decide (u = t)) as [->|Hne].
    + rewrite Ht0 in Hu. injection Hu as ->.
      exists (ys ++ [y]). rewrite tube_content_put_eq by done.
      rewrite (Hφ t), Hys. split; [apply feed_result|]. rewrite length_app. simpl.
      repeat (case_decide; simpl in Hh); lia.
    + exists ys. rewrite (Hφ u), tube_content_put_ne.
      * split; [done|].
        repeat (case_decide; simpl in Hh); lia.
      * intros ->. apply Hne. by eapply lone_outs_apart.
Qed.

(** The stop request goes on the tube number [t]. *)
Lemma UInv_forward k closed γ ts ls ps i e t ts' ls' p' :
  UInv k closed γ ts ps ->
  ps !! i = Some (AtPut e t ThenBreak) ->
  worker_step ts ls (lone (AtPut e t ThenBreak)) = Some (ts', ls', p') ->
  ls' = ls /\ exists γ', UInv k closed γ' ts' (<[i := p']> ps).
Proof.
  intros [Hplaces Htubes Hphase Hinput Houtput] Hi Hstep.
  unfold worker_step, worker_step_with in Hstep. simpl in Hstep.
  destruct (outs !! t) as [t0|] eqn:Ht0; simpl in Hstep; [|done].
  injection Hstep as <- <- <-. split; [done|].
  destruct γ as [φ q]. simpl in *.
  destruct (phase_place _ _ _ _ _ _ Hphase Hi) as [?|[?|[Hφ|[t' Hφ]]]]; [done|done| |];
    rewrite Hφ in *; simpl in Hphase, Hinput.
  { destruct Hphase as (_ & _ & _ & Hi0 & _). rewrite Hi in Hi0. done. }
  destruct Hphase as (Hcl & -> & Htm & Hi0 & Hall).
  rewrite Hi in Hi0. injection Hi0 as -> <-.
  assert (Ht0' : t0 < length ts).
  { apply Htubes. right. by eapply list_elem_of_lookup_2. }
  assert (Hhand : forall u p1, in_hand u p1 = 0 ->
            sum_list_with (in_hand u) (<[i := p1]> ps) = sum_list_with (in_hand u) ps).
  { intros u p1 Hp1.
    pose proof (sum_list_with_insert (in_hand u) ps i _ p1 Hi) as Hh.
    rewrite Hp1 in Hh. simpl in Hh. lia. }
  unfold put_from. simpl. case_decide as Hm.
  - exists (Progress (StopForwarding i (S t)) []). constructor; simpl.
    + by rewrite length_insert.
    + intros t1 Ht1. rewrite tube_put_length. by apply Htubes.
    + split; [done|]. split; [done|]. split; [done|]. split.
      * apply list_lookup_insert_eq. by eapply lookup_lt_Some.
      * intros j p Hne Hj. rewrite list_lookup_insert_ne in Hj by done. by eapply Hall.
    + rewrite tube_content_put_ne by (by eapply lone_tin_not_out). done.
    + intros u t1 Hu. destruct (Houtput u t1 Hu) as (ys & Hys & Hk). simpl in Hys.
      exists ys. rewrite Hhand by done. split; [|done].
      destruct (decide (u = t)) as [->|Hne].
      * rewrite Ht0 in Hu. injection Hu as ->.
        rewrite tube_content_put_eq by done. rewrite Hys.
        rewrite (bool_decide_eq_false_2 (t < t)) by lia.
        rewrite (bool_decide_eq_true_2 (t < S t)) by lia. apply feed_stop.
      * rewrite tube_content_put_ne.
        -- rewrite Hys. f_equal. apply bool_decide_ext. lia.
        -- intros ->. apply Hne. by eapply lone_outs_apart.
  - exists (Progress StopForwarded []). constructor; simpl.
    + by rewrite length_insert.
    + intros t1 Ht1. rewrite tube_put_length. by apply Htubes.
    + split; [done|]. split; [done|]. apply Forall_lookup. intros j p Hj.
      destruct (decide (j = i)) as [->|Hne].
      * rewrite list_lookup_insert_eq in Hj by (by eapply lookup_lt_Some). by simplify_eq.
      * rewrite list_lookup_insert_ne in Hj by done. by eapply Hall.
    + rewrite tube_content_put_ne by (by eapply lone_tin_not_out). done.
    + intros u t1 Hu. destruct (Houtput u t1 Hu) as (ys & Hys & Hk). simpl in Hys.
      exists ys. rewrite Hhand by done. split; [|done].
      apply lookup_lt_Some in Hu as Hum.
      destruct (decide (u = t)) as [->|Hne].
      * rewrite Ht0 in Hu. injection Hu as ->.
        rewrite tube_content_put_eq by done. rewrite Hys.
        rewrite (bool_decide_eq_false_2 (t < t)) by lia. apply feed_stop.
      * rewrite tube_content_put_ne.
        -- rewrite Hys. f_equal. apply bool_decide_eq_true_2. lia.
        -- intros ->. apply Hne. by eapply lone_outs_apart.
Qed.

(** The stop request goes back on the input tube. *)
Lemma UInv_requeue k closed γ ts ls ps i c ts' ls' p' :
  UInv k closed γ ts ps ->
  ps !! i = Some (AtRequeue c) ->
  worker_step ts ls (lone (AtRequeue c)) = Some (ts', ls', p') ->
  ls' = ls /\ exists γ', UInv k closed γ' ts' (<[i := p']> ps).
Proof.
  intros [Hplaces Htubes Hphase Hinput Houtput] Hi Hstep.
  unfold worker_step, worker_step_with in Hstep. simpl in Hstep.
  injection Hstep as <- <- <-. split; [done|].
  destruct γ as [φ q]. simpl in *.
  destruct (phase_place _ _ _ _ _ _ Hphase Hi) as [?|[?|[Hφ|[t' Hφ]]]]; [done|done| |];
    rewrite Hφ in *; simpl in Hphase, Hinput.
  2:{ destruct Hphase as (_ & _ & _ & Hi0 & _). rewrite Hi in Hi0. done. }
  destruct Hphase as (Hcl & -> & Hlt & Hi0 & Hall).
  rewrite Hi in Hi0. injection Hi0 as ->.
  pose proof (sum_list_with_insert exits ps i _ Exited Hi) as Hsum. simpl in Hsum.
  exists (Progress (StopInTube (S (sum_list_with exits ps))) []). constructor; simpl.
  - by rewrite length_insert.
  - intros t1 Ht1. rewrite tube_put_length. by apply Htubes.
  - split; [done|]. split; [lia|]. split; [done|]. apply Forall_lookup. intros j p Hj.
    destruct (decide (j = i)) as [->|Hne].
    + rewrite list_lookup_insert_eq in Hj by (by eapply lookup_lt_Some). simplify_eq. by right.
    + rewrite list_lookup_insert_ne in Hj by done. by eapply Hall.
  - rewrite tube_content_put_eq by (apply Htubes; by left). by rewrite Hinput.
  - intros u t1 Hu. destruct (Houtput u t1 Hu) as (ys & Hys & Hk).
    exists ys. rewrite tube_content_put_ne by (symmetry; by eapply lone_tin_not_out).
    split; [done|].
    pose proof (sum_list_with_insert (in_hand u) ps i _ Exited Hi) as Hh.
    simpl in Hh, Hk. lia.
Qed.

Lemma UInv_work k closed γ ts ls ps i p ts' ls' p' :
  UInv k closed γ ts ps ->
  ps !! i = Some p ->
  worker_step ts ls (lone p) = Some (ts', ls', p') ->
  ls' = ls /\ exists γ', UInv k closed γ' ts' (<[i := p']> ps).
Proof.
  intros HI Hi Hstep.
  assert (Hplace : alive p \/ p = Exited \/ (exists c, p = AtRequeue c) \/
                   exists t, p = AtPut (None, 0%Z) t ThenBreak).
  { pose proof (uinv_phase _ _ _ _ _ HI) as Hphase.
    destruct (phase_place _ _ _ _ _ _ Hphase Hi) as [?|[?|[Hφ|[t Hφ]]]]; [auto..| |];
      rewrite Hφ in Hphase; simpl in Hphase.
    - destruct Hphase as (_ & _ & _ & Hi0 & _). rewrite Hi in Hi0.
      right. right. left. eexists. by injection Hi0.
    - destruct Hphase as (_ & _ & _ & Hi0 & _). rewrite Hi in Hi0.
      right. right. right. exists t. by injection Hi0. }
  destruct Hplace as [Ha|[->|[[c ->]|[t ->]]]].
  - destruct p as [| |e|x|y|e t [| |]| |c| |]; try done.
    + by eapply UInv_get.
    + by eapply UInv_do_task.
    + by eapply UInv_publish.
  - done.
  - by eapply UInv_requeue.
  - by eapply UInv_forward.
Qed.

(** **** What the stage has put on its output tubes *)

Lemma UInv_out k closed γ ts ps u t :
  UInv k closed γ ts ps -> outs !! u = Some t ->
  exists ys b, tube_content ts t = feed ys b /\ length ys <= k.
Proof.
  intros HI Hu. destruct (uinv_output _ _ _ _ _ HI u t Hu) as (ys & Hys & Hk).
  exists ys, (stopped (stop_at γ) u). split; [done|]. lia.
Qed.

(** **** A stage that cannot move has forwarded the stop request *)

Lemma UInv_done k γ ts ls ps :
  UInv k true γ ts ps ->
  (forall i p, ps !! i = Some p -> worker_step ts ls (lone p) = None) ->
  ps = replicate n Exited /\
  forall u t, outs !! u = Some t ->
    exists ys, tube_content ts t = feed ys true /\ length ys = k.
Proof.
  intros [Hplaces Htubes Hphase Hinput Houtput] Hstuck.
  destruct γ as [φ q]. simpl in *.
  assert (Htin : tin < length ts) by (apply Htubes; by left).
  assert (Hmoves : forall i p, ps !! i = Some p -> alive p ->
            tube_content ts tin ≠ [] -> False).
  { intros i p Hi Ha Hne. specialize (Hstuck i p Hi).
    unfold worker_step, worker_step_with in Hstuck.
    destruct p as [| |e|x|y|e t [| |]| |c| |]; simpl in Ha, Hstuck; try done.
    - destruct (tube_content ts tin) as [|e0 q0] eqn:Hc; [done|].
      destruct (get_at_cons ts tin e0 q0 Hc) as (ts1 & Hget & _).
      rewrite Hget in Hstuck. done.
    - by destruct (f x).
    - destruct Ha as [Ht _]. destruct (lookup_lt_is_Some_2 outs t Ht) as [t0 Ht0].
      by rewrite Ht0 in Hstuck. }
  destruct φ as [|c|i0|i0 t|]; simpl in Hphase, Hinput.
  - by destruct Hphase.
  - exfalso. destruct Hphase as (_ & Hsum & Hc & Hall).
    destruct (sum_list_with_short exits ps exits_le) as (i & p & Hi & Hp); [lia|].
    destruct (Forall_lookup_1 _ _ _ _ Hall Hi) as [Ha| ->]; [|done].
    apply (Hmoves i p Hi Ha). rewrite Hinput. by destruct q.
  - exfalso. destruct Hphase as (_ & _ & _ & Hi0 & _). by specialize (Hstuck _ _ Hi0).
  - exfalso. destruct Hphase as (_ & _ & Ht & Hi0 & _). specialize (Hstuck _ _ Hi0).
    unfold worker_step, worker_step_with in Hstuck. simpl in Hstuck.
    destruct (lookup_lt_is_Some_2 outs t Ht) as [t0 Ht0]. by rewrite Ht0 in Hstuck.
  - destruct Hphase as (_ & -> & Hall). split.
    + apply list_eq. intros i. destruct (decide (i < n)) as [Hi|Hi].
      * rewrite lookup_replicate_2 by done.
        destruct (lookup_lt_is_Some_2 ps i) as [p Hp]; [lia|].
        rewrite Hp. f_equal. by eapply (Forall_lookup_1 _ _ _ _ Hall).
      * rewrite !lookup_ge_None_2; [done| |]; [rewrite length_replicate|]; lia.
    + intros u t Hu. destruct (Houtput u t Hu) as (ys & Hys & Hk).
      exists ys. split; [done|]. simpl in Hk.
      rewrite sum_list_with_zero in Hk; [lia|].
      eapply Forall_impl; [done|]. by intros p ->.
Qed.

End UnorderedRun.

(** ** A stage that another stage feeds *)

(** The producer of a stage inside a pipeline is the stage upstream: the
    tasks are not known beforehand.  The invariant of the ordered stage is
    read with the tasks put so far and the stop request as the script. *)

Section OrderedOpen.
Context {V : Type}.
Variables (f : V -> payload V) (N : Z) (tin : nat) (outs : list nat).
Hypothesis HN : (1 <= N)%Z.
Hypothesis Hnodup : NoDup (tin :: outs).
Hypothesis Hf : forall x, is_Some (f x).

Local Open Scope nat_scope.

Lemma stream_more (xs : list V) x r :
  r < length xs -> stream N (xs ++ [x]) !! r = stream N xs !! r.
Proof.
  intros Hr. unfold stream. rewrite !lookup_app_l by (rewrite length_fmap, ?length_app; lia).
  rewrite !list_lookup_fmap. by rewrite lookup_app_l.
Qed.

Lemma expected_more (xs : list V) x r :
  r < length xs -> expected f (xs ++ [x]) !! r = expected f xs !! r.
Proof.
  intros Hr. unfold expected.
  rewrite !lookup_app_l by (rewrite length_fmap, ?length_app; lia).
  rewrite !list_lookup_fmap. by rewrite lookup_app_l.
Qed.

Lemma take_more {A} (l l' : list A) c :
  c <= length l -> c <= length l' -> (forall r, r < c -> l' !! r = l !! r) ->
  take c l' = take c l.
Proof.
  intros Hl Hl' Hsame. apply list_eq. intros r.
  destruct (decide (r < c)) as [Hr|Hr].
  - rewrite !lookup_take_lt by done. by apply Hsame.
  - rewrite !lookup_take_ge by lia. done.
Qed.

(** One more task is going to be put: nothing that has happened depends
    on it. *)
Lemma Inv_feed xs g ts ls ps x :
  Inv f N tin outs xs g (Sys [None] ts ls ps) ->
  Inv f N tin outs (xs ++ [x]) g (Sys [Some x; None] ts ls ps).
Proof.
  intros [Hplaces Hlocks Htubes Hpend Hinput Houtput Hlin Hlout Hfed Hone Hpub Hrd Hwok
          Hreader Hpublisher].
  simpl in *.
  assert (Hpos : 0 < Z.to_nat N) by lia.
  pose proof (reads_done_bounds g) as Hrb.
  assert (HL : gL g = length xs).
  { assert (Hlen : length (drop (gL g) (script xs)) = 1) by (by rewrite <- Hpend).
    rewrite length_drop in Hlen. unfold script in Hlen.
    rewrite length_app, length_fmap in Hlen. simpl in Hlen. lia. }
  assert (Hnostop : forall t, gout g ≠ OutStopping t).
  { intros t Ht. unfold publisher_ok in Hpublisher. rewrite Ht in Hpublisher.
    destruct Hpublisher as (_ & _ & _ & HLn & _). lia. }
  constructor; simpl; try done.
  - rewrite HL. unfold script. rewrite fmap_app, <- app_assoc.
    rewrite drop_app_length'; [done|by rewrite length_fmap].
  - rewrite Hinput. f_equal. apply take_more.
    + unfold stream. rewrite !length_app, !length_fmap, length_seq, ?length_app. simpl. lia.
    + unfold stream. rewrite !length_app, !length_fmap, length_seq, ?length_app. simpl. lia.
    + intros r Hr. symmetry. apply stream_more. lia.
  - intros u t Hu. rewrite (Houtput u t Hu).
    assert (Hc : gP g + (if decide (u < advanced g) then 1 else 0) <= length xs).
    { case_decide as Hadv; [|lia]. unfold advanced in Hadv.
      unfold publisher_ok in Hpublisher.
      destruct (gout g) as [|t0|t0] eqn:Hout; [lia|lia|]. by destruct (Hnostop t0). }
    apply take_more.
    + unfold expected. rewrite !length_app, !length_fmap, ?length_app. simpl. lia.
    + unfold expected. rewrite !length_app, !length_fmap, ?length_app. simpl. lia.
    + intros r Hr. symmetry. apply expected_more. lia.
  - rewrite length_app. simpl. lia.
  - rewrite length_app. simpl. lia.
  - rewrite length_app. simpl. lia.
  - intros i p Hp. specialize (Hwok i p Hp).
    destruct p as [| |e|x0|y|e t [| |]| |c| |]; simpl in *; try done;
      rewrite ?length_app; simpl.
    + destruct Hwok as (? & ? & ? & ?). repeat split; try done; lia.
    + destruct Hwok as (? & ? & ? & ?). repeat split; try done; lia.
    + destruct Hwok as (Hr & Hin & He & ? & ?). unfold reads_done in *. rewrite Hin in *.
      repeat split; try done; [|lia]. rewrite stream_more by lia. done.
    + destruct Hwok as (? & ? & Hx). split; [done|]. split; [done|].
      rewrite lookup_app_l; [done|]. by eapply lookup_lt_Some.
    + destruct Hwok as (? & ? & x1 & Hx & ?). split; [done|]. split; [done|].
      exists x1. split; [|done]. rewrite lookup_app_l; [done|]. by eapply lookup_lt_Some.
    + destruct Hwok as (? & ? & ? & ? & ? & He). repeat (split; [done|]). split; [lia|].
      rewrite expected_more by lia. done.
    + destruct Hwok as (_ & _ & Hout & _). by destruct (Hnostop t).
    + destruct Hwok as (? & ? & ? & ?). repeat (split; [done|]). lia.
    + lia.
    + lia.
  - unfold publisher_ok in *. destruct (gout g) as [|t|t] eqn:Hout; [done| |].
    + rewrite length_app. simpl. destruct Hpublisher as (? & ? & ?). split; [done|].
      split; [lia|done].
    + by destruct (Hnostop t).
Qed.


(** The invariant with the tasks [xs] put so far, and the stop request
    put when [closed]. *)
Definition OInv (xs : list V) (closed : bool) (ts : list (Tube V)) (ls : list bool)
    (ps : list (pc V)) : Prop :=
  exists g, Inv f N tin outs xs g (Sys (if closed then [] else [None]) ts ls ps).

Lemma every_task_has_result (xs : list V) : forall x, x ∈ xs -> is_Some (f x).
Proof. intros x _. apply Hf. Qed.

Lemma OInv_start ts :
  (forall t, t ∈ tin :: outs -> t < length ts /\ tube_content ts t = []) ->
  OInv [] false ts ([false; false] ++ replicate (2 * (Z.to_nat N - 1)) true)
       (replicate (Z.to_nat N) AtAcquireInput).
Proof. intros Hts. exists history0. by apply (Inv_start f N tin outs [] HN ts). Qed.

Lemma OInv_feed xs ts ls ps x :
  OInv xs false ts ls ps ->
  OInv (xs ++ [x]) false (tube_put ts tin (Some x, 0%Z)) ls ps.
Proof.
  intros [g HI]. eexists.
  apply (Inv_put f N tin outs (xs ++ [x]) HN Hnodup g (Some x) [None]).
  by apply Inv_feed.
Qed.

Lemma OInv_close xs ts ls ps :
  OInv xs false ts ls ps -> OInv xs true (tube_put ts tin (None, 0%Z)) ls ps.
Proof.
  intros [g HI]. eexists. by apply (Inv_put f N tin outs xs HN Hnodup g None []).
Qed.

Lemma OInv_work xs closed ts ls ps i p ts' ls' p' :
  OInv xs closed ts ls ps ->
  ps !! i = Some p ->
  worker_step ts ls (ring f N tin outs i p) = Some (ts', ls', p') ->
  OInv xs closed ts' ls' (<[i := p']> ps).
Proof.
  intros [g HI] Hi Hstep.
  by apply (Inv_work f N tin outs xs HN Hnodup (every_task_has_result xs) g i p _ ts ls ps).
Qed.

(** The result of a task. *)
Definition result_of (x : V) : V := default x (f x).

Lemma expected_feed xs : expected f xs = feed (result_of <$> xs) true.
Proof.
  unfold expected, feed. f_equal. rewrite <- list_fmap_compose.
  apply list_fmap_ext. intros _ x _. simpl. unfold result_of.
  by destruct (Hf x) as [y ->].
Qed.

Lemma feed_take (ys : list V) c :
  take c (feed ys true) = feed (take c ys) (bool_decide (length ys < c)).
Proof.
  unfold feed. rewrite take_app, length_fmap, fmap_take.
  f_equal. case_bool_decide as Hc.
  - destruct (c - length ys) as [|d] eqn:Hd; [lia|]. simpl. by rewrite take_nil.
  - replace (c - length ys) with 0 by lia. done.
Qed.

Lemma OInv_out xs closed ts ls ps u t :
  OInv xs closed ts ls ps -> outs !! u = Some t ->
  exists ys b, tube_content ts t = feed ys b /\ length ys <= length xs.
Proof.
  intros [g HI] Hu. pose proof (inv_output f N tin outs xs g _ HI u t Hu) as Hout.
  simpl in Hout. rewrite expected_feed, feed_take in Hout.
  eexists _, _. split; [done|]. rewrite length_take, length_fmap. lia.
Qed.

Lemma OInv_done xs ts ls ps :
  OInv xs true ts ls ps ->
  (forall i p, ps !! i = Some p -> worker_step ts ls (ring f N tin outs i p) = None) ->
  ps = replicate (Z.to_nat N) Exited /\
  forall u t, outs !! u = Some t ->
    exists ys, tube_content ts t = feed ys true /\ length ys = length xs.
Proof.
  intros [g HI] Hstuck.
  destruct (stuck_finished f N tin outs xs HN g _ HI) as (_ & Hps & Hout).
  { intros σ' Hstep. inversion Hstep as [|i p ? ? ? ? ts' ls' p' Hp Hs]; subst.
    rewrite (Hstuck i p Hp) in Hs. done. }
  simpl in *. split; [done|]. intros u t Hu. exists (result_of <$> xs).
  rewrite Hout by (by eapply list_elem_of_lookup_2).
  split; [apply expected_feed|by rewrite length_fmap].
Qed.

End OrderedOpen.

(** ** A worker inside a pipeline *)

Section WorkerFacts.
Context {V : Type}.
Abbreviation Tube := (Tube V).
Abbreviation Worker := (Worker V).
Abbreviation pc := (pc V).

Local Open Scope nat_scope.

(** What a step does to the tubes. *)
Inductive tube_effect (tin : nat) (outs : list nat) (ts ts' : list Tube) : Prop :=
| effect_none : ts' = ts -> tube_effect tin outs ts ts'
| effect_get e :
    tube_content ts tin = e :: tube_content ts' tin ->
    length ts' = length ts ->
    (forall t, t ≠ tin -> tube_content ts' t = tube_content ts t) ->
    tube_effect tin outs ts ts'
| effect_requeue e : ts' = tube_put ts tin e -> tube_effect tin outs ts ts'
| effect_put u t e :
    outs !! u = Some t -> ts' = tube_put ts t e -> tube_effect tin outs ts ts'.

(** A worker sees of the tubes the content of its input tube only: with
    other tubes [vts] that hold the same there, it takes the same step. *)
Lemma worker_step_virtual (wk : Worker) (ts vts : list Tube) ls ts' ls' p' :
  length vts = length ts ->
  tube_content vts (_tube_task_input wk) = tube_content ts (_tube_task_input wk) ->
  worker_step ts ls wk = Some (ts', ls', p') ->
  exists vts',
    worker_step vts ls wk = Some (vts', ls', p') /\
    ((ts' = ts /\ vts' = vts) \/
     (exists e, tube_content ts (_tube_task_input wk)
                = e :: tube_content ts' (_tube_task_input wk) /\
        tube_content vts' (_tube_task_input wk) = tube_content ts' (_tube_task_input wk) /\
        length ts' = length ts /\ length vts' = length vts /\
        forall t, t ≠ _tube_task_input wk ->
          tube_content ts' t = tube_content ts t /\
          tube_content vts' t = tube_content vts t) \/
     (exists e, ts' = tube_put ts (_tube_task_input wk) e /\
                vts' = tube_put vts (_tube_task_input wk) e) \/
     (exists u t e, _tubes_result_output wk !! u = Some t /\
                    ts' = tube_put ts t e /\ vts' = tube_put vts t e)).
Proof.
  intros Hlen Hsame. unfold worker_step, worker_step_with.
  destruct (at_pc wk) as [| |e|x|y|e t a| |c| |] eqn:Hpc.
  - destruct (lock_acquire ls (_lock_prev_input wk)) as [ls1|e1|]; intros H; simplify_eq;
      eexists; (split; [done|]); by left.
  - destruct (tube_content ts (_tube_task_input wk)) as [|e q] eqn:Hc.
    + destruct (decide (_tube_task_input wk < length ts)) as [Hlt|Hge].
      * rewrite (get_at_nil ts _ Hlt Hc). done.
      * unfold get_at. rewrite !lookup_ge_None_2 by lia. intros H. simplify_eq.
        eexists. split; [done|]. by left.
    + destruct (get_at_cons ts _ e q Hc) as (ts1 & Hget & Hlen1 & Hc1 & Hother).
      destruct (get_at_cons vts _ e q Hsame) as (vts1 & Hvget & Hvlen1 & Hvc1 & Hvother).
      rewrite Hget, Hvget.
      destruct (base (w_class wk)); intros H; simplify_eq;
        (eexists; split; [done|]); right; left; exists e;
        repeat (split; [done|]); intros t Ht; by rewrite Hother, Hvother.
  - destruct (lock_release ls (_lock_next_input wk)) as [ls1|e1|]; intros H; simplify_eq;
      eexists; (split; [done|]); by left.
  - destruct (doTask (w_class wk) x); intros H; simplify_eq;
      eexists; (split; [done|]); by left.
  - destruct (lock_acquire ls (_lock_prev_output wk)) as [ls1|e1|]; intros H; simplify_eq;
      eexists; (split; [done|]); by left.
  - destruct (_tubes_result_output wk !! t) as [t0|] eqn:Ht0; simpl; intros H; simplify_eq.
    eexists. split; [done|]. right. right. right. by exists t, t0, e.
  - destruct (lock_release ls (_lock_next_output wk)) as [ls1|e1|]; intros H; simplify_eq;
      eexists; (split; [done|]); by left.
  - intros H. simplify_eq. eexists. split; [done|]. right. right. left. by eexists.
  - done.
  - done.
Qed.

(** **** What is left to do decreases *)

Lemma put_from_weight_of (wk : Worker) e j a :
  place_weight (_tubes_result_output wk) (put_from wk e j a)
  <= (length (_tubes_result_output wk) - j) + after_weight (_tubes_result_output wk) a.
Proof.
  unfold put_from. case_decide; simpl; [lia|].
  destruct a; simpl; unfold loop_head; destruct (base (w_class wk)); simpl; lia.
Qed.

Lemma dispatch_stop_weight_of (wk : Worker) c :
  place_weight (_tubes_result_output wk) (dispatch wk (None, c))
  <= length (_tubes_result_output wk) + 1.
Proof.
  unfold dispatch. simpl. destruct (_ =? _)%Z; simpl; [|lia].
  pose proof (put_from_weight_of wk (None, 0%Z) 0 ThenBreak). simpl in *. lia.
Qed.

Lemma worker_step_weight (wk : Worker) (ts : list Tube) ls ts' ls' p' :
  _tube_task_input wk ∉ _tubes_result_output wk ->
  worker_step ts ls wk = Some (ts', ls', p') ->
  sum_list_with (envelope_weight (_tubes_result_output wk))
                (tube_content ts' (_tube_task_input wk))
  + place_weight (_tubes_result_output wk) p'
  < sum_list_with (envelope_weight (_tubes_result_output wk))
                  (tube_content ts (_tube_task_input wk))
    + place_weight (_tubes_result_output wk) (at_pc wk).
Proof.
  intros Hnotin. unfold worker_step, worker_step_with.
  pose proof (dispatch_stop_weight_of wk 0%Z) as Hstop.
  destruct (at_pc wk) as [| |e|x|y|e t a| |c| |] eqn:Hpc; simpl.
  - destruct (lock_acquire ls (_lock_prev_input wk)) as [ls1|e1|]; intros Hs; simplify_eq;
      simpl; lia.
  - destruct (get_at ts (_tube_task_input wk) None) as [[[e|] ts1]| |] eqn:Hget;
      try (intros Hs; simplify_eq; lia).
    rewrite (get_weight _ _ _ _ _ Hget).
    pose proof (dispatch_stop_weight_of wk (snd e)) as Hstop'.
    destruct (base (w_class wk)); intros Hs; simplify_eq;
      destruct e as [[x|] c]; unfold envelope_weight, dispatch in *; simpl in *; lia.
  - pose proof (dispatch_stop_weight_of wk (snd e)) as Hstop'.
    destruct (lock_release ls (_lock_next_input wk)) as [ls1|e1|]; intros Hs; simplify_eq;
      destruct e as [[x|] c]; unfold dispatch in *; simpl in *; lia.
  - pose proof (put_from_weight_of wk (Some x, 0%Z) 0 ThenLoop) as Hput.
    destruct (doTask (w_class wk) x) as [y|]; intros Hs; simplify_eq.
    + unfold putResult. pose proof (put_from_weight_of wk (Some y, 0%Z) 0 ThenLoop).
      destruct (base (w_class wk)); simpl in *; lia.
    + unfold loop_head. destruct (base (w_class wk)); simpl; lia.
  - pose proof (put_from_weight_of wk (Some y, 0%Z) 0 ThenReleaseOutput).
    destruct (lock_acquire ls (_lock_prev_output wk)) as [ls1|e1|]; intros Hs; simplify_eq;
      simpl in *; lia.
  - destruct (_tubes_result_output wk !! t) as [t0|] eqn:Ht0; simpl; intros Hs; simplify_eq.
    pose proof (put_from_weight_of wk e (S t) a).
    apply lookup_lt_Some in Ht0 as Hlt.
    rewrite tube_content_put_ne; [lia|].
    intros ->. apply Hnotin. by eapply list_elem_of_lookup_2.
  - destruct (lock_release ls (_lock_next_output wk)) as [ls1|e1|]; intros Hs; simplify_eq;
      unfold loop_head; destruct (base (w_class wk)); simpl; lia.
  - intros Hs. simplify_eq.
    pose proof (put_weight (_tubes_result_output wk) ts (_tube_task_input wk) (None, c)).
    unfold envelope_weight in *. simpl in *. lia.
  - done.
  - done.
Qed.

End WorkerFacts.

(** ** A pipeline of stages *)

Lemma bind_lookup_unique {A B} (g : A -> list B) (l : list A) i j a b u v t :
  NoDup (l ≫= g) ->
  l !! i = Some a -> l !! j = Some b -> g a !! u = Some t -> g b !! v = Some t ->
  i = j /\ u = v.
Proof.
  revert i j. induction l as [|a0 l IH]; intros i j Hnd Hi Hj Hu Hv; [done|].
  rewrite bind_cons in Hnd. apply NoDup_app in Hnd as (Hnd0 & Hapart & Hnd1).
  assert (Hin : forall c k, l !! k = Some c -> forall w, g c !! w = Some t ->
                            t ∈ l ≫= g).
  { intros c k Hk w Hw. apply list_elem_of_bind. exists c. split.
    - by eapply list_elem_of_lookup_2.
    - by eapply list_elem_of_lookup_2. }
  destruct i as [|i], j as [|j]; simpl in Hi, Hj; simplify_eq.
  - split; [done|]. apply (NoDup_lookup _ _ _ _ Hnd0 Hu Hv).
  - exfalso. eapply Hapart; [by eapply list_elem_of_lookup_2|]. by eapply Hin.
  - exfalso. eapply Hapart; [by eapply list_elem_of_lookup_2|]. by eapply Hin.
  - destruct (IH i j Hnd1 Hi Hj Hu Hv) as [-> ->]. done.
Qed.

Section Pipeline.
Context {V : Type}.
Abbreviation payload := (payload V).
Abbreviation envelope := (envelope V).
Abbreviation Tube := (Tube V).
Abbreviation Worker := (Worker V).
Abbreviation Stage := (Stage V).
Abbreviation World := (World V).
Abbreviation pc := (pc V).
Variable root : nat.

(** The producer puts its payloads on the stage [root] and the workers of
    every stage take steps, in any order. *)
Inductive pipeline_run : relation (list payload * World) :=
| pipe_put task pend w w' :
    Stage_put root task w = Some w' -> pipeline_run (task :: pend, w) (pend, w')
| pipe_work s i pend w w' :
    process_step s i w = Some w' -> pipeline_run (pend, w) (pend, w').

Variables (w0 : World) (rank : nat -> nat).

Local Open Scope nat_scope.

(** The heap holds one pipeline, built and not yet fed: the stages form a
    tree below [root]; every stage has a pool of one worker at least,
    started by [build], an output tube at least, and a transform that
    returns a result for every task; the tubes are empty, and no tube is the
    output tube of two stages or twice of one. *)
Record built_tree : Prop := {
  bt_root : is_Some (stages w0 !! root);
  bt_reach : forall s, is_Some (stages w0 !! s) -> reaches w0 root s;
  bt_rank : ranked_by rank w0 = true;
  bt_size : forall s st, stages w0 !! s = Some st -> (1 <= _size st)%Z;
  bt_workers : forall s st, stages w0 !! s = Some st ->
    (workers st, locks st)
    = assemble (_worker_class st) (_input_tube st) (_output_tubes st) (_size st) [];
  bt_outs : forall s st, stages w0 !! s = Some st -> _output_tubes st ≠ [];
  bt_tubes : forall s st t, stages w0 !! s = Some st ->
    t ∈ _input_tube st :: _output_tubes st ->
    t < length (tubes w0) /\ tube_content (tubes w0) t = [];
  bt_links : forall s st u c, stages w0 !! s = Some st ->
    _next_stages st !! u = Some c ->
    exists stc, stages w0 !! c = Some stc /\
                _output_tubes st !! u = Some (_input_tube stc);
  bt_apart : forall st, stages w0 !! root = Some st ->
    NoDup (_input_tube st :: (stages w0 ≫= _output_tubes));
  bt_transforms : forall s st x, stages w0 !! s = Some st ->
    is_Some (doTask (_worker_class st) x);
}.

Hypothesis Hbt : built_tree.

(** **** The shape of the tree *)

Lemma out_unique s s' st st' u u' t :
  stages w0 !! s = Some st -> stages w0 !! s' = Some st' ->
  _output_tubes st !! u = Some t -> _output_tubes st' !! u' = Some t ->
  s = s' /\ u = u'.
Proof.
  intros Hs Hs' Hu Hu'. destruct (bt_root Hbt) as [str Hr].
  pose proof (bt_apart Hbt str Hr) as Hnd. apply NoDup_cons in Hnd as [_ Hnd].
  by eapply (bind_lookup_unique _output_tubes).
Qed.

Lemma root_not_out str s st u :
  stages w0 !! root = Some str -> stages w0 !! s = Some st ->
  _output_tubes st !! u ≠ Some (_input_tube str).
Proof.
  intros Hr Hs Hu. pose proof (bt_apart Hbt str Hr) as Hnd.
  apply NoDup_cons in Hnd as [Hnotin _]. apply Hnotin.
  apply list_elem_of_bind. exists st. split; by eapply list_elem_of_lookup_2.
Qed.

(** A stage other than the root has a stage upstream. *)
Lemma parent_of s st :
  stages w0 !! s = Some st -> s ≠ root ->
  exists p stp u, stages w0 !! p = Some stp /\ _next_stages stp !! u = Some s /\
                  _output_tubes stp !! u = Some (_input_tube st).
Proof.
  intros Hs Hne. pose proof (bt_reach Hbt s (mk_is_Some _ _ Hs)) as Hreach.
  apply rtc_inv_r in Hreach as [?|(p & _ & stp & Hp & Hc)]; [congruence|].
  apply list_elem_of_lookup in Hc as [u Hu].
  destruct (bt_links Hbt p stp u s Hp Hu) as (st' & Hs' & Hout).
  rewrite Hs in Hs'. simplify_eq. by exists p, stp, u.
Qed.

Lemma tin_inj s s' st st' :
  stages w0 !! s = Some st -> stages w0 !! s' = Some st' ->
  _input_tube st = _input_tube st' -> s = s'.
Proof.
  intros Hs Hs' Htin. destruct (decide (s = root)) as [->|Hne];
    destruct (decide (s' = root)) as [->|Hne']; [done| | |].
  - destruct (parent_of s' st' Hs' Hne') as (p & stp & u & Hp & _ & Hout).
    rewrite <- Htin in Hout. by destruct (root_not_out st p stp u Hs Hp).
  - destruct (parent_of s st Hs Hne) as (p & stp & u & Hp & _ & Hout).
    rewrite Htin in Hout. by destruct (root_not_out st' p stp u Hs' Hp).
  - destruct (parent_of s st Hs Hne) as (p & stp & u & Hp & Hnext & Hout).
    destruct (parent_of s' st' Hs' Hne') as (p' & stp' & u' & Hp' & Hnext' & Hout').
    rewrite Htin in Hout.
    destruct (out_unique p p' stp stp' u u' _ Hp Hp' Hout Hout') as [-> ->].
    rewrite Hp in Hp'. simplify_eq. congruence.
Qed.

Lemma tin_not_own_out s st u :
  stages w0 !! s = Some st -> _output_tubes st !! u ≠ Some (_input_tube st).
Proof.
  intros Hs Hu. destruct (decide (s = root)) as [->|Hne].
  - by destruct (root_not_out st root st u Hs Hs).
  - destruct (parent_of s st Hs Hne) as (p & stp & u' & Hp & Hnext & Hout).
    destruct (out_unique s p st stp u u' _ Hs Hp Hu Hout) as [-> ->].
    rewrite Hs in Hp. simplify_eq.
    destruct (ranked_by_spec rank w0 p stp p (bt_rank Hbt) Hs) as [_ Hlt]; [|lia].
    by eapply list_elem_of_lookup_2.
Qed.

Lemma stage_tubes_apart s st :
  stages w0 !! s = Some st -> NoDup (_input_tube st :: _output_tubes st).
Proof.
  intros Hs. apply NoDup_cons. split.
  - intros Hin. apply list_elem_of_lookup in Hin as [u Hu].
    by destruct (tin_not_own_out s st u Hs).
  - apply NoDup_alt. intros u u' t Hu Hu'.
    by destruct (out_unique s s st st u u' t Hs Hs Hu Hu').
Qed.

(** A tube that leaves the pipeline is the input tube of no stage. *)
Lemma terminal_not_tin s st u t c stc :
  stages w0 !! s = Some st -> _output_tubes st !! u = Some t ->
  _next_stages st !! u = None ->
  stages w0 !! c = Some stc -> _input_tube stc ≠ t.
Proof.
  intros Hs Hu Hnone Hc <-. destruct (decide (c = root)) as [->|Hne].
  - by destruct (root_not_out stc s st u Hc Hs).
  - destruct (parent_of c stc Hc Hne) as (p & stp & u' & Hp & Hnext & Hout).
    destruct (out_unique s p st stp u u' _ Hs Hp Hu Hout) as [-> ->].
    rewrite Hs in Hp. simplify_eq.
Qed.

(** The stage downstream of a tube. *)
Lemma child_unique s s' st st' u u' c :
  stages w0 !! s = Some st -> stages w0 !! s' = Some st' ->
  _next_stages st !! u = Some c -> _next_stages st' !! u' = Some c ->
  s = s' /\ u = u'.
Proof.
  intros Hs Hs' Hu Hu'.
  destruct (bt_links Hbt s st u c Hs Hu) as (stc & Hc & Hout).
  destruct (bt_links Hbt s' st' u' c Hs' Hu') as (stc' & Hc' & Hout').
  rewrite Hc in Hc'. simplify_eq. by eapply out_unique.
Qed.

End Pipeline.

(** *** A stage of either class *)

Section StageInterface.
Context {V : Type}.
Abbreviation Tube := (Tube V).
Abbreviation Worker := (Worker V).
Abbreviation pc := (pc V).
Variable st0 : Stage V.
Abbreviation cls := (_worker_class st0).
Abbreviation N := (_size st0).
Abbreviation tin := (_input_tube st0).
Abbreviation outs := (_output_tubes st0).
Abbreviation n := (Z.to_nat (_size st0)).

Local Open Scope nat_scope.

(** The invariant of the stage, with the tasks [h] put on its input tube so
    far, and the stop request too when [closed]. *)
Definition stage_inv (h : list V) (closed : bool) (ts : list Tube) (ls : list bool)
    (ps : list pc) : Prop :=
  match base cls with
  | OrderedWorker => OInv (doTask cls) N tin outs h closed ts ls ps
  | UnorderedWorker => exists γ, UInv N tin outs (length h) closed γ ts ps
  end.

Hypothesis HN : (1 <= N)%Z.
Hypothesis Hnodup : NoDup (tin :: outs).
Hypothesis Hf : forall x, is_Some (doTask cls x).
Hypothesis Hasm : (workers st0, locks st0) = assemble cls tin outs N [].

Lemma ordered_class_eta : base cls = OrderedWorker -> cls = ordered_class (doTask cls).
Proof. unfold ordered_class. destruct cls as [b d]. simpl. by intros ->. Qed.

Lemma unordered_class_eta :
  base cls = UnorderedWorker -> cls = unordered_class (doTask cls).
Proof. unfold unordered_class. destruct cls as [b d]. simpl. by intros ->. Qed.

(** The workers that [assemble] has left. *)
Lemma workers_ordered :
  base cls = OrderedWorker ->
  workers st0 = (fun i => ring (doTask cls) N tin outs i AtAcquireInput) <$> seq 0 n /\
  locks st0 = [false; false] ++ replicate (2 * (n - 1)) true.
Proof.
  intros Hb. pose proof Hasm as H.
  rewrite (assemble_ring cls tin outs N n Hb eq_refl ltac:(lia)) in H.
  injection H as -> ->. split; [|done]. unfold ring.
  by rewrite <- (ordered_class_eta Hb).
Qed.

Lemma workers_unordered :
  base cls = UnorderedWorker ->
  workers st0 = replicate n (lone (doTask cls) N tin outs AtGet) /\ locks st0 = [].
Proof.
  intros Hb. pose proof Hasm as H. unfold assemble in H. rewrite Hb in H.
  injection H as -> ->. split; [|done]. unfold lone.
  rewrite <- (unordered_class_eta Hb). f_equal.
  unfold init2, set_at, loop_head. simpl. by rewrite Hb.
Qed.

Lemma workers_length : length (workers st0) = n.
Proof.
  destruct (base cls) eqn:Hb.
  - destruct (workers_ordered Hb) as [-> _]. by rewrite length_fmap, length_seq.
  - destruct (workers_unordered Hb) as [-> _]. by rewrite length_replicate.
Qed.

Lemma worker_tubes i wk0 p :
  workers st0 !! i = Some wk0 ->
  _tube_task_input (set_at wk0 p) = tin /\ _tubes_result_output (set_at wk0 p) = outs /\
  at_pc (set_at wk0 p) = p.
Proof.
  intros Hi. destruct (base cls) eqn:Hb.
  - destruct (workers_ordered Hb) as [Hws _]. rewrite Hws in Hi.
    rewrite list_lookup_fmap in Hi. destruct (seq 0 n !! i); by simplify_eq/=.
  - destruct (workers_unordered Hb) as [Hws _]. rewrite Hws in Hi.
    apply lookup_replicate in Hi as [-> _]. done.
Qed.

(** **** At the start *)

Lemma stage_inv_start ts :
  (forall t, t ∈ tin :: outs -> t < length ts /\ tube_content ts t = []) ->
  stage_inv [] false ts (locks st0) (at_pc <$> workers st0).
Proof.
  intros Hts. unfold stage_inv. destruct (base cls) eqn:Hb.
  - destruct (workers_ordered Hb) as [-> ->].
    rewrite <- list_fmap_compose.
    replace ((at_pc ∘ _) <$> seq 0 n) with (replicate n (@AtAcquireInput V)).
    + by apply OInv_start.
    + apply list_eq. intros i. rewrite list_lookup_fmap.
      destruct (decide (i < n)) as [Hi|Hi].
      * by rewrite lookup_replicate_2, lookup_seq_lt.
      * rewrite lookup_seq_ge by lia. simpl. apply lookup_ge_None_2.
        rewrite length_replicate. lia.
  - destruct (workers_unordered Hb) as [-> _]. rewrite fmap_replicate. simpl.
    eexists. by apply UInv_start.
Qed.

(** **** The stage is fed *)

Lemma stage_inv_feed h ts ls ps x :
  stage_inv h false ts ls ps ->
  stage_inv (h ++ [x]) false (tube_put ts tin (Some x, 0%Z)) ls ps.
Proof.
  unfold stage_inv. destruct (base cls).
  - by apply OInv_feed.
  - intros [γ HI]. eexists. rewrite length_app, Nat.add_1_r.
    by apply UInv_feed.
Qed.

Lemma stage_inv_close h ts ls ps :
  stage_inv h false ts ls ps -> stage_inv h true (tube_put ts tin (None, 0%Z)) ls ps.
Proof.
  unfold stage_inv. destruct (base cls).
  - by apply OInv_close.
  - intros [γ HI]. eexists. by apply UInv_close.
Qed.

(** **** A worker takes a step *)

Lemma stage_inv_work h closed ts ls ps i p wk0 ts' ls' p' :
  stage_inv h closed ts ls ps ->
  ps !! i = Some p ->
  workers st0 !! i = Some wk0 ->
  worker_step ts ls (set_at wk0 p) = Some (ts', ls', p') ->
  stage_inv h closed ts' ls' (<[i := p']> ps).
Proof.
  unfold stage_inv. intros HI Hp Hwk Hstep. destruct (base cls) eqn:Hb.
  - destruct (workers_ordered Hb) as [Hws _]. rewrite Hws in Hwk.
    rewrite list_lookup_fmap in Hwk.
    destruct (seq 0 n !! i) as [j|] eqn:Hj; simplify_eq/=.
    apply lookup_seq in Hj as [-> _]. simpl in Hstep.
    by eapply (OInv_work (doTask cls) N tin outs HN Hnodup Hf).
  - destruct (workers_unordered Hb) as [Hws _]. rewrite Hws in Hwk.
    apply lookup_replicate in Hwk as [-> _]. destruct HI as [γ HI].
    destruct (UInv_work (doTask cls) N tin outs HN Hnodup Hf _ _ _ _ _ _ _ _ _ _ _
                HI Hp Hstep) as [_ [γ' HI']].
    by exists γ'.
Qed.

Lemma stage_inv_out h closed ts ls ps u t :
  stage_inv h closed ts ls ps -> outs !! u = Some t ->
  exists ys b, tube_content ts t = feed ys b /\ length ys <= length h.
Proof.
  unfold stage_inv. intros HI Hu. destruct (base cls).
  - by eapply (OInv_out (doTask cls) N tin outs Hf).
  - destruct HI as [γ HI]. by eapply (UInv_out N tin outs).
Qed.

Lemma stage_inv_places h closed ts ls ps :
  stage_inv h closed ts ls ps -> length ps = n.
Proof.
  unfold stage_inv. intros HI. destruct (base cls).
  - destruct HI as [g HI]. apply (inv_places _ _ _ _ _ _ _ HI).
  - destruct HI as [γ HI]. apply (uinv_places _ _ _ _ _ _ _ _ HI).
Qed.

Lemma stage_inv_tubes h closed ts ls ps t :
  stage_inv h closed ts ls ps -> t ∈ tin :: outs -> t < length ts.
Proof.
  unfold stage_inv. intros HI. destruct (base cls).
  - destruct HI as [g HI]. apply (inv_tubes _ _ _ _ _ _ _ HI).
  - destruct HI as [γ HI]. apply (uinv_tubes _ _ _ _ _ _ _ _ HI).
Qed.

(** **** A stage that cannot move *)

Lemma stage_inv_done h ts ls ps :
  stage_inv h true ts ls ps ->
  (forall i p wk0, ps !! i = Some p -> workers st0 !! i = Some wk0 ->
                   worker_step ts ls (set_at wk0 p) = None) ->
  ps = replicate n Exited /\
  forall u t, outs !! u = Some t ->
    exists ys, tube_content ts t = feed ys true /\ length ys = length h.
Proof.
  intros HI Hstuck. pose proof (stage_inv_places _ _ _ _ _ HI) as Hlen.
  unfold stage_inv in HI. destruct (base cls) eqn:Hb.
  - destruct (workers_ordered Hb) as [Hws _].
    apply (OInv_done (doTask cls) N tin outs HN Hf h ts ls ps HI).
    intros i p Hp. apply lookup_lt_Some in Hp as Hi.
    apply (Hstuck i p (ring (doTask cls) N tin outs i AtAcquireInput) Hp).
    rewrite Hws, list_lookup_fmap, lookup_seq_lt by lia. done.
  - destruct (workers_unordered Hb) as [Hws _]. destruct HI as [γ HI].
    apply (UInv_done (doTask cls) N tin outs HN _ γ ts ls ps HI).
    intros i p Hp. apply lookup_lt_Some in Hp as Hi.
    apply (Hstuck i p (lone (doTask cls) N tin outs AtGet) Hp).
    rewrite Hws. apply lookup_replicate_2. lia.
Qed.

End StageInterface.

(** *** Steps of a world *)

Section WorldSteps.
Context {V : Type}.
Abbreviation Tube := (Tube V).
Abbreviation Worker := (Worker V).
Abbreviation Stage := (Stage V).
Abbreviation World := (World V).
Abbreviation pc := (pc V).

Local Open Scope nat_scope.

Lemma process_step_inv s i (w w' : World) :
  process_step s i w = Some w' ->
  exists st wk ts' ls' p',
    stages w !! s = Some st /\ workers st !! i = Some wk /\
    worker_step (tubes w) (locks st) wk = Some (ts', ls', p') /\
    w' = {| tubes := ts';
            stages := <[s := set_run st (<[i := set_at wk p']> (workers st)) ls']>
                        (stages w) |}.
Proof.
  unfold process_step. intros H.
  destruct (stages w !! s) as [st|] eqn:Hst; simpl in H; [|done].
  destruct (workers st !! i) as [wk|] eqn:Hwk; simpl in H; [|done].
  destruct (worker_step (tubes w) (locks st) wk) as [[[ts' ls'] p']|] eqn:Hstep;
    simpl in H; [|done].
  injection H as <-. by exists st, wk, ts', ls', p'.
Qed.

Lemma places_lookup (w : World) s st :
  stages w !! s = Some st -> places w s = at_pc <$> workers st.
Proof. unfold places. by intros ->. Qed.

Lemma locks_of_lookup (w : World) s st :
  stages w !! s = Some st -> locks_of w s = locks st.
Proof. unfold locks_of. by intros ->. Qed.

Lemma places_same (w w' : World) s :
  stages w' !! s = stages w !! s -> places w' s = places w s.
Proof. unfold places. by intros ->. Qed.

Lemma locks_of_same (w w' : World) s :
  stages w' !! s = stages w !! s -> locks_of w' s = locks_of w s.
Proof. unfold locks_of. by intros ->. Qed.

Lemma tube_content_put (ts vts : list Tube) t e :
  length vts = length ts -> tube_content vts t = tube_content ts t ->
  tube_content (tube_put vts t e) t = tube_content (tube_put ts t e) t.
Proof.
  intros Hlen Hc. destruct (decide (t < length ts)) as [Ht|Ht].
  - rewrite !tube_content_put_eq by lia. by rewrite Hc.
  - unfold tube_content, tube_put. rewrite !list_lookup_alter_eq.
    rewrite !lookup_ge_None_2 by lia. done.
Qed.

(** The step of a worker seen on its own tubes: it touches its input tube
    only, or it puts an envelope on one of its output tubes. *)
Lemma worker_step_seen (wk : Worker) (ts vts : list Tube) ls ts' ls' p' :
  length vts = length ts ->
  tube_content vts (_tube_task_input wk) = tube_content ts (_tube_task_input wk) ->
  worker_step ts ls wk = Some (ts', ls', p') ->
  exists vts',
    worker_step vts ls wk = Some (vts', ls', p') /\
    length ts' = length ts /\ length vts' = length vts /\
    ((tube_content vts' (_tube_task_input wk) = tube_content ts' (_tube_task_input wk) /\
      forall t, t ≠ _tube_task_input wk ->
        tube_content ts' t = tube_content ts t /\
        tube_content vts' t = tube_content vts t) \/
     (exists u t e, _tubes_result_output wk !! u = Some t /\
                    ts' = tube_put ts t e /\ vts' = tube_put vts t e)).
Proof.
  intros Hlen Hsame Hstep.
  destruct (worker_step_virtual wk ts vts ls ts' ls' p' Hlen Hsame Hstep)
    as (vts' & Hv & Heff).
  exists vts'. split; [done|].
  destruct Heff as [[-> ->]|[(e & Hc & Hc' & Hl & Hl' & Hother)|[(e & -> & ->)|
                    (u & t & e & Hu & -> & ->)]]].
  - split; [done|]. split; [done|]. left. done.
  - split; [done|]. split; [done|]. left. done.
  - rewrite !tube_put_length. split; [done|]. split; [done|]. left. split.
    + by apply tube_content_put.
    + intros t Ht. by rewrite !tube_content_put_ne.
  - rewrite !tube_put_length. split; [done|]. split; [done|]. right. by exists u, t, e.
Qed.

(** A sum over the stages, by their names. *)
Fixpoint sum_from {A} (F : nat -> A -> nat) (j : nat) (l : list A) : nat :=
  match l with
  | [] => 0
  | a :: l => F j a + sum_from F (S j) l
  end.

Lemma sum_from_le {A} (F F' : nat -> A -> nat) (l : list A) : forall j,
  (forall i a, l !! i = Some a -> F' (j + i) a <= F (j + i) a) ->
  sum_from F' j l <= sum_from F j l.
Proof.
  induction l as [|a l IH]; intros j Hle; simpl; [lia|].
  pose proof (Hle 0 a eq_refl) as H0. rewrite Nat.add_0_r in H0.
  specialize (IH (S j)). 
  assert (sum_from F' (S j) l <= sum_from F (S j) l); [|lia].
  apply IH. intros i b Hi. replace (S j + i) with (j + S i) by lia. by apply Hle.
Qed.

Lemma sum_from_lt {A} (F F' : nat -> A -> nat) (l : list A) : forall j,
  (forall i a, l !! i = Some a -> F' (j + i) a <= F (j + i) a) ->
  (exists i a, l !! i = Some a /\ F' (j + i) a < F (j + i) a) ->
  sum_from F' j l < sum_from F j l.
Proof.
  induction l as [|a l IH]; intros j Hle (i & b & Hi & Hlt); [done|]. simpl.
  pose proof (Hle 0 a eq_refl) as H0. rewrite Nat.add_0_r in H0.
  assert (Htail : forall i a, l !! i = Some a -> F' (S j + i) a <= F (S j + i) a).
  { intros i' b' Hi'. replace (S j + i') with (j + S i') by lia. by apply Hle. }
  destruct i as [|i]; simpl in Hi.
  - simplify_eq. rewrite Nat.add_0_r in Hlt.
    pose proof (sum_from_le F F' l (S j) Htail). lia.
  - assert (sum_from F' (S j) l < sum_from F (S j) l); [|lia].
    apply IH; [done|]. exists i, b. split; [done|].
    by replace (S j + i) with (j + S i) by lia.
Qed.

End WorldSteps.

(** *** The invariant of a pipeline *)

Section PipelineInvariant.
Context {V : Type}.
Abbreviation payload := (payload V).
Abbreviation Tube := (Tube V).
Abbreviation Worker := (Worker V).
Abbreviation Stage := (Stage V).
Abbreviation World := (World V).
Abbreviation pc := (pc V).
Variables (root : nat) (w0 : World) (rank : nat -> nat) (xs : list V).
Hypothesis Hbt : built_tree root w0 rank.

Local Open Scope nat_scope.

(** The stage [st] is the stage [st0] with its workers somewhere in [run]. *)
Definition runs_as (st0 st : Stage) : Prop :=
  st = set_run st0 (workers st) (locks st) /\
  length (workers st) = length (workers st0) /\
  forall i wk0, workers st0 !! i = Some wk0 ->
    exists p, workers st !! i = Some (set_at wk0 p).

Definition same_shape (w : World) : Prop :=
  length (stages w) = length (stages w0) /\
  forall s st0, stages w0 !! s = Some st0 ->
    exists st, stages w !! s = Some st /\ runs_as st0 st.

(** The history of a state, stage by stage: the tasks put on the input
    tube, whether the stop request was put on it, and the tubes as the stage
    sees them: its input tube with what it holds and its output tubes with
    all that the stage has put on them. *)
Record ghost := Ghost {
  fed : nat -> list V;
  closed : nat -> bool;
  seen : nat -> list Tube;
}.

(** The output tubes of the stage [s]: what the stage has put on a tube is
    what the stage downstream was fed, or it is in the tube. *)
Definition outputs_linked (Γ : ghost) (w : World) (s : nat) (st0 : Stage) : Prop :=
  forall u t, _output_tubes st0 !! u = Some t ->
    match _next_stages st0 !! u with
    | Some c => tube_content (seen Γ s) t = feed (fed Γ c) (closed Γ c)
    | None => tube_content (seen Γ s) t = tube_content (tubes w) t
    end.

Record stage_kept (Γ : ghost) (w : World) (s : nat) (st0 : Stage) : Prop := {
  sk_inv : stage_inv st0 (fed Γ s) (closed Γ s) (seen Γ s) (locks_of w s) (places w s);
  sk_len : length (seen Γ s) = length (tubes w);
  sk_in : tube_content (seen Γ s) (_input_tube st0)
          = tube_content (tubes w) (_input_tube st0);
  sk_out : outputs_linked Γ w s st0;
  sk_bound : length (fed Γ s) <= length xs;
}.

(** What the producer has put on the root. *)
Definition root_fed (Γ : ghost) (pend : list payload) : Prop :=
  if closed Γ root then fed Γ root = xs /\ pend = []
  else exists rest, xs = fed Γ root ++ rest /\ pend = script rest.

Record kept (Γ : ghost) (pend : list payload) (w : World) : Prop := {
  k_shape : same_shape w;
  k_root : root_fed Γ pend;
  k_stage : forall s st0, stages w0 !! s = Some st0 -> stage_kept Γ w s st0;
}.

(** What is left to do in the stage [s], with the tasks that it has still
    to be fed. *)
Definition stage_measure (Γ : ghost) (w : World) (s : nat) (st0 : Stage) : nat :=
  (length xs - length (fed Γ s)) * (length (_output_tubes st0) + 7)
  + (if closed Γ s then 0 else 1)
  + sum_list_with (envelope_weight (_output_tubes st0))
                  (tube_content (tubes w) (_input_tube st0))
  + sum_list_with (place_weight (_output_tubes st0)) (places w s).

Definition pipeline_measure (Γ : ghost) (w : World) : nat :=
  sum_from (stage_measure Γ w) 0 (stages w0).

(** **** Facts of the stages *)

Lemma stage_facts s st0 :
  stages w0 !! s = Some st0 ->
  (1 <= _size st0)%Z /\ NoDup (_input_tube st0 :: _output_tubes st0) /\
  (forall x, is_Some (doTask (_worker_class st0) x)) /\
  (workers st0, locks st0)
  = assemble (_worker_class st0) (_input_tube st0) (_output_tubes st0) (_size st0) [].
Proof.
  intros Hs. split; [by eapply (bt_size _ _ _ Hbt)|].
  split; [by eapply stage_tubes_apart|].
  split; [intros x; by eapply (bt_transforms _ _ _ Hbt)|].
  by eapply (bt_workers _ _ _ Hbt).
Qed.

Lemma runs_as_static st0 st :
  runs_as st0 st ->
  _input_tube st = _input_tube st0 /\ _output_tubes st = _output_tubes st0 /\
  _next_stages st = _next_stages st0.
Proof. intros [-> _]. done. Qed.

(** **** What a stage does not see *)

Lemma stage_kept_frame Γ Γ' w w' s st0 :
  stage_kept Γ w s st0 ->
  fed Γ' s = fed Γ s -> closed Γ' s = closed Γ s -> seen Γ' s = seen Γ s ->
  locks_of w' s = locks_of w s -> places w' s = places w s ->
  length (tubes w') = length (tubes w) ->
  tube_content (tubes w') (_input_tube st0) = tube_content (tubes w) (_input_tube st0) ->
  (forall u t, _output_tubes st0 !! u = Some t ->
     match _next_stages st0 !! u with
     | Some c => fed Γ' c = fed Γ c /\ closed Γ' c = closed Γ c
     | None => tube_content (tubes w') t = tube_content (tubes w) t
     end) ->
  stage_kept Γ' w' s st0 /\ stage_measure Γ' w' s st0 = stage_measure Γ w s st0.
Proof.
  intros [Hinv Hlen Hin Hout Hbound] Hfed Hclosed Hseen Hlocks Hplaces Hlen' Hin' Hout'.
  split.
  - constructor.
    + by rewrite Hfed, Hclosed, Hseen, Hlocks, Hplaces.
    + by rewrite Hseen, Hlen'.
    + by rewrite Hseen, Hin'.
    + intros u t Hu. specialize (Hout u t Hu). specialize (Hout' u t Hu).
      destruct (_next_stages st0 !! u) as [c|].
      * destruct Hout' as [-> ->]. by rewrite Hseen.
      * by rewrite Hseen, Hout'.
    + by rewrite Hfed.
  - unfold stage_measure. by rewrite Hfed, Hclosed, Hin', Hplaces.
Qed.

(** **** The invariant holds at the start *)

Definition ghost0 : ghost :=
  {| fed := fun _ => []; closed := fun _ => false; seen := fun _ => tubes w0 |}.

Lemma kept_start : kept ghost0 (script xs) w0.
Proof.
  constructor.
  - split; [done|]. intros s st0 Hs. exists st0. split; [done|]. split; [|split; [done|]].
    + by destruct st0.
    + intros i wk0 Hi. exists (at_pc wk0). rewrite Hi. f_equal. by destruct wk0.
  - unfold root_fed. simpl. by exists xs.
  - intros s st0 Hs. destruct (stage_facts s st0 Hs) as (HN & Hnd & Hf & Hasm).
    constructor; simpl.
    + rewrite (places_lookup w0 s st0 Hs), (locks_of_lookup w0 s st0 Hs).
      apply stage_inv_start; [done..|]. intros t Ht. by eapply (bt_tubes _ _ _ Hbt).
    + done.
    + done.
    + intros u t Hu. simpl. destruct (_next_stages st0 !! u); [|done].
      eapply (bt_tubes _ _ _ Hbt); [done|]. right. by eapply list_elem_of_lookup_2.
    + lia.
Qed.


(** **** A stage is fed *)

(** The envelope [e] after the tasks [h]: one more task, or the stop
    request. *)
Definition feeds (e : envelope V) (h h' : list V) (closed' : bool) : Prop :=
  (exists x, e = (Some x, 0%Z) /\ h' = h ++ [x] /\ closed' = false) \/
  (e = (None, 0%Z) /\ h' = h /\ closed' = true).

Lemma child_not_self s st0 u : stages w0 !! s = Some st0 -> _next_stages st0 !! u ≠ Some s.
Proof.
  intros Hs Hu. destruct (bt_links _ _ _ Hbt s st0 u s Hs Hu) as (st' & Hs' & Hout).
  rewrite Hs in Hs'. simplify_eq. by eapply tin_not_own_out.
Qed.

Lemma stage_kept_fed Γ Γ' w w' c stc e :
  stages w0 !! c = Some stc ->
  stage_kept Γ w c stc -> closed Γ c = false ->
  feeds e (fed Γ c) (fed Γ' c) (closed Γ' c) ->
  seen Γ' c = tube_put (seen Γ c) (_input_tube stc) e ->
  tubes w' = tube_put (tubes w) (_input_tube stc) e ->
  locks_of w' c = locks_of w c -> places w' c = places w c ->
  (forall c', c' ≠ c -> fed Γ' c' = fed Γ c' /\ closed Γ' c' = closed Γ c') ->
  length (fed Γ' c) <= length xs ->
  stage_kept Γ' w' c stc /\ stage_measure Γ' w' c stc < stage_measure Γ w c stc.
Proof.
  intros Hc [Hinv Hlen Hin Hout Hbound] Hopen Hfeeds Hseen Htubes Hlocks Hplaces Hrest Hle.
  destruct (stage_facts c stc Hc) as (HN & Hnd & Hf & Hasm).
  assert (Htin : _input_tube stc < length (tubes w)).
  { rewrite <- Hlen. eapply stage_inv_tubes; [done|]. by left. }
  rewrite Hopen in Hinv. split.
  - constructor.
    + rewrite Hseen, Hlocks, Hplaces.
      destruct Hfeeds as [(x & -> & -> & ->)|(-> & -> & ->)].
      * by apply stage_inv_feed.
      * by apply stage_inv_close.
    + by rewrite Hseen, Htubes, !tube_put_length.
    + rewrite Hseen, Htubes. by apply tube_content_put.
    + intros u t Hu. specialize (Hout u t Hu).
      assert (Hne : _input_tube stc ≠ t).
      { intros <-. apply NoDup_cons in Hnd as [Hnotin _]. apply Hnotin.
        by eapply list_elem_of_lookup_2. }
      rewrite Hseen, Htubes, !tube_content_put_ne by done.
      destruct (_next_stages stc !! u) as [c'|] eqn:Hnext; [|done].
      destruct (Hrest c') as [-> ->]; [|done].
      intros ->. by eapply child_not_self.
    + done.
  - unfold stage_measure. rewrite Hplaces, Htubes, Hopen.
    rewrite tube_content_put_eq by done. rewrite sum_list_with_app. simpl.
    destruct Hfeeds as [(x & -> & Hh & ->)|(-> & -> & ->)].
    + rewrite Hh in Hle |- *. rewrite length_app in Hle |- *. simpl in Hle |- *.
      unfold envelope_weight. simpl.
      replace (length xs - length (fed Γ c))
        with (S (length xs - (length (fed Γ c) + 1))) by lia.
      simpl. lia.
    + unfold envelope_weight. simpl. lia.
Qed.

Definition upd {A} (g : nat -> A) (s : nat) (v : A) : nat -> A :=
  fun s' => if decide (s' = s) then v else g s'.

Lemma upd_eq {A} (g : nat -> A) s v : upd g s v s = v.
Proof. unfold upd. by rewrite decide_True. Qed.

Lemma upd_ne {A} (g : nat -> A) s v s' : s' ≠ s -> upd g s v s' = g s'.
Proof. intros. unfold upd. by rewrite decide_False. Qed.

(** No stage is upstream of the root. *)
Lemma root_not_child s st0 u : stages w0 !! s = Some st0 -> _next_stages st0 !! u ≠ Some root.
Proof.
  intros Hs Hu. destruct (bt_links _ _ _ Hbt s st0 u root Hs Hu) as (str & Hr & Hout).
  exact (root_not_out root w0 rank Hbt str s st0 u Hr Hs Hout).
Qed.

(** **** The producer puts a payload *)

Lemma kept_put Γ task pend w w' :
  kept Γ (task :: pend) w -> Stage_put root task w = Some w' ->
  exists Γ', kept Γ' pend w' /\ pipeline_measure Γ' w' < pipeline_measure Γ w.
Proof.
  intros [Hshape Hroot Hstage] Hput. destruct (bt_root _ _ _ Hbt) as [str Hr].
  destruct (proj2 Hshape root str Hr) as (st & Hst & Hruns).
  destruct (runs_as_static _ _ Hruns) as (Htin & _).
  unfold Stage_put in Hput. rewrite Hst in Hput. simpl in Hput. injection Hput as <-.
  rewrite Htin.
  unfold root_fed in Hroot. destruct (closed Γ root) eqn:Hopen; [by destruct Hroot|].
  destruct Hroot as (rest & Hxs & Hpend).
  set (e := (task, 0%Z)).
  assert (Hcase : exists h' c', feeds e (fed Γ root) h' c' /\ length h' <= length xs /\
            root_fed (Ghost (upd (fed Γ) root h') (upd (closed Γ) root c') (seen Γ)) pend).
  { unfold root_fed. simpl. destruct rest as [|x rest].
    - injection Hpend as -> ->. exists (fed Γ root), true. rewrite !upd_eq.
      split; [by right|].
      rewrite app_nil_r in Hxs. split; [by rewrite Hxs|done].
    - injection Hpend as -> ->. exists (fed Γ root ++ [x]), false. rewrite !upd_eq. split.
      + left. by exists x.
      + split; [rewrite Hxs, !length_app; simpl; lia|]. exists rest.
        by rewrite <- app_assoc. }
  destruct Hcase as (h' & c' & Hfeeds & Hle & Hroot').
  set (Γ' := Ghost (upd (fed Γ) root h') (upd (closed Γ) root c')
                   (upd (seen Γ) root (tube_put (seen Γ root) (_input_tube str) e))).
  set (w' := {| tubes := tube_put (tubes w) (_input_tube str) e; stages := stages w |}).
  assert (Hall : forall s st0, stages w0 !! s = Some st0 ->
            stage_kept Γ' w' s st0 /\
            (if decide (s = root) then stage_measure Γ' w' s st0 < stage_measure Γ w s st0
             else stage_measure Γ' w' s st0 = stage_measure Γ w s st0)).
  { intros s st0 Hs. case_decide as Hsr.
    - subst s. rewrite Hr in Hs. injection Hs as <-.
      apply (stage_kept_fed Γ Γ' w w' root str e); try done.
      + by apply Hstage.
      + simpl. by rewrite !upd_eq.
      + simpl. by rewrite upd_eq.
      + intros c Hc. simpl. by rewrite !upd_ne.
      + simpl. by rewrite upd_eq.
    - apply (stage_kept_frame Γ Γ' w w' s st0); try done.
      + by apply Hstage.
      + simpl. by rewrite upd_ne.
      + simpl. by rewrite upd_ne.
      + simpl. by rewrite upd_ne.
      + simpl. by rewrite tube_put_length.
      + simpl. rewrite tube_content_put_ne; [done|]. intros Heq. apply Hsr.
        symmetry. by eapply (tin_inj root w0 rank Hbt root s str st0).
      + intros u t Hu. destruct (_next_stages st0 !! u) as [c|] eqn:Hnext.
        * simpl. rewrite !upd_ne; [done|..]; intros ->; by eapply root_not_child.
        * simpl. rewrite tube_content_put_ne; [done|].
          by eapply (terminal_not_tin root w0 rank Hbt s st0 u t root str). }
  exists Γ'. split.
  - constructor; [done| |intros s st0 Hs; by apply Hall].
    unfold root_fed in *. simpl in *. done.
  - apply sum_from_lt.
    + intros i a Hi. simpl. destruct (Hall i a Hi) as [_ Hm]. case_decide; lia.
    + exists root, str. split; [done|]. simpl. destruct (Hall root str Hr) as [_ Hm].
      by rewrite decide_True in Hm.
Qed.


(** **** A worker takes a step *)

(** The worker that takes the step, and the world after the step. *)
Lemma process_step_shape w s i w' :
  same_shape w -> process_step s i w = Some w' ->
  exists st0 wk0 p ts' ls' p',
    stages w0 !! s = Some st0 /\ workers st0 !! i = Some wk0 /\
    places w s !! i = Some p /\
    worker_step (tubes w) (locks_of w s) (set_at wk0 p) = Some (ts', ls', p') /\
    tubes w' = ts' /\ locks_of w' s = ls' /\ places w' s = <[i := p']> (places w s) /\
    (forall s', s' ≠ s -> stages w' !! s' = stages w !! s') /\
    same_shape w'.
Proof.
  intros [Hlen Hshape] Hstep.
  destruct (process_step_inv s i w w' Hstep) as (st & wk & ts' & ls' & p' & Hst & Hwk & Hws & ->).
  destruct (lookup_lt_is_Some_2 (stages w0) s) as [st0 Hs0].
  { rewrite <- Hlen. by eapply lookup_lt_Some. }
  destruct (Hshape s st0 Hs0) as (st_ & Hst_ & Hruns). rewrite Hst in Hst_. simplify_eq.
  destruct Hruns as (Hstatic & Hwlen & Hworkers).
  destruct (lookup_lt_is_Some_2 (workers st0) i) as [wk0 Hwk0].
  { rewrite <- Hwlen. by eapply lookup_lt_Some. }
  destruct (Hworkers i wk0 Hwk0) as [p Hp]. rewrite Hwk in Hp. simplify_eq.
  exists st0, wk0, p, ts', ls', p'. split; [done|]. split; [done|].
  rewrite (places_lookup w s st_ Hst), (locks_of_lookup w s st_ Hst).
  split; [by rewrite list_lookup_fmap, Hwk|]. split; [done|]. split; [done|].
  assert (Hs' : stages {| tubes := ts';
                          stages := <[s := set_run st_ (<[i := set_at (set_at wk0 p) p']>
                                      (workers st_)) ls']> (stages w) |} !! s
                = Some (set_run st_ (<[i := set_at wk0 p']> (workers st_)) ls')).
  { simpl. rewrite list_lookup_insert_eq; [done|]. by eapply lookup_lt_Some. }
  split; [by rewrite (locks_of_lookup _ s _ Hs')|].
  split; [rewrite (places_lookup _ s _ Hs'); simpl; by rewrite list_fmap_insert|].
  split; [intros s' Hne; simpl; by rewrite list_lookup_insert_ne|].
  split; [simpl; by rewrite length_insert|].
  intros s1 st1 Hs1. destruct (decide (s1 = s)) as [->|Hne].
  - rewrite Hs0 in Hs1. simplify_eq. eexists. split; [exact Hs'|].
    split; [simpl; by rewrite Hstatic|]. split; [simpl; by rewrite length_insert|].
    intros j wkj Hj. simpl. destruct (decide (j = i)) as [->|Hji].
    + rewrite Hwk0 in Hj. simplify_eq. exists p'.
      rewrite list_lookup_insert_eq; [done|]. by eapply lookup_lt_Some.
    + rewrite list_lookup_insert_ne by done. by apply Hworkers.
  - simpl. rewrite list_lookup_insert_ne by done. by apply Hshape.
Qed.

Lemma kept_work Γ pend w s i w' :
  kept Γ pend w -> process_step s i w = Some w' ->
  exists Γ', kept Γ' pend w' /\ pipeline_measure Γ' w' < pipeline_measure Γ w.
Proof.
  intros [Hshape Hroot Hstage] Hstep.
  destruct (process_step_shape w s i w' Hshape Hstep)
    as (st0 & wk0 & p & ts' & ls' & p' & Hs & Hwk0 & Hp & Hws & Hts' & Hls' & Hps' &
        Hothers & Hshape').
  destruct (stage_facts s st0 Hs) as (HN & Hnd & Hf & Hasm).
  destruct (worker_tubes st0 HN Hf Hasm i wk0 p Hwk0) as (Hwtin & Hwouts & Hwpc).
  pose proof (Hstage s st0 Hs) as [Hinv Hlen Hin Hout Hbound].
  assert (Htin_out : _input_tube st0 ∉ _output_tubes st0).
  { by apply NoDup_cons in Hnd as [? _]. }
  (* the step, as the stage sees it *)
  destruct (worker_step_seen (set_at wk0 p) (tubes w) (seen Γ s) (locks_of w s) ts' ls' p')
    as (vts' & Hv & Hlts' & Hlvts' & Heffect); [done|by rewrite Hwtin|done|].
  rewrite Hwtin, Hwouts in Heffect.
  pose proof (stage_inv_work st0 HN Hnd Hf Hasm _ _ _ _ _ i p wk0 vts' ls' p' Hinv Hp Hwk0 Hv)
    as Hinv'.
  (* what is left to do in the stage *)
  pose proof (worker_step_weight (set_at wk0 p) (tubes w) (locks_of w s) ts' ls' p') as Hweight.
  rewrite Hwtin, Hwouts, Hwpc in Hweight. specialize (Hweight Htin_out Hws).
  pose proof (sum_list_with_insert (place_weight (_output_tubes st0)) (places w s) i p p' Hp)
    as Hins.
  assert (Hmeasure : forall Γ', fed Γ' s = fed Γ s -> closed Γ' s = closed Γ s ->
            stage_measure Γ' w' s st0 < stage_measure Γ w s st0).
  { intros Γ' Hfed Hclosed. unfold stage_measure.
    rewrite Hfed, Hclosed, Hps', Hts'. lia. }
  assert (Hplaces_other : forall s', s' ≠ s -> places w' s' = places w s').
  { intros s' Hne. apply places_same. by apply Hothers. }
  assert (Hlocks_other : forall s', s' ≠ s -> locks_of w' s' = locks_of w s').
  { intros s' Hne. apply locks_of_same. by apply Hothers. }
  destruct Heffect as [[Hsame Hrest]|(u & t & e & Hu & Hput & Hvput)].
  - (* the step touches the input tube of the stage only *)
    set (Γ' := Ghost (fed Γ) (closed Γ) (upd (seen Γ) s vts')).
    assert (Hall : forall s1 st1, stages w0 !! s1 = Some st1 ->
              stage_kept Γ' w' s1 st1 /\
              (if decide (s1 = s) then stage_measure Γ' w' s1 st1 < stage_measure Γ w s1 st1
               else stage_measure Γ' w' s1 st1 = stage_measure Γ w s1 st1)).
    { intros s1 st1 Hs1. case_decide as Hs1s.
      - subst s1. rewrite Hs in Hs1. injection Hs1 as <-. split; [|by apply Hmeasure].
        constructor; simpl; rewrite ?upd_eq, ?Hls', ?Hps', ?Hts'; try done.
        + lia.
        + intros u t Hu. simpl. rewrite upd_eq, Hts'.
          assert (Hne : t ≠ _input_tube st0).
          { intros ->. apply Htin_out. by eapply list_elem_of_lookup_2. }
          destruct (Hrest t Hne) as [-> ->]. by apply Hout.
      - apply (stage_kept_frame Γ Γ' w w' s1 st1); simpl; rewrite ?upd_ne by done;
          try done; rewrite ?Hts'.
        + by apply Hstage.
        + by apply Hlocks_other.
        + by apply Hplaces_other.
        + lia.
        + apply Hrest. intros Heq. apply Hs1s.
          by eapply (tin_inj root w0 rank Hbt s1 s st1 st0).
        + intros u t Hu. destruct (_next_stages st1 !! u) eqn:Hnext; [done|].
          apply Hrest. symmetry.
          by eapply (terminal_not_tin root w0 rank Hbt s1 st1 u t s st0). }
    exists Γ'. split.
    + constructor; [done|done|intros s1 st1 Hs1; by apply Hall].
    + apply sum_from_lt.
      * intros j a Hj. simpl. destruct (Hall j a Hj) as [_ Hm]. case_decide; lia.
      * exists s, st0. split; [done|]. simpl. destruct (Hall s st0 Hs) as [_ Hm].
        by rewrite decide_True in Hm.
  - (* the step puts an envelope on an output tube *)
    assert (Hne : t ≠ _input_tube st0).
    { intros ->. apply Htin_out. by eapply list_elem_of_lookup_2. }
    assert (Htlt : t < length (seen Γ s)).
    { eapply stage_inv_tubes; [exact Hinv|]. right. by eapply list_elem_of_lookup_2. }
    assert (Hother_out : forall u1 t1, _output_tubes st0 !! u1 = Some t1 -> u1 ≠ u -> t1 ≠ t).
    { intros u1 t1 Hu1 Hne1 ->. apply Hne1.
      by destruct (out_unique root w0 rank Hbt s s st0 st0 u1 u t Hs Hs Hu1 Hu). }
    destruct (_next_stages st0 !! u) as [c|] eqn:Hnext.
    + (* the tube feeds the stage downstream *)
      destruct (bt_links _ _ _ Hbt s st0 u c Hs Hnext) as (stc & Hc & Htc).
      rewrite Hu in Htc. injection Htc as ->.
      assert (Hcs : c ≠ s).
      { intros Heq. rewrite Heq in Hnext. exact (child_not_self s st0 u Hs Hnext). }
      pose proof (Hout u _ Hu) as Hfeed. rewrite Hnext in Hfeed.
      destruct (stage_inv_out st0 Hf _ _ _ _ _ u _ Hinv' Hu) as (ys' & b' & Hys' & Hle').
      rewrite Hvput, tube_content_put_eq, Hfeed in Hys' by done.
      destruct (feed_snoc _ _ _ _ _ Hys') as [Hopen Hfeeds].
      set (Γ' := Ghost (upd (fed Γ) c ys') (upd (closed Γ) c b')
                       (upd (upd (seen Γ) s vts') c
                            (tube_put (seen Γ c) (_input_tube stc) e))).
      assert (Hall : forall s1 st1, stages w0 !! s1 = Some st1 ->
                stage_kept Γ' w' s1 st1 /\
                (if decide (s1 = s)
                 then stage_measure Γ' w' s1 st1 < stage_measure Γ w s1 st1
                 else stage_measure Γ' w' s1 st1 <= stage_measure Γ w s1 st1)).
      { intros s1 st1 Hs1. case_decide as Hs1s.
        - subst s1. rewrite Hs in Hs1. injection Hs1 as <-.
          split; [|apply Hmeasure; simpl; by rewrite upd_ne].
          constructor; simpl; rewrite ?(upd_ne _ c) by done;
            rewrite ?upd_eq, ?Hls', ?Hps', ?Hts'; try done.
          + lia.
          + rewrite Hvput, Hput, !tube_content_put_ne by done. done.
          + intros u1 t1 Hu1. simpl. rewrite (upd_ne _ c) by done. rewrite upd_eq, Hts'.
            destruct (decide (u1 = u)) as [->|Hne1].
            * rewrite Hu in Hu1. injection Hu1 as <-. rewrite Hnext, !upd_eq.
              rewrite Hvput, tube_content_put_eq, Hfeed by done. done.
            * pose proof (Hother_out u1 t1 Hu1 Hne1) as Hne2.
              rewrite Hvput, Hput, !tube_content_put_ne by done.
              pose proof (Hout u1 t1 Hu1) as Hl.
              destruct (_next_stages st0 !! u1) as [c1|] eqn:Hnext1; [|done].
              rewrite !upd_ne; [done|..]; intros ->;
                by destruct (child_unique root w0 rank Hbt s s st0 st0 u1 u c Hs Hs
                               Hnext1 Hnext).
        - destruct (decide (s1 = c)) as [->|Hs1c].
          + rewrite Hc in Hs1. injection Hs1 as <-.
            destruct (stage_kept_fed Γ Γ' w w' c stc e) as [Hk Hm]; try done.
            * by apply Hstage.
            * simpl. by rewrite !upd_eq.
            * simpl. by rewrite upd_eq.
            * by rewrite Hts'.
            * by apply Hlocks_other.
            * by apply Hplaces_other.
            * intros c' Hc'. simpl. by rewrite !upd_ne.
            * simpl. rewrite upd_eq. lia.
            * split; [done|lia].
          + destruct (stage_kept_frame Γ Γ' w w' s1 st1) as [Hk Hm]; simpl;
              rewrite ?upd_ne by done; try done; rewrite ?Hts'.
            * by apply Hstage.
            * by apply Hlocks_other.
            * by apply Hplaces_other.
            * lia.
            * rewrite Hput, tube_content_put_ne; [done|]. intros Heq. apply Hs1c.
              symmetry. by eapply (tin_inj root w0 rank Hbt c s1 stc st1).
            * intros u1 t1 Hu1. destruct (_next_stages st1 !! u1) as [c1|] eqn:Hnext1.
              -- rewrite !upd_ne; [done|..]; intros ->; apply Hs1s;
                   by destruct (child_unique root w0 rank Hbt s1 s st1 st0 u1 u c Hs1 Hs
                                  Hnext1 Hnext).
              -- rewrite Hput, tube_content_put_ne; [done|].
                 by eapply (terminal_not_tin root w0 rank Hbt s1 st1 u1 t1 c stc).
            * split; [done|lia]. }
      exists Γ'. split.
      * constructor; [done| |intros s1 st1 Hs1; by apply Hall].
        unfold root_fed in *. simpl.
        assert (Hcr : root ≠ c).
        { intros Heq. rewrite <- Heq in Hnext. exact (root_not_child s st0 u Hs Hnext). }
        by rewrite !upd_ne.
      * apply sum_from_lt.
        -- intros j a Hj. simpl. destruct (Hall j a Hj) as [_ Hm]. case_decide; lia.
        -- exists s, st0. split; [done|]. simpl. destruct (Hall s st0 Hs) as [_ Hm].
           by rewrite decide_True in Hm.
    + (* the tube leaves the pipeline *)
      set (Γ' := Ghost (fed Γ) (closed Γ) (upd (seen Γ) s vts')).
      assert (Hall : forall s1 st1, stages w0 !! s1 = Some st1 ->
                stage_kept Γ' w' s1 st1 /\
                (if decide (s1 = s)
                 then stage_measure Γ' w' s1 st1 < stage_measure Γ w s1 st1
                 else stage_measure Γ' w' s1 st1 = stage_measure Γ w s1 st1)).
      { intros s1 st1 Hs1. case_decide as Hs1s.
        - subst s1. rewrite Hs in Hs1. injection Hs1 as <-. split; [|by apply Hmeasure].
          constructor; simpl; rewrite ?upd_eq, ?Hls', ?Hps', ?Hts'; try done.
          + lia.
          + rewrite Hvput, Hput, !tube_content_put_ne by done. done.
          + intros u1 t1 Hu1. simpl. rewrite upd_eq, Hts'.
            pose proof (Hout u1 t1 Hu1) as Hl.
            destruct (decide (u1 = u)) as [->|Hne1].
            * rewrite Hu in Hu1. injection Hu1 as <-. rewrite Hnext in Hl |- *.
              rewrite Hvput, Hput. by apply tube_content_put.
            * pose proof (Hother_out u1 t1 Hu1 Hne1) as Hne2.
              rewrite Hvput, Hput, !tube_content_put_ne by done. done.
        - apply (stage_kept_frame Γ Γ' w w' s1 st1); simpl; rewrite ?upd_ne by done;
            try done; rewrite ?Hts'.
          + by apply Hstage.
          + by apply Hlocks_other.
          + by apply Hplaces_other.
          + lia.
          + rewrite Hput, tube_content_put_ne; [done|]. apply not_eq_sym.
            by eapply (terminal_not_tin root w0 rank Hbt s st0 u t s1 st1).
          + intros u1 t1 Hu1. destruct (_next_stages st1 !! u1) eqn:Hnext1; [done|].
            rewrite Hput, tube_content_put_ne; [done|]. intros <-. apply Hs1s.
            by destruct (out_unique root w0 rank Hbt s1 s st1 st0 u1 u t Hs1 Hs Hu1 Hu). }
      exists Γ'. split.
      * constructor; [done|done|intros s1 st1 Hs1; by apply Hall].
      * apply sum_from_lt.
        -- intros j a Hj. simpl. destruct (Hall j a Hj) as [_ Hm]. case_decide; lia.
        -- exists s, st0. split; [done|]. simpl. destruct (Hall s st0 Hs) as [_ Hm].
           by rewrite decide_True in Hm.
Qed.

End PipelineInvariant.

(** *** A pipeline that cannot move *)

Section PipelineEnd.
Context {V : Type}.
Abbreviation payload := (payload V).
Abbreviation Tube := (Tube V).
Abbreviation Worker := (Worker V).
Abbreviation Stage := (Stage V).
Abbreviation World := (World V).
Abbreviation pc := (pc V).
Variables (root : nat) (w0 : World) (rank : nat -> nat) (xs : list V).
Hypothesis Hbt : built_tree root w0 rank.

Local Open Scope nat_scope.

(** A stage whose workers cannot move, after the stop request. *)
Lemma stage_stuck_done Γ pend w s st0 :
  kept root w0 xs Γ pend w -> nf (pipeline_run root) (pend, w) ->
  stages w0 !! s = Some st0 -> closed Γ s = true ->
  places w s = replicate (Z.to_nat (_size st0)) Exited /\
  forall u t, _output_tubes st0 !! u = Some t ->
    exists ys, tube_content (seen Γ s) t = feed ys true /\ length ys = length (fed Γ s).
Proof.
  intros [Hshape Hroot Hstage] Hnf Hs Hclosed.
  destruct (stage_facts root w0 rank Hbt s st0 Hs) as (HN & Hnd & Hf & Hasm).
  pose proof (Hstage s st0 Hs) as [Hinv Hlen Hin Hout Hbound].
  rewrite Hclosed in Hinv.
  apply (stage_inv_done st0 HN Hf Hasm _ _ _ _ Hinv).
  intros i p wk0 Hp Hwk0.
  destruct (worker_step (seen Γ s) (locks_of w s) (set_at wk0 p))
    as [[[vts' ls'] p']|] eqn:Hstep; [|done].
  exfalso.
  destruct (worker_tubes st0 HN Hf Hasm i wk0 p Hwk0) as (Hwtin & _ & _).
  destruct (worker_step_seen (set_at wk0 p) (seen Γ s) (tubes w) (locks_of w s) vts' ls' p')
    as (ts' & Hreal & _); [done|by rewrite Hwtin|done|].
  destruct (proj2 Hshape s st0 Hs) as (st & Hst & _ & _ & Hworkers).
  destruct (Hworkers i wk0 Hwk0) as [q Hq].
  rewrite (places_lookup w s st Hst), list_lookup_fmap, Hq in Hp. simpl in Hp.
  injection Hp as ->. rewrite (locks_of_lookup w s st Hst) in Hreal.
  apply Hnf. eexists. eapply (pipe_work root s i). unfold process_step.
  rewrite Hst. simpl. rewrite Hq. simpl. rewrite Hreal. done.
Qed.

(** When nothing can move, the producer has put everything, and every
    stage was fed the stop request after as many tasks as the root, and has
    forwarded it after as many results. *)
Lemma kept_stuck Γ pend w :
  kept root w0 xs Γ pend w -> nf (pipeline_run root) (pend, w) ->
  pend = [] /\
  forall s st0, stages w0 !! s = Some st0 ->
    closed Γ s = true /\ length (fed Γ s) = length xs /\
    places w s = replicate (Z.to_nat (_size st0)) Exited /\
    forall u t, _output_tubes st0 !! u = Some t ->
      exists ys, tube_content (seen Γ s) t = feed ys true /\ length ys = length xs.
Proof.
  intros Hk Hnf. pose proof Hk as [Hshape Hroot Hstage].
  destruct (bt_root _ _ _ Hbt) as [str Hr].
  assert (Hpend : pend = []).
  { destruct pend as [|task pend]; [done|]. exfalso. apply Hnf.
    destruct (proj2 Hshape root str Hr) as (st & Hst & _).
    eexists. apply pipe_put. unfold Stage_put. rewrite Hst. done. }
  split; [done|]. subst pend.
  assert (Hrootdone : closed Γ root = true /\ length (fed Γ root) = length xs).
  { unfold root_fed in Hroot. destruct (closed Γ root).
    - destruct Hroot as [-> _]. done.
    - destruct Hroot as (rest & _ & Hp). unfold script in Hp. by destruct (Some <$> rest). }
  assert (Hreach : forall s, reaches w0 root s -> forall st0, stages w0 !! s = Some st0 ->
            closed Γ s = true /\ length (fed Γ s) = length xs).
  { intros s Hs. unfold reaches in Hs. revert s Hs.
    apply (rtc_ind_r (fun s => forall st0, stages w0 !! s = Some st0 ->
             closed Γ s = true /\ length (fed Γ s) = length xs)).
    - done.
    - intros p c Hrp Hpc IH stc Hc. destruct Hpc as (stp & Hp & Hin).
      apply list_elem_of_lookup in Hin as [u Hu].
      destruct (IH stp Hp) as [Hclp Hfedp].
      destruct (bt_links _ _ _ Hbt p stp u c Hp Hu) as (stc' & Hc' & Hout).
      rewrite Hc in Hc'. injection Hc' as <-.
      destruct (stage_stuck_done Γ [] w p stp Hk Hnf Hp Hclp) as [_ Houts].
      destruct (Houts u _ Hout) as (ys & Hys & Hlen).
      destruct (Hstage p stp Hp) as [_ _ _ Hlinked _].
      pose proof (Hlinked u _ Hout) as Hlink.
      rewrite Hu, Hys in Hlink. apply feed_inj in Hlink as [<- <-].
      split; [done|]. by rewrite Hlen. }
  intros s st0 Hs.
  destruct (Hreach s (bt_reach _ _ _ Hbt s (mk_is_Some _ _ Hs)) st0 Hs) as [Hcl Hfed].
  split; [done|]. split; [done|].
  destruct (stage_stuck_done Γ [] w s st0 Hk Hnf Hs Hcl) as [Hps Houts].
  split; [done|]. intros u t Hu. destruct (Houts u t Hu) as (ys & Hys & Hlen).
  exists ys. split; [done|]. by rewrite Hlen.
Qed.


(** **** Every run ends *)

Lemma kept_step Γ pend w pend' w' :
  kept root w0 xs Γ pend w -> pipeline_run root (pend, w) (pend', w') ->
  exists Γ', kept root w0 xs Γ' pend' w' /\
             pipeline_measure w0 xs Γ' w' < pipeline_measure w0 xs Γ w.
Proof.
  intros Hk Hrun. inversion Hrun as [task pend0 w1 w1' Hput|s i pend0 w1 w1' Hwork]; subst.
  - by eapply kept_put.
  - by eapply kept_work.
Qed.

Lemma kept_sn : forall c Γ pend w,
  kept root w0 xs Γ pend w -> pipeline_measure w0 xs Γ w = c ->
  sn (pipeline_run root) (pend, w).
Proof.
  induction c as [c IH] using lt_wf_ind. intros Γ pend w Hk Hc.
  constructor. intros [pend' w'] Hrun. simpl in Hrun.
  destruct (kept_step Γ pend w pend' w' Hk Hrun) as (Γ' & Hk' & Hlt).
  eapply (IH (pipeline_measure w0 xs Γ' w')); [lia|done|done].
Qed.

Lemma kept_reach Γ pend w pend' w' :
  kept root w0 xs Γ pend w -> rtc (pipeline_run root) (pend, w) (pend', w') ->
  exists Γ', kept root w0 xs Γ' pend' w'.
Proof.
  intros Hk Hrun. revert Γ Hk. remember (pend, w) as x eqn:Hx.
  remember (pend', w') as y eqn:Hy. revert pend w Hx.
  induction Hrun as [x|x [pend1 w1] y Hstep Hrun IH]; intros pend w -> Γ Hk.
  - injection Hy as -> ->. by exists Γ.
  - destruct (kept_step Γ pend w pend1 w1 Hk Hstep) as (Γ1 & Hk1 & _).
    by eapply (IH Hy pend1 w1).
Qed.

(** **** The leaves of the tree *)

Lemma parent_unique p p' c : downstream w0 p c -> downstream w0 p' c -> p = p'.
Proof.
  intros (stp & Hp & Hin) (stp' & Hp' & Hin').
  apply list_elem_of_lookup in Hin as [u Hu]. apply list_elem_of_lookup in Hin' as [u' Hu'].
  by destruct (child_unique root w0 rank Hbt p p' stp stp' u u' c Hp Hp' Hu Hu').
Qed.

Lemma rank_reaches a b : reaches w0 a b -> rank b <= rank a.
Proof.
  induction 1 as [|a c b (st & Ha & Hin) _ IH]; [done|].
  destruct (ranked_by_spec rank w0 a st c (bt_rank _ _ _ Hbt) Ha Hin). lia.
Qed.

(** Two stages upstream of one stage are on one path. *)
Lemma tree_meet a x : reaches w0 a x -> forall b, reaches w0 b x ->
  reaches w0 a b \/ reaches w0 b a.
Proof.
  unfold reaches. revert x.
  apply (rtc_ind_r (fun x => forall b, rtc (downstream w0) b x ->
           rtc (downstream w0) a b \/ rtc (downstream w0) b a)).
  - intros b Hb. by right.
  - intros y x Hay Hyx IH b Hb. apply rtc_inv_r in Hb as [->|(y' & Hby' & Hy'x)].
    + left. by eapply rtc_r.
    + rewrite <- (parent_unique y y' x Hyx Hy'x) in Hby'. by apply IH.
Qed.

(** Two stages downstream of one stage have no stage in common below
    them. *)
Lemma siblings_apart s c c' x :
  downstream w0 s c -> downstream w0 s c' -> c ≠ c' ->
  reaches w0 c x -> reaches w0 c' x -> False.
Proof.
  assert (Hone : forall c c', downstream w0 s c -> downstream w0 s c' -> c ≠ c' ->
            reaches w0 c c' -> False).
  { intros c1 c2 Hc1 Hc2 Hne Hreach. unfold reaches in Hreach.
    apply rtc_inv_r in Hreach as [?|(q & Hq & Hqc)]; [done|].
    rewrite (parent_unique q s c2 Hqc Hc2) in Hq.
    pose proof (rank_reaches c1 s Hq) as Hle.
    destruct Hc1 as (st & Hs & Hin).
    destruct (ranked_by_spec rank w0 s st c1 (bt_rank _ _ _ Hbt) Hs Hin). lia. }
  intros Hc Hc' Hne Hx Hx'. destruct (tree_meet c x Hx c' Hx') as [H|H].
  - by eapply (Hone c c').
  - eapply (Hone c' c); done.
Qed.

Lemma getLeaves_tree fuel : forall s l,
  is_Some (stages w0 !! s) -> getLeaves fuel w0 s = Some l ->
  NoDup l /\ l ≠ [] /\ forall x, x ∈ l -> reaches w0 s x /\ is_leaf w0 x.
Proof.
  induction fuel as [|fuel IH]; intros s l [st Hs] Hl; [done|].
  simpl in Hl. rewrite Hs in Hl. simpl in Hl.
  destruct (_next_stages st) as [|c0 cs0] eqn:Hnext.
  - injection Hl as <-. split; [apply NoDup_singleton|]. split; [done|].
    intros x Hx. apply list_elem_of_singleton in Hx as ->.
    split; [apply rtc_refl|]. by exists st.
  - assert (Hchildren : forall c, c ∈ c0 :: cs0 -> downstream w0 s c).
    { intros c Hc. exists st. split; [done|]. by rewrite Hnext. }
    assert (Hnd : NoDup (c0 :: cs0)).
    { apply NoDup_alt. intros u u' c Hu Hu'. rewrite <- Hnext in Hu, Hu'.
      by destruct (child_unique root w0 rank Hbt s s st st u u' c Hs Hs Hu Hu'). }
    assert (Hne : c0 :: cs0 ≠ []) by done.
    revert l Hl Hchildren Hnd Hne. generalize (c0 :: cs0). clear Hnext c0 cs0.
    intros cs. destruct cs as [|c cs]; intros l Hl Hchildren Hnd Hne; [done|].
    rewrite extend_each_cons in Hl.
    destruct (getLeaves fuel w0 c) as [lc|] eqn:Hlc; simpl in Hl; [|done].
    destruct (extend_each (getLeaves fuel w0) cs) as [rest|] eqn:Hrest; simpl in Hl; [|done].
    injection Hl as <-. apply NoDup_cons in Hnd as [Hc Hnd].
    assert (Hcs : downstream w0 s c) by (apply Hchildren; by left).
    assert (Hvalid : is_Some (stages w0 !! c)).
    { destruct Hcs as (st' & Hs' & Hin). apply list_elem_of_lookup in Hin as [u Hu].
      destruct (bt_links _ _ _ Hbt s st' u c Hs' Hu) as (stc & Hstc & _). by exists stc. }
    destruct (IH c lc Hvalid Hlc) as (Hndc & Hnec & Hinc).
    assert (Hrest' : NoDup rest /\ forall x, x ∈ rest ->
              (reaches w0 s x /\ is_leaf w0 x) /\
              exists c', c' ∈ cs /\ reaches w0 c' x).
    { revert rest Hrest Hchildren Hnd. clear Hc Hne.
      induction cs as [|c1 cs IH1]; intros rest Hrest Hchildren Hnd.
      - injection Hrest as <-. split; [apply NoDup_nil_2|]. intros x Hx.
        by apply elem_of_nil in Hx.
      - rewrite extend_each_cons in Hrest.
        destruct (getLeaves fuel w0 c1) as [l1|] eqn:Hl1; simpl in Hrest; [|done].
        destruct (extend_each (getLeaves fuel w0) cs) as [rest1|] eqn:Hrest1;
          simpl in Hrest; [|done].
        injection Hrest as <-. apply NoDup_cons in Hnd as [Hc1 Hnd].
        assert (Hc1s : downstream w0 s c1) by (apply Hchildren; right; by left).
        assert (Hvalid1 : is_Some (stages w0 !! c1)).
        { destruct Hc1s as (st' & Hs' & Hin). apply list_elem_of_lookup in Hin as [u Hu].
          destruct (bt_links _ _ _ Hbt s st' u c1 Hs' Hu) as (stc & Hstc & _).
          by exists stc. }
        destruct (IH c1 l1 Hvalid1 Hl1) as (Hnd1 & _ & Hin1).
        destruct (IH1 rest1 eq_refl) as [Hndr Hinr].
        { intros c' Hc'. apply Hchildren. apply elem_of_cons in Hc' as [->|Hc'].
          - by left.
          - right. by right. }
        { done. }
        split.
        + apply NoDup_app. split; [done|]. split; [|done].
          intros x Hx1 Hxr. destruct (Hin1 x Hx1) as [Hr1 _].
          destruct (Hinr x Hxr) as [_ (c' & Hc' & Hr')].
          apply (siblings_apart s c1 c' x); [done| |by intros ->|done|done].
          apply Hchildren. right. by right.
        + intros x Hx. apply elem_of_app in Hx as [Hx|Hx].
          * destruct (Hin1 x Hx) as [Hr1 Hleaf]. split.
            -- split; [|done]. by eapply rtc_l.
            -- exists c1. split; [by left|done].
          * destruct (Hinr x Hx) as [Hrl (c' & Hc' & Hr')]. split; [done|].
            exists c'. split; [by right|done]. }
    destruct Hrest' as [Hndr Hinr]. split; [|split].
    + apply NoDup_app. split; [done|]. split; [|done].
      intros x Hxc Hxr. destruct (Hinc x Hxc) as [Hrc _].
      destruct (Hinr x Hxr) as [_ (c' & Hc' & Hr')].
      apply (siblings_apart s c c' x); [done| |by intros ->|done|done].
      apply Hchildren. by right.
    + destruct lc; [done|]. done.
    + intros x Hx. apply elem_of_app in Hx as [Hx|Hx].
      * destruct (Hinc x Hx) as [Hr Hleaf]. split; [|done]. by eapply rtc_l.
      * by destruct (Hinr x Hx) as [? _].
Qed.

End PipelineEnd.

(** ** The results of a pipeline *)

Section Results.
Context {V : Type}.
Abbreviation Tube := (Tube V).
Abbreviation World := (World V).

Local Open Scope nat_scope.

(** Every tube of [R] holds [j] results and then the stop request. *)
Definition loaded (ts : list Tube) (R : list nat) (j : nat) : Prop :=
  forall t, t ∈ R -> exists ys, tube_content ts t = feed ys true /\ length ys = j.

Lemma loaded_available ts R j t : loaded ts R j -> t ∈ R -> available ts t.
Proof.
  intros Hl Ht. destruct (Hl t Ht) as (ys & Hys & _). unfold tube_content in Hys.
  destruct (ts !! t) as [tb|] eqn:Htb; simpl in Hys.
  - destruct ys as [|y ys]; eexists tb, _, _; (split; [done|]); by rewrite Hys.
  - by destruct ys.
Qed.

Lemma loaded_first ts R j t :
  loaded ts R j -> t ∈ R ->
  first_payload ts t = None <-> j = 0.
Proof.
  intros Hl Ht. destruct (Hl t Ht) as (ys & Hys & <-). unfold tube_content in Hys.
  unfold first_payload. destruct (ts !! t) as [tb|] eqn:Htb; simpl in *.
  - rewrite Hys. by destruct ys.
  - by destruct ys.
Qed.

Lemma loaded_take ts ts' R j :
  loaded ts R (S j) -> (forall t, ts' !! t = after_take ts R t) -> loaded ts' R j.
Proof.
  intros Hl Hts t Ht. destruct (Hl t Ht) as (ys & Hys & Hlen).
  destruct ys as [|y ys]; [done|]. exists ys. split; [|by injection Hlen].
  unfold tube_content in *. rewrite Hts. unfold after_take. rewrite decide_True by done.
  destruct (ts !! t) as [tb|]; simpl in *; [|done]. by rewrite Hys.
Qed.

Lemma results_loaded p : forall j (w : World),
  Forall (fun s => is_Some (stages w !! s)) (_output_stages p) ->
  NoDup (_output_stages p ≫= outputs_of w) ->
  (exists leaf t, last (_output_stages p) = Some leaf /\ last (outputs_of w leaf) = Some t) ->
  loaded (tubes w) (_output_stages p ≫= outputs_of w) j ->
  exists ys w',
    Pipeline_results (S j) p w = Some (Returns (ys, w')) /\ length ys = j /\
    stages w' = stages w.
Proof.
  induction j as [|j IH]; intros w Hval Hnd (leaf & t & Hleaf & Ht) Hl.
  - destruct (Pipeline_get_loop_available None (_output_stages p) w (Plain None) Hval Hnd)
      as (w' & Hrun & Hst & Hts).
    { intros t' Ht'. by eapply loaded_available. }
    assert (Hin : t ∈ _output_stages p ≫= outputs_of w).
    { apply list_elem_of_bind. exists leaf. split.
      - apply last_Some in Ht as [l' ->]. apply elem_of_app. right. by left.
      - apply last_Some in Hleaf as [l' ->]. apply elem_of_app. right. by left. }
    rewrite Hleaf in Hrun. unfold last_answer in Hrun. rewrite Ht in Hrun.
    unfold answer in Hrun. simpl in Hrun.
    rewrite (proj2 (loaded_first _ _ _ t Hl Hin) eq_refl) in Hrun.
    exists [], w'. simpl. unfold Pipeline_get. rewrite Hrun. done.
  - destruct (Pipeline_get_loop_available None (_output_stages p) w (Plain None) Hval Hnd)
      as (w' & Hrun & Hst & Hts).
    { intros t' Ht'. by eapply loaded_available. }
    assert (Hin : t ∈ _output_stages p ≫= outputs_of w).
    { apply list_elem_of_bind. exists leaf. split.
      - apply last_Some in Ht as [l' ->]. apply elem_of_app. right. by left.
      - apply last_Some in Hleaf as [l' ->]. apply elem_of_app. right. by left. }
    rewrite Hleaf in Hrun. unfold last_answer in Hrun. rewrite Ht in Hrun.
    unfold answer in Hrun. simpl in Hrun.
    destruct (first_payload (tubes w) t) as [y|] eqn:Hfirst.
    2:{ by apply (loaded_first _ _ _ t Hl Hin) in Hfirst. }
    assert (Hbind : _output_stages p ≫= outputs_of w' = _output_stages p ≫= outputs_of w).
    { apply list_bind_ext; [|done]. intros s. by apply outputs_of_ext. }
    destruct (IH w') as (ys & w'' & Hres & Hlen & Hst').
    + by rewrite Hst.
    + by rewrite Hbind.
    + exists leaf, t. split; [done|]. by rewrite (outputs_of_ext w w' leaf Hst).
    + rewrite Hbind. by eapply loaded_take.
    + exists (y :: ys), w''. split; [|split].
      * change (Pipeline_results (S (S j)) p w) with
          (match Pipeline_get p None w with
           | Returns (Plain None, w') => Some (Returns ([], w'))
           | Returns (Plain (Some result), w') =>
               match Pipeline_results (S j) p w' with
               | Some (Returns (rs, w'')) => Some (Returns (result :: rs, w''))
               | other => other
               end
           | Returns (Pair _ _, _) => None
           | Raises e => Some (Raises e)
           | Blocks => Some Blocks
           end).
        unfold Pipeline_get. rewrite Hrun, Hres. done.
      * simpl. by rewrite Hlen.
      * by rewrite Hst', Hst.
Qed.

Lemma NoDup_bind {A B} (g : A -> list B) (l : list A) :
  NoDup l -> (forall x, x ∈ l -> NoDup (g x)) ->
  (forall x y t, x ∈ l -> y ∈ l -> t ∈ g x -> t ∈ g y -> x = y) ->
  NoDup (l ≫= g).
Proof.
  induction l as [|a l IH]; intros Hnd Hg Hapart; [apply NoDup_nil_2|].
  apply NoDup_cons in Hnd as [Ha Hnd]. rewrite bind_cons. apply NoDup_app.
  split; [apply Hg; by left|]. split.
  - intros t Hta Htl. apply list_elem_of_bind in Htl as (y & Hty & Hy).
    apply Ha. rewrite (Hapart a y t); [done|by left|by right|done|done].
  - apply IH; [done|intros x Hx; apply Hg; by right|].
    intros x y t Hx Hy. apply Hapart; by right.
Qed.

End Results.

(** ** Termination of a pipeline *)

Section PipelineStops.
Context {V : Type}.
Abbreviation World := (World V).

Local Open Scope nat_scope.

(** C3 (as amended).  A pipeline whose stages form a tree, with pools of one
    worker at least and transforms that return a result other than None for
    every task.  The producer puts the tasks [xs] and then one stop request
    on the root while the workers of all the stages run, in any
    interleaving.  Every run ends; and when nothing can move any more the
    producer has put everything, every worker of every stage has exited, and
    [results()] returns after it has yielded as many results as there were
    tasks. *)
Theorem pipeline_stops (root : nat) (w0 : World) (rank : nat -> nat) (xs : list V)
    (fuel : nat) (leaves : list nat) :
  built_tree root w0 rank ->
  getLeaves fuel w0 root = Some leaves ->
  sn (pipeline_run root) (script xs, w0) /\
  forall pend w,
    rtc (pipeline_run root) (script xs, w0) (pend, w) ->
    nf (pipeline_run root) (pend, w) ->
    pend = [] /\
    (forall s st, stages w0 !! s = Some st ->
       places w s = replicate (Z.to_nat (_size st)) Exited) /\
    exists ys w',
      Pipeline_results (S (length xs)) {| _input_stage := root; _output_stages := leaves |} w
      = Some (Returns (ys, w')) /\
      length ys = length xs.
Proof.
  intros Hbt Hleaves. pose proof (kept_start root w0 rank xs Hbt) as Hk0. split.
  - by eapply (kept_sn root w0 rank xs Hbt).
  - intros pend w Hrun Hnf.
    destruct (kept_reach root w0 rank xs Hbt _ _ _ _ _ Hk0 Hrun) as [Γ Hk].
    destruct (kept_stuck root w0 rank xs Hbt Γ pend w Hk Hnf) as [Hpend Hdone].
    split; [done|]. split; [intros s st Hs; by apply (Hdone s st Hs)|].
    destruct (getLeaves_tree root w0 rank Hbt fuel root leaves (bt_root _ _ _ Hbt) Hleaves)
      as (Hnd & Hne & Hleaf).
    pose proof Hk as [[Hslen Hshape] _ Hstage].
    assert (Hstatic : forall s st0, stages w0 !! s = Some st0 ->
              is_Some (stages w !! s) /\ outputs_of w s = _output_tubes st0).
    { intros s st0 Hs. destruct (Hshape s st0 Hs) as (st & Hst & Hruns).
      split; [by exists st|]. unfold outputs_of. rewrite Hst. simpl.
      by destruct (runs_as_static _ _ Hruns) as (_ & ? & _). }
    assert (Hleaf0 : forall l, l ∈ leaves ->
              exists st0, stages w0 !! l = Some st0 /\ _next_stages st0 = []).
    { intros l Hl. by destruct (Hleaf l Hl) as [_ ?]. }
    destruct (results_loaded {| _input_stage := root; _output_stages := leaves |}
                (length xs) w) as (ys & w' & Hres & Hlen & _); simpl.
    + apply Forall_forall. intros l Hl. destruct (Hleaf0 l Hl) as (st0 & Hs0 & _).
      by destruct (Hstatic l st0 Hs0).
    + apply NoDup_bind; [done| |].
      * intros l Hl. destruct (Hleaf0 l Hl) as (st0 & Hs0 & _).
        destruct (Hstatic l st0 Hs0) as [_ ->].
        pose proof (stage_tubes_apart root w0 rank Hbt l st0 Hs0) as Hnd0.
        by apply NoDup_cons in Hnd0 as [_ ?].
      * intros l l' t Hl Hl' Ht Ht'.
        destruct (Hleaf0 l Hl) as (st0 & Hs0 & _). destruct (Hleaf0 l' Hl') as (st0' & Hs0' & _).
        rewrite (proj2 (Hstatic l st0 Hs0)) in Ht. rewrite (proj2 (Hstatic l' st0' Hs0')) in Ht'.
        apply list_elem_of_lookup in Ht as [u Hu]. apply list_elem_of_lookup in Ht' as [u' Hu'].
        by destruct (out_unique root w0 rank Hbt l l' st0 st0' u u' t Hs0 Hs0' Hu Hu').
    + destruct (last leaves) as [leaf|] eqn:Hlast.
      2:{ apply last_None in Hlast. done. }
      assert (Hin : leaf ∈ leaves).
      { apply last_Some in Hlast as [l' ->]. apply elem_of_app. right. by left. }
      destruct (Hleaf0 leaf Hin) as (st0 & Hs0 & _).
      destruct (Hstatic leaf st0 Hs0) as [_ Houts].
      destruct (last (_output_tubes st0)) as [t|] eqn:Ht.
      * exists leaf, t. by rewrite Houts.
      * apply last_None in Ht. by destruct (bt_outs _ _ _ Hbt leaf st0 Hs0).
    + intros t Ht. apply list_elem_of_bind in Ht as (l & Ht & Hl).
      destruct (Hleaf0 l Hl) as (st0 & Hs0 & Hnext).
      rewrite (proj2 (Hstatic l st0 Hs0)) in Ht.
      apply list_elem_of_lookup in Ht as [u Hu].
      destruct (Hdone l st0 Hs0) as (_ & _ & _ & Houts).
      destruct (Houts u t Hu) as (ys & Hys & Hlen). exists ys. split; [|done].
      destruct (Hstage l st0 Hs0) as [_ _ _ Hlinked _].
      specialize (Hlinked u t Hu). rewrite Hnext in Hlinked. simpl in Hlinked.
      by rewrite <- Hlinked.
    + by exists ys, w'.
Qed.

End PipelineStops.

Definition square (x : Z) : payload Z := Some (x * x).

(** C5 (the defect).  An ordered stage of two workers.  The worker 0
    acquires its input lock and its read of the input tube raises: it takes
    (None, 0) for its envelope, puts (None, 1) back and exits, but it has
    skipped the release of line 159.  The worker 1 then waits for ever on
    its input lock, with the stop request in the tube: no worker can take a
    step, whatever is put on the tube afterwards.  When the worker 0 reads
    (None, 0) from the tube instead, the lock is released and both workers
    exit. *)
Theorem ordered_read_failure_wedges :
  let w0 := single_ordered square 2 in
  (exists w1 w2 w3,
     process_step 0 0 w0 = Some w1 /\
     process_step_read_fails 0 0 w1 = Some w2 /\
     process_step 0 0 w2 = Some w3 /\
     places w3 0 = [Exited; AtAcquireInput] /\
     content_of w3 0 = [(None, 1)] /\
     locks_of w3 0 = [true; false; true; true] /\
     forall task w4, Stage_put 0 task w3 = Some w4 ->
       forall i, process_step 0 i w4 = None) /\
  (exists w1 w2,
     Stage_put 0 None w0 = Some w1 /\
     run_schedule 0 [0; 0; 0; 0; 1; 1; 1; 1]%nat w1 = Some w2 /\
     places w2 0 = [Exited; Exited] /\
     content_of w2 0 = [] /\
     content_of w2 1 = [(None, 0)]).
Proof.
  split.
  - eexists _, _, _. split; [vm_compute; reflexivity|].
    split; [vm_compute; reflexivity|]. split; [vm_compute; reflexivity|].
    split; [vm_compute; reflexivity|]. split; [vm_compute; reflexivity|].
    split; [vm_compute; reflexivity|].
    intros task w4 H. injection H as <-. intros [|[|i]]; vm_compute; reflexivity.
  - eexists _, _. split; [vm_compute; reflexivity|]. split; [vm_compute; reflexivity|].
    split; [vm_compute; reflexivity|]. split; vm_compute; reflexivity.
Qed.

(** ** The theorems at concrete pipelines *)

(** Two ordered stages, the first one built on its own. *)
Definition two_stages : World Z :=
  match OrderedStage_init square 1 empty_world with
  | Returns (_, w) =>
      match OrderedStage_init square 1 w with
      | Returns (_, w) => w
      | _ => empty_world
      end
  | _ => empty_world
  end.

Definition first_built : World Z := default two_stages (build 1 two_stages 0).

(** C8 (as stated, refuted): a stage of size 0 is constructed. *)
Lemma size_zero_is_constructed :
  ~ (exists e, OrderedStage_init square 0 empty_world = Raises e).
Proof. intros [e H]. discriminate H. Qed.

(** C7 (as stated, refuted): after [build] has started the worker of the
    stage, [link] on the stage still returns. *)
Lemma link_after_build_returns :
  places first_built 0 = [AtAcquireInput] /\
  ~ (exists e, link 0 1 first_built = Raises e).
Proof. split; [reflexivity|]. intros [e H]. discriminate H. Qed.

Lemma link_appends_witness :
  exists st nx,
    stages first_built !! 0%nat = Some st /\
    stages first_built !! 1%nat = Some nx /\
    exists w',
      link 0 1 first_built = Returns w' /\
      tubes w' = tubes first_built /\
      stages w' !! 0%nat = Some (linked st nx 1) /\
      (forall s', s' ≠ 0%nat -> stages w' !! s' = stages first_built !! s').
Proof.
  eexists _, _. split; [reflexivity|]. split; [reflexivity|].
  apply (link_appends first_built 0 1); reflexivity.
Defined.

(** A root with two downstream stages. *)
Definition fan_out : World Z :=
  match OrderedStage_init square 1 two_stages with
  | Returns (_, w) =>
      match link 0 1 w with
      | Returns w =>
          match link 0 2 w with
          | Returns w => w
          | _ => empty_world
          end
      | _ => empty_world
      end
  | _ => empty_world
  end.

Definition fan_out_rank (s : nat) : nat :=
  match s with O => 1%nat | _ => 0%nat end.

Lemma getLeaves_reachable_leaves_witness :
  ranked_by fan_out_rank fan_out = true /\
  (0 < length (stages fan_out))%nat /\
  exists l,
    (forall fuel, (fan_out_rank 0 < fuel)%nat -> getLeaves fuel fan_out 0 = Some l) /\
    (forall fuel l', getLeaves fuel fan_out 0 = Some l' -> l' = l) /\
    (forall x, x ∈ l <-> reaches fan_out 0 x /\ is_leaf fan_out x).
Proof.
  split; [reflexivity|]. split; [simpl; lia|].
  apply (getLeaves_reachable_leaves fan_out_rank fan_out 0); [reflexivity|simpl; lia].
Defined.

(** The fan-out, built, with one result in each leaf tube. *)
Definition fan_out_results : World Z :=
  let w := default fan_out (snd <$> Pipeline_init 2 0 fan_out) in
  {| tubes := tube_put (tube_put (tubes w) 3 (Some 7, 0)) 4 (Some 8, 0);
     stages := stages w |}.

Definition fan_out_pipeline : Pipeline :=
  {| _input_stage := 0; _output_stages := [1; 2]%nat |}.

Lemma get_reads_each_returns_last_witness :
  exists st,
    stages fan_out_results !! 1%nat = Some st /\
    NoDup (_output_tubes st) /\
    (forall t, t ∈ _output_tubes st -> available (tubes fan_out_results) t) /\
    Forall (fun s => is_Some (stages fan_out_results !! s)) (_output_stages fan_out_pipeline) /\
    NoDup (_output_stages fan_out_pipeline ≫= outputs_of fan_out_results) /\
    (forall t, t ∈ _output_stages fan_out_pipeline ≫= outputs_of fan_out_results ->
               available (tubes fan_out_results) t) /\
    last (_output_stages fan_out_pipeline) = Some 2%nat /\
    (exists w',
       Stage_get 1 (Some 50) fan_out_results
       = Returns (last_answer (Some 50) (tubes fan_out_results) (_output_tubes st), w') /\
       stages w' = stages fan_out_results /\
       forall t, tubes w' !! t = after_take (tubes fan_out_results) (_output_tubes st) t) /\
    (exists w',
       Pipeline_get fan_out_pipeline (Some 50) fan_out_results
       = Returns (last_answer (Some 50) (tubes fan_out_results)
                              (outputs_of fan_out_results 2), w') /\
       stages w' = stages fan_out_results /\
       forall t, tubes w' !! t
                 = after_take (tubes fan_out_results)
                     (_output_stages fan_out_pipeline ≫= outputs_of fan_out_results) t).
Proof.
  assert (Hav : forall t, t ∈ [3; 4]%nat -> available (tubes fan_out_results) t).
  { intros t Ht. apply elem_of_cons in Ht as [->|Ht].
    - by eexists _, _, _.
    - apply list_elem_of_singleton in Ht as ->. by eexists _, _, _. }
  assert (Hnd : NoDup [3; 4]%nat).
  { apply NoDup_cons. split; [|apply NoDup_singleton].
    intros H%list_elem_of_singleton. discriminate H. }
  eexists. split; [reflexivity|].
  assert (Hnd1 : NoDup [3]%nat) by apply NoDup_singleton.
  assert (Hav1 : forall t, t ∈ [3]%nat -> available (tubes fan_out_results) t).
  { intros t Ht. apply Hav. apply elem_of_cons. left. by apply list_elem_of_singleton in Ht. }
  assert (Hval : Forall (fun s => is_Some (stages fan_out_results !! s)) [1; 2]%nat).
  { apply Forall_cons. split; [by eexists|]. apply Forall_cons. split; [by eexists|].
    apply Forall_nil. done. }
  split; [exact Hnd1|]. split; [exact Hav1|]. split; [exact Hval|].
  split; [exact Hnd|]. split; [exact Hav|]. split; [reflexivity|].
  destruct (get_reads_each_returns_last fan_out_results (Some 50)) as [HS HP].
  split.
  - exact (HS 1%nat _ eq_refl Hnd1 Hav1).
  - exact (HP fan_out_pipeline 2%nat Hval Hnd Hav eq_refl).
Defined.

(** An unordered worker of a pool of two that meets (None, 0). *)
Definition lone_worker : Worker Z :=
  init2 {| base := UnorderedWorker; doTask := square |} 0 [1%nat] 2.

Definition lone_tubes : list (Tube Z) :=
  [ {| tube_cls := TubeQ; content := [(None, 0)] |}; new_tube TubeQ ].

Lemma stop_request_counted_witness :
  run_alone 4 lone_tubes [] lone_worker
  = (let ts0 := <[_tube_task_input lone_worker := set_content (new_tube TubeQ) []]> lone_tubes in
     if 0 + 1 =? _num_workers lone_worker
     then put_on_each ts0 (_tubes_result_output lone_worker) (None, 0)
     else tube_put ts0 (_tube_task_input lone_worker) (None, 0 + 1),
     input_released [] lone_worker,
     set_at lone_worker Exited).
Proof.
  apply (stop_request_counted lone_worker lone_tubes []
           {| tube_cls := TubeQ; content := [(None, 0)] |} 0 [] 4);
    [reflexivity|reflexivity|reflexivity|discriminate|simpl; lia].
Defined.

(** A stage of one unordered worker that has read the stop request. *)
Definition stopping : World Z :=
  match UnorderedStage_init square 1 empty_world with
  | Returns (s, w) =>
      default w (w ← build 1 w s; w ← Stage_put s None w; process_step s 0 w)
  | _ => empty_world
  end.

Lemma stopping_reachable : reachable stopping.
Proof.
  eapply reachable_step; [eapply reachable_step; [eapply reachable_step;
    [eapply reachable_step; [apply reachable_empty|]|]|]|].
  - eapply (step_Stage_init {| base := UnorderedWorker; doTask := square |} 1). reflexivity.
  - eapply (step_build 1 0). reflexivity.
  - eapply (step_put 0 None). reflexivity.
  - eapply (step_process 0 0). reflexivity.
Defined.

Lemma output_count_zero_witness :
  exists w' st wk,
    stages stopping !! 0%nat = Some st /\ workers st !! 0%nat = Some wk /\
    process_step 0 0 stopping = Some w' /\
    1%nat ≠ _tube_task_input wk /\
    has_put stopping w' 1 (None, 0) /\
    snd (@None Z, 0) = 0.
Proof.
  eexists _, _, _. split; [reflexivity|]. split; [reflexivity|].
  split; [reflexivity|]. split; [discriminate|].
  assert (Hput : has_put stopping
            (default stopping (process_step 0 0 stopping)) 1 (@None Z, 0)).
  { eexists. split; reflexivity. }
  split; [exact Hput|].
  apply (output_count_zero stopping (default stopping (process_step 0 0 stopping))
           0 0 _ _ 1 (None, 0) stopping_reachable eq_refl eq_refl);
    [left; reflexivity|discriminate|exact Hput].
Defined.

(** C1 at a pool of three workers squaring 1, 2, 3. *)
Definition three_squarers : World Z := single_ordered square 3.

Lemma ordered_stage_preserves_order_witness :
  exists st,
    stages three_squarers !! 0%nat = Some st /\
    _size st = 3 /\
    _output_tubes st = [1%nat] /\
    sn (stage_run 0) (script [1; 2; 3], three_squarers) /\
    forall pend w, rtc (stage_run 0) (script [1; 2; 3], three_squarers) (pend, w) ->
      (forall t, t ∈ _output_tubes st ->
         content_of w t `prefix_of` expected square [1; 2; 3]) /\
      (nf (stage_run 0) (pend, w) ->
         pend = [] /\
         places w 0 = replicate (Z.to_nat (_size st)) Exited /\
         forall t, t ∈ _output_tubes st ->
           content_of w t = [(Some 1, 0); (Some 4, 0); (Some 9, 0); (None, 0)]).
Proof.
  eexists. split; [vm_compute; reflexivity|]. split; [reflexivity|].
  split; [reflexivity|].
  apply (ordered_stage_preserves_order square [1; 2; 3] three_squarers 0).
  - vm_compute; reflexivity.
  - reflexivity.
  - vm_compute. discriminate.
  - vm_compute; reflexivity.
  - vm_compute. apply NoDup_cons. split; [|apply NoDup_singleton].
    intros H. apply list_elem_of_singleton in H. discriminate.
  - intros t Ht. vm_compute in Ht.
    apply elem_of_cons in Ht as [->|Ht]; [split; [vm_compute; lia|reflexivity]|].
    apply list_elem_of_singleton in Ht as ->. split; [vm_compute; lia|reflexivity].
  - intros x _. unfold square. eexists. reflexivity.
Defined.

(** *** Runs by a schedule *)

Section Schedules.
Context {V : Type}.

(** What happens next: the producer puts its next payload, or the worker
    [i] of the stage [s] takes a step. *)
Inductive action :=
| ProducerPuts
| WorkerSteps (s i : nat).

Fixpoint play (root : nat) (acts : list action) (x : list (payload V) * World V)
    : option (list (payload V) * World V) :=
  match acts with
  | [] => Some x
  | ProducerPuts :: acts =>
      match fst x with
      | task :: pend => w ← Stage_put root task (snd x); play root acts (pend, w)
      | [] => None
      end
  | WorkerSteps s i :: acts => w ← process_step s i (snd x); play root acts (fst x, w)
  end.

Lemma play_run root acts : forall x y,
  play root acts x = Some y -> rtc (pipeline_run root) x y.
Proof.
  induction acts as [|[|s i] acts IH]; intros [pend w] y H; simpl in H.
  - injection H as <-. apply rtc_refl.
  - destruct pend as [|task pend]; [done|].
    destruct (Stage_put root task w) as [w1|] eqn:Hput; simpl in H; [|done].
    eapply rtc_l; [by apply pipe_put|]. by apply IH.
  - destruct (process_step s i w) as [w1|] eqn:Hstep; simpl in H; [|done].
    eapply rtc_l; [by eapply pipe_work|]. by apply IH.
Qed.

End Schedules.

(** A transform that returns no result for the task 1. *)
Definition square_but_one (x : Z) : payload Z :=
  if (x =? 1)%Z then None else Some (x * x).

Definition wedge_schedule : list action :=
  [ProducerPuts; ProducerPuts; ProducerPuts] ++
  replicate 4 (WorkerSteps 0 0) ++ replicate 4 (WorkerSteps 0 1) ++
  replicate 4 (WorkerSteps 0 0).

Definition wedged : list (payload Z) * World Z :=
  default ([], empty_world)
          (play 0 wedge_schedule (script [1; 2], single_ordered square_but_one 2)).

(** C3 (as stated, refuted).  [Pipeline(OrderedStage(f, 2))] where [f]
    returns None for the task 1, fed with 1, 2 and the stop request.  The
    worker 0 takes the task 1 and publishes nothing, so that it never
    releases the output lock of the worker 1; the worker 1 takes the task 2
    and waits for that lock for ever.  The worker 0 exits on the stop
    request.  Nothing can move, the worker 1 has not exited, and
    [results()] waits for ever on the empty output tube. *)
Lemma none_result_wedges_pipeline :
  rtc (pipeline_run 0) (script [1; 2], single_ordered square_but_one 2) wedged /\
  nf (pipeline_run 0) wedged /\
  fst wedged = [] /\
  places (snd wedged) 0 = [Exited; AtAcquireOutput 4] /\
  content_of (snd wedged) 0 = [(None, 1)] /\
  content_of (snd wedged) 1 = [] /\
  forall fuel,
    Pipeline_results (S fuel) {| _input_stage := 0; _output_stages := [0%nat] |} (snd wedged)
    = Some Blocks.
Proof.
  split; [apply (play_run 0 wedge_schedule); vm_compute; reflexivity|].
  split.
  - intros [y Hy]. remember wedged as x eqn:Hx. destruct Hy as [task pend w w' H|s i pend w w' H].
    + vm_compute in Hx. discriminate.
    + assert (Hw : w = snd wedged) by (by rewrite <- Hx). subst w. clear Hx.
      destruct s as [|s]; [destruct i as [|[|i]]|]; vm_compute in H; discriminate.
  - split; [vm_compute; reflexivity|]. split; [vm_compute; reflexivity|].
    split; [vm_compute; reflexivity|]. split; [vm_compute; reflexivity|].
    intros fuel. vm_compute. reflexivity.
Qed.

(** An ordered stage of two workers that feeds an unordered stage of two
    workers and an ordered stage of one worker, built by [Pipeline]. *)
Definition mixed_tree : World Z :=
  match OrderedStage_init square 2 empty_world with
  | Returns (_, w) =>
      match UnorderedStage_init square 2 w with
      | Returns (_, w) =>
          match OrderedStage_init square 1 w with
          | Returns (_, w) =>
              match link 0 1 w with
              | Returns w =>
                  match link 0 2 w with
                  | Returns w => default w (snd <$> Pipeline_init 2 0 w)
                  | _ => empty_world
                  end
              | _ => empty_world
              end
          | _ => empty_world
          end
      | _ => empty_world
      end
  | _ => empty_world
  end.

Definition mixed_tree_rank (s : nat) : nat :=
  match s with O => 1%nat | _ => 0%nat end.

Lemma mixed_tree_built : built_tree 0 mixed_tree mixed_tree_rank.
Proof.
  constructor.
  - eexists. vm_compute. reflexivity.
  - intros [|[|[|s]]] Hs.
    + apply rtc_refl.
    + apply rtc_once. eexists. split; [vm_compute; reflexivity|]. simpl. set_solver.
    + apply rtc_once. eexists. split; [vm_compute; reflexivity|]. simpl. set_solver.
    + vm_compute in Hs. by destruct Hs.
  - vm_compute. reflexivity.
  - intros [|[|[|s]]] st Hs; vm_compute in Hs; [injection Hs as <-; simpl; lia..|done].
  - intros [|[|[|s]]] st Hs; vm_compute in Hs;
      [injection Hs as <-; vm_compute; reflexivity..|done].
  - intros [|[|[|s]]] st Hs; vm_compute in Hs; [injection Hs as <-; done..|done].
  - intros [|[|[|s]]] st t Hs Ht; vm_compute in Hs; [injection Hs as <-..|done];
      simpl in Ht; set_unfold; destruct_or!; subst; (split; [vm_compute; lia|reflexivity]).
  - intros [|[|[|s]]] st u c Hs Hu; vm_compute in Hs; [injection Hs as <-..|done];
      simpl in Hu; try done;
      destruct u as [|[|u]]; simpl in Hu; simplify_eq;
      eexists; (split; [vm_compute; reflexivity|reflexivity]).
  - intros st Hs. vm_compute in Hs. injection Hs as <-.
    apply (bool_decide_unpack _). vm_compute. exact I.
  - intros [|[|[|s]]] st x Hs; vm_compute in Hs; [injection Hs as <-..|done];
      by eexists.
Qed.

Lemma pipeline_stops_witness :
  built_tree 0 mixed_tree mixed_tree_rank /\
  getLeaves 2 mixed_tree 0 = Some [1; 2]%nat /\
  sn (pipeline_run 0) (script [1; 2; 3], mixed_tree) /\
  forall pend w,
    rtc (pipeline_run 0) (script [1; 2; 3], mixed_tree) (pend, w) ->
    nf (pipeline_run 0) (pend, w) ->
    pend = [] /\
    (forall s st, stages mixed_tree !! s = Some st ->
       places w s = replicate (Z.to_nat (_size st)) Exited) /\
    exists ys w',
      Pipeline_results 4 {| _input_stage := 0; _output_stages := [1; 2]%nat |} w
      = Some (Returns (ys, w')) /\
      length ys = 3%nat.
Proof.
  split; [exact mixed_tree_built|]. split; [vm_compute; reflexivity|].
  apply (pipeline_stops 0 mixed_tree mixed_tree_rank [1; 2; 3] 2 [1; 2]%nat).
  - exact mixed_tree_built.
  - vm_compute. reflexivity.
Defined.

(** * Further properties of the code *)


(** ** What a pipeline leaves in its tubes *)

(** *** A stage whose workers have all exited *)

Section StageExited.
Context {V : Type}.

Local Open Scope nat_scope.

(** In an ordered stage the last worker to exit is the one that has
    forwarded the stop request: everything was read and published. *)
Lemma Inv_exited (f : V -> payload V) (N : Z) tin outs xs g σ :
  (1 <= N)%Z ->
  Inv f N tin outs xs g σ ->
  sys_places σ = replicate (Z.to_nat N) Exited ->
  gout g = OutStopping (length outs) /\ gP g = length xs /\
  gR g = length xs + Z.to_nat N /\ gL g = length xs + Z.to_nat N.
Proof.
  intros HN HI Hps.
  set (n := Z.to_nat N). set (k := length xs).
  assert (Hn : 0 < n) by lia.
  set (i0 := (k + n - 1) mod n).
  assert (Hi0 : i0 < n) by (apply Nat.mod_upper_bound; lia).
  assert (Hp : sys_places σ !! i0 = Some Exited).
  { rewrite Hps. by apply lookup_replicate_2. }
  pose proof (inv_wok f N tin outs xs g σ HI i0 Exited Hp) as Hw. simpl in Hw.
  destruct Hw as (Hr & Hle & _ & Hlast).
  pose proof (inv_rd f N tin outs xs g σ HI i0 Hi0) as Hrd.
  assert (Heq : grd g i0 = k + n - 1).
  { apply (mod_window n); [exact Hrd|]. fold n k in Hr, Hle. lia. }
  pose proof (inv_publisher f N tin outs xs g σ HI) as Hpub. unfold publisher_ok in Hpub.
  rewrite Hlast in Hpub by (fold n k; lia).
  rewrite Hlast by (fold n k; lia).
  destruct Hpub as (_ & HP & HR & HL & _). done.
Qed.

Lemma Inv_exited_input (f : V -> payload V) (N : Z) tin outs xs g σ :
  (1 <= N)%Z ->
  Inv f N tin outs xs g σ ->
  sys_places σ = replicate (Z.to_nat N) Exited ->
  tube_content (sys_tubes σ) tin = [].
Proof.
  intros HN HI Hps.
  destruct (Inv_exited f N tin outs xs g σ HN HI Hps) as (_ & _ & HR & HL).
  rewrite (inv_input f N tin outs xs g σ HI). apply drop_ge.
  rewrite length_take. unfold reads_done. destruct (gin g); lia.
Qed.

Lemma Inv_exited_output (f : V -> payload V) (N : Z) tin outs xs g σ u t :
  (1 <= N)%Z ->
  Inv f N tin outs xs g σ ->
  sys_places σ = replicate (Z.to_nat N) Exited ->
  outs !! u = Some t ->
  tube_content (sys_tubes σ) t = expected f xs.
Proof.
  intros HN HI Hps Hu.
  destruct (Inv_exited f N tin outs xs g σ HN HI Hps) as (Hout & HP & _ & _).
  rewrite (inv_output f N tin outs xs g σ HI u t Hu). apply take_ge.
  unfold advanced. rewrite Hout, HP. apply lookup_lt_Some in Hu.
  rewrite decide_True by done. unfold expected. rewrite length_app, length_fmap. simpl. lia.
Qed.

(** In an unordered stage the stop request has left the input tube. *)
Lemma UInv_exited (N : Z) tin outs k closed γ (ts : list (Tube V)) ps :
  (1 <= N)%Z ->
  UInv N tin outs k closed γ ts ps ->
  ps = replicate (Z.to_nat N) Exited ->
  tube_content ts tin = [].
Proof.
  intros HN [Hplaces Htubes Hphase Hinput Houtput] Hps.
  assert (Hn : 0 < Z.to_nat N) by lia.
  assert (H0 : ps !! 0 = Some Exited) by (rewrite Hps; by apply lookup_replicate_2).
  assert (Hall : forall i p, ps !! i = Some p -> p = Exited).
  { intros i p Hp. rewrite Hps in Hp. by apply lookup_replicate in Hp as [-> _]. }
  assert (Hsum : sum_list_with (@exits V) ps = Z.to_nat N).
  { rewrite Hps. clear. induction (Z.to_nat N) as [|c IH]; simpl; [done|]. by rewrite IH. }
  rewrite Hinput. destruct γ as [φ q]. simpl in *.
  destruct φ as [|c|i0|i0 t|]; simpl in Hphase.
  - destruct Hphase as [_ Halive].
    by pose proof (Forall_lookup_1 _ _ _ _ Halive H0).
  - destruct Hphase as (_ & Hc & Hlt & _). lia.
  - destruct Hphase as (_ & _ & _ & Hi0 & _). by apply Hall in Hi0.
  - destruct Hphase as (_ & _ & _ & Hi0 & _). by apply Hall in Hi0.
  - destruct Hphase as (_ & -> & _). done.
Qed.

(** A stage of either class. *)
Lemma stage_inv_exited (st0 : Stage V) h closed ts ls ps :
  (1 <= _size st0)%Z ->
  stage_inv st0 h closed ts ls ps ->
  ps = replicate (Z.to_nat (_size st0)) Exited ->
  tube_content ts (_input_tube st0) = [].
Proof.
  intros HN HI Hps. unfold stage_inv in HI. destruct (base (_worker_class st0)).
  - destruct HI as [g HI].
    by apply (Inv_exited_input _ _ _ _ _ _ _ HN HI).
  - destruct HI as [γ HI]. by eapply UInv_exited.
Qed.

Lemma stage_inv_exited_ordered (st0 : Stage V) h closed ts ls ps u t :
  (1 <= _size st0)%Z ->
  base (_worker_class st0) = OrderedWorker ->
  stage_inv st0 h closed ts ls ps ->
  ps = replicate (Z.to_nat (_size st0)) Exited ->
  _output_tubes st0 !! u = Some t ->
  tube_content ts t = expected (doTask (_worker_class st0)) h.
Proof.
  intros HN Hb HI Hps Hu. unfold stage_inv in HI. rewrite Hb in HI.
  destruct HI as [g HI].
  by apply (Inv_exited_output _ _ _ _ _ _ _ u t HN HI).
Qed.

(** No worker of a stage that keeps its invariant has left [run] on an
    exception. *)
Lemma stage_inv_no_crash (st0 : Stage V) h closed ts ls ps i e :
  stage_inv st0 h closed ts ls ps -> ps !! i ≠ Some (Crashed e).
Proof.
  intros HI Hp. unfold stage_inv in HI. destruct (base (_worker_class st0)).
  - destruct HI as [g HI].
    exact (inv_wok _ _ _ _ _ _ _ HI i _ Hp).
  - destruct HI as [γ HI].
    destruct (phase_place _ _ _ _ _ _ _ _ (uinv_phase _ _ _ _ _ _ _ _ HI) Hp)
      as [Ha|[?|[Hφ|[t Hφ]]]]; [done|done|..];
      pose proof (uinv_phase _ _ _ _ _ _ _ _ HI) as Hphase;
      rewrite Hφ in Hphase; simpl in Hphase;
      destruct Hphase as (_ & _ & _ & Hi0 & _); rewrite Hp in Hi0; done.
Qed.

End StageExited.

(** *** The locks are used as they must *)

Section LocksSound.
Context {V : Type}.

(** The next operation of the worker, an operation on a lock, raises. *)
Definition lock_raises (ls : list bool) (wk : Worker V) : Prop :=
  match at_pc wk with
  | AtAcquireInput => exists e, lock_acquire ls (_lock_prev_input wk) = Raises e
  | AtReleaseInput _ => exists e, lock_release ls (_lock_next_input wk) = Raises e
  | AtAcquireOutput _ => exists e, lock_acquire ls (_lock_prev_output wk) = Raises e
  | AtReleaseOutput => exists e, lock_release ls (_lock_next_output wk) = Raises e
  | _ => False
  end.

Local Open Scope nat_scope.
Local Arguments Nat.mul : simpl never.
Local Arguments Nat.modulo : simpl never.

Lemma Inv_locks_sound (f : V -> payload V) (N : Z) tin outs xs g σ i p :
  (1 <= N)%Z ->
  Inv f N tin outs xs g σ ->
  sys_places σ !! i = Some p ->
  ~ lock_raises (sys_locks σ) (ring f N tin outs i p).
Proof.
  intros HN HI Hp.
  pose proof (inv_places f N tin outs xs g σ HI) as Hlen.
  apply lookup_lt_Some in Hp as Hi. rewrite Hlen in Hi.
  assert (Hnext : (i + 1) mod Z.to_nat N < Z.to_nat N) by (apply Nat.mod_upper_bound; lia).
  pose proof (inv_lock_in f N tin outs xs g σ HI i Hi) as Hin.
  pose proof (inv_lock_out f N tin outs xs g σ HI i Hi) as Hout.
  pose proof (inv_lock_in f N tin outs xs g σ HI _ Hnext) as Hin'.
  pose proof (inv_lock_out f N tin outs xs g σ HI _ Hnext) as Hout'.
  pose proof (inv_wok f N tin outs xs g σ HI i p Hp) as Hw.
  unfold lock_raises, lock_acquire, lock_release.
  destruct p as [| |e|x|y|e t a| |c| |]; simpl; try (by intros ?).
  - rewrite Hin. intros [e He]. by destruct (in_held N g i).
  - rewrite Hin'. destruct Hw as (_ & Hgin & _). unfold in_held. rewrite Hgin.
    by intros [e0 He].
  - rewrite Hout. intros [e He]. by destruct (out_held N g i).
  - rewrite Hout'. destruct Hw as (_ & _ & Hgout & _). unfold out_held. rewrite Hgout.
    by intros [e0 He].
Qed.

Lemma stage_inv_locks_sound (st0 : Stage V) h closed ts ls ps i p wk0 :
  (1 <= _size st0)%Z ->
  (forall x, is_Some (doTask (_worker_class st0) x)) ->
  (workers st0, locks st0)
  = assemble (_worker_class st0) (_input_tube st0) (_output_tubes st0) (_size st0) [] ->
  stage_inv st0 h closed ts ls ps ->
  ps !! i = Some p -> workers st0 !! i = Some wk0 ->
  ~ lock_raises ls (set_at wk0 p).
Proof.
  intros HN Hf Hasm HI Hp Hwk. unfold stage_inv in HI.
  destruct (base (_worker_class st0)) eqn:Hb.
  - destruct (workers_ordered st0 HN Hf Hasm Hb) as [Hws _]. rewrite Hws in Hwk.
    rewrite list_lookup_fmap in Hwk.
    destruct (seq 0 (Z.to_nat (_size st0)) !! i) as [j|] eqn:Hj; simplify_eq/=.
    apply lookup_seq in Hj as [-> _]. destruct HI as [g HI].
    exact (Inv_locks_sound _ _ _ _ _ _ _ i p HN HI Hp).
  - destruct HI as [γ HI]. unfold lock_raises.
    destruct (workers_unordered st0 Hf Hasm Hb) as [Hws _]. rewrite Hws in Hwk.
    apply lookup_replicate in Hwk as [-> _]. simpl.
    pose proof (uinv_phase _ _ _ _ _ _ _ _ HI) as Hphase.
    destruct (phase_place _ _ _ _ _ _ _ _ Hphase Hp) as [Ha|[->|[Hφ|[t Hφ]]]].
    + destruct p; simpl in Ha; try done; by intros ?.
    + by intros ?.
    + rewrite Hφ in Hphase. simpl in Hphase. destruct Hphase as (_ & _ & _ & Hi0 & _).
      rewrite Hp in Hi0. injection Hi0 as ->. by intros ?.
    + rewrite Hφ in Hphase. simpl in Hphase. destruct Hphase as (_ & _ & _ & Hi0 & _).
      rewrite Hp in Hi0. injection Hi0 as ->. by intros ?.
Qed.

End LocksSound.

(** *** The turns of an ordered stage *)

Section Turns.
Context {V : Type}.

(** The worker holds the turn to read: it is between the acquire of line
    152 and the release of line 159. *)
Definition reading (p : pc V) : bool :=
  match p with
  | AtGet | AtReleaseInput _ => true
  | _ => false
  end.

(** The worker holds the turn to publish: it is in [putResult] between the
    acquire of line 142 and the release of line 145. *)
Definition publishing (p : pc V) : bool :=
  match p with
  | AtPut _ _ ThenReleaseOutput | AtReleaseOutput => true
  | _ => false
  end.

Local Open Scope nat_scope.

Lemma Inv_one_reader (f : V -> payload V) (N : Z) tin outs xs g σ i j p q :
  Inv f N tin outs xs g σ ->
  sys_places σ !! i = Some p -> sys_places σ !! j = Some q ->
  reading p = true -> reading q = true -> i = j.
Proof.
  intros HI Hp Hq Hrp Hrq.
  pose proof (inv_places f N tin outs xs g σ HI) as Hlen.
  apply lookup_lt_Some in Hp as Hi. apply lookup_lt_Some in Hq as Hj.
  rewrite Hlen in Hi, Hj.
  pose proof (inv_rd f N tin outs xs g σ HI i Hi) as Hri.
  pose proof (inv_rd f N tin outs xs g σ HI j Hj) as Hrj.
  pose proof (inv_wok f N tin outs xs g σ HI i p Hp) as Hwp.
  pose proof (inv_wok f N tin outs xs g σ HI j q Hq) as Hwq.
  assert (Hgi : grd g i = gR g).
  { destruct p; simpl in Hrp, Hwp; try done; by destruct Hwp as [? _]. }
  assert (Hgj : grd g j = gR g).
  { destruct q; simpl in Hrq, Hwq; try done; by destruct Hwq as [? _]. }
  rewrite <- Hri, <- Hrj. congruence.
Qed.

Lemma Inv_one_publisher (f : V -> payload V) (N : Z) tin outs xs g σ i j p q :
  Inv f N tin outs xs g σ ->
  sys_places σ !! i = Some p -> sys_places σ !! j = Some q ->
  publishing p = true -> publishing q = true -> i = j.
Proof.
  intros HI Hp Hq Hrp Hrq.
  pose proof (inv_places f N tin outs xs g σ HI) as Hlen.
  apply lookup_lt_Some in Hp as Hi. apply lookup_lt_Some in Hq as Hj.
  rewrite Hlen in Hi, Hj.
  pose proof (inv_rd f N tin outs xs g σ HI i Hi) as Hri.
  pose proof (inv_rd f N tin outs xs g σ HI j Hj) as Hrj.
  pose proof (inv_wok f N tin outs xs g σ HI i p Hp) as Hwp.
  pose proof (inv_wok f N tin outs xs g σ HI j q Hq) as Hwq.
  assert (Hgi : grd g i = gP g).
  { destruct p as [| |?|?|?|? ? [| |]| |?| |?]; simpl in Hrp, Hwp; try done;
      by destruct Hwp as (_ & ? & _). }
  assert (Hgj : grd g j = gP g).
  { destruct q as [| |?|?|?|? ? [| |]| |?| |?]; simpl in Hrq, Hwq; try done;
      by destruct Hwq as (_ & ? & _). }
  rewrite <- Hri, <- Hrj. congruence.
Qed.

End Turns.

(** *** The pipeline *)

Section PipelineValues.
Context {V : Type}.
Variables (root : nat) (w0 : World V) (rank : nat -> nat) (xs : list V).
Hypothesis Hbt : built_tree root w0 rank.

Local Open Scope nat_scope.

(** The stage [s] is reached from the root through ordered stages, and [F]
    is what their transforms make of a task, one after the other. *)
Inductive composes : nat -> (V -> V) -> Prop :=
| composes_root : composes root (fun x => x)
| composes_next p stp c F G :
    composes p F ->
    stages w0 !! p = Some stp ->
    base (_worker_class stp) = OrderedWorker ->
    c ∈ _next_stages stp ->
    (forall x, doTask (_worker_class stp) (F x) = Some (G x)) ->
    composes c G.

Lemma expected_results (f : V -> payload V) (F G : V -> V) :
  (forall x, f (F x) = Some (G x)) ->
  expected f (F <$> xs) = feed (G <$> xs) true.
Proof.
  intros HG. unfold expected, feed. f_equal. rewrite <- !list_fmap_compose.
  apply list_fmap_ext. intros _ x _. simpl. by rewrite HG.
Qed.

Lemma composes_fed Γ pend w s F :
  kept root w0 xs Γ pend w -> fed Γ root = xs ->
  (forall s st0, stages w0 !! s = Some st0 ->
     places w s = replicate (Z.to_nat (_size st0)) Exited) ->
  composes s F -> fed Γ s = F <$> xs.
Proof.
  intros Hk Hroot Hdone Hc. induction Hc as [|p stp c F G Hp IH Hsp Hb Hin HG].
  - by rewrite list_fmap_id.
  - apply list_elem_of_lookup in Hin as [u Hu].
    destruct (bt_links _ _ _ Hbt p stp u c Hsp Hu) as (stc & Hsc & Hout).
    pose proof (k_stage _ _ _ _ _ _ Hk p stp Hsp) as [Hinv _ _ Hlinked _].
    pose proof (stage_inv_exited_ordered stp _ _ _ _ _ u _
                  (bt_size _ _ _ Hbt p stp Hsp) Hb Hinv (Hdone p stp Hsp) Hout) as Hexp.
    specialize (Hlinked u _ Hout). rewrite Hu in Hlinked.
    rewrite Hlinked, IH, (expected_results _ F G HG) in Hexp.
    by apply feed_inj in Hexp as [? _].
Qed.

(** What an ordered stage at the end of a path of ordered stages leaves on
    a tube that leaves the pipeline. *)
Lemma ordered_path_content Γ pend w s st F u t :
  kept root w0 xs Γ pend w -> nf (pipeline_run root) (pend, w) ->
  composes s F ->
  stages w0 !! s = Some st ->
  base (_worker_class st) = OrderedWorker ->
  _output_tubes st !! u = Some t -> _next_stages st !! u = None ->
  tube_content (tubes w) t = expected (doTask (_worker_class st)) (F <$> xs).
Proof.
  intros Hk Hnf Hc Hs Hb Hu Hnext.
  destruct (kept_stuck root w0 rank xs Hbt Γ pend w Hk Hnf) as [Hpend Hdone].
  assert (Hroot : fed Γ root = xs).
  { destruct (bt_root _ _ _ Hbt) as [str Hr].
    destruct (Hdone root str Hr) as (Hcl & _).
    pose proof (k_root _ _ _ _ _ _ Hk) as Hroot. unfold root_fed in Hroot.
    rewrite Hcl in Hroot. by destruct Hroot. }
  assert (Hps : forall s st0, stages w0 !! s = Some st0 ->
            places w s = replicate (Z.to_nat (_size st0)) Exited).
  { intros s1 st1 Hs1. by destruct (Hdone s1 st1 Hs1) as (_ & _ & ? & _). }
  pose proof (composes_fed Γ pend w s F Hk Hroot Hps Hc) as Hfed.
  pose proof (k_stage _ _ _ _ _ _ Hk s st Hs) as [Hinv _ _ Hlinked _].
  pose proof (stage_inv_exited_ordered st _ _ _ _ _ u t
                (bt_size _ _ _ Hbt s st Hs) Hb Hinv (Hps s st Hs) Hu) as Hexp.
  specialize (Hlinked u t Hu). rewrite Hnext in Hlinked.
  by rewrite <- Hlinked, Hexp, Hfed.
Qed.

End PipelineValues.

Section PipelineValueTheorems.
Context {V : Type}.

Local Open Scope nat_scope.

(** X1.  When a run of a tree-shaped pipeline has ended, the input tube of
    every stage is empty, and every tube that leaves the pipeline holds as
    many results as tasks were put, followed by one stop request: nothing
    is left between the stages. *)
Theorem pipeline_drains (root : nat) (w0 : World V) (rank : nat -> nat) (xs : list V)
    pend w s st :
  built_tree root w0 rank ->
  rtc (pipeline_run root) (script xs, w0) (pend, w) ->
  nf (pipeline_run root) (pend, w) ->
  stages w0 !! s = Some st ->
  content_of w (_input_tube st) = [] /\
  forall u t, _output_tubes st !! u = Some t -> _next_stages st !! u = None ->
    exists ys, content_of w t = feed ys true /\ length ys = length xs.
Proof.
  intros Hbt Hrun Hnf Hs.
  destruct (kept_reach root w0 rank xs Hbt _ _ _ _ _ (kept_start root w0 rank xs Hbt) Hrun)
    as [Γ Hk].
  destruct (kept_stuck root w0 rank xs Hbt Γ pend w Hk Hnf) as [_ Hdone].
  destruct (Hdone s st Hs) as (_ & _ & Hps & Houts).
  pose proof (k_stage _ _ _ _ _ _ Hk s st Hs) as [Hinv _ Hin Hlinked _].
  split.
  - change (tube_content (tubes w) (_input_tube st) = []). rewrite <- Hin.
    by apply (stage_inv_exited st _ _ _ _ _ (bt_size _ _ _ Hbt s st Hs) Hinv).
  - intros u t Hu Hnext. destruct (Houts u t Hu) as (ys & Hys & Hlen).
    exists ys. split; [|done].
    specialize (Hlinked u t Hu). rewrite Hnext in Hlinked.
    change (tube_content (tubes w) t = feed ys true). by rewrite <- Hlinked.
Qed.

(** X2.  A stage that is reached from the root through ordered stages
    only, and is ordered itself: when the run has ended, each of its tubes
    that leave the pipeline holds, in the order of the tasks, what its
    transform returns for the composition of the upstream transforms
    applied to each task, and then the stop request. *)
Theorem ordered_path_composes (root : nat) (w0 : World V) (rank : nat -> nat)
    (xs : list V) pend w s st F u t :
  built_tree root w0 rank ->
  rtc (pipeline_run root) (script xs, w0) (pend, w) ->
  nf (pipeline_run root) (pend, w) ->
  composes root w0 s F ->
  stages w0 !! s = Some st ->
  base (_worker_class st) = OrderedWorker ->
  _output_tubes st !! u = Some t -> _next_stages st !! u = None ->
  content_of w t = expected (doTask (_worker_class st)) (F <$> xs).
Proof.
  intros Hbt Hrun Hnf Hc Hs Hb Hu Hnext.
  destruct (kept_reach root w0 rank xs Hbt _ _ _ _ _ (kept_start root w0 rank xs Hbt) Hrun)
    as [Γ Hk].
  by apply (ordered_path_content root w0 rank xs Hbt Γ pend w s st F u t).
Qed.

(** X3.  In no state that a run of a tree-shaped pipeline reaches has a
    worker left [run] on an exception, and in no such state does the next
    operation of a worker on a lock raise: no lock is released that is not
    held, and no worker lacks a lock. *)
Theorem pipeline_never_crashes (root : nat) (w0 : World V) (rank : nat -> nat)
    (xs : list V) pend w s st i wk :
  built_tree root w0 rank ->
  rtc (pipeline_run root) (script xs, w0) (pend, w) ->
  stages w !! s = Some st -> workers st !! i = Some wk ->
  (forall e, at_pc wk ≠ Crashed e) /\ ~ lock_raises (locks st) wk.
Proof.
  intros Hbt Hrun Hst Hwk.
  destruct (kept_reach root w0 rank xs Hbt _ _ _ _ _ (kept_start root w0 rank xs Hbt) Hrun)
    as [Γ Hk].
  pose proof (k_shape _ _ _ _ _ _ Hk) as [Hlen Hshape].
  destruct (lookup_lt_is_Some_2 (stages w0) s) as [st0 Hs0].
  { rewrite <- Hlen. by eapply lookup_lt_Some. }
  destruct (Hshape s st0 Hs0) as (st' & Hst' & _ & Hwlen & Hworkers).
  rewrite Hst in Hst'. injection Hst' as <-.
  destruct (lookup_lt_is_Some_2 (workers st0) i) as [wk0 Hwk0].
  { rewrite <- Hwlen. by eapply lookup_lt_Some. }
  destruct (Hworkers i wk0 Hwk0) as [p Hp]. rewrite Hwk in Hp. injection Hp as ->.
  pose proof (k_stage _ _ _ _ _ _ Hk s st0 Hs0) as [Hinv _ _ _ _].
  rewrite (locks_of_lookup w s st Hst) in Hinv.
  assert (Hplace : places w s !! i = Some p).
  { rewrite (places_lookup w s st Hst), list_lookup_fmap, Hwk. done. }
  destruct (stage_facts root w0 rank Hbt s st0 Hs0) as (HN & _ & Hf & Hasm).
  split.
  - intros e He. destruct wk0; simpl in He. subst p.
    by eapply stage_inv_no_crash.
  - by eapply stage_inv_locks_sound.
Qed.

(** X4.  In every state that a run reaches, an ordered stage has one worker
    at most that holds the turn to read the input tube, and one worker at
    most that holds the turn to publish. *)
Theorem ordered_stage_turns (root : nat) (w0 : World V) (rank : nat -> nat)
    (xs : list V) pend w s st i j p q :
  built_tree root w0 rank ->
  rtc (pipeline_run root) (script xs, w0) (pend, w) ->
  stages w0 !! s = Some st ->
  base (_worker_class st) = OrderedWorker ->
  places w s !! i = Some p -> places w s !! j = Some q ->
  (reading p = true -> reading q = true -> i = j) /\
  (publishing p = true -> publishing q = true -> i = j).
Proof.
  intros Hbt Hrun Hs Hb Hp Hq.
  destruct (kept_reach root w0 rank xs Hbt _ _ _ _ _ (kept_start root w0 rank xs Hbt) Hrun)
    as [Γ Hk].
  pose proof (k_stage _ _ _ _ _ _ Hk s st Hs) as [Hinv _ _ _ _].
  unfold stage_inv in Hinv. rewrite Hb in Hinv. destruct Hinv as [g HI].
  split; intros Hrp Hrq.
  - by eapply (Inv_one_reader _ _ _ _ _ _ _ i j p q HI).
  - by eapply (Inv_one_publisher _ _ _ _ _ _ _ i j p q HI).
Qed.

End PipelineValueTheorems.


(** ** The results of an unordered stage *)

Lemma bind_insert_perm {A B} (g : A -> list B) (l : list A) i x x' :
  l !! i = Some x ->
  (<[i := x']> l ≫= g) ++ g x ≡ₚ (l ≫= g) ++ g x'.
Proof.
  revert i. induction l as [|z l IH]; intros i Hi; [done|].
  destruct i as [|i]; simpl in Hi.
  - injection Hi as ->. change (<[0 := x']> (x :: l)) with (x' :: l).
    rewrite !bind_cons. solve_Permutation.
  - change (<[S i := x']> (z :: l)) with (z :: <[i := x']> l).
    rewrite !bind_cons, <- app_assoc, (IH i Hi). solve_Permutation.
Qed.

Lemma bind_nil_all {A B} (g : A -> list B) (l : list A) :
  Forall (fun x => g x = []) l -> l ≫= g = [].
Proof. induction 1 as [|x l Hx _ IH]; [done|]. by rewrite bind_cons, Hx, IH. Qed.

Section UnorderedValues.
Context {V : Type}.
Variables (f : V -> payload V) (N : Z) (tin : nat) (outs : list nat).
Hypothesis HN : (1 <= N)%Z.
Hypothesis Hnodup : NoDup (tin :: outs).
Hypothesis Hf : forall x, is_Some (f x).

Local Open Scope nat_scope.

(** The tasks and results among the envelopes of a tube. *)
Definition payloads (q : list (envelope V)) : list V := omap fst q.

(** The result that the worker at the place [p] has still to put on the
    output tube number [u]. *)
Definition held (u : nat) (p : pc V) : list V :=
  match p with
  | AtDoTask x => [result_of f x]
  | AtPut (Some y, _) t ThenLoop => if decide (t <= u) then [y] else []
  | _ => []
  end.

(** The tasks [h] were put on the input tube: the result of each of them is
    on the output tube, or in the hands of a worker, or the task is still in
    the input tube. *)
Definition UPerm (h : list V) (ts : list (Tube V)) (ps : list (pc V)) : Prop :=
  forall u t, outs !! u = Some t ->
    payloads (tube_content ts t) ++ (ps ≫= held u)
      ++ (result_of f <$> payloads (tube_content ts tin))
    ≡ₚ result_of f <$> h.

Lemma payloads_app q q' : payloads (q ++ q') = payloads q ++ payloads q'.
Proof. unfold payloads. apply omap_app. Qed.

Lemma payloads_feed (ys : list V) b : payloads (feed ys b) = ys.
Proof.
  unfold feed. rewrite payloads_app. unfold payloads.
  replace (omap fst (if b then [(None, 0%Z)] else [])) with (@nil V) by (by destruct b).
  rewrite app_nil_r. induction ys as [|y ys IH]; [done|].
  rewrite fmap_cons. change (omap fst ((Some y, 0%Z) :: _)) with (y :: omap fst ((fun y => (Some y, 0%Z)) <$> ys)).
  by rewrite IH.
Qed.

Lemma UPerm_start ts :
  (forall t, t ∈ tin :: outs -> t < length ts /\ tube_content ts t = []) ->
  UPerm [] ts (replicate (Z.to_nat N) AtGet).
Proof.
  intros Hts u t Hu.
  rewrite (proj2 (Hts t (list_elem_of_further _ _ _ (list_elem_of_lookup_2 _ _ _ Hu)))).
  rewrite (proj2 (Hts tin (list_elem_of_here _ _))).
  rewrite bind_nil_all; [done|]. by apply Forall_replicate.
Qed.

Lemma UPerm_feed h ts ps x :
  tin < length ts ->
  UPerm h ts ps -> UPerm (h ++ [x]) (tube_put ts tin (Some x, 0%Z)) ps.
Proof.
  intros Htin HP u t Hu. specialize (HP u t Hu).
  rewrite tube_content_put_ne by (symmetry; by eapply lone_tin_not_out).
  rewrite tube_content_put_eq by done.
  rewrite payloads_app, !fmap_app. simpl. rewrite !app_assoc.
  apply Permutation_app_tail. by rewrite <- !app_assoc.
Qed.

Lemma UPerm_stop h ts ps c :
  tin < length ts ->
  UPerm h ts ps -> UPerm h (tube_put ts tin (None, c)) ps.
Proof.
  intros Htin HP u t Hu. specialize (HP u t Hu).
  rewrite tube_content_put_ne by (symmetry; by eapply lone_tin_not_out).
  rewrite tube_content_put_eq by done.
  rewrite payloads_app. simpl. by rewrite app_nil_r.
Qed.

(** The places of a stage that keeps its invariant. *)
Lemma UInv_place k closed γ ts ps i (p : pc V) :
  UInv N tin outs k closed γ ts ps -> ps !! i = Some p ->
  alive outs p \/ p = Exited \/ (exists c, p = AtRequeue c) \/
  exists t, p = AtPut (None, 0%Z) t ThenBreak.
Proof.
  intros HI Hi. pose proof (uinv_phase _ _ _ _ _ _ _ _ HI) as Hphase.
  destruct (phase_place _ _ _ _ _ _ _ _ Hphase Hi) as [?|[?|[Hφ|[t Hφ]]]]; [auto..| |];
    rewrite Hφ in Hphase; simpl in Hphase.
  - destruct Hphase as (_ & _ & _ & Hi0 & _). rewrite Hi in Hi0.
    right. right. left. eexists. by injection Hi0.
  - destruct Hphase as (_ & _ & _ & Hi0 & _). rewrite Hi in Hi0.
    right. right. right. exists t. by injection Hi0.
Qed.

Lemma held_move u (ps : list (pc V)) i p p' (A C A' C' H : list V) :
  ps !! i = Some p ->
  A' ++ held u p' ++ C' ≡ₚ A ++ held u p ++ C ->
  A ++ (ps ≫= held u) ++ C ≡ₚ H ->
  A' ++ (<[i := p']> ps ≫= held u) ++ C' ≡ₚ H.
Proof.
  intros Hp Hmove HP.
  pose proof (bind_insert_perm (held u) ps i p p' Hp) as Hins.
  apply (Permutation_app_inv_r (held u p)).
  trans (A' ++ ((<[i := p']> ps ≫= held u) ++ held u p) ++ C'); [solve_Permutation|].
  rewrite Hins.
  trans ((ps ≫= held u) ++ (A' ++ held u p' ++ C')); [solve_Permutation|].
  rewrite Hmove, <- HP. solve_Permutation.
Qed.

(** A worker takes a step: what it reads it holds, and what it holds it
    puts on the output tubes, one after the other. *)
Lemma UPerm_work h k closed γ ts ls ps i p ts' ls' p' :
  UInv N tin outs k closed γ ts ps ->
  UPerm h ts ps ->
  ps !! i = Some p ->
  worker_step ts ls (lone f N tin outs p) = Some (ts', ls', p') ->
  UPerm h ts' (<[i := p']> ps).
Proof.
  intros HI HP Hi Hstep u tu Hu. specialize (HP u tu Hu).
  assert (Htin : tin < length ts).
  { apply (uinv_tubes _ _ _ _ _ _ _ _ HI). by left. }
  assert (Hne : tu ≠ tin) by (by eapply lone_tin_not_out).
  apply lookup_lt_Some in Hu as Hum.
  unfold worker_step, worker_step_with in Hstep.
  destruct (UInv_place k closed γ ts ps i p HI Hi) as [Ha|[->|[[c ->]|[t ->]]]].
  - destruct p as [| |e|x|y|e t [| |]| |c| |]; simpl in Ha, Hstep; try done.
    + (* the worker reads *)
      destruct (tube_content ts tin) as [|e q] eqn:Hc.
      { rewrite (get_at_nil ts tin Htin Hc) in Hstep. done. }
      destruct (get_at_cons ts tin e q Hc) as (ts1 & Hget & _ & Hq & Hother).
      rewrite Hget in Hstep. simpl in Hstep. injection Hstep as <- _ <-.
      refine (held_move u ps i AtGet _ _ _ _ _ _ Hi _ HP).
      rewrite (Hother tu Hne), Hq. simpl.
      destruct e as [[x|] c]; unfold dispatch; simpl.
      * solve_Permutation.
      * destruct (_ =? _)%Z; [|done]. unfold put_from. by case_decide.
    + (* the worker has the result *)
      destruct (Hf x) as [y Hy]. simpl in Hstep. rewrite Hy in Hstep.
      injection Hstep as <- _ <-.
      refine (held_move u ps i (AtDoTask x) _ _ _ _ _ _ Hi _ HP).
      unfold putResult, put_from. simpl. rewrite decide_True by lia. simpl.
      unfold result_of. rewrite Hy. simpl. done.
    + (* the worker puts its result on the tube number [t] *)
      simpl in Hstep. destruct (outs !! t) as [t0|] eqn:Ht0'; simpl in Hstep; [|done].
      injection Hstep as <- _ <-.
      assert (Ht0in : t0 ≠ tin) by (by eapply lone_tin_not_out).
      destruct Ha as [Htm [y ->]].
      refine (held_move u ps i (AtPut (Some y, 0%Z) t ThenLoop) _ _ _ _ _ _ Hi _ HP).
      rewrite (tube_content_put_ne ts t0 tin) by done.
      assert (Ht0 : t0 < length ts).
      { apply (uinv_tubes _ _ _ _ _ _ _ _ HI). right. by eapply list_elem_of_lookup_2. }
      unfold put_from. simpl.
      destruct (decide (u = t)) as [->|Hut].
      * rewrite Hu in Ht0'. injection Ht0' as <-.
        rewrite tube_content_put_eq, payloads_app by done. simpl.
        rewrite (decide_True (P := t <= t)) by lia.
        case_decide; simpl; [rewrite decide_False by lia|]; solve_Permutation.
      * assert (Htu : t0 ≠ tu).
        { intros ->. apply Hut. by eapply lone_outs_apart. }
        rewrite tube_content_put_ne by done.
        case_decide; simpl; repeat case_decide; try lia; done.
  - (* a worker that has exited takes no step *)
    done.
  - (* the worker puts the stop request back *)
    simpl in Hstep. injection Hstep as <- _ <-.
    refine (held_move u ps i (AtRequeue c) _ _ _ _ _ _ Hi _ HP).
    rewrite tube_content_put_ne by done.
    rewrite tube_content_put_eq, payloads_app by done. simpl. by rewrite app_nil_r.
  - (* the worker forwards the stop request *)
    simpl in Hstep. destruct (outs !! t) as [t0|] eqn:Ht0'; simpl in Hstep; [|done].
    injection Hstep as <- _ <-.
    assert (Ht0in : t0 ≠ tin) by (by eapply lone_tin_not_out).
    assert (Ht0 : t0 < length ts).
    { apply (uinv_tubes _ _ _ _ _ _ _ _ HI). right. by eapply list_elem_of_lookup_2. }
    refine (held_move u ps i (AtPut (None, 0%Z) t ThenBreak) _ _ _ _ _ _ Hi _ HP).
    rewrite (tube_content_put_ne ts t0 tin) by done.
    assert (Hheld : held u (put_from (lone f N tin outs (AtPut (None, 0%Z) t ThenBreak))
                      (None, 0%Z) (S t) ThenBreak) = []).
    { unfold put_from. by case_decide. }
    rewrite Hheld. simpl.
    destruct (decide (t0 = tu)) as [->|Htu].
    * rewrite tube_content_put_eq, payloads_app by done. simpl. by rewrite app_nil_r.
    * by rewrite tube_content_put_ne.
Qed.

End UnorderedValues.

(** *** The unordered stage in a world *)

Section UnorderedStage.
Context {V : Type}.
Variables (s : nat) (f : V -> payload V) (N : Z) (tin : nat) (outs : list nat)
          (xs : list V).
Hypothesis HN : (1 <= N)%Z.
Hypothesis Hnodup : NoDup (tin :: outs).
Hypothesis Hf : forall x, is_Some (f x).

Local Open Scope nat_scope.

(** The state of a run: the tasks [h] were put and the tasks [rest] are to
    be put, with the stop request after them; the workers of the stage are
    at the places [ps]. *)
Definition unordered_kept (x : list (payload V) * World V) : Prop :=
  exists h rest (closed : bool) γ ps st,
    xs = h ++ rest /\
    fst x = (if closed then [] else script rest) /\
    (closed = true -> rest = []) /\
    stages (snd x) !! s = Some st /\ _input_tube st = tin /\
    workers st = lone f N tin outs <$> ps /\
    UInv N tin outs (length h) closed γ (tubes (snd x)) ps /\
    UPerm f tin outs h (tubes (snd x)) ps.

(** What is left to do. *)
Definition unordered_measure (x : list (payload V) * World V) : nat :=
  sum_list_with (pending_weight outs) (fst x)
  + sum_list_with (envelope_weight outs) (tube_content (tubes (snd x)) tin)
  + sum_list_with (place_weight outs) (places (snd x) s).

Lemma lone_places (ps : list (pc V)) : at_pc <$> (lone f N tin outs <$> ps) = ps.
Proof. rewrite <- list_fmap_compose. rewrite <- (list_fmap_id ps) at 2. done. Qed.

Lemma unordered_kept_step x y :
  unordered_kept x -> stage_run s x y ->
  unordered_kept y /\ unordered_measure y < unordered_measure x.
Proof.
  intros (h & rest & closed & γ & ps & st & Hxs & Hpend & Hrest & Hst & Htin & Hws & HI & HP)
         Hrun.
  assert (Htlt : tin < length (tubes (snd x))).
  { apply (uinv_tubes _ _ _ _ _ _ _ _ HI). by left. }
  assert (Hnotin : tin ∉ outs) by (by apply NoDup_cons in Hnodup as [? _]).
  destruct Hrun as [task pend w w' Hput|i pend w w' Hstep]; simpl in *.
  - unfold Stage_put in Hput. rewrite Hst in Hput. simpl in Hput. injection Hput as <-.
    rewrite Htin. destruct closed; [done|]. unfold script in Hpend.
    pose proof (put_weight outs (tubes w) tin (task, 0%Z)) as Hput.
    destruct rest as [|x0 rest]; simpl in Hpend; injection Hpend as -> ->.
    + split.
      * exists h, [], true, (Progress (StopInTube 0) (queued γ)), ps, st. simpl.
        repeat (split; [done|]). split; [by apply UInv_close|by apply UPerm_stop].
      * unfold unordered_measure, places. simpl. rewrite Hst. simpl.
        unfold envelope_weight in *. simpl in *. lia.
    + split.
      * exists (h ++ [x0]), rest, false, (Progress StopNotPut (queued γ ++ [x0])), ps, st.
        simpl. split; [by rewrite <- app_assoc|]. repeat (split; [done|]).
        split; [|by apply UPerm_feed].
        rewrite length_app, Nat.add_1_r. by apply UInv_feed.
      * unfold unordered_measure, places. simpl. rewrite Hst. simpl.
        unfold envelope_weight in *. simpl in *. lia.
  - destruct (process_step_inv s i w w' Hstep)
      as (st1 & wk & ts' & ls' & p' & Hst1 & Hwk & Hws1 & ->).
    rewrite Hst in Hst1. injection Hst1 as <-.
    rewrite Hws, list_lookup_fmap in Hwk.
    destruct (ps !! i) as [p|] eqn:Hp; simpl in Hwk; [|done]. injection Hwk as <-.
    destruct (UInv_work f N tin outs HN Hnodup Hf _ _ _ _ _ _ _ _ _ _ _ HI Hp Hws1)
      as [_ [γ' HI']].
    pose proof (UPerm_work f N tin outs Hnodup Hf h _ _ _ _ _ _ _ _ _ _ _ HI HP Hp Hws1)
      as HP'.
    assert (Hlt : s < length (stages w)) by (by eapply lookup_lt_Some).
    split.
    + exists h, rest, closed, γ', (<[i := p']> ps), 
        (set_run st (<[i := set_at (lone f N tin outs p) p']> (workers st)) ls').
      simpl. repeat (split; [done|]). split; [by rewrite list_lookup_insert_eq|].
      split; [done|]. split; [|done].
      rewrite Hws, list_fmap_insert. done.
    + pose proof (worker_step_weight (lone f N tin outs p) (tubes w) (locks st) ts' ls' p')
        as Hweight. simpl in Hweight. specialize (Hweight Hnotin Hws1).
      unfold unordered_measure, places. simpl.
      rewrite Hst, list_lookup_insert_eq by done. simpl.
      rewrite Hws, list_fmap_insert, lone_places. simpl.
      pose proof (sum_list_with_insert (place_weight outs) ps i p p' Hp). lia.
Qed.

Lemma unordered_kept_sn : forall c x,
  unordered_kept x -> unordered_measure x = c -> sn (stage_run s) x.
Proof.
  induction c as [c IH] using lt_wf_ind. intros x Hk Hc.
  constructor. intros y Hy. simpl in Hy.
  destruct (unordered_kept_step x y Hk Hy) as [Hk' Hlt].
  eapply (IH (unordered_measure y)); [lia|done|done].
Qed.

Lemma unordered_kept_reach x y :
  unordered_kept x -> rtc (stage_run s) x y -> unordered_kept y.
Proof.
  intros Hk Hrun. induction Hrun as [x|x y z Hstep _ IH]; [done|].
  apply IH. by destruct (unordered_kept_step x y Hk Hstep).
Qed.

(** What an output tube holds, at any moment. *)
Lemma unordered_kept_output x u t :
  unordered_kept x -> outs !! u = Some t ->
  exists ys b, content_of (snd x) t = feed ys b /\ Some <$> ys ⊆+ f <$> xs.
Proof.
  intros (h & rest & closed & γ & ps & st & Hxs & Hpend & Hrest & Hst & Htin & Hws & HI & HP)
         Hu.
  destruct (uinv_output _ _ _ _ _ _ _ _ HI u t Hu) as (ys & Hys & _).
  exists ys, (stopped (stop_at γ) u). split; [done|].
  specialize (HP u t Hu). rewrite Hys, payloads_feed in HP.
  assert (Hsub : ys ⊆+ result_of f <$> xs).
  { rewrite Hxs, fmap_app. apply submseteq_inserts_r. rewrite <- HP.
    apply submseteq_inserts_r. done. }
  apply (fmap_submseteq Some) in Hsub. rewrite <- list_fmap_compose in Hsub.
  replace (f <$> xs) with (Some ∘ result_of f <$> xs); [done|].
  apply list_fmap_ext. intros _ x0 _. simpl. unfold result_of.
  by destruct (Hf x0) as [y ->].
Qed.

(** A run that has ended. *)
Lemma unordered_kept_end x :
  unordered_kept x -> nf (stage_run s) x ->
  fst x = [] /\ places (snd x) s = replicate (Z.to_nat N) Exited /\
  forall u t, outs !! u = Some t ->
    exists ys, content_of (snd x) t = feed ys true /\ Some <$> ys ≡ₚ f <$> xs.
Proof.
  intros (h & rest & closed & γ & ps & st & Hxs & Hpend & Hrest & Hst & Htin & Hws & HI & HP)
         Hnf.
  destruct x as [pend w]. simpl in *.
  assert (Hempty : pend = []).
  { destruct pend as [|task pend]; [done|]. exfalso. apply Hnf.
    eexists. apply run_put. unfold Stage_put. rewrite Hst. done. }
  rewrite Hempty in Hpend, Hnf |- *. clear Hempty. destruct closed.
  2:{ unfold script in Hpend. destruct (Some <$> rest); done. }
  rewrite (Hrest eq_refl), app_nil_r in Hxs. subst h.
  destruct (UInv_done f N tin outs HN _ γ (tubes w) (locks st) ps HI) as [Hps Houts].
  { intros i p Hp.
    destruct (worker_step (tubes w) (locks st) (lone f N tin outs p))
      as [[[ts' ls'] p']|] eqn:Hstep; [|done].
    exfalso. apply Hnf. eexists. apply (run_work s i). unfold process_step.
    rewrite Hst. simpl. rewrite Hws, list_lookup_fmap, Hp. simpl. rewrite Hstep. done. }
  split; [done|]. split.
  { unfold places. rewrite Hst. simpl. by rewrite Hws, lone_places. }
  intros u t Hu. destruct (Houts u t Hu) as (ys & Hys & _). exists ys. split; [done|].
  specialize (HP u t Hu).
  rewrite Hys, payloads_feed, (UInv_exited N tin outs _ _ _ _ _ HN HI Hps) in HP.
  rewrite bind_nil_all in HP.
  2:{ rewrite Hps. by apply Forall_replicate. }
  simpl in HP. rewrite !app_nil_r in HP. rewrite HP, <- list_fmap_compose.
  replace (f <$> xs) with (Some ∘ result_of f <$> xs); [done|].
  apply list_fmap_ext. intros _ x0 _. simpl. unfold result_of.
  by destruct (Hf x0) as [y ->].
Qed.

End UnorderedStage.

Section UnorderedStageTheorem.
Context {V : Type}.

(** X5.  An unordered stage of any pool size N >= 1 whose transform [f]
    returns a result for every task.  The producer puts the tasks [xs] and
    then the stop request on the input tube while the workers run, in any
    interleaving.  Every run ends; at every moment every output tube holds
    results of distinct tasks, and then perhaps the stop request; and when
    nothing can move any more the producer has put everything, every worker
    has exited and every output tube holds the results of all the tasks, in
    some order, and then the stop request. *)
Theorem unordered_stage_keeps_results (f : V -> payload V) (xs : list V) (w0 : World V) s st :
  stages w0 !! s = Some st ->
  _worker_class st = unordered_class f ->
  (1 <= _size st)%Z ->
  (workers st, locks st)
  = assemble (_worker_class st) (_input_tube st) (_output_tubes st) (_size st) [] ->
  NoDup (_input_tube st :: _output_tubes st) ->
  (forall t, t ∈ _input_tube st :: _output_tubes st ->
             (t < length (tubes w0))%nat /\ content_of w0 t = []) ->
  (forall x, is_Some (f x)) ->
  sn (stage_run s) (script xs, w0) /\
  forall pend w, rtc (stage_run s) (script xs, w0) (pend, w) ->
    (forall t, t ∈ _output_tubes st ->
       exists ys b, content_of w t = feed ys b /\ Some <$> ys ⊆+ f <$> xs) /\
    (nf (stage_run s) (pend, w) ->
       pend = [] /\
       places w s = replicate (Z.to_nat (_size st)) Exited /\
       forall t, t ∈ _output_tubes st ->
         exists ys, content_of w t = feed ys true /\ Some <$> ys ≡ₚ f <$> xs).
Proof.
  intros Hst Hcls HN Hasm Hnd Hts Hf.
  assert (Hk0 : unordered_kept s f (_size st) (_input_tube st) (_output_tubes st) xs
                  (script xs, w0)).
  { exists [], xs, false, (Progress StopNotPut []), (replicate (Z.to_nat (_size st)) AtGet), st.
    simpl. repeat (split; [done|]). split.
    - rewrite Hcls in Hasm. unfold assemble in Hasm. simpl in Hasm.
      injection Hasm as -> _. by rewrite fmap_replicate.
    - split; [by apply UInv_start|by apply UPerm_start]. }
  split.
  - by eapply unordered_kept_sn.
  - intros pend w Hrun.
    pose proof (unordered_kept_reach s f _ _ _ xs HN Hnd Hf _ _ Hk0 Hrun) as Hk.
    split.
    + intros t Ht. apply list_elem_of_lookup in Ht as [u Hu].
      by apply (unordered_kept_output s f _ _ _ xs Hf (pend, w) u t Hk).
    + intros Hnf.
      destruct (unordered_kept_end s f _ _ _ xs HN Hf (pend, w) Hk Hnf) as (Hp & Hps & Houts).
      split; [done|]. split; [done|]. intros t Ht.
      apply list_elem_of_lookup in Ht as [u Hu]. by apply (Houts u t).
Qed.

End UnorderedStageTheorem.


(** ** A stage graph with a cycle *)

Section Cycles.
Context {V : Type}.
Implicit Types (w : World V) (s c : nat).

(** An endless path of downstream links starts at [s]: [s] reaches a stage
    that is downstream of itself. *)
Definition endless w s : Prop :=
  exists c, reaches w s c /\ tc (downstream w) c c.

Lemma endless_next w s :
  endless w s ->
  exists st c, stages w !! s = Some st /\ c ∈ _next_stages st /\ endless w c.
Proof.
  intros (c & Hreach & Hcyc). destruct Hreach as [s|s s1 c [st [Hst Hs1]] Hrest].
  - inversion Hcyc as [? ? [st [Hst Hc]]|? y ? [st [Hst Hy]] Hyc]; subst.
    + exists st, s. split; [done|]. split; [done|]. exists s. split; [apply rtc_refl|done].
    + exists st, y. split; [done|]. split; [done|]. exists s. split; [by apply tc_rtc|done].
  - exists st, s1. split; [done|]. split; [done|]. by exists c.
Qed.

Lemma extend_each_none (f : nat -> option (list nat)) l x :
  x ∈ l -> f x = None -> extend_each f l = None.
Proof.
  intros Hx Hf. induction l as [|y l IH]; [by apply elem_of_nil in Hx|].
  rewrite extend_each_cons. apply elem_of_cons in Hx as [->|Hx].
  - by rewrite Hf.
  - rewrite (IH Hx). by destruct (f y).
Qed.

Lemma getLeaves_endless_none fuel : forall w s, endless w s -> getLeaves fuel w s = None.
Proof.
  induction fuel as [|fuel IH]; intros w s Hs; [done|].
  destruct (endless_next w s Hs) as (st & c & Hst & Hc & Hend).
  simpl. rewrite Hst. simpl.
  destruct (_next_stages st) as [|c0 cs] eqn:Hn; [by apply elem_of_nil in Hc|].
  apply (extend_each_none _ _ c Hc). by apply IH.
Qed.

(** [build] adds workers, locks and tubes: it leaves the links as they
    are. *)
Definition same_links w w' : Prop :=
  forall s, _next_stages <$> stages w' !! s = _next_stages <$> stages w !! s.

Lemma build_loop_none fuel (l : list nat) :
  foldl (fun acc stage => w ← acc; build (V:=V) fuel w stage) None l = None.
Proof. by induction l. Qed.

(** The first part of [build]: the stage gets its workers; then the
    downstream stages are built. *)
Lemma build_unfold fuel w s st :
  stages w !! s = Some st ->
  exists w1, same_links w w1 /\
    build (S fuel) w s
    = foldl (fun acc stage => w ← acc; build fuel w stage) (Some w1) (_next_stages st).
Proof.
  intros Hst. simpl. rewrite Hst. simpl.
  assert (Hsame : forall ts st', _next_stages st' = _next_stages st ->
            same_links w {| tubes := ts; stages := <[s := st']> (stages w) |}).
  { intros ts st' Hn s1. simpl. destruct (decide (s1 = s)) as [->|Hne].
    - rewrite list_lookup_insert_eq by (by eapply lookup_lt_Some). rewrite Hst. simpl.
      by rewrite Hn.
    - by rewrite list_lookup_insert_ne. }
  destruct (_output_tubes st) as [|t0 outs0].
  - destruct (assemble _ _ _ _ _) as [ws ls]. eexists. split; [|reflexivity].
    by apply Hsame.
  - destruct (assemble _ _ _ _ _) as [ws ls]. eexists. split; [|reflexivity].
    by apply Hsame.
Qed.

Lemma build_same_links fuel : forall w s w', build fuel w s = Some w' -> same_links w w'.
Proof.
  induction fuel as [|fuel IH]; intros w s w' H; [done|].
  destruct (stages w !! s) as [st|] eqn:Hst.
  2:{ simpl in H. rewrite Hst in H. done. }
  destruct (build_unfold fuel w s st Hst) as (w1 & H1 & Heq). rewrite Heq in H. clear Heq.
  revert w1 H H1. generalize (_next_stages st). intros l.
  induction l as [|c l IHl]; intros w1 H H1.
  - simpl in H. by injection H as <-.
  - simpl in H. destruct (build fuel w1 c) as [w2|] eqn:Hb.
    + apply (IHl w2 H). intros s1. rewrite (IH w1 c w2 Hb s1). apply H1.
    + by rewrite build_loop_none in H.
Qed.

Lemma endless_same_links w w' s : same_links w w' -> endless w s -> endless w' s.
Proof.
  intros Hsame (c & Hreach & Hcyc).
  assert (Hd : forall a b, downstream w a b -> downstream w' a b).
  { intros a b (st & Hst & Hb). specialize (Hsame a). rewrite Hst in Hsame. simpl in Hsame.
    destruct (stages w' !! a) as [st'|] eqn:Hst'; simpl in Hsame; [|done].
    exists st'. split; [done|]. by injection Hsame as ->. }
  exists c. split.
  - unfold reaches in *. eapply rtc_subrel; [|done]. exact Hd.
  - by apply (tc_congruence (fun x => x) (downstream w') c c Hd).
Qed.

Lemma build_endless_none fuel : forall w s, endless w s -> build fuel w s = None.
Proof.
  induction fuel as [|fuel IH]; intros w s Hs; [done|].
  destruct (endless_next w s Hs) as (st & c & Hst & Hc & Hend).
  destruct (build_unfold fuel w s st Hst) as (w1 & H1 & ->).
  revert Hc w1 H1. generalize (_next_stages st). intros l.
  induction l as [|c0 l IHl]; intros Hc w1 H1; [by apply elem_of_nil in Hc|].
  simpl. destruct (build fuel w1 c0) as [w2|] eqn:Hb.
  - apply elem_of_cons in Hc as [->|Hc].
    + rewrite IH in Hb; [done|]. by apply (endless_same_links w).
    + apply (IHl Hc). intros s1. rewrite (build_same_links fuel w1 c0 w2 Hb s1). apply H1.
  - apply build_loop_none.
Qed.

(** X6.  When the links between the stages form a cycle that the stage [s]
    reaches, the recursions of [getLeaves] and of [build] from [s] do not
    come to an end within any bound on their depth; so the constructor of
    [Pipeline] returns no pipeline for [s]. *)
Theorem cycle_never_builds w s fuel :
  endless w s ->
  getLeaves fuel w s = None /\ build fuel w s = None /\ Pipeline_init fuel s w = None.
Proof.
  intros Hs. pose proof (getLeaves_endless_none fuel w s Hs) as Hl.
  split; [done|]. split; [by apply build_endless_none|].
  unfold Pipeline_init. by rewrite Hl.
Qed.

End Cycles.


(** ** [Stage.get] on a tube that holds nothing *)

Section GetEmpty.
Context {V : Type}.
Implicit Types (w : World V) (ts : list (Tube V)).

Lemma Stage_get_loop_app tm pre rest : forall ts valid result,
  Stage_get_loop tm (pre ++ rest) valid result ts
  = '(v, r, ts1) ← Stage_get_loop tm pre valid result ts; Stage_get_loop tm rest v r ts1.
Proof.
  induction pre as [|t0 pre IH]; intros ts valid result; simpl.
  - done.
  - destruct (get_at ts t0 tm) as [[r ts1]| |]; simpl; [|done..].
    destruct r as [e|[|] [e|]]; by rewrite IH.
Qed.

(** The loop has read the tubes of [pre], which all held an envelope, and
    comes to the tube [t]. *)
Lemma Stage_get_loop_before tm pre t rest ts valid result :
  NoDup (pre ++ [t]) ->
  (forall t', t' ∈ pre -> available ts t') ->
  exists v ts1,
    Stage_get_loop tm (pre ++ t :: rest) valid result ts
    = ('(rt, ts2) ← get_at ts1 t tm;
       match rt with
       | Timed true (Some e) => Stage_get_loop tm rest true (fst e) ts2
       | Timed _ _ => Stage_get_loop tm rest false None ts2
       | Direct e => Stage_get_loop tm rest v (fst e) ts2
       end) /\
    (forall t', ts1 !! t' = after_take ts pre t') /\ ts1 !! t = ts !! t.
Proof.
  intros Hnd Hav. apply NoDup_app in Hnd as (Hnd & Hdisj & _).
  destruct (Stage_get_loop_available tm pre ts valid result Hnd Hav) as (ts1 & Hrun & Hts1).
  assert (Ht : ts1 !! t = ts !! t).
  { rewrite Hts1. apply after_take_notin. intros Hin. apply (Hdisj t Hin). by left. }
  rewrite Stage_get_loop_app, Hrun.
  destruct (last pre); simpl; eexists _, ts1; (split; [reflexivity|done]).
Qed.

Lemma set_content_same (tb : Tube V) : set_content tb (content tb) = tb.
Proof. by destruct tb. Qed.

(** X7.  [Stage.get] reads the output tubes in their order.  When the
    tubes before the tube [t] hold an envelope each and [t] holds nothing:
    without a timeout the call waits at [t]; with a timeout, and [t] a
    Q-tube, the call raises AttributeError. *)
Theorem Stage_get_first_empty w s st tm pre t post tb :
  stages w !! s = Some st ->
  _output_tubes st = pre ++ t :: post ->
  NoDup (pre ++ [t]) ->
  (forall t', t' ∈ pre -> available (tubes w) t') ->
  tubes w !! t = Some tb -> content tb = [] ->
  (truthy tm = false -> Stage_get s tm w = Blocks) /\
  (truthy tm = true -> tube_cls tb = TubeQ -> Stage_get s tm w = Raises AttributeError).
Proof.
  intros Hs Houts Hnd Hav Ht Hc. unfold Stage_get. rewrite Hs, Houts.
  destruct (Stage_get_loop_before tm pre t post (tubes w) false None Hnd Hav)
    as (v & ts1 & -> & _ & Ht1).
  unfold get_at. rewrite Ht1, Ht, Hc. split.
  - intros Htm. by rewrite tube_get_untimed_blocks.
  - intros Htm Hq. rewrite Hq. simpl. unfold TubeQ_get. by rewrite Htm.
Qed.

(** X8.  With a timeout, when the last output tube is a P-tube that holds
    nothing, [Stage.get] returns [(False, None)], whatever it has read
    before: the envelopes that it has taken from the tubes before are
    gone from them. *)
Theorem Stage_get_expiry_drops w s st z pre t tb :
  stages w !! s = Some st ->
  _output_tubes st = pre ++ [t] ->
  NoDup (pre ++ [t]) ->
  (forall t', t' ∈ pre -> available (tubes w) t') ->
  tubes w !! t = Some tb -> content tb = [] -> tube_cls tb = TubeP ->
  0 < z ->
  exists w',
    Stage_get s (Some z) w = Returns (Pair false None, w') /\
    stages w' = stages w /\
    forall t', tubes w' !! t' = after_take (tubes w) pre t'.
Proof.
  intros Hs Houts Hnd Hav Ht Hc Hp Hz. unfold Stage_get. rewrite Hs, Houts.
  destruct (Stage_get_loop_before (Some z) pre t [] (tubes w) false None Hnd Hav)
    as (v & ts1 & -> & Hts1 & Ht1).
  unfold get_at. rewrite Ht1, Ht, Hc, Hp. simpl. rewrite TubeP_get_expiry by done. simpl.
  pose proof (truthy_positive z Hz) as Htm. simpl in Htm. rewrite Htm. eexists. split; [reflexivity|]. split; [done|].
  intros t'. simpl. rewrite <- Hc, set_content_same.
  rewrite list_insert_id by (by rewrite Ht1). apply Hts1.
Qed.

End GetEmpty.


(** ** What [results()] yields *)

Section ResultValues.
Context {V : Type}.

Local Open Scope nat_scope.

(** The last tube of the last leaf holds the results [ys] and the stop
    request, and every other tube of the leaves as many results:
    [results()] yields [ys]. *)
Lemma results_values p leaf t : forall (ys : list V) (w : World V),
  Forall (fun s => is_Some (stages w !! s)) (_output_stages p) ->
  NoDup (_output_stages p ≫= outputs_of w) ->
  last (_output_stages p) = Some leaf -> last (outputs_of w leaf) = Some t ->
  loaded (tubes w) (_output_stages p ≫= outputs_of w) (length ys) ->
  tube_content (tubes w) t = feed ys true ->
  exists w', Pipeline_results (S (length ys)) p w = Some (Returns (ys, w')).
Proof.
  induction ys as [|y ys IH]; intros w Hval Hnd Hleaf Ht Hl Hc.
  - destruct (Pipeline_get_loop_available None (_output_stages p) w (Plain None) Hval Hnd)
      as (w' & Hrun & Hst & Hts).
    { intros t' Ht'. by eapply loaded_available. }
    rewrite Hleaf in Hrun. unfold last_answer in Hrun. rewrite Ht in Hrun.
    unfold answer in Hrun. simpl in Hrun.
    assert (Hfirst : first_payload (tubes w) t = None).
    { unfold first_payload, tube_content in *.
      destruct (tubes w !! t) as [tb|]; simpl in *; [|done]. by rewrite Hc. }
    rewrite Hfirst in Hrun. exists w'. simpl. unfold Pipeline_get. by rewrite Hrun.
  - destruct (Pipeline_get_loop_available None (_output_stages p) w (Plain None) Hval Hnd)
      as (w' & Hrun & Hst & Hts).
    { intros t' Ht'. by eapply loaded_available. }
    assert (Hin : t ∈ _output_stages p ≫= outputs_of w).
    { apply list_elem_of_bind. exists leaf. split.
      - apply last_Some in Ht as [l' ->]. apply elem_of_app. right. by left.
      - apply last_Some in Hleaf as [l' ->]. apply elem_of_app. right. by left. }
    rewrite Hleaf in Hrun. unfold last_answer in Hrun. rewrite Ht in Hrun.
    unfold answer in Hrun. simpl in Hrun.
    assert (Hfirst : first_payload (tubes w) t = Some y /\
                     tube_content (tubes w') t = feed ys true).
    { unfold first_payload, tube_content in *. rewrite Hts. unfold after_take.
      rewrite decide_True by done.
      destruct (tubes w !! t) as [tb|]; simpl in *; [|done]. by rewrite Hc. }
    destruct Hfirst as [Hfirst Hc']. rewrite Hfirst in Hrun.
    assert (Hbind : _output_stages p ≫= outputs_of w' = _output_stages p ≫= outputs_of w).
    { apply list_bind_ext; [|done]. intros s. by apply outputs_of_ext. }
    destruct (IH w') as (w'' & Hres).
    + by rewrite Hst.
    + by rewrite Hbind.
    + done.
    + by rewrite (outputs_of_ext w w' leaf Hst).
    + rewrite Hbind. by eapply loaded_take.
    + done.
    + exists w''.
      change (Pipeline_results (S (length (y :: ys))) p w) with
        (match Pipeline_get p None w with
         | Returns (Plain None, w') => Some (Returns ([], w'))
         | Returns (Plain (Some result), w') =>
             match Pipeline_results (S (length ys)) p w' with
             | Some (Returns (rs, w'')) => Some (Returns (result :: rs, w''))
             | other => other
             end
         | Returns (Pair _ _, _) => None
         | Raises e => Some (Raises e)
         | Blocks => Some Blocks
         end).
      unfold Pipeline_get. rewrite Hrun, Hres. done.
Qed.

End ResultValues.

Section PipelineResults.
Context {V : Type}.
Variables (root : nat) (w0 : World V) (rank : nat -> nat) (xs : list V).
Hypothesis Hbt : built_tree root w0 rank.

Local Open Scope nat_scope.

(** The tubes that [results()] reads, when a run has ended. *)
Lemma pipeline_end_leaves fuel leaves Γ pend w :
  getLeaves fuel w0 root = Some leaves ->
  kept root w0 xs Γ pend w -> nf (pipeline_run root) (pend, w) ->
  Forall (fun s => is_Some (stages w !! s)) leaves /\
  NoDup (leaves ≫= outputs_of w) /\
  loaded (tubes w) (leaves ≫= outputs_of w) (length xs) /\
  exists leaf st0 t,
    last leaves = Some leaf /\ stages w0 !! leaf = Some st0 /\ _next_stages st0 = [] /\
    outputs_of w leaf = _output_tubes st0 /\ last (_output_tubes st0) = Some t.
Proof.
  intros Hleaves Hk Hnf.
  destruct (kept_stuck root w0 rank xs Hbt Γ pend w Hk Hnf) as [Hpend Hdone].
  destruct (getLeaves_tree root w0 rank Hbt fuel root leaves (bt_root _ _ _ Hbt) Hleaves)
    as (Hnd & Hne & Hleaf).
  pose proof Hk as [[Hslen Hshape] _ Hstage].
  assert (Hstatic : forall s st0, stages w0 !! s = Some st0 ->
            is_Some (stages w !! s) /\ outputs_of w s = _output_tubes st0).
  { intros s st0 Hs. destruct (Hshape s st0 Hs) as (st & Hst & Hruns).
    split; [by exists st|]. unfold outputs_of. rewrite Hst. simpl.
    by destruct (runs_as_static _ _ Hruns) as (_ & ? & _). }
  assert (Hleaf0 : forall l, l ∈ leaves ->
            exists st0, stages w0 !! l = Some st0 /\ _next_stages st0 = []).
  { intros l Hl. by destruct (Hleaf l Hl) as [_ ?]. }
  split; [|split; [|split]].
  - apply Forall_forall. intros l Hl. destruct (Hleaf0 l Hl) as (st0 & Hs0 & _).
    by destruct (Hstatic l st0 Hs0).
  - apply NoDup_bind; [done| |].
    + intros l Hl. destruct (Hleaf0 l Hl) as (st0 & Hs0 & _).
      destruct (Hstatic l st0 Hs0) as [_ ->].
      pose proof (stage_tubes_apart root w0 rank Hbt l st0 Hs0) as Hnd0.
      by apply NoDup_cons in Hnd0 as [_ ?].
    + intros l l' t Hl Hl' Ht Ht'.
      destruct (Hleaf0 l Hl) as (st0 & Hs0 & _). destruct (Hleaf0 l' Hl') as (st0' & Hs0' & _).
      rewrite (proj2 (Hstatic l st0 Hs0)) in Ht. rewrite (proj2 (Hstatic l' st0' Hs0')) in Ht'.
      apply list_elem_of_lookup in Ht as [u Hu]. apply list_elem_of_lookup in Ht' as [u' Hu'].
      by destruct (out_unique root w0 rank Hbt l l' st0 st0' u u' t Hs0 Hs0' Hu Hu').
  - intros t Ht. apply list_elem_of_bind in Ht as (l & Ht & Hl).
    destruct (Hleaf0 l Hl) as (st0 & Hs0 & Hnext).
    rewrite (proj2 (Hstatic l st0 Hs0)) in Ht.
    apply list_elem_of_lookup in Ht as [u Hu].
    destruct (Hdone l st0 Hs0) as (_ & _ & _ & Houts).
    destruct (Houts u t Hu) as (ys & Hys & Hlen). exists ys. split; [|done].
    destruct (Hstage l st0 Hs0) as [_ _ _ Hlinked _].
    specialize (Hlinked u t Hu). rewrite Hnext in Hlinked. simpl in Hlinked.
    by rewrite <- Hlinked.
  - destruct (last leaves) as [leaf|] eqn:Hlast.
    2:{ apply last_None in Hlast. done. }
    assert (Hin : leaf ∈ leaves).
    { apply last_Some in Hlast as [l' ->]. apply elem_of_app. right. by left. }
    destruct (Hleaf0 leaf Hin) as (st0 & Hs0 & Hnext).
    destruct (Hstatic leaf st0 Hs0) as [_ Houts].
    destruct (last (_output_tubes st0)) as [t|] eqn:Ht.
    + by exists leaf, st0, t.
    + apply last_None in Ht. by destruct (bt_outs _ _ _ Hbt leaf st0 Hs0).
Qed.

End PipelineResults.

Section PipelineResultsTheorem.
Context {V : Type}.

Local Open Scope nat_scope.

(** What [results()] yields when the last leaf is an ordered stage at the end
    of a path of ordered stages. *)
Lemma pipeline_results_values (root : nat) (w0 : World V) (rank : nat -> nat) (xs : list V)
    fuel leaves leaf st F pend w :
  built_tree root w0 rank ->
  getLeaves fuel w0 root = Some leaves ->
  last leaves = Some leaf ->
  composes root w0 leaf F ->
  stages w0 !! leaf = Some st ->
  base (_worker_class st) = OrderedWorker ->
  rtc (pipeline_run root) (script xs, w0) (pend, w) ->
  nf (pipeline_run root) (pend, w) ->
  exists ys w',
    Pipeline_results (S (length xs)) {| _input_stage := root; _output_stages := leaves |} w
    = Some (Returns (ys, w')) /\
    Some <$> ys = (fun x => doTask (_worker_class st) (F x)) <$> xs.
Proof.
  intros Hbt Hleaves Hlast Hc Hs Hb Hrun Hnf.
  destruct (kept_reach root w0 rank xs Hbt _ _ _ _ _ (kept_start root w0 rank xs Hbt) Hrun)
    as [Γ Hk].
  destruct (pipeline_end_leaves root w0 rank xs Hbt fuel leaves Γ pend w Hleaves Hk Hnf)
    as (Hval & Hnd & Hl & leaf' & st' & t & Hlast' & Hs' & Hnext & Houts & Ht).
  rewrite Hlast in Hlast'. injection Hlast' as <-. rewrite Hs in Hs'. injection Hs' as <-.
  assert (Hf : forall x, is_Some (doTask (_worker_class st) x)).
  { intros x. by eapply (bt_transforms _ _ _ Hbt). }
  set (ys := result_of (doTask (_worker_class st)) <$> (F <$> xs)).
  assert (Hcontent : tube_content (tubes w) t = feed ys true).
  { apply last_Some in Ht as Ht'. destruct Ht' as [pre Hpre].
    assert (Hu : _output_tubes st !! length pre = Some t).
    { rewrite Hpre. by rewrite list_lookup_middle. }
    rewrite (ordered_path_content root w0 rank xs Hbt Γ pend w leaf st F (length pre) t
               Hk Hnf Hc Hs Hb Hu).
    - by apply expected_feed.
    - rewrite Hnext. done. }
  destruct (results_values {| _input_stage := root; _output_stages := leaves |} leaf t ys w)
    as (w' & Hres); simpl; try done.
  - by rewrite Houts.
  - unfold ys. by rewrite !length_fmap.
  - exists ys, w'. split.
    + unfold ys in Hres at 1. by rewrite !length_fmap in Hres.
    + unfold ys. rewrite <- !list_fmap_compose. apply list_fmap_ext.
      intros _ x _. simpl. unfold result_of. by destruct (Hf (F x)) as [y ->].
Qed.

(** X9.  The last leaf of a tree-shaped pipeline is an ordered stage that
    is reached through ordered stages.  When the run has ended, [results()]
    returns after it has yielded, in the order of the tasks, what the
    transform of the leaf returns for the composition [F] of the upstream
    transforms applied to each task. *)
Theorem results_compose (root : nat) (w0 : World V) (rank : nat -> nat) (xs : list V)
    fuel leaves leaf st F pend w :
  built_tree root w0 rank ->
  getLeaves fuel w0 root = Some leaves ->
  last leaves = Some leaf ->
  composes root w0 leaf F ->
  stages w0 !! leaf = Some st ->
  base (_worker_class st) = OrderedWorker ->
  rtc (pipeline_run root) (script xs, w0) (pend, w) ->
  nf (pipeline_run root) (pend, w) ->
  exists ys w',
    Pipeline_results (S (length xs)) {| _input_stage := root; _output_stages := leaves |} w
    = Some (Returns (ys, w')) /\
    Some <$> ys = (fun x => doTask (_worker_class st) (F x)) <$> xs.
Proof. apply pipeline_results_values. Qed.

End PipelineResultsTheorem.


(** ** A pipeline of one stage *)

Section Single.
Context {V : Type}.

Local Arguments assemble : simpl never.
Local Open Scope nat_scope.

(** [Pipeline(Stage(cls, size))] with nothing else in the heap: the
    pipeline object and the heap. *)
Definition single (cls : worker_class V) (size : Z) : option (Pipeline * World V) :=
  match Stage_init cls size empty_world with
  | Returns (s, w) => Pipeline_init 1 s w
  | _ => None
  end.

(** The stage, as [build] leaves it. *)
Definition single_built_stage (cls : worker_class V) (size : Z) : Stage V :=
  {| _worker_class := cls;
     _size := size;
     _input_tube := 0;
     _output_tubes := [1];
     _next_stages := [];
     workers := (assemble cls 0 [1] size []).1;
     locks := (assemble cls 0 [1] size []).2 |}.

Lemma single_eq cls size :
  single cls size
  = Some ({| _input_stage := 0; _output_stages := [0] |},
          {| tubes := [new_tube (getTubeClass cls); new_tube (getTubeClass cls)];
             stages := [single_built_stage cls size] |}).
Proof.
  unfold single, Stage_init, Pipeline_init, single_built_stage. simpl.
  by destruct (assemble cls 0 [1] size []) as [ws ls].
Qed.

Lemma single_built cls size p w0 :
  single cls size = Some (p, w0) ->
  (1 <= size)%Z -> (forall x, is_Some (doTask cls x)) ->
  p = {| _input_stage := 0; _output_stages := [0] |} /\
  stages w0 = [single_built_stage cls size] /\
  getLeaves 1 w0 0 = Some [0] /\
  built_tree 0 w0 (fun _ => 0).
Proof.
  rewrite single_eq. intros H HN Hf. injection H as <- <-.
  split; [done|]. split; [done|]. split; [done|].
  assert (Hone : forall s st,
            [single_built_stage cls size] !! s = Some st ->
            s = 0 /\ st = single_built_stage cls size).
  { intros [|s] st Hs; simpl in Hs; by simplify_eq. }
  constructor; simpl.
  - by eexists.
  - intros s [st Hs]. destruct (Hone s st Hs) as [-> _]. apply rtc_refl.
  - reflexivity.
  - intros s st Hs. by destruct (Hone s st Hs) as [_ ->].
  - intros s st Hs. destruct (Hone s st Hs) as [_ ->]. simpl.
    by destruct (assemble cls 0 [1] size []).
  - intros s st Hs. by destruct (Hone s st Hs) as [_ ->].
  - intros s st t Hs Ht. destruct (Hone s st Hs) as [_ ->]. simpl in Ht.
    apply elem_of_cons in Ht as [->|Ht]; [split; [simpl; lia|done]|].
    apply list_elem_of_singleton in Ht as ->. split; [simpl; lia|done].
  - intros s st u c Hs Hu. destruct (Hone s st Hs) as [_ ->]. done.
  - intros st Hs. injection Hs as <-. simpl.
    apply NoDup_cons. split; [|apply NoDup_singleton].
    intros H. by apply list_elem_of_singleton in H.
  - intros s st x Hs. destruct (Hone s st Hs) as [_ ->]. apply Hf.
Qed.

(** In a heap of one stage only the workers of that stage run. *)
Lemma lone_stage_run (x y : list (payload V) * World V) :
  length (stages (snd x)) = 1 -> pipeline_run 0 x y ->
  stage_run 0 x y /\ length (stages (snd y)) = 1.
Proof.
  intros Hlen Hrun. destruct Hrun as [task pend w w' Hput|s i pend w w' Hstep]; simpl in *.
  - split; [by apply run_put|]. unfold Stage_put in Hput.
    destruct (stages w !! 0); simpl in Hput; [|done]. by injection Hput as <-.
  - destruct (process_step_inv s i w w' Hstep) as (st & wk & ts' & ls' & p' & Hst & _ & _ & ->).
    apply lookup_lt_Some in Hst as Hs. assert (s = 0) as -> by lia.
    split; [by apply (run_work 0 i)|]. simpl. by rewrite length_insert.
Qed.

Lemma lone_stage_reach (x y : list (payload V) * World V) :
  length (stages (snd x)) = 1 -> rtc (pipeline_run 0) x y -> rtc (stage_run 0) x y.
Proof.
  intros Hlen Hrun. induction Hrun as [x|x y z Hstep _ IH]; [apply rtc_refl|].
  destruct (lone_stage_run x y Hlen Hstep) as [Hs Hlen'].
  eapply rtc_l; [done|]. by apply IH.
Qed.

Lemma lone_stage_nf (x : list (payload V) * World V) :
  nf (pipeline_run 0) x -> nf (stage_run 0) x.
Proof.
  intros Hnf [y Hy]. apply Hnf. exists y.
  destruct Hy as [task pend w w' Hput|i pend w w' Hstep].
  - by apply pipe_put.
  - by eapply pipe_work.
Qed.

End Single.

Section SingleTheorems.
Context {V : Type}.

Local Open Scope nat_scope.

(** X10.  [Pipeline(OrderedStage(f, N))] for a pool of N >= 1 workers and
    a transform that returns a result for every task.  The tasks [xs] and
    the stop request are put on the pipeline while the workers run, in any
    interleaving.  Every run ends, and then [results()] yields
    f(x1), ..., f(xk) in this order and returns. *)
Theorem ordered_pipeline_results (f : V -> payload V) (N : Z) (xs : list V) p w0 :
  single (ordered_class f) N = Some (p, w0) ->
  (1 <= N)%Z ->
  (forall x, is_Some (f x)) ->
  sn (pipeline_run (_input_stage p)) (script xs, w0) /\
  forall pend w,
    rtc (pipeline_run (_input_stage p)) (script xs, w0) (pend, w) ->
    nf (pipeline_run (_input_stage p)) (pend, w) ->
    exists ys w',
      Pipeline_results (S (length xs)) p w = Some (Returns (ys, w')) /\
      Some <$> ys = f <$> xs.
Proof.
  intros Hsingle HN Hf.
  destruct (single_built _ _ _ _ Hsingle HN Hf) as (-> & Hst & Hleaves & Hbt). simpl.
  split.
  - by eapply (kept_sn 0 w0 (fun _ => 0) xs Hbt _ _ _ _ (kept_start 0 w0 _ xs Hbt)).
  - intros pend w Hrun Hnf.
    destruct (kept_reach 0 w0 _ xs Hbt _ _ _ _ _ (kept_start 0 w0 _ xs Hbt) Hrun) as [Γ Hk].
    destruct (pipeline_end_leaves 0 w0 _ xs Hbt 1 [0] Γ pend w Hleaves Hk Hnf)
      as (Hval & Hnd & Hl & leaf & st & t & Hlast & Hs & Hnext & Houts & Ht).
    injection Hlast as <-. rewrite Hst in Hs. injection Hs as <-. injection Ht as <-.
    set (ys := result_of f <$> xs).
    assert (Hcontent : tube_content (tubes w) 1 = feed ys true).
    { rewrite (ordered_path_content 0 w0 _ xs Hbt Γ pend w 0 (single_built_stage (ordered_class f) N)
                 (fun x => x) 0 1 Hk Hnf); [|apply composes_root|by rewrite Hst|done..].
      simpl. rewrite list_fmap_id. by apply expected_feed. }
    destruct (results_values {| _input_stage := 0; _output_stages := [0] |} 0 1 ys w)
      as (w' & Hres); simpl; try done.
    + by rewrite Houts.
    + unfold ys. by rewrite length_fmap.
    + exists ys, w'. split.
      * unfold ys in Hres at 1. by rewrite length_fmap in Hres.
      * unfold ys. rewrite <- list_fmap_compose. apply list_fmap_ext.
        intros _ x _. simpl. unfold result_of. by destruct (Hf x) as [y ->].
Qed.

(** X11.  [Pipeline(UnorderedStage(f, N))] for a pool of N >= 1 workers
    and a transform that returns a result for every task.  Every run ends,
    and then [results()] yields the results f(x1), ..., f(xk) in some
    order, each of them once, and returns. *)
Theorem unordered_pipeline_results (f : V -> payload V) (N : Z) (xs : list V) p w0 :
  single (unordered_class f) N = Some (p, w0) ->
  (1 <= N)%Z ->
  (forall x, is_Some (f x)) ->
  sn (pipeline_run (_input_stage p)) (script xs, w0) /\
  forall pend w,
    rtc (pipeline_run (_input_stage p)) (script xs, w0) (pend, w) ->
    nf (pipeline_run (_input_stage p)) (pend, w) ->
    exists ys w',
      Pipeline_results (S (length xs)) p w = Some (Returns (ys, w')) /\
      Some <$> ys ≡ₚ f <$> xs.
Proof.
  intros Hsingle HN Hf.
  destruct (single_built _ _ _ _ Hsingle HN Hf) as (-> & Hst & Hleaves & Hbt). simpl.
  split.
  - by eapply (kept_sn 0 w0 (fun _ => 0) xs Hbt _ _ _ _ (kept_start 0 w0 _ xs Hbt)).
  - intros pend w Hrun Hnf.
    destruct (kept_reach 0 w0 _ xs Hbt _ _ _ _ _ (kept_start 0 w0 _ xs Hbt) Hrun) as [Γ Hk].
    destruct (pipeline_end_leaves 0 w0 _ xs Hbt 1 [0] Γ pend w Hleaves Hk Hnf)
      as (Hval & Hnd & Hl & leaf & st & t & Hlast & Hs & Hnext & Houts & Ht).
    injection Hlast as <-. rewrite Hst in Hs. injection Hs as <-. injection Ht as <-.
    assert (Hnd01 : NoDup [0; 1]).
    { apply NoDup_cons. split; [|apply NoDup_singleton].
      intros H. by apply list_elem_of_singleton in H. }
    assert (Hk0 : unordered_kept 0 f N 0 [1] xs (script xs, w0)).
    { exists [], xs, false, (Progress StopNotPut []), (replicate (Z.to_nat N) AtGet),
        (single_built_stage (unordered_class f) N).
      simpl. split; [done|]. split; [done|]. split; [done|]. split; [by rewrite Hst|].
      split; [done|]. split; [by rewrite fmap_replicate|].
      assert (Hts : forall t, t ∈ [0; 1] -> t < length (tubes w0) /\ tube_content (tubes w0) t = []).
      { intros t Ht. apply (bt_tubes _ _ _ Hbt 0 (single_built_stage (unordered_class f) N));
          [by rewrite Hst|done]. }
      split; [by apply UInv_start|by apply UPerm_start]. }
    pose proof (lone_stage_reach (script xs, w0) (pend, w) ltac:(simpl; by rewrite Hst) Hrun)
      as Hrun'.
    pose proof (unordered_kept_reach 0 f N 0 [1] xs HN Hnd01 Hf _ _ Hk0 Hrun') as Hk'.
    destruct (unordered_kept_end 0 f N 0 [1] xs HN Hf (pend, w) Hk' (lone_stage_nf _ Hnf))
      as (_ & _ & Houts').
    destruct (Houts' 0 1 eq_refl) as (ys & Hys & Hperm).
    assert (Hlen : length ys = length xs).
    { apply Permutation_length in Hperm. by rewrite !length_fmap in Hperm. }
    destruct (results_values {| _input_stage := 0; _output_stages := [0] |} 0 1 ys w)
      as (w' & Hres); simpl; try done.
    + by rewrite Houts.
    + by rewrite Hlen.
    + exists ys, w'. split; [by rewrite <- Hlen|done].
Qed.

End SingleTheorems.


(** ** Tubes: first in, first out *)

Section TubeOrder.
Context {A : Type}.

(** [n] calls of [get], one after the other: what they return, and what is
    left in the tube. *)
Fixpoint get_times (c : tube_class) (tm : timeout) (n : nat) (q : items A)
    : outcome (list (got A) * items A) :=
  match n with
  | O => Returns ([], q)
  | S n =>
      '(r, q1) ← tube_get c tm q;
      '(rs, q2) ← get_times c tm n q1;
      Returns (r :: rs, q2)
  end.

(** How [get] hands over an item: as it is, or in a pair with [True]. *)
Definition handed (tm : timeout) (x : A) : got A :=
  if truthy tm then Timed true (Some x) else Direct x.

Lemma put_all (q : items A) (xs : list A) : foldl put q xs = q ++ xs.
Proof.
  revert q. induction xs as [|x xs IH]; intros q; simpl.
  - by rewrite app_nil_r.
  - rewrite IH. unfold put. by rewrite <- app_assoc.
Qed.

Lemma get_times_all c tm (xs q : items A) :
  get_times c tm (length xs) (xs ++ q) = Returns (handed tm <$> xs, q).
Proof.
  induction xs as [|x xs IH]; simpl; [done|].
  assert (Hget : tube_get c tm (x :: xs ++ q) = Returns (handed tm x, xs ++ q)).
  { unfold handed. destruct c; simpl; unfold TubeP_get, TubeQ_get; by destruct (truthy tm). }
  rewrite Hget. simpl. by rewrite IH.
Qed.

(** X12.  A tube of either class is a queue.  The items [xs] are put on an
    empty tube: as many calls of [get], with or without a timeout, return
    them in the order in which they were put and leave the tube empty; one
    more call without a timeout, or with the timeout 0, then waits. *)
Theorem tube_first_in_first_out (c : tube_class) (tm : timeout) (xs : list A) :
  get_times c tm (length xs) (foldl put [] xs) = Returns (handed tm <$> xs, []) /\
  get_times c None (S (length xs)) (foldl put [] xs) = Blocks /\
  get_times c (Some 0) (S (length xs)) (foldl put [] xs) = Blocks.
Proof.
  rewrite put_all. simpl.
  assert (Hwaits : forall tm', truthy tm' = false ->
            get_times c tm' (S (length xs)) xs = Blocks).
  { intros tm' Htm. induction xs as [|x xs' IH].
    - simpl. by rewrite tube_get_untimed_blocks.
    - change (get_times c tm' (S (length (x :: xs'))) (x :: xs'))
        with ('(r, q1) ← tube_get c tm' (x :: xs');
              '(rs, q2) ← get_times c tm' (S (length xs')) q1;
              Returns (r :: rs, q2)).
      rewrite tube_get_untimed_available by done.
      change (get_times c tm' (S (length xs')) xs' ≫=
                (fun '(rs, q2) => Returns (Direct x :: rs, q2)) = Blocks).
      by rewrite IH. }
  split; [|split; by apply Hwaits].
  pose proof (get_times_all c tm xs []) as H. by rewrite app_nil_r in H.
Qed.

End TubeOrder.

(** ** The ring that [assemble] makes *)

Section RingLinks.
Context {V : Type}.

Local Open Scope nat_scope.

(** X13.  [assemble] of an ordered class with [size] >= 1 creates [size]
    workers and two locks for each of them, and links the workers in a
    ring: the locks that a worker releases are the locks that the next
    worker acquires, those of the last worker being the locks of the first;
    the locks of different workers are different; and every lock is held,
    except the two locks that the first worker acquires. *)
Theorem assemble_links_ring (cls : worker_class V) tin outs (size : Z) ws ls :
  base cls = OrderedWorker -> (1 <= size)%Z ->
  assemble cls tin outs size [] = (ws, ls) ->
  length ws = Z.to_nat size /\ length ls = 2 * Z.to_nat size /\
  forall i wk, ws !! i = Some wk ->
    exists next li lo,
      ws !! ((i + 1) mod Z.to_nat size) = Some next /\
      _lock_prev_input wk = Some li /\ _lock_prev_output wk = Some lo /\
      _lock_next_input wk = _lock_prev_input next /\
      _lock_next_output wk = _lock_prev_output next /\
      li ≠ lo /\
      ls !! li = Some (negb (bool_decide (i = 0))) /\
      ls !! lo = Some (negb (bool_decide (i = 0))) /\
      forall j wk', ws !! j = Some wk' -> j ≠ i ->
        _lock_prev_input wk' ≠ Some li /\ _lock_prev_input wk' ≠ Some lo /\
        _lock_prev_output wk' ≠ Some li /\ _lock_prev_output wk' ≠ Some lo.
Proof.
  intros Hb HN Hasm. set (n := Z.to_nat size).
  assert (Hpos : 0 < n) by (unfold n; lia).
  rewrite (assemble_ring cls tin outs size n Hb eq_refl Hpos) in Hasm.
  injection Hasm as <- <-.
  split; [by rewrite length_fmap, length_seq|].
  split; [simpl; rewrite length_replicate; lia|].
  intros i wk Hi. rewrite list_lookup_fmap in Hi.
  destruct (seq 0 n !! i) as [i'|] eqn:Hseq; simpl in Hi; [|done].
  apply lookup_seq in Hseq as [-> Hlt]. simpl in Hlt. injection Hi as <-.
  assert (Hnext : (i + 1) mod n < n) by (apply Nat.mod_upper_bound; lia).
  exists (ring_worker cls tin outs size n ((i + 1) mod n) AtAcquireInput), (2 * i), (2 * i + 1).
  split; [by rewrite list_lookup_fmap, lookup_seq_lt|].
  split; [done|]. split; [done|]. split; [done|]. split; [done|]. split; [lia|].
  assert (Hlock : forall l, l = 2 * i \/ l = 2 * i + 1 ->
            ([false; false] ++ replicate (2 * (n - 1)) true) !! l
            = Some (negb (bool_decide (i = 0)))).
  { intros l Hl. destruct i as [|i].
    - destruct Hl as [-> | ->]; done.
    - rewrite bool_decide_eq_false_2 by done. simpl negb.
      destruct Hl as [-> | ->].
      + replace (2 * S i) with (S (S (2 * i))) by lia. simpl.
        apply lookup_replicate_2. lia.
      + replace (2 * S i + 1) with (S (S (2 * i + 1))) by lia. simpl.
        apply lookup_replicate_2. lia. }
  split; [apply Hlock; by left|]. split; [apply Hlock; by right|].
  intros j wk' Hj Hne. rewrite list_lookup_fmap in Hj.
  destruct (seq 0 n !! j) as [j'|] eqn:Hseq; simpl in Hj; [|done].
  apply lookup_seq in Hseq as [-> _]. simpl. injection Hj as <-. simpl.
  repeat split; intros H; injection H as H; lia.
Qed.

End RingLinks.

(** ** A pool without workers *)

Lemma rtc_invariant {A} (R : relation A) (J : A -> Prop) :
  (forall x y, J x -> R x y -> J y) -> forall x y, rtc R x y -> J x -> J y.
Proof.
  intros Hstep x y Hxy. induction Hxy as [x|x y z Hxy _ IH]; [done|].
  intros Hx. apply IH. by apply (Hstep x y).
Qed.

Section EmptyPool.
Context {V : Type}.

Local Open Scope nat_scope.

Lemma assemble_nothing (cls : worker_class V) tin outs (size : Z) ls :
  (size <= 0)%Z -> assemble cls tin outs size ls = ([], ls).
Proof.
  intros Hsize. unfold assemble. replace (Z.to_nat size) with 0 by lia. simpl.
  by destruct (base cls).
Qed.

(** The envelopes that the producer puts for the payloads [pend]. *)
Definition sent (pend : list (payload V)) : list (envelope V) :=
  (fun task => (task, 0%Z)) <$> pend.

(** X14.  [Pipeline(Stage(cls, size))] with [size] <= 0 is constructed, and
    its stage has no worker.  Whatever is put on it stays in the input
    tube, the output tube stays empty, and [results()] waits for ever, also
    after the stop request. *)
Theorem empty_pool_answers_nothing (cls : worker_class V) (size : Z) (xs : list V)
    p w0 pend w :
  single cls size = Some (p, w0) ->
  (size <= 0)%Z ->
  rtc (pipeline_run (_input_stage p)) (script xs, w0) (pend, w) ->
  places w (_input_stage p) = [] /\
  content_of w 0 ++ sent pend = sent (script xs) /\
  content_of w 1 = [] /\
  forall fuel, Pipeline_results (S fuel) p w = Some Blocks.
Proof.
  intros Hsingle Hsize Hrun. rewrite single_eq in Hsingle. injection Hsingle as <- <-.
  simpl in *.
  set (c := getTubeClass cls) in *.
  set (st := single_built_stage cls size) in *.
  assert (Hws : workers st = []).
  { unfold st, single_built_stage. simpl. by rewrite assemble_nothing. }
  set (J := fun x : list (payload V) * World V => exists q,
            snd x = {| tubes := [{| tube_cls := c; content := q |}; new_tube c];
                       stages := [st] |} /\
            q ++ sent (fst x) = sent (script xs)).
  assert (Hstep : forall x y, J x -> pipeline_run 0 x y -> J y).
  { intros x y (q & Hw & Hq) Hxy.
    destruct Hxy as [task pend1 w1 w1' Hput|s i pend1 w1 w1' Hstep]; simpl in *; subst w1.
    - unfold Stage_put in Hput. simpl in Hput. injection Hput as <-.
      exists (q ++ [(task, 0%Z)]). split; [done|]. simpl. by rewrite <- app_assoc.
    - exfalso. unfold process_step in Hstep. simpl in Hstep.
      destruct s as [|s]; simpl in Hstep; [|done]. by rewrite Hws in Hstep. }
  assert (Hinv : J (pend, w)).
  { apply (rtc_invariant (pipeline_run 0) J Hstep _ _ Hrun). by exists []. }
  destruct Hinv as (q & Hw & Hq). simpl in Hw, Hq. subst w.
  split.
  { change (at_pc <$> workers st = []). by rewrite Hws. }
  split; [done|]. split; [done|].
  intros fuel.
  assert (Hget : Pipeline_get {| _input_stage := 0; _output_stages := [0] |} None
                   {| tubes := [{| tube_cls := c; content := q |}; new_tube c];
                      stages := [st] |} = Blocks).
  { unfold Pipeline_get, Pipeline_get_loop, Stage_get. simpl. unfold get_at. simpl.
    by destruct c. }
  simpl. by rewrite Hget.
Qed.

End EmptyPool.


(** ** A pipeline of two stages *)

Section Chain.
Context {V : Type}.

Local Arguments assemble : simpl never.
Local Open Scope nat_scope.

(** [a = Stage(cls1, n1); b = Stage(cls2, n2); a.link(b); Pipeline(a)] with
    nothing else in the heap: the pipeline object and the heap. *)
Definition chain (cls1 : worker_class V) (n1 : Z) (cls2 : worker_class V) (n2 : Z)
    : option (Pipeline * World V) :=
  match Stage_init cls1 n1 empty_world with
  | Returns (a, w) =>
      match Stage_init cls2 n2 w with
      | Returns (b, w) =>
          match link a b w with
          | Returns w => Pipeline_init 2 a w
          | _ => None
          end
      | _ => None
      end
  | _ => None
  end.

(** The two stages, as [build] leaves them. *)
Definition chain_first (cls : worker_class V) (size : Z) : Stage V :=
  {| _worker_class := cls;
     _size := size;
     _input_tube := 0;
     _output_tubes := [1];
     _next_stages := [1];
     workers := (assemble cls 0 [1] size []).1;
     locks := (assemble cls 0 [1] size []).2 |}.

Definition chain_second (cls : worker_class V) (size : Z) : Stage V :=
  {| _worker_class := cls;
     _size := size;
     _input_tube := 1;
     _output_tubes := [2];
     _next_stages := [];
     workers := (assemble cls 1 [2] size []).1;
     locks := (assemble cls 1 [2] size []).2 |}.

Lemma chain_eq cls1 n1 cls2 n2 :
  chain cls1 n1 cls2 n2
  = Some ({| _input_stage := 0; _output_stages := [1] |},
          {| tubes := [new_tube (getTubeClass cls1); new_tube (getTubeClass cls2);
                       new_tube (getTubeClass cls2)];
             stages := [chain_first cls1 n1; chain_second cls2 n2] |}).
Proof.
  unfold chain, Stage_init, link, Pipeline_init, chain_first, chain_second. simpl.
  destruct (assemble cls1 0 [1] n1 []) as [ws1 ls1]. simpl.
  by destruct (assemble cls2 1 [2] n2 []) as [ws2 ls2].
Qed.

Lemma chain_built cls1 n1 cls2 n2 p w0 :
  chain cls1 n1 cls2 n2 = Some (p, w0) ->
  (1 <= n1)%Z -> (1 <= n2)%Z ->
  (forall x, is_Some (doTask cls1 x)) -> (forall x, is_Some (doTask cls2 x)) ->
  p = {| _input_stage := 0; _output_stages := [1] |} /\
  stages w0 = [chain_first cls1 n1; chain_second cls2 n2] /\
  getLeaves 2 w0 0 = Some [1] /\
  built_tree 0 w0 (fun s => 1 - s).
Proof.
  rewrite chain_eq. intros H HN1 HN2 Hf1 Hf2. injection H as <- <-.
  split; [done|]. split; [done|]. split; [done|].
  assert (Htwo : forall s st,
            [chain_first cls1 n1; chain_second cls2 n2] !! s = Some st ->
            (s = 0 /\ st = chain_first cls1 n1) \/ (s = 1 /\ st = chain_second cls2 n2)).
  { intros [|[|s]] st Hs; simpl in Hs; simplify_eq; auto. }
  constructor; simpl.
  - by eexists.
  - intros s [st Hs]. destruct (Htwo s st Hs) as [[-> _]|[-> _]]; [apply rtc_refl|].
    apply rtc_once. exists (chain_first cls1 n1). split; [done|]. simpl. by left.
  - reflexivity.
  - intros s st Hs. by destruct (Htwo s st Hs) as [[_ ->]|[_ ->]].
  - intros s st Hs. destruct (Htwo s st Hs) as [[_ ->]|[_ ->]]; simpl.
    + by destruct (assemble cls1 0 [1] n1 []).
    + by destruct (assemble cls2 1 [2] n2 []).
  - intros s st Hs. by destruct (Htwo s st Hs) as [[_ ->]|[_ ->]].
  - intros s st t Hs Ht. destruct (Htwo s st Hs) as [[_ ->]|[_ ->]]; simpl in Ht;
      (apply elem_of_cons in Ht as [->|Ht]; [split; [simpl; lia|done]|]);
      apply list_elem_of_singleton in Ht as ->; (split; [simpl; lia|done]).
  - intros s st u c Hs Hu. destruct (Htwo s st Hs) as [[_ ->]|[_ ->]]; simpl in Hu; [|done].
    destruct u as [|u]; simpl in Hu; [|done]. injection Hu as <-.
    exists (chain_second cls2 n2). done.
  - intros st Hs. injection Hs as <-. simpl.
    apply (bool_decide_unpack _). vm_compute. exact I.
  - intros s st x Hs. destruct (Htwo s st Hs) as [[_ ->]|[_ ->]]; [apply Hf1|apply Hf2].
Qed.

End Chain.

Section ChainTheorem.
Context {V : Type}.

Local Open Scope nat_scope.

(** X15.  Two ordered stages in a row, [OrderedStage(f, N1)] linked to
    [OrderedStage(g, N2)], with pools of one worker at least and transforms
    that return a result for every task.  The tasks [xs] and the stop
    request are put on the pipeline while the workers of both stages run,
    in any interleaving.  Every run ends, and then [results()] yields
    g(f(x1)), ..., g(f(xk)) in this order and returns. *)
Theorem chain_results (f g : V -> payload V) (N1 N2 : Z) (xs : list V) p w0 :
  chain (ordered_class f) N1 (ordered_class g) N2 = Some (p, w0) ->
  (1 <= N1)%Z -> (1 <= N2)%Z ->
  (forall x, is_Some (f x)) -> (forall x, is_Some (g x)) ->
  sn (pipeline_run (_input_stage p)) (script xs, w0) /\
  forall pend w,
    rtc (pipeline_run (_input_stage p)) (script xs, w0) (pend, w) ->
    nf (pipeline_run (_input_stage p)) (pend, w) ->
    exists ys w',
      Pipeline_results (S (length xs)) p w = Some (Returns (ys, w')) /\
      Some <$> ys = (fun x => f x ≫= g) <$> xs.
Proof.
  intros Hchain HN1 HN2 Hf Hg.
  destruct (chain_built _ _ _ _ _ _ Hchain HN1 HN2 Hf Hg) as (-> & Hst & Hleaves & Hbt).
  simpl. split.
  - by eapply (kept_sn 0 w0 _ xs Hbt _ _ _ _ (kept_start 0 w0 _ xs Hbt)).
  - intros pend w Hrun Hnf.
    destruct (pipeline_results_values 0 w0 _ xs 2 [1] 1 (chain_second (ordered_class g) N2)
                (result_of f) pend w Hbt Hleaves eq_refl) as (ys & w' & Hres & Hys);
      [|by rewrite Hst|done|done|done|].
    + apply (composes_next 0 w0 0 (chain_first (ordered_class f) N1) 1 (fun x => x)).
      * apply composes_root.
      * by rewrite Hst.
      * done.
      * simpl. by left.
      * intros x. simpl. unfold result_of. by destruct (Hf x) as [y ->].
    + exists ys, w'. split; [done|]. rewrite Hys. apply list_fmap_ext.
      intros _ x _. simpl. unfold result_of. by destruct (Hf x) as [y ->].
Qed.

End ChainTheorem.


(** ** Results come out in order, at every moment *)

Section Streams.
Context {V : Type}.

Local Open Scope nat_scope.

(** What an ordered stage has put on an output tube is a part of what it
    has to put; the stop request is on the tube only when it was put on the
    input tube. *)
Lemma OInv_out_take (f : V -> payload V) (N : Z) tin outs h closed ts ls ps u t :
  (1 <= N)%Z ->
  OInv f N tin outs h closed ts ls ps -> outs !! u = Some t ->
  exists j, tube_content ts t = take j (expected f h) /\
            (length h < j -> closed = true).
Proof.
  intros HN [g HI] Hu.
  exists (gP g + (if decide (u < advanced g) then 1 else 0)).
  split; [exact (inv_output f N tin outs h g _ HI u t Hu)|].
  intros Hj. pose proof (inv_published f N tin outs h g _ HI) as [HP _].
  pose proof (inv_publisher f N tin outs h g _ HI) as Hpub.
  pose proof (inv_pending f N tin outs h g _ HI) as Hpend. simpl in Hpend.
  unfold advanced in Hj. unfold publisher_ok in Hpub.
  destruct (gout g) as [|t'|t'].
  - rewrite decide_False in Hj by lia. lia.
  - destruct Hpub as (_ & Hlt & _). case_decide; lia.
  - destruct Hpub as (_ & _ & _ & HL & _). rewrite HL in Hpend.
    rewrite drop_ge in Hpend by (unfold script; rewrite length_app, length_fmap; simpl; lia).
    by destruct closed.
Qed.

Lemma expected_prefix (f : V -> payload V) (h l : list V) j :
  h `prefix_of` l -> (length h < j -> h = l) ->
  take j (expected f h) `prefix_of` expected f l.
Proof.
  intros [rest ->] Hall. destruct (decide (length h < j)) as [Hlt|Hge].
  - rewrite <- (Hall Hlt). apply prefix_take.
  - unfold expected. rewrite take_app_le by (rewrite length_fmap; lia).
    rewrite fmap_app, <- app_assoc.
    etrans; [apply prefix_take|]. by apply prefix_app_r.
Qed.

Variables (root : nat) (w0 : World V) (rank : nat -> nat) (xs : list V).
Hypothesis Hbt : built_tree root w0 rank.

(** The tasks that a stage on a path of ordered stages was fed. *)
Lemma composes_fed_prefix Γ pend w s F :
  kept root w0 xs Γ pend w -> composes root w0 s F ->
  fed Γ s `prefix_of` F <$> xs /\ (closed Γ s = true -> fed Γ s = F <$> xs).
Proof.
  intros Hk Hc. induction Hc as [|p stp c F G Hp IH Hsp Hb Hin HG].
  - rewrite list_fmap_id. pose proof (k_root _ _ _ _ _ _ Hk) as Hroot.
    unfold root_fed in Hroot. destruct (closed Γ root).
    + destruct Hroot as [-> _]. done.
    + destruct Hroot as (rest & -> & _). split; [by apply prefix_app_r|done].
  - destruct IH as [Hpre Hall].
    apply list_elem_of_lookup in Hin as [u Hu].
    destruct (bt_links _ _ _ Hbt p stp u c Hsp Hu) as (stc & Hsc & Hout).
    pose proof (k_stage _ _ _ _ _ _ Hk p stp Hsp) as [Hinv _ _ Hlinked _].
    unfold stage_inv in Hinv. rewrite Hb in Hinv.
    destruct (OInv_out_take _ _ _ _ _ _ _ _ _ u _ (bt_size _ _ _ Hbt p stp Hsp) Hinv Hout)
      as (j & Hj & Hclosed).
    specialize (Hlinked u _ Hout). rewrite Hu in Hlinked. rewrite Hlinked in Hj.
    assert (Hf : forall x, is_Some (doTask (_worker_class stp) x)).
    { intros x. by eapply (bt_transforms _ _ _ Hbt). }
    rewrite (expected_feed _ Hf), feed_take in Hj.
    apply feed_inj in Hj as [Hfed Hcl].
    assert (Hres : result_of (doTask (_worker_class stp)) <$> (F <$> xs) = G <$> xs).
    { rewrite <- list_fmap_compose. apply list_fmap_ext. intros _ x _. simpl.
      unfold result_of. by rewrite HG. }
    split.
    + rewrite Hfed, <- Hres. etrans; [apply prefix_take|].
      destruct Hpre as [rest ->]. rewrite fmap_app. by apply prefix_app_r.
    + intros Hc. rewrite Hc in Hcl. symmetry in Hcl. apply bool_decide_eq_true in Hcl.
      rewrite length_fmap in Hcl.
      rewrite Hfed, take_ge by (rewrite length_fmap; lia).
      by rewrite (Hall (Hclosed Hcl)).
Qed.

End Streams.

Section StreamsTheorem.
Context {V : Type}.

(** X16.  A stage that is reached from the root through ordered stages
    only, and is ordered itself.  In every state that a run reaches, each
    of its tubes that leave the pipeline holds a prefix of what it holds at
    the end: the results come out in the order of the tasks, and the stop
    request after all of them. *)
Theorem ordered_path_streams (root : nat) (w0 : World V) (rank : nat -> nat)
    (xs : list V) pend w s st F u t :
  built_tree root w0 rank ->
  rtc (pipeline_run root) (script xs, w0) (pend, w) ->
  composes root w0 s F ->
  stages w0 !! s = Some st ->
  base (_worker_class st) = OrderedWorker ->
  _output_tubes st !! u = Some t -> _next_stages st !! u = None ->
  content_of w t `prefix_of` expected (doTask (_worker_class st)) (F <$> xs).
Proof.
  intros Hbt Hrun Hc Hs Hb Hu Hnext.
  destruct (kept_reach root w0 rank xs Hbt _ _ _ _ _ (kept_start root w0 rank xs Hbt) Hrun)
    as [Γ Hk].
  destruct (composes_fed_prefix root w0 rank xs Hbt Γ pend w s F Hk Hc) as [Hpre Hall].
  pose proof (k_stage _ _ _ _ _ _ Hk s st Hs) as [Hinv _ _ Hlinked _].
  unfold stage_inv in Hinv. rewrite Hb in Hinv.
  destruct (OInv_out_take _ _ _ _ _ _ _ _ _ u t (bt_size _ _ _ Hbt s st Hs) Hinv Hu)
    as (j & Hj & Hclosed).
  specialize (Hlinked u t Hu). rewrite Hnext in Hlinked.
  change (tube_content (tubes w) t
          `prefix_of` expected (doTask (_worker_class st)) (F <$> xs)).
  rewrite <- Hlinked, Hj. apply expected_prefix; [done|].
  intros Hlt. apply Hall. by apply Hclosed.
Qed.

End StreamsTheorem.


(** *** Runs to the end *)

Section Driver.
Context {V : Type}.

(** The names of the workers: the stage and the number in its pool. *)
Fixpoint worker_names (s : nat) (sts : list (Stage V)) : list (nat * nat) :=
  match sts with
  | [] => []
  | st :: sts =>
      ((fun i => (s, i)) <$> seq 0 (length (workers st))) ++ worker_names (S s) sts
  end.

(** The worker takes a step if it can. *)
Definition step_if_able (x : list (payload V) * World V) (si : nat * nat)
    : list (payload V) * World V :=
  match process_step si.1 si.2 (snd x) with
  | Some w => (fst x, w)
  | None => x
  end.

(** One one_round: the producer puts its next payload, then every worker that
    can take a step takes one. *)
Definition one_round (root : nat) (x : list (payload V) * World V)
    : list (payload V) * World V :=
  let x1 := match fst x with
            | task :: pend =>
                match Stage_put root task (snd x) with
                | Some w => (pend, w)
                | None => x
                end
            | [] => x
            end in
  foldl step_if_able x1 (worker_names 0 (stages (snd x1))).

Fixpoint drive (root : nat) (rounds : nat) (x : list (payload V) * World V)
    : list (payload V) * World V :=
  match rounds with
  | O => x
  | S rounds => drive root rounds (one_round root x)
  end.

(** Nothing can move: the producer has put everything and no worker can
    take a step. *)
Definition halted (x : list (payload V) * World V) : bool :=
  match fst x with
  | [] =>
      forallb (fun si : nat * nat =>
                 match process_step si.1 si.2 (snd x) with
                 | None => true
                 | Some _ => false
                 end)
              (worker_names 0 (stages (snd x)))
  | _ :: _ => false
  end.

Lemma steps_run root (l : list (nat * nat)) : forall x,
  rtc (pipeline_run root) x (foldl step_if_able x l).
Proof.
  induction l as [|si l IH]; intros x; simpl; [apply rtc_refl|].
  eapply rtc_trans; [|apply IH].
  unfold step_if_able. destruct x as [pend w]. simpl.
  destruct (process_step si.1 si.2 w) as [w1|] eqn:Hstep; [|apply rtc_refl].
  apply rtc_once. by eapply pipe_work.
Qed.

Lemma round_run root x : rtc (pipeline_run root) x (one_round root x).
Proof.
  unfold one_round. eapply rtc_trans; [|apply steps_run].
  destruct x as [[|task pend] w]; simpl; [apply rtc_refl|].
  destruct (Stage_put root task w) as [w1|] eqn:Hput; [|apply rtc_refl].
  apply rtc_once. by apply pipe_put.
Qed.

Lemma drive_run root rounds : forall x, rtc (pipeline_run root) x (drive root rounds x).
Proof.
  induction rounds as [|rounds IH]; intros x; simpl; [apply rtc_refl|].
  eapply rtc_trans; [apply round_run|apply IH].
Qed.

Lemma worker_names_spec (sts : list (Stage V)) : forall j s st i,
  sts !! s = Some st -> (i < length (workers st))%nat ->
  ((j + s)%nat, i) ∈ worker_names j sts.
Proof.
  induction sts as [|st0 sts IH]; intros j s st i Hs Hi; [done|].
  simpl. apply elem_of_app. destruct s as [|s]; simpl in Hs.
  - injection Hs as ->. left. rewrite Nat.add_0_r.
    apply list_elem_of_fmap. exists i. split; [done|].
    apply elem_of_seq. lia.
  - right. replace (j + S s)%nat with (S j + s)%nat by lia. by eapply IH.
Qed.

Lemma halted_nf root x : halted x = true -> nf (pipeline_run root) x.
Proof.
  unfold halted. intros Hh [y Hy].
  destruct Hy as [task pend w w' Hput|s i pend w w' Hstep]; simpl in Hh; [done|].
  destruct pend; [|done].
  destruct (process_step_inv s i w w' Hstep) as (st & wk & _ & _ & _ & Hst & Hwk & _).
  apply lookup_lt_Some in Hwk.
  pose proof (worker_names_spec (stages w) 0 s st i Hst Hwk) as Hin. simpl in Hin.
  rewrite forallb_forall in Hh. apply list_elem_of_In in Hin.
  specialize (Hh _ Hin). simpl in Hh. by rewrite Hstep in Hh.
Qed.

Lemma drive_reaches root rounds x :
  rtc (pipeline_run root) x (fst (drive root rounds x), snd (drive root rounds x)).
Proof. rewrite <- surjective_pairing. apply drive_run. Qed.

Lemma drive_halts root rounds x :
  halted (drive root rounds x) = true ->
  nf (pipeline_run root) (fst (drive root rounds x), snd (drive root rounds x)).
Proof. rewrite <- surjective_pairing. apply halted_nf. Qed.

End Driver.



(** *** The properties of pipelines at concrete pipelines *)

(** The tree of [mixed_tree] fed with 1, 2, 3: the state after two rounds,
    the state after twelve rounds and the state at the end. *)
Definition mixed_tree_start : list (payload Z) * World Z := (script [1; 2; 3], mixed_tree).

Definition mixed_tree_early : list (payload Z) * World Z := drive 0 2 mixed_tree_start.

Definition mixed_tree_midway : list (payload Z) * World Z := drive 0 12 mixed_tree_start.

Definition mixed_tree_end : list (payload Z) * World Z := drive 0 40 mixed_tree_start.

Lemma mixed_tree_end_halted : nf (pipeline_run 0) (fst mixed_tree_end, snd mixed_tree_end).
Proof. apply drive_halts. vm_compute. reflexivity. Qed.

Lemma pipeline_drains_witness :
  exists st,
    stages mixed_tree !! 1%nat = Some st /\
    _input_tube st = 1%nat /\ _output_tubes st = [3%nat] /\ _next_stages st = [] /\
    content_of (snd mixed_tree_end) 1 = [] /\
    forall u t, _output_tubes st !! u = Some t -> _next_stages st !! u = None ->
      exists ys, content_of (snd mixed_tree_end) t = feed ys true /\ length ys = 3%nat.
Proof.
  eexists. split; [vm_compute; reflexivity|]. split; [reflexivity|].
  split; [reflexivity|]. split; [reflexivity|].
  match goal with
  | |- context [_output_tubes ?st !! _] =>
      apply (pipeline_drains 0 mixed_tree mixed_tree_rank [1; 2; 3]
               (fst mixed_tree_end) (snd mixed_tree_end) 1 st)
  end.
  - exact mixed_tree_built.
  - apply drive_reaches.
  - exact mixed_tree_end_halted.
  - vm_compute. reflexivity.
Defined.

Lemma mixed_tree_composes : composes 0 mixed_tree 2 (fun x => x * x).
Proof.
  eapply (composes_next 0 mixed_tree 0 _ 2 (fun x => x)).
  - apply composes_root.
  - vm_compute. reflexivity.
  - reflexivity.
  - simpl. apply elem_of_cons. right. by left.
  - intros x. reflexivity.
Qed.

Lemma ordered_path_composes_witness :
  exists st,
    stages mixed_tree !! 2%nat = Some st /\
    content_of (snd mixed_tree_end) 4
    = expected (doTask (_worker_class st)) ((fun x => x * x) <$> [1; 2; 3]) /\
    content_of (snd mixed_tree_end) 4 = [(Some 1, 0); (Some 16, 0); (Some 81, 0); (None, 0)].
Proof.
  eexists. split; [vm_compute; reflexivity|]. split; [|vm_compute; reflexivity].
  match goal with
  | |- context [_worker_class ?st] =>
      apply (ordered_path_composes 0 mixed_tree mixed_tree_rank [1; 2; 3]
               (fst mixed_tree_end) (snd mixed_tree_end) 2 st (fun x => x * x) 0 4)
  end.
  - exact mixed_tree_built.
  - apply drive_reaches.
  - exact mixed_tree_end_halted.
  - exact mixed_tree_composes.
  - vm_compute. reflexivity.
  - reflexivity.
  - reflexivity.
  - reflexivity.
Defined.

Lemma ordered_path_streams_witness :
  exists st,
    stages mixed_tree !! 2%nat = Some st /\
    content_of (snd mixed_tree_midway) 4 = [(Some 1, 0)] /\
    content_of (snd mixed_tree_midway) 4
    `prefix_of` expected (doTask (_worker_class st)) ((fun x => x * x) <$> [1; 2; 3]).
Proof.
  eexists. split; [vm_compute; reflexivity|]. split; [vm_compute; reflexivity|].
  match goal with
  | |- context [_worker_class ?st] =>
      apply (ordered_path_streams 0 mixed_tree mixed_tree_rank [1; 2; 3]
               (fst mixed_tree_midway) (snd mixed_tree_midway) 2 st (fun x => x * x) 0 4)
  end.
  - exact mixed_tree_built.
  - apply drive_reaches.
  - exact mixed_tree_composes.
  - vm_compute. reflexivity.
  - reflexivity.
  - reflexivity.
  - reflexivity.
Defined.

Lemma pipeline_never_crashes_witness :
  exists st wk,
    stages (snd mixed_tree_early) !! 0%nat = Some st /\
    workers st !! 0%nat = Some wk /\
    at_pc wk = AtReleaseInput (Some 1, 0) /\
    (forall e, at_pc wk ≠ Crashed e) /\ ~ lock_raises (locks st) wk.
Proof.
  eexists. eexists. split; [vm_compute; reflexivity|]. split; [vm_compute; reflexivity|].
  split; [reflexivity|].
  match goal with
  | |- _ /\ ~ lock_raises (locks ?st) ?wk =>
      apply (pipeline_never_crashes 0 mixed_tree mixed_tree_rank [1; 2; 3]
               (fst mixed_tree_early) (snd mixed_tree_early) 0 st 0 wk)
  end.
  - exact mixed_tree_built.
  - apply drive_reaches.
  - vm_compute. reflexivity.
  - vm_compute. reflexivity.
Defined.

Lemma ordered_stage_turns_witness :
  exists st,
    stages mixed_tree !! 0%nat = Some st /\
    base (_worker_class st) = OrderedWorker /\
    places (snd mixed_tree_early) 0 = [AtReleaseInput (Some 1, 0); AtAcquireInput] /\
    (reading (AtReleaseInput (V:=Z) (Some 1, 0)) = true ->
     reading (AtAcquireInput (V:=Z)) = true -> 0%nat = 1%nat) /\
    (publishing (AtReleaseInput (V:=Z) (Some 1, 0)) = true ->
     publishing (AtAcquireInput (V:=Z)) = true -> 0%nat = 1%nat).
Proof.
  eexists. split; [vm_compute; reflexivity|]. split; [reflexivity|].
  split; [vm_compute; reflexivity|].
  refine (ordered_stage_turns 0 mixed_tree mixed_tree_rank [1; 2; 3]
            (fst mixed_tree_early) (snd mixed_tree_early) 0 _ 0 1
            (AtReleaseInput (Some 1, 0)) AtAcquireInput
            mixed_tree_built (drive_reaches 0 2 mixed_tree_start) _ _ _ _).
  - vm_compute. reflexivity.
  - reflexivity.
  - vm_compute. reflexivity.
  - vm_compute. reflexivity.
Defined.

Lemma results_compose_witness :
  exists st,
    stages mixed_tree !! 2%nat = Some st /\
    getLeaves 2 mixed_tree 0 = Some [1; 2]%nat /\
    exists ys w',
      Pipeline_results (S (length [1; 2; 3]))
        {| _input_stage := 0; _output_stages := [1; 2]%nat |} (snd mixed_tree_end)
      = Some (Returns (ys, w')) /\
      Some <$> ys = (fun x => doTask (_worker_class st) (x * x)) <$> [1; 2; 3].
Proof.
  eexists. split; [vm_compute; reflexivity|]. split; [vm_compute; reflexivity|].
  match goal with
  | |- context [_worker_class ?st] =>
      apply (results_compose 0 mixed_tree mixed_tree_rank [1; 2; 3] 2 [1; 2]%nat 2 st
               (fun x => x * x) (fst mixed_tree_end) (snd mixed_tree_end))
  end.
  - exact mixed_tree_built.
  - vm_compute. reflexivity.
  - reflexivity.
  - exact mixed_tree_composes.
  - vm_compute. reflexivity.
  - reflexivity.
  - apply drive_reaches.
  - exact mixed_tree_end_halted.
Defined.


(** What a constructor of a pipeline has returned. *)
Definition built_pipeline {V} (r : option (Pipeline * World V)) : Pipeline :=
  default {| _input_stage := 0; _output_stages := [] |} (fst <$> r).

Definition built_world {V} (r : option (Pipeline * World V)) : World V :=
  default empty_world (snd <$> r).

(** [Pipeline(UnorderedStage(square, 2))]. *)
Definition unordered_pair : option (Pipeline * World Z) := single (unordered_class square) 2.

Lemma unordered_stage_keeps_results_witness :
  exists st,
    stages (built_world unordered_pair) !! 0%nat = Some st /\
    _size st = 2 /\
    _output_tubes st = [1%nat] /\
    sn (stage_run 0) (script [1; 2; 3], built_world unordered_pair) /\
    forall pend w,
      rtc (stage_run 0) (script [1; 2; 3], built_world unordered_pair) (pend, w) ->
      (forall t, t ∈ _output_tubes st ->
         exists ys b, content_of w t = feed ys b /\ Some <$> ys ⊆+ square <$> [1; 2; 3]) /\
      (nf (stage_run 0) (pend, w) ->
         pend = [] /\
         places w 0 = replicate (Z.to_nat (_size st)) Exited /\
         forall t, t ∈ _output_tubes st ->
           exists ys, content_of w t = feed ys true /\ Some <$> ys ≡ₚ square <$> [1; 2; 3]).
Proof.
  eexists. split; [vm_compute; reflexivity|]. split; [reflexivity|].
  split; [reflexivity|].
  match goal with
  | |- context [_output_tubes ?st] =>
      apply (unordered_stage_keeps_results square [1; 2; 3] (built_world unordered_pair) 0 st)
  end.
  - vm_compute; reflexivity.
  - reflexivity.
  - vm_compute. discriminate.
  - vm_compute; reflexivity.
  - vm_compute. apply NoDup_cons. split; [|apply NoDup_singleton].
    intros H. apply list_elem_of_singleton in H. discriminate.
  - intros t Ht. vm_compute in Ht.
    apply elem_of_cons in Ht as [->|Ht]; [split; [vm_compute; lia|reflexivity]|].
    apply list_elem_of_singleton in Ht as ->. split; [vm_compute; lia|reflexivity].
  - intros x. unfold square. eexists. reflexivity.
Defined.

(** Two stages, each linked to the other. *)
Definition looped : World Z :=
  match OrderedStage_init square 1 empty_world with
  | Returns (a, w) =>
      match OrderedStage_init square 1 w with
      | Returns (b, w) =>
          match link a b w with
          | Returns w =>
              match link b a w with
              | Returns w => w
              | _ => empty_world
              end
          | _ => empty_world
          end
      | _ => empty_world
      end
  | _ => empty_world
  end.

Lemma looped_endless : endless looped 0.
Proof.
  exists 0%nat. split; [apply rtc_refl|].
  apply (tc_l _ 0%nat 1%nat 0%nat).
  - eexists. split; [vm_compute; reflexivity|]. by left.
  - apply tc_once. eexists. split; [vm_compute; reflexivity|]. by left.
Qed.

Lemma cycle_never_builds_witness :
  endless looped 0 /\
  getLeaves 50 looped 0 = None /\ build 50 looped 0 = None /\
  Pipeline_init 50 0 looped = None.
Proof.
  split; [exact looped_endless|].
  apply (cycle_never_builds looped 0 50). exact looped_endless.
Defined.

(** A stage of one ordered worker that feeds two stages, the first of the
    class [first] and the second of the class [second]; the task 3 is put
    and the worker of the root runs until it has put the result on its first
    output tube. *)
Definition forked (first second : worker_base) : World Z :=
  match OrderedStage_init square 1 empty_world with
  | Returns (a, w) =>
      match Stage_init {| base := first; doTask := square |} 1 w with
      | Returns (b, w) =>
          match Stage_init {| base := second; doTask := square |} 1 w with
          | Returns (c, w) =>
              match link a b w with
              | Returns w =>
                  match link a c w with
                  | Returns w => default w (snd <$> Pipeline_init 2 a w)
                  | _ => empty_world
                  end
              | _ => empty_world
              end
          | _ => empty_world
          end
      | _ => empty_world
      end
  | _ => empty_world
  end.

Definition forked_fed (first second : worker_base) : World Z :=
  snd (default ([], empty_world)
         (play 0 (ProducerPuts :: replicate 6 (WorkerSteps 0 0))
               (script [3], forked first second))).

Lemma Stage_get_first_empty_witness :
  exists st tb,
    stages (forked_fed OrderedWorker UnorderedWorker) !! 0%nat = Some st /\
    _output_tubes st = [1%nat] ++ 2%nat :: [] /\
    content_of (forked_fed OrderedWorker UnorderedWorker) 1 = [(Some 9, 0)] /\
    tubes (forked_fed OrderedWorker UnorderedWorker) !! 2%nat = Some tb /\
    content tb = [] /\ tube_cls tb = TubeQ /\
    Stage_get 0 None (forked_fed OrderedWorker UnorderedWorker) = Blocks /\
    Stage_get 0 (Some 5) (forked_fed OrderedWorker UnorderedWorker) = Raises AttributeError.
Proof.
  eexists. eexists. split; [vm_compute; reflexivity|]. split; [reflexivity|].
  split; [vm_compute; reflexivity|]. split; [vm_compute; reflexivity|].
  split; [reflexivity|]. split; [reflexivity|].
  assert (Hnd : NoDup ([1%nat] ++ [2%nat])).
  { apply (bool_decide_unpack _). vm_compute. exact I. }
  assert (Hav : forall t', t' ∈ [1%nat] ->
            available (tubes (forked_fed OrderedWorker UnorderedWorker)) t').
  { intros t' Ht'. apply list_elem_of_singleton in Ht' as ->.
    eexists _, _, _. split; vm_compute; reflexivity. }
  split.
  - eapply (Stage_get_first_empty (forked_fed OrderedWorker UnorderedWorker) 0 _ None
              [1%nat] 2 [] {| tube_cls := TubeQ; content := [] |});
      [vm_compute; reflexivity|reflexivity|exact Hnd|exact Hav|vm_compute; reflexivity|
       reflexivity|reflexivity].
  - eapply (Stage_get_first_empty (forked_fed OrderedWorker UnorderedWorker) 0 _ (Some 5)
              [1%nat] 2 [] {| tube_cls := TubeQ; content := [] |});
      [vm_compute; reflexivity|reflexivity|exact Hnd|exact Hav|vm_compute; reflexivity|
       reflexivity|reflexivity|reflexivity].
Defined.

Lemma Stage_get_expiry_drops_witness :
  content_of (forked_fed UnorderedWorker OrderedWorker) 1 = [(Some 9, 0)] /\
  exists w',
    Stage_get 0 (Some 5) (forked_fed UnorderedWorker OrderedWorker)
    = Returns (Pair false None, w') /\
    stages w' = stages (forked_fed UnorderedWorker OrderedWorker) /\
    forall t', tubes w' !! t'
               = after_take (tubes (forked_fed UnorderedWorker OrderedWorker)) [1%nat] t'.
Proof.
  split; [vm_compute; reflexivity|].
  eapply (Stage_get_expiry_drops (forked_fed UnorderedWorker OrderedWorker) 0 _ 5
            [1%nat] 2 {| tube_cls := TubeP; content := [] |}).
  - vm_compute; reflexivity.
  - reflexivity.
  - apply (bool_decide_unpack _). vm_compute. exact I.
  - intros t' Ht'. apply list_elem_of_singleton in Ht' as ->.
    eexists _, _, _. split; vm_compute; reflexivity.
  - vm_compute; reflexivity.
  - reflexivity.
  - reflexivity.
  - lia.
Defined.

(** [Pipeline(OrderedStage(square, 3))] and the end of a run on 1, 2, 3. *)
Definition squarers : option (Pipeline * World Z) := single (ordered_class square) 3.

Definition squarers_end : list (payload Z) * World Z :=
  drive 0 40 (script [1; 2; 3], built_world squarers).

Lemma ordered_pipeline_results_witness :
  sn (pipeline_run 0) (script [1; 2; 3], built_world squarers) /\
  exists ys w',
    Pipeline_results 4 (built_pipeline squarers) (snd squarers_end) = Some (Returns (ys, w')) /\
    Some <$> ys = square <$> [1; 2; 3].
Proof.
  destruct (ordered_pipeline_results square 3 [1; 2; 3]
              (built_pipeline squarers) (built_world squarers)) as [Hsn Hend].
  - vm_compute; reflexivity.
  - lia.
  - intros x. unfold square. eexists. reflexivity.
  - split; [exact Hsn|]. apply (Hend (fst squarers_end) (snd squarers_end)).
    + apply drive_reaches.
    + apply drive_halts. vm_compute. reflexivity.
Defined.

(** The same with an unordered stage. *)
Definition unordered_pair_end : list (payload Z) * World Z :=
  drive 0 40 (script [1; 2; 3], built_world unordered_pair).

Lemma unordered_pipeline_results_witness :
  sn (pipeline_run 0) (script [1; 2; 3], built_world unordered_pair) /\
  exists ys w',
    Pipeline_results 4 (built_pipeline unordered_pair) (snd unordered_pair_end)
    = Some (Returns (ys, w')) /\
    Some <$> ys ≡ₚ square <$> [1; 2; 3].
Proof.
  destruct (unordered_pipeline_results square 2 [1; 2; 3]
              (built_pipeline unordered_pair) (built_world unordered_pair)) as [Hsn Hend].
  - vm_compute; reflexivity.
  - lia.
  - intros x. unfold square. eexists. reflexivity.
  - split; [exact Hsn|]. apply (Hend (fst unordered_pair_end) (snd unordered_pair_end)).
    + apply drive_reaches.
    + apply drive_halts. vm_compute. reflexivity.
Defined.

(** Two ordered stages in a row: the first adds one, the second doubles. *)
Definition increment (x : Z) : payload Z := Some (x + 1).

Definition double (x : Z) : payload Z := Some (x * 2).

Definition increment_double : option (Pipeline * World Z) :=
  chain (ordered_class increment) 2 (ordered_class double) 2.

Definition increment_double_end : list (payload Z) * World Z :=
  drive 0 60 (script [1; 2; 3], built_world increment_double).

Lemma chain_results_witness :
  sn (pipeline_run 0) (script [1; 2; 3], built_world increment_double) /\
  exists ys w',
    Pipeline_results 4 (built_pipeline increment_double) (snd increment_double_end)
    = Some (Returns (ys, w')) /\
    Some <$> ys = [Some 4; Some 6; Some 8].
Proof.
  destruct (chain_results increment double 2 2 [1; 2; 3]
              (built_pipeline increment_double) (built_world increment_double))
    as [Hsn Hend].
  - vm_compute; reflexivity.
  - lia.
  - lia.
  - intros x. unfold increment. eexists. reflexivity.
  - intros x. unfold double. eexists. reflexivity.
  - split; [exact Hsn|].
    apply (Hend (fst increment_double_end) (snd increment_double_end)).
    + apply drive_reaches.
    + apply drive_halts. vm_compute. reflexivity.
Defined.

Lemma assemble_links_ring_witness :
  exists ws ls,
    assemble (ordered_class square) 0 [1%nat] 3 [] = (ws, ls) /\
    ls = [false; false; true; true; true; true] /\
    length ws = Z.to_nat 3 /\ length ls = (2 * Z.to_nat 3)%nat /\
    forall i wk, ws !! i = Some wk ->
      exists next li lo,
        ws !! ((i + 1) mod Z.to_nat 3)%nat = Some next /\
        _lock_prev_input wk = Some li /\ _lock_prev_output wk = Some lo /\
        _lock_next_input wk = _lock_prev_input next /\
        _lock_next_output wk = _lock_prev_output next /\
        li ≠ lo /\
        ls !! li = Some (negb (bool_decide (i = 0%nat))) /\
        ls !! lo = Some (negb (bool_decide (i = 0%nat))) /\
        forall j wk', ws !! j = Some wk' -> j ≠ i ->
          _lock_prev_input wk' ≠ Some li /\ _lock_prev_input wk' ≠ Some lo /\
          _lock_prev_output wk' ≠ Some li /\ _lock_prev_output wk' ≠ Some lo.
Proof.
  eexists. eexists. split; [vm_compute; reflexivity|]. split; [reflexivity|].
  match goal with
  | |- length ?ws = _ /\ length ?ls = _ /\ _ =>
      apply (assemble_links_ring (ordered_class square) 0 [1%nat] 3 ws ls)
  end.
  - reflexivity.
  - lia.
  - vm_compute; reflexivity.
Defined.

(** [Pipeline(OrderedStage(square, 0))], and what it has come to after the
    tasks 1, 2 and the stop request were put. *)
Definition idle_pool : option (Pipeline * World Z) := single (ordered_class square) 0.

Definition idle_pool_end : list (payload Z) * World Z :=
  drive 0 5 (script [1; 2], built_world idle_pool).

Lemma empty_pool_answers_nothing_witness :
  fst idle_pool_end = [] /\
  content_of (snd idle_pool_end) 0 = [(Some 1, 0); (Some 2, 0); (None, 0)] /\
  places (snd idle_pool_end) (_input_stage (built_pipeline idle_pool)) = [] /\
  content_of (snd idle_pool_end) 0 ++ sent (fst idle_pool_end) = sent (script [1; 2]) /\
  content_of (snd idle_pool_end) 1 = [] /\
  forall fuel,
    Pipeline_results (S fuel) (built_pipeline idle_pool) (snd idle_pool_end) = Some Blocks.
Proof.
  split; [vm_compute; reflexivity|]. split; [vm_compute; reflexivity|].
  apply (empty_pool_answers_nothing (ordered_class square) 0 [1; 2]
           (built_pipeline idle_pool) (built_world idle_pool)
           (fst idle_pool_end) (snd idle_pool_end)).
  - vm_compute; reflexivity.
  - lia.
  - apply drive_reaches.
Defined.

(** ** An ordered stage whose transform returns no result *)

(** C1 (as stated, refuted).  An ordered stage of two workers whose
    transform returns None for the task 1; its input tube is fed 1, 2 and
    the stop request.  The stage is as [build] leaves it, with distinct and
    empty tubes.  The worker 0 takes the task 1 and, having no result,
    publishes nothing and does not hand on the output lock; the worker 1
    takes the task 2 and waits for that lock for ever; the worker 0 exits on
    the stop request.  The run has then come to its end: nothing can move,
    the worker 1 has not exited, and the output tube holds neither the
    result 4 of the task 2 nor the stop request. *)
Lemma none_result_wedges_ordered_stage :
  exists st,
    stages (single_ordered square_but_one 2) !! 0%nat = Some st /\
    _worker_class st = ordered_class square_but_one /\
    _size st = 2 /\
    _input_tube st = 0%nat /\
    _output_tubes st = [1%nat] /\
    (workers st, locks st)
    = assemble (_worker_class st) (_input_tube st) (_output_tubes st) (_size st) [] /\
    content_of (single_ordered square_but_one 2) 0 = [] /\
    content_of (single_ordered square_but_one 2) 1 = [] /\
    rtc (stage_run 0) (script [1; 2], single_ordered square_but_one 2) wedged /\
    nf (stage_run 0) wedged /\
    fst wedged = [] /\
    places (snd wedged) 0 = [Exited; AtAcquireOutput 4] /\
    content_of (snd wedged) 1 = [] /\
    expected square_but_one [1; 2] = [(None, 0); (Some 4, 0); (None, 0)].
Proof.
  eexists. split; [vm_compute; reflexivity|].
  split; [reflexivity|]. split; [reflexivity|]. split; [reflexivity|].
  split; [reflexivity|]. split; [vm_compute; reflexivity|].
  split; [vm_compute; reflexivity|]. split; [vm_compute; reflexivity|].
  split.
  { apply lone_stage_reach; [vm_compute; reflexivity|].
    apply (play_run 0 wedge_schedule). vm_compute. reflexivity. }
  split.
  { intros [y Hy]. remember wedged as x eqn:Hx.
    destruct Hy as [task pend w w' H|i pend w w' H].
    - vm_compute in Hx. discriminate.
    - assert (Hw : w = snd wedged) by (by rewrite <- Hx). subst w. clear Hx.
      destruct i as [|[|i]]; vm_compute in H; discriminate. }
  split; [vm_compute; reflexivity|]. split; [vm_compute; reflexivity|].
  split; vm_compute; reflexivity.
Qed.
